(** * A shallow embedding of the amcw Cassowary solver (am_cassowary.h)

    The solver is a single C header.  This development transcribes its
    data structures and functions into Gallina and states properties of
    the transcription.

    Conventions of the embedding.
    - [amcw_Num] is C [double]; it is modelled by Rocq's primitive binary64
      floats, so every arithmetic operation and comparison rounds and
      compares as the C code does.
    - Unsigned counters are [Z] with their wrap-around written out.
    - A pointer to an entry of a hash table is the index of the slot in
      the table's slot array; the [next] field of an entry and [lastfree]
      are counted in slots rather than in bytes.
    - [amcw_Var*] and [amcw_Constraint*] handles are the id under which the
      object is registered in the solver ([None] is the NULL pointer); the
      object itself is stored as the payload of its table entry.  One
      solver is modelled, so the [solver] back pointers are left out.
    - A failed [assert], a NULL dereference or an access outside a slot
      array is [Abort]; a loop of the model that exhausts its bound is
      [Timeout]. *)

From Stdlib Require Import ZArith Floats.
From stdpp Require Import base tactics option list numbers.

Set Warnings "-inexact-float".
#[local] Open Scope Z_scope.

(** ** Results of partial computations *)

Inductive res (A : Type) : Type :=
| Done (a : A)
| Abort
| Timeout.
Arguments Done {A} a.
Arguments Abort {A}.
Arguments Timeout {A}.

#[global] Instance res_ret : MRet res := @Done.
#[global] Instance res_bind : MBind res := λ A B f m,
  match m with
  | Done a => f a
  | Abort => Abort
  | Timeout => Timeout
  end.

Definition c_assert (b : bool) : res unit :=
  if b then Done tt else Abort.

Definition wrap32 (z : Z) : Z := z mod 2 ^ 32.
Definition wrap64 (z : Z) : Z := z mod 2 ^ 64.

(** ** Constants *)

Definition AMCW_OK : Z := 0.
Definition AMCW_FAILED : Z := -1.
Definition AMCW_UNSATISFIED : Z := -2.
Definition AMCW_UNBOUND : Z := -3.

Definition AMCW_LESSEQUAL : Z := 1.
Definition AMCW_EQUAL : Z := 2.
Definition AMCW_GREATEQUAL : Z := 3.

(** [typedef double amcw_Num;] *)
Abbreviation amcw_Num := float (only parsing).

Definition AMCW_REQUIRED : amcw_Num := 1000000000%float.
Definition AMCW_STRONG : amcw_Num := 1000000%float.
Definition AMCW_MEDIUM : amcw_Num := 1000%float.
Definition AMCW_WEAK : amcw_Num := 1%float.

Definition AMCW_EXTERNAL : Z := 0.
Definition AMCW_SLACK : Z := 1.
Definition AMCW_ERROR : Z := 2.
Definition AMCW_DUMMY : Z := 3.

Definition AMCW_MIN_HASHSIZE : Z := 4.
Definition AMCW_MAX_SIZET : Z := 2 ^ 64 - 1 - 100.

Definition AMCW_NUM_MAX : amcw_Num := 0x1.fffffffffffffp+1023%float.
Definition AMCW_NUM_EPS : amcw_Num := 1e-6%float.

(** ** Symbols *)

Record amcw_Symbol : Set := mkSym { sym_id : Z; sym_type : Z }.

#[global] Instance amcw_Symbol_eq_dec : EqDecision amcw_Symbol.
Proof. solve_decision. Defined.

Definition amcw_isexternal (key : amcw_Symbol) : bool := sym_type key =? AMCW_EXTERNAL.
Definition amcw_isslack (key : amcw_Symbol) : bool := sym_type key =? AMCW_SLACK.
Definition amcw_iserror (key : amcw_Symbol) : bool := sym_type key =? AMCW_ERROR.
Definition amcw_isdummy (key : amcw_Symbol) : bool := sym_type key =? AMCW_DUMMY.
Definition amcw_ispivotable (key : amcw_Symbol) : bool :=
  amcw_isslack key || amcw_iserror key.

Definition amcw_approx (a b : amcw_Num) : bool :=
  if (b <? a)%float then (a - b <? AMCW_NUM_EPS)%float
  else (b - a <? AMCW_NUM_EPS)%float.

Definition amcw_nearzero (a : amcw_Num) : bool := amcw_approx a 0%float.

Definition amcw_null : amcw_Symbol := mkSym 0 0.

(** ** Hash table *)

(** Payloads are created by [memset(.., 0, ..)]. *)
Class Zeroed (A : Type) : Type := zeroed : A.

#[global] Instance float_zeroed : Zeroed amcw_Num := 0%float.
#[global] Instance option_zeroed {A} : Zeroed (option A) := None.

Record amcw_Entry (A : Type) : Type := mkEntry {
  e_next : Z;
  e_key : amcw_Symbol;
  e_val : A
}.
Arguments mkEntry {A} _ _ _.
Arguments e_next {A} _.
Arguments e_key {A} _.
Arguments e_val {A} _.

Record amcw_Table (A : Type) : Type := mkTable {
  t_count : Z;
  t_entry_size : Z;
  t_lastfree : nat;
  t_hash : list (amcw_Entry A)
}.
Arguments mkTable {A} _ _ _ _.
Arguments t_count {A} _.
Arguments t_entry_size {A} _.
Arguments t_lastfree {A} _.
Arguments t_hash {A} _.

(** [sizeof] of the entry types on an LP64 target. *)
Definition sizeof_Entry : Z := 8.
Definition sizeof_Term : Z := 16.
Definition sizeof_VarEntry : Z := 16.
Definition sizeof_ConsEntry : Z := 16.
Definition sizeof_Row : Z := 64.

Section Table.
Context {A : Type} `{!Zeroed A}.

Definition t_size (t : amcw_Table A) : nat := length (t_hash t).

Definition set_hash (t : amcw_Table A) (h : list (amcw_Entry A)) : amcw_Table A :=
  mkTable (t_count t) (t_entry_size t) (t_lastfree t) h.
Definition set_count (t : amcw_Table A) (c : Z) : amcw_Table A :=
  mkTable c (t_entry_size t) (t_lastfree t) (t_hash t).
Definition set_lastfree (t : amcw_Table A) (l : nat) : amcw_Table A :=
  mkTable (t_count t) (t_entry_size t) l (t_hash t).

Definition set_next (n : Z) (e : amcw_Entry A) : amcw_Entry A :=
  mkEntry n (e_key e) (e_val e).
Definition set_key (k : amcw_Symbol) (e : amcw_Entry A) : amcw_Entry A :=
  mkEntry (e_next e) k (e_val e).
Definition set_val (v : A) (e : amcw_Entry A) : amcw_Entry A :=
  mkEntry (e_next e) (e_key e) v.

Definition zero_entry : amcw_Entry A := mkEntry 0 amcw_null zeroed.

(** Dereference of an entry pointer. *)
Definition entry_at (t : amcw_Table A) (e : nat) : res (amcw_Entry A) :=
  match t_hash t !! e with
  | Some ent => Done ent
  | None => Abort
  end.

(** Store through an entry pointer. *)
Definition alter_entry (f : amcw_Entry A → amcw_Entry A) (e : nat)
    (t : amcw_Table A) : amcw_Table A :=
  set_hash t (alter f e (t_hash t)).

(** [amcw_index(e, off)]: the slot [off] slots after [e]. *)
Definition amcw_index (e : nat) (off : Z) : res nat :=
  let i := Z.of_nat e + off in
  if 0 <=? i then Done (Z.to_nat i) else Abort.

(** [amcw_offset(lhs, rhs)] *)
Definition amcw_offset (lhs rhs : nat) : Z := Z.of_nat lhs - Z.of_nat rhs.

Definition amcw_delkey (t : amcw_Table A) (entry : nat) : amcw_Table A :=
  set_count (alter_entry (set_key amcw_null) entry t) (wrap64 (t_count t - 1)).

Definition amcw_inittable (entry_size : Z) : amcw_Table A :=
  mkTable 0 entry_size 0 [].

Definition amcw_mainposition (t : amcw_Table A) (key : amcw_Symbol) : nat :=
  Z.to_nat (Z.land (sym_id key) (Z.of_nat (t_size t) - 1)).

Definition amcw_resettable (t : amcw_Table A) : amcw_Table A :=
  mkTable 0 (t_entry_size t) (t_size t) (replicate (t_size t) zero_entry).

Fixpoint hashsize_loop (fuel : nat) (newsize max_size len : Z) : Z :=
  match fuel with
  | O => newsize
  | S fuel' =>
      if (newsize <? max_size) && (newsize <? len)
      then hashsize_loop fuel' (wrap64 (Z.shiftl newsize 1)) max_size len
      else newsize
  end.

Definition amcw_hashsize (t : amcw_Table A) (len : Z) : Z :=
  let max_size := (AMCW_MAX_SIZET / 2) / t_entry_size t in
  let newsize := hashsize_loop 64 AMCW_MIN_HASHSIZE max_size len in
  if newsize <? len then 0 else newsize.

Definition amcw_freetable (t : amcw_Table A) : amcw_Table A :=
  amcw_inittable (t_entry_size t).

(** The [while (t->lastfree > 0)] scan of [amcw_newkey]: the new value of
    [lastfree] and the free slot found, if any. *)
Fixpoint find_free (h : list (amcw_Entry A)) (lastfree : nat) : res (nat * option nat) :=
  match lastfree with
  | O => Done (O, None)
  | S l =>
      match h !! l with
      | None => Abort
      | Some e =>
          if (sym_id (e_key e) =? 0) && (e_next e =? 0) then Done (l, Some l)
          else find_free h l
      end
  end.

(** The [while ((next = amcw_index(othern, othern->next)) != mp)] walk. *)
Fixpoint find_prev (fuel : nat) (h : list (amcw_Entry A)) (othern mp : nat) : res nat :=
  match fuel with
  | O => Timeout
  | S fuel' =>
      match h !! othern with
      | None => Abort
      | Some o =>
          nxt ← amcw_index othern (e_next o);
          if decide (nxt = mp) then Done othern else find_prev fuel' h nxt mp
      end
  end.

(** Rehash of the old slots into [nt] with a given [amcw_newkey]. *)
Fixpoint rehash (newkey : amcw_Table A → amcw_Symbol → res (nat * amcw_Table A))
    (old : list (amcw_Entry A)) (nt : amcw_Table A) : res (amcw_Table A) :=
  match old with
  | [] => Done nt
  | e :: old' =>
      if sym_id (e_key e) =? 0 then rehash newkey old' nt
      else
        '(ne, nt1) ← newkey nt (e_key e);
        let nt2 :=
          if sizeof_Entry <? t_entry_size nt1
          then alter_entry (set_val (e_val e)) ne nt1 else nt1 in
        rehash newkey old' nt2
  end.

Definition amcw_resizetable
    (newkey : amcw_Table A → amcw_Symbol → res (nat * amcw_Table A))
    (t : amcw_Table A) (len : Z) : res (amcw_Table A) :=
  let nsize := Z.to_nat (amcw_hashsize t len) in
  let nt := mkTable (t_count t) (t_entry_size t) nsize (replicate nsize zero_entry) in
  rehash newkey (t_hash t) nt.

(** The [for (;;)] loop of [amcw_newkey]; [n] bounds its iterations. *)
Fixpoint newkey_loop
    (newkey : amcw_Table A → amcw_Symbol → res (nat * amcw_Table A))
    (n : nat) (t : amcw_Table A) (key : amcw_Symbol) : res (nat * amcw_Table A) :=
  match n with
  | O => Timeout
  | S n' =>
      let mp := amcw_mainposition t key in
      mpe ← entry_at t mp;
      if negb (sym_id (e_key mpe) =? 0) then
        '(lf, f) ← find_free (t_hash t) (t_lastfree t);
        let t := set_lastfree t lf in
        match f with
        | None =>
            t' ← amcw_resizetable newkey t (wrap64 (t_count t * 2));
            newkey_loop newkey n' t' key
        | Some f =>
            fe ← entry_at t f;
            _ ← c_assert (sym_id (e_key fe) =? 0);
            let othern := amcw_mainposition t (e_key mpe) in
            if negb (bool_decide (othern = mp)) then
              othern ← find_prev (t_size t) (t_hash t) othern mp;
              let t := alter_entry (set_next (amcw_offset f othern)) othern t in
              mpe ← entry_at t mp;
              let t := alter_entry (λ _, mpe) f t in
              let t :=
                if negb (e_next mpe =? 0) then
                  alter_entry (set_next 0) mp
                    (alter_entry (set_next (e_next mpe + amcw_offset mp f)) f t)
                else t in
              Done (mp, alter_entry (set_key key) mp t)
            else
              _ ← (if negb (e_next mpe =? 0) then Done tt
                   else c_assert (e_next fe =? 0));
              let t :=
                if negb (e_next mpe =? 0)
                then alter_entry (set_next (amcw_offset mp f + e_next mpe)) f t
                else t in
              let t := alter_entry (set_next (amcw_offset f mp)) mp t in
              Done (f, alter_entry (set_key key) f t)
        end
      else Done (mp, alter_entry (set_key key) mp t)
  end.

(** [amcw_newkey]; [fuel] bounds the nesting of rehashes and the
    iterations of the loop. *)
Fixpoint amcw_newkey (fuel : nat) (t : amcw_Table A) (key : amcw_Symbol)
    : res (nat * amcw_Table A) :=
  match fuel with
  | O => Timeout
  | S fuel' =>
      t ← (if (t_size t =? 0)%nat
           then amcw_resizetable (amcw_newkey fuel') t AMCW_MIN_HASHSIZE
           else Done t);
      newkey_loop (amcw_newkey fuel') fuel t key
  end.

Definition newkey_fuel : nat := 4.

(** The [for] loop of [amcw_gettable]; a chain that is followed for more
    steps than the table has slots is cyclic. *)
Fixpoint gettable_walk (fuel : nat) (h : list (amcw_Entry A)) (kid : Z) (e : nat)
    : res (option nat) :=
  match fuel with
  | O => Timeout
  | S fuel' =>
      match h !! e with
      | None => Abort
      | Some ent =>
          if sym_id (e_key ent) =? kid then Done (Some e)
          else if e_next ent =? 0 then Done None
          else e' ← amcw_index e (e_next ent); gettable_walk fuel' h kid e'
      end
  end.

Definition amcw_gettable (t : amcw_Table A) (key : amcw_Symbol) : res (option nat) :=
  if (t_size t =? 0)%nat || (sym_id key =? 0) then Done None
  else gettable_walk (t_size t) (t_hash t) (sym_id key) (amcw_mainposition t key).

Definition amcw_settable (t : amcw_Table A) (key : amcw_Symbol)
    : res (nat * amcw_Table A) :=
  _ ← c_assert (negb (sym_id key =? 0));
  e ← amcw_gettable t key;
  match e with
  | Some e => Done (e, t)
  | None =>
      '(e, t) ← amcw_newkey newkey_fuel t key;
      let t :=
        if sizeof_Entry <? t_entry_size t then alter_entry (set_val zeroed) e t else t in
      Done (e, set_count t (wrap64 (t_count t + 1)))
  end.

(** First slot at or after [i] whose key is not null. *)
Fixpoint scan_entry (h : list (amcw_Entry A)) (i : nat) : option nat :=
  match h with
  | [] => None
  | e :: h' => if negb (sym_id (e_key e) =? 0) then Some i else scan_entry h' (S i)
  end.

Definition amcw_nextentry (t : amcw_Table A) (pentry : option nat) : option nat :=
  let start := match pentry with Some e => S e | None => O end in
  scan_entry (drop start (t_hash t)) start.

(** The slots that a [while (amcw_nextentry(t, &e))] loop visits, in order,
    when its body neither inserts nor deletes keys of [t]. *)
Fixpoint entries_from (h : list (amcw_Entry A)) (i : nat) : list nat :=
  match h with
  | [] => []
  | e :: h' =>
      if negb (sym_id (e_key e) =? 0) then i :: entries_from h' (S i)
      else entries_from h' (S i)
  end.

Definition amcw_entries (t : amcw_Table A) : list nat := entries_from (t_hash t) 0.

End Table.

(** ** Rows (linear expressions) *)

Record amcw_Row : Type := mkRow {
  infeasible_next : amcw_Symbol;
  terms : amcw_Table amcw_Num;
  constant : amcw_Num
}.

#[global] Instance row_zeroed : Zeroed amcw_Row :=
  mkRow amcw_null (mkTable 0 0 0 []) 0%float.

Definition set_terms (row : amcw_Row) (t : amcw_Table amcw_Num) : amcw_Row :=
  mkRow (infeasible_next row) t (constant row).
Definition set_constant (row : amcw_Row) (c : amcw_Num) : amcw_Row :=
  mkRow (infeasible_next row) (terms row) c.
Definition set_infeasible_next (row : amcw_Row) (n : amcw_Symbol) : amcw_Row :=
  mkRow n (terms row) (constant row).

Definition amcw_isconstant (row : amcw_Row) : bool := t_count (terms row) =? 0.

Definition amcw_freerow (row : amcw_Row) : amcw_Row :=
  set_terms row (amcw_freetable (terms row)).

Definition amcw_resetrow (row : amcw_Row) : amcw_Row :=
  mkRow (infeasible_next row) (amcw_resettable (terms row)) 0%float.

Definition amcw_initrow : amcw_Row :=
  mkRow amcw_null (amcw_inittable sizeof_Term) 0%float.

Definition scale_term (m : amcw_Num) (e : amcw_Entry amcw_Num) : amcw_Entry amcw_Num :=
  if negb (sym_id (e_key e) =? 0) then set_val (e_val e * m)%float e else e.

Definition amcw_multiply (row : amcw_Row) (multiplier : amcw_Num) : amcw_Row :=
  mkRow (infeasible_next row)
    (set_hash (terms row) (scale_term multiplier <$> t_hash (terms row)))
    (constant row * multiplier)%float.

Definition amcw_addvar (row : amcw_Row) (sym : amcw_Symbol) (value : amcw_Num)
    : res amcw_Row :=
  if sym_id sym =? 0 then Done row
  else
    '(term, t) ← amcw_settable (terms row) sym;
    te ← entry_at t term;
    let m := (e_val te + value)%float in
    let t := alter_entry (set_val m) term t in
    Done (set_terms row (if amcw_nearzero m then amcw_delkey t term else t)).

(** The body of the loop of [amcw_addrow] over the slots of [other]. *)
Fixpoint addrow_loop (row : amcw_Row) (other : list (amcw_Entry amcw_Num))
    (multiplier : amcw_Num) : res amcw_Row :=
  match other with
  | [] => Done row
  | term :: other' =>
      if negb (sym_id (e_key term) =? 0) then
        row ← amcw_addvar row (e_key term) (e_val term * multiplier)%float;
        addrow_loop row other' multiplier
      else addrow_loop row other' multiplier
  end.

Definition amcw_addrow (row other : amcw_Row) (multiplier : amcw_Num) : res amcw_Row :=
  addrow_loop (set_constant row (constant row + constant other * multiplier)%float)
    (t_hash (terms other)) multiplier.

Definition amcw_solvefor (row : amcw_Row) (entry exit : amcw_Symbol) : res amcw_Row :=
  term ← amcw_gettable (terms row) entry;
  match term with
  | None => Abort
  | Some term =>
      te ← entry_at (terms row) term;
      let reciprocal := (1 / e_val te)%float in
      _ ← c_assert (negb (sym_id entry =? sym_id exit) && negb (amcw_nearzero (e_val te)));
      let row := set_terms row (amcw_delkey (terms row) term) in
      let row := amcw_multiply row (- reciprocal)%float in
      if negb (sym_id exit =? 0) then amcw_addvar row exit reciprocal else Done row
  end.

Definition amcw_substitute (row : amcw_Row) (entry : amcw_Symbol) (other : amcw_Row)
    : res amcw_Row :=
  term ← amcw_gettable (terms row) entry;
  match term with
  | None => Done row
  | Some term =>
      te ← entry_at (terms row) term;
      amcw_addrow (set_terms row (amcw_delkey (terms row) term)) other (e_val te)
  end.

(** ** Variables, constraints and the solver *)

Record amcw_Var : Type := mkVar {
  v_sym : amcw_Symbol;
  v_dirty_next : amcw_Symbol;
  v_refcount : Z;
  v_constraint : option Z;
  v_edit_value : amcw_Num;
  v_value : amcw_Num
}.

Record amcw_Constraint : Type := mkCons {
  c_expression : amcw_Row;
  c_marker : amcw_Symbol;
  c_other : amcw_Symbol;
  c_relation : Z;
  c_strength : amcw_Num
}.

Record amcw_Solver : Type := mkSolver {
  objective : amcw_Row;
  vars : amcw_Table (option amcw_Var);
  constraints : amcw_Table (option amcw_Constraint);
  rows : amcw_Table amcw_Row;
  symbol_count : Z;
  constraint_count : Z;
  auto_update : Z;
  infeasible_rows : amcw_Symbol;
  dirty_vars : amcw_Symbol
}.

Definition set_objective (s : amcw_Solver) (o : amcw_Row) : amcw_Solver :=
  mkSolver o (vars s) (constraints s) (rows s) (symbol_count s)
    (constraint_count s) (auto_update s) (infeasible_rows s) (dirty_vars s).
Definition set_vars (s : amcw_Solver) (t : amcw_Table (option amcw_Var)) : amcw_Solver :=
  mkSolver (objective s) t (constraints s) (rows s) (symbol_count s)
    (constraint_count s) (auto_update s) (infeasible_rows s) (dirty_vars s).
Definition set_constraints (s : amcw_Solver)
    (t : amcw_Table (option amcw_Constraint)) : amcw_Solver :=
  mkSolver (objective s) (vars s) t (rows s) (symbol_count s)
    (constraint_count s) (auto_update s) (infeasible_rows s) (dirty_vars s).
Definition set_rows (s : amcw_Solver) (t : amcw_Table amcw_Row) : amcw_Solver :=
  mkSolver (objective s) (vars s) (constraints s) t (symbol_count s)
    (constraint_count s) (auto_update s) (infeasible_rows s) (dirty_vars s).
Definition set_symbol_count (s : amcw_Solver) (n : Z) : amcw_Solver :=
  mkSolver (objective s) (vars s) (constraints s) (rows s) n
    (constraint_count s) (auto_update s) (infeasible_rows s) (dirty_vars s).
Definition set_constraint_count (s : amcw_Solver) (n : Z) : amcw_Solver :=
  mkSolver (objective s) (vars s) (constraints s) (rows s) (symbol_count s)
    n (auto_update s) (infeasible_rows s) (dirty_vars s).
Definition set_auto_update (s : amcw_Solver) (n : Z) : amcw_Solver :=
  mkSolver (objective s) (vars s) (constraints s) (rows s) (symbol_count s)
    (constraint_count s) n (infeasible_rows s) (dirty_vars s).
Definition set_infeasible_rows (s : amcw_Solver) (k : amcw_Symbol) : amcw_Solver :=
  mkSolver (objective s) (vars s) (constraints s) (rows s) (symbol_count s)
    (constraint_count s) (auto_update s) k (dirty_vars s).
Definition set_dirty_vars (s : amcw_Solver) (k : amcw_Symbol) : amcw_Solver :=
  mkSolver (objective s) (vars s) (constraints s) (rows s) (symbol_count s)
    (constraint_count s) (auto_update s) (infeasible_rows s) k.

Definition set_v_dirty_next (v : amcw_Var) (k : amcw_Symbol) : amcw_Var :=
  mkVar (v_sym v) k (v_refcount v) (v_constraint v) (v_edit_value v) (v_value v).
Definition set_v_refcount (v : amcw_Var) (n : Z) : amcw_Var :=
  mkVar (v_sym v) (v_dirty_next v) n (v_constraint v) (v_edit_value v) (v_value v).
Definition set_v_constraint (v : amcw_Var) (c : option Z) : amcw_Var :=
  mkVar (v_sym v) (v_dirty_next v) (v_refcount v) c (v_edit_value v) (v_value v).
Definition set_v_edit_value (v : amcw_Var) (x : amcw_Num) : amcw_Var :=
  mkVar (v_sym v) (v_dirty_next v) (v_refcount v) (v_constraint v) x (v_value v).
Definition set_v_value (v : amcw_Var) (x : amcw_Num) : amcw_Var :=
  mkVar (v_sym v) (v_dirty_next v) (v_refcount v) (v_constraint v) (v_edit_value v) x.

Definition set_c_expression (c : amcw_Constraint) (e : amcw_Row) : amcw_Constraint :=
  mkCons e (c_marker c) (c_other c) (c_relation c) (c_strength c).
Definition set_c_marker (c : amcw_Constraint) (k : amcw_Symbol) : amcw_Constraint :=
  mkCons (c_expression c) k (c_other c) (c_relation c) (c_strength c).
Definition set_c_other (c : amcw_Constraint) (k : amcw_Symbol) : amcw_Constraint :=
  mkCons (c_expression c) (c_marker c) k (c_relation c) (c_strength c).
Definition set_c_relation (c : amcw_Constraint) (r : Z) : amcw_Constraint :=
  mkCons (c_expression c) (c_marker c) (c_other c) r (c_strength c).
Definition set_c_strength (c : amcw_Constraint) (x : amcw_Num) : amcw_Constraint :=
  mkCons (c_expression c) (c_marker c) (c_other c) (c_relation c) x.

(** *** Objects behind pointers

    A [amcw_Var*] that is not NULL is the slot of the variable in [vars];
    [load_var] and [store_var] read and write the object it points to.
    Likewise for constraints and rows of the tableau. *)

Definition load_var (s : amcw_Solver) (var : nat) : res amcw_Var :=
  e ← entry_at (vars s) var;
  match e_val e with Some v => Done v | None => Abort end.

Definition store_var (s : amcw_Solver) (var : nat) (v : amcw_Var) : amcw_Solver :=
  set_vars s (alter_entry (set_val (Some v)) var (vars s)).

Definition load_cons (s : amcw_Solver) (cons : nat) : res amcw_Constraint :=
  e ← entry_at (constraints s) cons;
  match e_val e with Some c => Done c | None => Abort end.

Definition store_cons (s : amcw_Solver) (cons : nat) (c : amcw_Constraint) : amcw_Solver :=
  set_constraints s (alter_entry (set_val (Some c)) cons (constraints s)).

Definition load_row (s : amcw_Solver) (row : nat) : res amcw_Row :=
  e ← entry_at (rows s) row; Done (e_val e).

Definition store_row (s : amcw_Solver) (row : nat) (r : amcw_Row) : amcw_Solver :=
  set_rows s (alter_entry (set_val r) row (rows s)).

(** The slot behind a handle: [None] for the NULL handle. *)
Definition var_of_handle (s : amcw_Solver) (h : option Z) : res (option nat) :=
  match h with
  | None => Done None
  | Some id =>
      e ← amcw_gettable (vars s) (mkSym id AMCW_EXTERNAL);
      match e with Some e => Done (Some e) | None => Abort end
  end.

Definition cons_of_handle (s : amcw_Solver) (h : option Z) : res (option nat) :=
  match h with
  | None => Done None
  | Some id =>
      e ← amcw_gettable (constraints s) (mkSym id AMCW_EXTERNAL);
      match e with Some e => Done (Some e) | None => Abort end
  end.

(** *** utils *)

Definition amcw_newsymbol (s : amcw_Solver) (type : Z) : res (amcw_Symbol * amcw_Solver) :=
  let id := wrap32 (symbol_count s + 1) in
  let s := set_symbol_count s id in
  let '(id, s) :=
    if 0x3FFFFFFF <? id then (1, set_symbol_count s 1) else (id, s) in
  _ ← c_assert ((AMCW_EXTERNAL <=? type) && (type <=? AMCW_DUMMY));
  Done (mkSym (Z.land id 0x3FFFFFFF) (Z.land type 3), s).

Definition amcw_initsymbol (s : amcw_Solver) (sym : amcw_Symbol) (type : Z)
    : res (amcw_Symbol * amcw_Solver) :=
  if sym_id sym =? 0 then amcw_newsymbol s type else Done (sym, s).

(** *** variables & constraints *)

Definition amcw_variableid (s : amcw_Solver) (var : option nat) : res Z :=
  match var with
  | Some var => v ← load_var s var; Done (sym_id (v_sym v))
  | None => Done (-1)
  end.

Definition amcw_value (s : amcw_Solver) (var : option nat) : res amcw_Num :=
  match var with
  | Some var => v ← load_var s var; Done (v_value v)
  | None => Done 0%float
  end.

Definition amcw_usevariable (s : amcw_Solver) (var : option nat) : res amcw_Solver :=
  match var with
  | Some var =>
      v ← load_var s var;
      Done (store_var s var (set_v_refcount v (wrap32 (v_refcount v + 1))))
  | None => Done s
  end.

Definition amcw_sym2var (s : amcw_Solver) (sym : amcw_Symbol) : res nat :=
  ve ← amcw_gettable (vars s) sym;
  match ve with
  | Some ve => Done ve
  | None => Abort
  end.

Definition amcw_newvariable (s : amcw_Solver) : res (nat * amcw_Solver) :=
  '(sym, s) ← amcw_newsymbol s AMCW_EXTERNAL;
  '(ve, t) ← amcw_settable (vars s) sym;
  e ← entry_at t ve;
  _ ← c_assert (bool_decide (e_val e = None));
  let var := mkVar sym amcw_null 1 None 0%float 0%float in
  Done (ve, set_vars s (alter_entry (set_val (Some var)) ve t)).

Fixpoint res_foldl {A B : Type} (f : B → A → res B) (b : B) (l : list A) : res B :=
  match l with
  | [] => Done b
  | a :: l' => b' ← f b a; res_foldl f b' l'
  end.

(** The entries that a [while (amcw_nextentry(t, &e))] loop reads when its
    body does not write to [t]. *)
Definition live_entries {A} (t : amcw_Table A) : list (amcw_Entry A) :=
  filter (λ e, sym_id (e_key e) ≠ 0) (t_hash t).

(** [break] at the first live entry whose key satisfies [p]; the null
    symbol when the loop runs to its end. *)
Definition first_key {A} (p : amcw_Entry A → bool) (t : amcw_Table A) : amcw_Symbol :=
  match List.find p (live_entries t) with
  | Some e => e_key e
  | None => amcw_null
  end.

(** *** Cassowary algorithm *)

Definition amcw_hasedit (s : amcw_Solver) (var : option nat) : res bool :=
  match var with
  | None => Done false
  | Some var => v ← load_var s var; Done (bool_decide (v_constraint v ≠ None))
  end.

Definition amcw_hasconstraint (s : amcw_Solver) (cons : option nat) : res bool :=
  match cons with
  | None => Done false
  | Some cn => c ← load_cons s cn; Done (negb (sym_id (c_marker c) =? 0))
  end.

Definition amcw_autoupdate (s : amcw_Solver) (auto_update : Z) : amcw_Solver :=
  set_auto_update s auto_update.

Definition amcw_infeasible (s : amcw_Solver) (row : nat) : res amcw_Solver :=
  re ← entry_at (rows s) row;
  let r := e_val re in
  if (constant r <? 0)%float && negb (amcw_isdummy (infeasible_next r)) then
    let r := set_infeasible_next r (mkSym (sym_id (infeasible_rows s)) AMCW_DUMMY) in
    Done (set_infeasible_rows (store_row s row r) (e_key re))
  else Done s.

Definition amcw_markdirty (s : amcw_Solver) (var : nat) : res amcw_Solver :=
  v ← load_var s var;
  if sym_type (v_dirty_next v) =? AMCW_DUMMY then Done s
  else
    let v' := set_v_dirty_next v (mkSym (sym_id (dirty_vars s)) AMCW_DUMMY) in
    Done (set_dirty_vars (store_var s var v') (v_sym v)).

Definition substitute_rows_step (var : amcw_Symbol) (expr : amcw_Row)
    (s : amcw_Solver) (row : nat) : res amcw_Solver :=
  re ← entry_at (rows s) row;
  r ← amcw_substitute (e_val re) var expr;
  let s := store_row s row r in
  if amcw_isexternal (e_key re) then
    v ← amcw_sym2var s (e_key re); amcw_markdirty s v
  else amcw_infeasible s row.

Definition amcw_substitute_rows (s : amcw_Solver) (var : amcw_Symbol) (expr : amcw_Row)
    : res amcw_Solver :=
  s ← res_foldl (substitute_rows_step var expr) s (amcw_entries (rows s));
  o ← amcw_substitute (objective s) var expr;
  Done (set_objective s o).

Definition amcw_takerow (s : amcw_Solver) (sym : amcw_Symbol) (dst : amcw_Row)
    : res (Z * amcw_Row * amcw_Solver) :=
  row ← amcw_gettable (rows s) sym;
  match row with
  | None => Done (AMCW_FAILED, dst, s)
  | Some row =>
      r ← load_row s row;
      let s := set_rows s (amcw_delkey (rows s) row) in
      Done (AMCW_OK, mkRow (infeasible_next dst) (terms r) (constant r), s)
  end.

Definition amcw_putrow (s : amcw_Solver) (sym : amcw_Symbol) (src : amcw_Row)
    : res (Z * amcw_Solver) :=
  '(row, t) ← amcw_settable (rows s) sym;
  re ← entry_at t row;
  let r := mkRow (infeasible_next (e_val re)) (terms src) (constant src) in
  Done (AMCW_OK, set_rows s (alter_entry (set_val r) row t)).

Definition amcw_mergerow (s : amcw_Solver) (row : amcw_Row) (var : amcw_Symbol)
    (multiplier : amcw_Num) : res amcw_Row :=
  oldrow ← amcw_gettable (rows s) var;
  match oldrow with
  | Some oldrow => r ← load_row s oldrow; amcw_addrow row r multiplier
  | None => amcw_addvar row var multiplier
  end.

(** A local [amcw_Row tmp;] before it is written. *)
Definition uninit_row : amcw_Row := zeroed.

(** The entering symbol of an iteration of [amcw_optimize]. *)
Definition optimize_enter (objective : amcw_Row) : amcw_Symbol :=
  first_key (λ term, negb (amcw_isdummy (e_key term)) && (e_val term <? 0)%float)
    (terms objective).

(** The body of the scan for the leaving row; the accumulator is
    [(min_ratio, exit)]. *)
Definition optimize_exit_step (s : amcw_Solver) (enter : amcw_Symbol)
    (acc : amcw_Num * amcw_Symbol) (row : nat) : res (amcw_Num * amcw_Symbol) :=
  re ← entry_at (rows s) row;
  term ← amcw_gettable (terms (e_val re)) enter;
  match term with
  | None => Done acc
  | Some term =>
      te ← entry_at (terms (e_val re)) term;
      if negb (amcw_ispivotable (e_key re)) || (0 <? e_val te)%float then Done acc
      else
        let r := (- constant (e_val re) / e_val te)%float in
        if (r <? acc.1)%float
           || (amcw_approx r acc.1 && (sym_id (e_key re) <? sym_id acc.2))
        then Done (r, e_key re)
        else Done acc
  end.

Definition optimize_exit (s : amcw_Solver) (enter : amcw_Symbol)
    : res (amcw_Num * amcw_Symbol) :=
  res_foldl (optimize_exit_step s enter) (AMCW_NUM_MAX, amcw_null)
    (amcw_entries (rows s)).

(** [amcw_optimize]; [obj] is [None] for [&solver->objective] and
    [Some tmp] for another row, which is returned as the loop leaves it. *)
Fixpoint amcw_optimize (fuel : nat) (s : amcw_Solver) (obj : option amcw_Row)
    : res (Z * option amcw_Row * amcw_Solver) :=
  match fuel with
  | O => Timeout
  | S fuel' =>
      _ ← c_assert (sym_id (infeasible_rows s) =? 0);
      let enter := optimize_enter (default (objective s) obj) in
      if sym_id enter =? 0 then Done (AMCW_OK, obj, s)
      else
        '(_, exit) ← optimize_exit s enter;
        _ ← c_assert (negb (sym_id exit =? 0));
        '(taken, tmp, s) ← amcw_takerow s exit uninit_row;
        _ ← c_assert (taken =? AMCW_OK);
        tmp ← amcw_solvefor tmp enter exit;
        s ← amcw_substitute_rows s enter tmp;
        obj ←
          match obj with
          | Some o => o ← amcw_substitute o enter tmp; Done (Some o)
          | None => Done None
          end;
        '(_, s) ← amcw_putrow s enter tmp;
        amcw_optimize fuel' s obj
  end.

Definition makerow_step (acc : amcw_Row * amcw_Solver) (term : amcw_Entry amcw_Num)
    : res (amcw_Row * amcw_Solver) :=
  let '(row, s) := acc in
  v ← amcw_sym2var s (e_key term);
  s ← amcw_markdirty s v;
  row ← amcw_mergerow s row (e_key term) (e_val term);
  Done (row, s).

Definition amcw_makerow (s : amcw_Solver) (cn : nat) : res (amcw_Row * amcw_Solver) :=
  c ← load_cons s cn;
  let row := set_constant amcw_initrow (constant (c_expression c)) in
  '(row, s) ← res_foldl makerow_step (row, s) (live_entries (terms (c_expression c)));
  '(row, c, s) ←
    (if negb (c_relation c =? AMCW_EQUAL) then
       '(m, s) ← amcw_initsymbol s (c_marker c) AMCW_SLACK;
       let c := set_c_marker c m in
       row ← amcw_addvar row (c_marker c) (-1)%float;
       if (c_strength c <? AMCW_REQUIRED)%float then
         '(o, s) ← amcw_initsymbol s (c_other c) AMCW_ERROR;
         let c := set_c_other c o in
         row ← amcw_addvar row (c_other c) 1%float;
         ob ← amcw_addvar (objective s) (c_other c) (c_strength c);
         Done (row, c, set_objective s ob)
       else Done (row, c, s)
     else if (AMCW_REQUIRED <=? c_strength c)%float then
       '(m, s) ← amcw_initsymbol s (c_marker c) AMCW_DUMMY;
       let c := set_c_marker c m in
       row ← amcw_addvar row (c_marker c) 1%float;
       Done (row, c, s)
     else
       '(m, s) ← amcw_initsymbol s (c_marker c) AMCW_ERROR;
       let c := set_c_marker c m in
       '(o, s) ← amcw_initsymbol s (c_other c) AMCW_ERROR;
       let c := set_c_other c o in
       row ← amcw_addvar row (c_marker c) (-1)%float;
       row ← amcw_addvar row (c_other c) 1%float;
       ob ← amcw_addvar (objective s) (c_marker c) (c_strength c);
       ob ← amcw_addvar ob (c_other c) (c_strength c);
       Done (row, c, set_objective s ob));
  let row := if (constant row <? 0)%float then amcw_multiply row (-1)%float else row in
  Done (row, store_cons s cn c).

Definition amcw_remove_errors (s : amcw_Solver) (cn : nat) : res amcw_Solver :=
  c ← load_cons s cn;
  ob ← (if amcw_iserror (c_marker c)
        then amcw_mergerow s (objective s) (c_marker c) (- c_strength c)%float
        else Done (objective s));
  ob ← (if amcw_iserror (c_other c)
        then amcw_mergerow s ob (c_other c) (- c_strength c)%float
        else Done ob);
  let ob := if amcw_isconstant ob then set_constant ob 0%float else ob in
  let c := set_c_other (set_c_marker c amcw_null) amcw_null in
  Done (store_cons (set_objective s ob) cn c).

(** The body of the scan of [amcw_get_leaving_row]; the accumulator is
    [(first, second, third, r1, r2)]. *)
Definition leaving_row_step (s : amcw_Solver) (marker : amcw_Symbol)
    (acc : amcw_Symbol * amcw_Symbol * amcw_Symbol * amcw_Num * amcw_Num) (row : nat)
    : res (amcw_Symbol * amcw_Symbol * amcw_Symbol * amcw_Num * amcw_Num) :=
  let '(first, second, third, r1, r2) := acc in
  re ← entry_at (rows s) row;
  term ← amcw_gettable (terms (e_val re)) marker;
  match term with
  | None => Done acc
  | Some term =>
      te ← entry_at (terms (e_val re)) term;
      if amcw_isexternal (e_key re) then Done (first, second, e_key re, r1, r2)
      else if (e_val te <? 0)%float then
        let r := (- constant (e_val re) / e_val te)%float in
        if (r <? r1)%float then Done (e_key re, second, third, r, r2) else Done acc
      else
        let r := (constant (e_val re) / e_val te)%float in
        if (r <? r2)%float then Done (first, e_key re, third, r1, r) else Done acc
  end.

Definition amcw_get_leaving_row (s : amcw_Solver) (marker : amcw_Symbol)
    : res amcw_Symbol :=
  '(first, second, third, _, _) ←
    res_foldl (leaving_row_step s marker)
      (amcw_null, amcw_null, amcw_null, AMCW_NUM_MAX, AMCW_NUM_MAX)
      (amcw_entries (rows s));
  Done (if negb (sym_id first =? 0) then first
        else if negb (sym_id second =? 0) then second else third).

Definition delta_edit_step (delta : amcw_Num) (marker : amcw_Symbol)
    (s : amcw_Solver) (row : nat) : res amcw_Solver :=
  re ← entry_at (rows s) row;
  term ← amcw_gettable (terms (e_val re)) marker;
  match term with
  | None => Done s
  | Some term =>
      te ← entry_at (terms (e_val re)) term;
      let r := set_constant (e_val re) (constant (e_val re) + e_val te * delta)%float in
      let s := store_row s row r in
      if amcw_isexternal (e_key re) then
        v ← amcw_sym2var s (e_key re); amcw_markdirty s v
      else amcw_infeasible s row
  end.

Definition amcw_delta_edit_constant (s : amcw_Solver) (delta : amcw_Num) (cn : nat)
    : res amcw_Solver :=
  c ← load_cons s cn;
  row ← amcw_gettable (rows s) (c_marker c);
  match row with
  | Some row =>
      r ← load_row s row;
      amcw_infeasible (store_row s row (set_constant r (constant r - delta)%float)) row
  | None =>
      row ← amcw_gettable (rows s) (c_other c);
      match row with
      | Some row =>
          r ← load_row s row;
          amcw_infeasible (store_row s row (set_constant r (constant r + delta)%float)) row
      | None =>
          res_foldl (delta_edit_step delta (c_marker c)) s (amcw_entries (rows s))
      end
  end.

(** The body of the scan for the entering symbol of [amcw_dual_optimize];
    the accumulator is [(min_ratio, enter)]. *)
Definition dual_enter_step (s : amcw_Solver) (acc : amcw_Num * amcw_Symbol)
    (term : amcw_Entry amcw_Num) : res (amcw_Num * amcw_Symbol) :=
  let cur := e_key term in
  if amcw_isdummy cur || (e_val term <=? 0)%float then Done acc
  else
    objterm ← amcw_gettable (terms (objective s)) cur;
    r ← match objterm with
        | Some objterm =>
            oe ← entry_at (terms (objective s)) objterm;
            Done (e_val oe / e_val term)%float
        | None => Done 0%float
        end;
    if (r <? acc.1)%float then Done (r, cur) else Done acc.

Fixpoint amcw_dual_optimize (fuel : nat) (s : amcw_Solver) : res amcw_Solver :=
  match fuel with
  | O => Timeout
  | S fuel' =>
      if sym_id (infeasible_rows s) =? 0 then Done s
      else
        row ← amcw_gettable (rows s) (infeasible_rows s);
        match row with
        | None => Abort
        | Some row =>
            re ← entry_at (rows s) row;
            let leave := e_key re in
            let s := set_infeasible_rows s (infeasible_next (e_val re)) in
            let s := store_row s row (set_infeasible_next (e_val re) amcw_null) in
            if amcw_nearzero (constant (e_val re)) || (0 <=? constant (e_val re))%float
            then amcw_dual_optimize fuel' s
            else
              '(_, enter) ← res_foldl (dual_enter_step s) (AMCW_NUM_MAX, amcw_null)
                              (live_entries (terms (e_val re)));
              _ ← c_assert (negb (sym_id enter =? 0));
              '(taken, tmp, s) ← amcw_takerow s leave uninit_row;
              _ ← c_assert (taken =? AMCW_OK);
              tmp ← amcw_solvefor tmp enter leave;
              s ← amcw_substitute_rows s enter tmp;
              '(_, s) ← amcw_putrow s enter tmp;
              amcw_dual_optimize fuel' s
        end
  end.

(** One iteration of the loop of [amcw_updatevars]. *)
Definition updatevars_step (s : amcw_Solver) : res amcw_Solver :=
  var ← amcw_sym2var s (dirty_vars s);
  v ← load_var s var;
  row ← amcw_gettable (rows s) (v_sym v);
  x ← match row with
      | Some row => r ← load_row s row; Done (constant r)
      | None => Done 0%float
      end;
  let s := set_dirty_vars s (v_dirty_next v) in
  Done (store_var s var (set_v_value (set_v_dirty_next v amcw_null) x)).

Fixpoint updatevars_loop (fuel : nat) (s : amcw_Solver) : res amcw_Solver :=
  match fuel with
  | O => Timeout
  | S fuel' =>
      if sym_id (dirty_vars s) =? 0 then Done s
      else s ← updatevars_step s; updatevars_loop fuel' s
  end.

(** Every iteration but the last clears a non-null [dirty_next] link, so
    the loop runs at most once per slot of [vars], and once more. *)
Definition amcw_updatevars (s : amcw_Solver) : res amcw_Solver :=
  updatevars_loop (S (S (t_size (vars s)))) s.

Definition c_true (z : Z) : bool := negb (z =? 0).

Definition amcw_remove (fuel : nat) (s : amcw_Solver) (cons : option nat)
    : res amcw_Solver :=
  match cons with
  | None => Done s
  | Some cn =>
      c ← load_cons s cn;
      if sym_id (c_marker c) =? 0 then Done s
      else
        let marker := c_marker c in
        s ← amcw_remove_errors s cn;
        '(taken, tmp, s) ← amcw_takerow s marker uninit_row;
        s ← (if negb (taken =? AMCW_OK) then
               exit ← amcw_get_leaving_row s marker;
               _ ← c_assert (negb (sym_id exit =? 0));
               '(taken, tmp, s) ← amcw_takerow s exit tmp;
               _ ← c_assert (taken =? AMCW_OK);
               tmp ← amcw_solvefor tmp marker exit;
               amcw_substitute_rows s marker tmp
             else Done s);
        '(_, _, s) ← amcw_optimize fuel s None;
        if c_true (auto_update s) then amcw_updatevars s else Done s
  end.

(** The loops of [amcw_add_with_artificial] that erase the column of [a]. *)
Definition erase_term (row : amcw_Row) (a : amcw_Symbol) : res amcw_Row :=
  term ← amcw_gettable (terms row) a;
  match term with
  | Some term => Done (set_terms row (amcw_delkey (terms row) term))
  | None => Done row
  end.

Definition erase_column_step (a : amcw_Symbol) (s : amcw_Solver) (row : nat)
    : res amcw_Solver :=
  r ← load_row s row;
  r ← erase_term r a;
  Done (store_row s row r).

Definition amcw_add_with_artificial (fuel : nat) (s : amcw_Solver) (row : amcw_Row)
    (cn : nat) : res (Z * amcw_Solver) :=
  '(a, s) ← amcw_newsymbol s AMCW_SLACK;
  let s := set_symbol_count s (wrap32 (symbol_count s - 1)) in
  tmp ← amcw_addrow amcw_initrow row 1%float;
  '(_, s) ← amcw_putrow s a row;
  '(_, tmp, s) ← amcw_optimize fuel s (Some tmp);
  let tmp := default uninit_row tmp in
  let ret := if amcw_nearzero (constant tmp) then AMCW_OK else AMCW_UNBOUND in
  let tmp := amcw_freerow tmp in
  '(taken, tmp, s) ← amcw_takerow s a tmp;
  let erase (s : amcw_Solver) : res (Z * amcw_Solver) :=
    s ← res_foldl (erase_column_step a) s (amcw_entries (rows s));
    ob ← erase_term (objective s) a;
    let s := set_objective s ob in
    s ← (if negb (ret =? AMCW_OK) then amcw_remove fuel s (Some cn) else Done s);
    Done (ret, s) in
  if taken =? AMCW_OK then
    if amcw_isconstant tmp then Done (ret, s)
    else
      let entry := first_key (λ term, amcw_ispivotable (e_key term)) (terms tmp) in
      if sym_id entry =? 0 then Done (AMCW_UNBOUND, s)
      else
        tmp ← amcw_solvefor tmp entry a;
        s ← amcw_substitute_rows s entry tmp;
        '(_, s) ← amcw_putrow s entry tmp;
        erase s
  else erase s.

(** The coefficient of [sym] in a row in which it must occur. *)
Definition term_multiplier (row : amcw_Row) (sym : amcw_Symbol) : res amcw_Num :=
  mterm ← amcw_gettable (terms row) sym;
  match mterm with
  | Some mterm => te ← entry_at (terms row) mterm; Done (e_val te)
  | None => Abort
  end.

(** Whether the loop [if (!amcw_isdummy(amcw_key(term))) break;] of
    [amcw_try_addrow] runs to the end of the row, leaving [term == NULL]. *)
Definition all_dummy (row : amcw_Row) : bool :=
  bool_decide (List.find (λ term, negb (amcw_isdummy (e_key term)))
                 (live_entries (terms row)) = None).

(** The subject that [amcw_try_addrow] chooses for the row of a constraint:
    [None] when it finds the row unsatisfiable, the null symbol when an
    artificial variable is needed. *)
Definition try_addrow_subject (row : amcw_Row) (c : amcw_Constraint)
    : res (option amcw_Symbol) :=
  let subject := first_key (λ term, amcw_isexternal (e_key term)) (terms row) in
  subject ←
    (if (sym_id subject =? 0) && amcw_ispivotable (c_marker c) then
       m ← term_multiplier row (c_marker c);
       Done (if (m <? 0)%float then c_marker c else subject)
     else Done subject);
  subject ←
    (if (sym_id subject =? 0) && amcw_ispivotable (c_other c) then
       m ← term_multiplier row (c_other c);
       Done (if (m <? 0)%float then c_other c else subject)
     else Done subject);
  if (sym_id subject =? 0) && all_dummy row then
    if amcw_nearzero (constant row) then Done (Some (c_marker c))
    else Done None
  else Done (Some subject).

Definition amcw_try_addrow (fuel : nat) (s : amcw_Solver) (row : amcw_Row) (cn : nat)
    : res (Z * amcw_Solver) :=
  c ← load_cons s cn;
  subject ← try_addrow_subject row c;
  match subject with
  | None => Done (AMCW_UNSATISFIED, s)
  | Some subject =>
      if sym_id subject =? 0 then amcw_add_with_artificial fuel s row cn
      else
        row ← amcw_solvefor row subject amcw_null;
        s ← amcw_substitute_rows s subject row;
        '(_, s) ← amcw_putrow s subject row;
        Done (AMCW_OK, s)
  end.

Definition amcw_add (fuel : nat) (s : amcw_Solver) (cons : option nat)
    : res (Z * amcw_Solver) :=
  match cons with
  | None => Done (AMCW_FAILED, s)
  | Some cn =>
      let oldsym := symbol_count s in
      c ← load_cons s cn;
      if negb (sym_id (c_marker c) =? 0) then Done (AMCW_FAILED, s)
      else
        '(row, s) ← amcw_makerow s cn;
        '(ret, s) ← amcw_try_addrow fuel s row cn;
        s ← (if negb (ret =? AMCW_OK) then
               s ← amcw_remove_errors s cn;
               Done (set_symbol_count s oldsym)
             else
               '(_, _, s) ← amcw_optimize fuel s None;
               if c_true (auto_update s) then amcw_updatevars s else Done s);
        _ ← c_assert (sym_id (infeasible_rows s) =? 0);
        Done (ret, s)
  end.

Definition amcw_setstrength (fuel : nat) (s : amcw_Solver) (cons : option nat)
    (strength : amcw_Num) : res (Z * amcw_Solver) :=
  match cons with
  | None => Done (AMCW_FAILED, s)
  | Some cn =>
      c ← load_cons s cn;
      let strength := if amcw_nearzero strength then AMCW_REQUIRED else strength in
      if (c_strength c =? strength)%float then Done (AMCW_OK, s)
      else if (AMCW_REQUIRED <=? c_strength c)%float || (AMCW_REQUIRED <=? strength)%float
      then
        s ← amcw_remove fuel s (Some cn);
        c ← load_cons s cn;
        amcw_add fuel (store_cons s cn (set_c_strength c strength)) (Some cn)
      else
        s ← (if negb (sym_id (c_marker c) =? 0) then
               let diff := (strength - c_strength c)%float in
               ob ← amcw_mergerow s (objective s) (c_marker c) diff;
               ob ← amcw_mergerow s ob (c_other c) diff;
               '(_, _, s) ← amcw_optimize fuel (set_objective s ob) None;
               if c_true (auto_update s) then amcw_updatevars s else Done s
             else Done s);
        c ← load_cons s cn;
        Done (AMCW_OK, store_cons s cn (set_c_strength c strength))
  end.

(** *** Constraint construction *)

Definition amcw_newconstraint (s : amcw_Solver) (strength : amcw_Num)
    : res (nat * amcw_Solver) :=
  let strength := if amcw_nearzero strength then AMCW_REQUIRED else strength in
  let s := set_constraint_count s (wrap32 (constraint_count s + 1)) in
  let key := mkSym (Z.land (constraint_count s) 0x3FFFFFFF) AMCW_EXTERNAL in
  let c := mkCons amcw_initrow amcw_null amcw_null 0 strength in
  '(ce, t) ← amcw_settable (constraints s) key;
  Done (ce, set_constraints s (alter_entry (set_val (Some c)) ce t)).

Definition amcw_delvariable (fuel : nat) (s : amcw_Solver) (var : option nat)
    : res amcw_Solver :=
  match var with
  | None => Done s
  | Some var =>
      v ← load_var s var;
      let v := set_v_refcount v (wrap32 (v_refcount v - 1)) in
      let s := store_var s var v in
      if v_refcount v <=? 0 then
        e ← amcw_gettable (vars s) (v_sym v);
        match e with
        | None => Abort
        | Some e =>
            let s := set_vars s (amcw_delkey (vars s) e) in
            cons ← cons_of_handle s (v_constraint v);
            amcw_remove fuel s cons
        end
      else Done s
  end.

Definition amcw_addterm (s : amcw_Solver) (cons var : option nat) (multiplier : amcw_Num)
    : res (Z * amcw_Solver) :=
  match cons, var with
  | Some cn, Some var =>
      c ← load_cons s cn;
      v ← load_var s var;
      if negb (sym_id (c_marker c) =? 0) then Done (AMCW_FAILED, s)
      else
        _ ← c_assert (negb (sym_id (v_sym v) =? 0));
        let multiplier :=
          if c_relation c =? AMCW_GREATEQUAL then (- multiplier)%float else multiplier in
        e ← amcw_addvar (c_expression c) (v_sym v) multiplier;
        s ← amcw_usevariable (store_cons s cn (set_c_expression c e)) (Some var);
        Done (AMCW_OK, s)
  | _, _ => Done (AMCW_FAILED, s)
  end.

Definition amcw_addconstant (s : amcw_Solver) (cons : option nat) (constant_ : amcw_Num)
    : res (Z * amcw_Solver) :=
  match cons with
  | Some cn =>
      c ← load_cons s cn;
      if negb (sym_id (c_marker c) =? 0) then Done (AMCW_FAILED, s)
      else
        let k := if c_relation c =? AMCW_GREATEQUAL then (- constant_)%float else constant_ in
        let e := set_constant (c_expression c) (constant (c_expression c) + k)%float in
        Done (AMCW_OK, store_cons s cn (set_c_expression c e))
  | None => Done (AMCW_FAILED, s)
  end.

Definition amcw_setrelation (s : amcw_Solver) (cons : option nat) (relation : Z)
    : res (Z * amcw_Solver) :=
  _ ← c_assert ((AMCW_LESSEQUAL <=? relation) && (relation <=? AMCW_GREATEQUAL));
  match cons with
  | Some cn =>
      c ← load_cons s cn;
      if negb (sym_id (c_marker c) =? 0) || negb (c_relation c =? 0)
      then Done (AMCW_FAILED, s)
      else
        let e :=
          if negb (relation =? AMCW_GREATEQUAL)
          then amcw_multiply (c_expression c) (-1)%float else c_expression c in
        Done (AMCW_OK, store_cons s cn (set_c_relation (set_c_expression c e) relation))
  | None => Done (AMCW_FAILED, s)
  end.

Definition delconstraint_step (fuel : nat) (s : amcw_Solver)
    (term : amcw_Entry amcw_Num) : res amcw_Solver :=
  v ← amcw_sym2var s (e_key term);
  amcw_delvariable fuel s (Some v).

Definition amcw_delconstraint (fuel : nat) (s : amcw_Solver) (cons : option nat)
    : res amcw_Solver :=
  match cons with
  | None => Done s
  | Some cn =>
      s ← amcw_remove fuel s (Some cn);
      ke ← entry_at (constraints s) cn;
      ce ← amcw_gettable (constraints s) (e_key ke);
      match ce with
      | None => Abort
      | Some ce =>
          c ← load_cons s cn;
          let s := set_constraints s (amcw_delkey (constraints s) ce) in
          s ← res_foldl (delconstraint_step fuel) s (live_entries (terms (c_expression c)));
          Done (store_cons s cn (set_c_expression c (amcw_freerow (c_expression c))))
      end
  end.

(** *** Edit variables *)

Definition amcw_addedit (fuel : nat) (s : amcw_Solver) (var : option nat)
    (strength : amcw_Num) : res (Z * amcw_Solver) :=
  match var with
  | None => Done (AMCW_FAILED, s)
  | Some var =>
      v ← load_var s var;
      let strength := if (AMCW_STRONG <=? strength)%float then AMCW_STRONG else strength in
      match v_constraint v with
      | Some c =>
          cons ← cons_of_handle s (Some c);
          amcw_setstrength fuel s cons strength
      | None =>
          _ ← c_assert (negb (sym_id (v_sym v) =? 0));
          '(cn, s) ← amcw_newconstraint s strength;
          '(_, s) ← amcw_setrelation s (Some cn) AMCW_EQUAL;
          '(_, s) ← amcw_addterm s (Some cn) (Some var) 1%float;
          v ← load_var s var;
          '(_, s) ← amcw_addconstant s (Some cn) (- v_value v)%float;
          '(ret, s) ← amcw_add fuel s (Some cn);
          _ ← c_assert (ret =? AMCW_OK);
          ke ← entry_at (constraints s) cn;
          v ← load_var s var;
          let v := set_v_constraint v (Some (sym_id (e_key ke))) in
          Done (AMCW_OK, store_var s var (set_v_edit_value v (v_value v)))
      end
  end.

Definition amcw_deledit (fuel : nat) (s : amcw_Solver) (var : option nat)
    : res amcw_Solver :=
  match var with
  | None => Done s
  | Some var =>
      v ← load_var s var;
      match v_constraint v with
      | None => Done s
      | Some c =>
          cons ← cons_of_handle s (Some c);
          s ← amcw_delconstraint fuel s cons;
          v ← load_var s var;
          Done (store_var s var (set_v_edit_value (set_v_constraint v None) 0%float))
      end
  end.

Definition amcw_suggest (fuel : nat) (s : amcw_Solver) (var : option nat)
    (value : amcw_Num) : res amcw_Solver :=
  match var with
  | None => Done s
  | Some var =>
      v ← load_var s var;
      s ← (match v_constraint v with
           | None =>
               '(_, s) ← amcw_addedit fuel s (Some var) AMCW_MEDIUM;
               v ← load_var s var;
               _ ← c_assert (bool_decide (v_constraint v ≠ None));
               Done s
           | Some _ => Done s
           end);
      v ← load_var s var;
      let delta := (value - v_edit_value v)%float in
      let s := store_var s var (set_v_edit_value v value) in
      cons ← cons_of_handle s (v_constraint v);
      match cons with
      | None => Abort
      | Some cn =>
          s ← amcw_delta_edit_constant s delta cn;
          s ← amcw_dual_optimize fuel s;
          if c_true (auto_update s) then amcw_updatevars s else Done s
      end
  end.

Definition amcw_newsolver : amcw_Solver :=
  mkSolver amcw_initrow (amcw_inittable sizeof_VarEntry)
    (amcw_inittable sizeof_ConsEntry) (amcw_inittable sizeof_Row)
    0 0 0 amcw_null amcw_null.

(** ** Client programs

    A client keeps the ids of its variables and constraints and turns them
    into pointers when it calls the solver. *)

Definition client_fuel : nat := 50.

Definition new_var (s : amcw_Solver) : res (Z * amcw_Solver) :=
  '(p, s) ← amcw_newvariable s;
  id ← amcw_variableid s (Some p);
  Done (id, s).

Definition new_cons (s : amcw_Solver) (strength : amcw_Num) : res (Z * amcw_Solver) :=
  '(p, s) ← amcw_newconstraint s strength;
  ke ← entry_at (constraints s) p;
  Done (sym_id (e_key ke), s).

Definition add_term (s : amcw_Solver) (c v : Z) (k : amcw_Num) : res amcw_Solver :=
  cp ← cons_of_handle s (Some c);
  vp ← var_of_handle s (Some v);
  '(r, s) ← amcw_addterm s cp vp k;
  _ ← c_assert (r =? AMCW_OK);
  Done s.

Fixpoint add_terms (s : amcw_Solver) (c : Z) (l : list (Z * amcw_Num)) : res amcw_Solver :=
  match l with
  | [] => Done s
  | (v, k) :: l' => s ← add_term s c v k; add_terms s c l'
  end.

Definition add_constant (s : amcw_Solver) (c : Z) (k : amcw_Num) : res amcw_Solver :=
  cp ← cons_of_handle s (Some c);
  '(r, s) ← amcw_addconstant s cp k;
  _ ← c_assert (r =? AMCW_OK);
  Done s.

Definition set_relation (s : amcw_Solver) (c : Z) (rel : Z) : res amcw_Solver :=
  cp ← cons_of_handle s (Some c);
  '(r, s) ← amcw_setrelation s cp rel;
  _ ← c_assert (r =? AMCW_OK);
  Done s.

(** The constraint [lhs + lc  rel  rhs + rc] at a strength. *)
Definition build_cons (s : amcw_Solver) (strength : amcw_Num)
    (lhs : list (Z * amcw_Num)) (lc : amcw_Num) (rel : Z)
    (rhs : list (Z * amcw_Num)) (rc : amcw_Num) : res (Z * amcw_Solver) :=
  '(c, s) ← new_cons s strength;
  s ← add_terms s c lhs;
  s ← add_constant s c lc;
  s ← set_relation s c rel;
  s ← add_terms s c rhs;
  s ← add_constant s c rc;
  Done (c, s).

Definition add_cons (s : amcw_Solver) (c : Z) : res (Z * amcw_Solver) :=
  cp ← cons_of_handle s (Some c); amcw_add client_fuel s cp.

Definition add_edit (s : amcw_Solver) (v : Z) (strength : amcw_Num)
    : res (Z * amcw_Solver) :=
  vp ← var_of_handle s (Some v); amcw_addedit client_fuel s vp strength.

Definition get_cons (s : amcw_Solver) (c : Z) : res amcw_Constraint :=
  cp ← cons_of_handle s (Some c);
  match cp with Some cp => load_cons s cp | None => Abort end.


(** ** Statements about the symbol allocator *)

(** The states that allocations alone reach from a new solver. *)
Inductive alloc_reachable : amcw_Solver → Prop :=
| alloc_init : alloc_reachable amcw_newsolver
| alloc_step s type sym s' :
    alloc_reachable s →
    amcw_newsymbol s type = Done (sym, s') →
    alloc_reachable s'.


(** ** Concrete solver states *)

(** A solver with one variable. *)
Definition solver_x : amcw_Solver :=
  Eval vm_compute in
    match new_var amcw_newsolver with Done (_, s) => s | _ => amcw_newsolver end.

(** [add_edit(x, 0.0)] on a new variable: the return code, and the strength
    and marker of the edit constraint that was installed. *)
Definition edit_at_zero : res (Z * amcw_Num * amcw_Symbol) :=
  '(r, s) ← add_edit solver_x 1 0%float;
  c ← get_cons s 1;
  Done (r, c_strength c, c_marker c).

(** [x] has an edit at MEDIUM (its value then is 0) and the required
    constraint [x = 5] is installed; then [add_edit(x, 0.0)]. *)
Definition edit_restrengthened_at_zero : res (Z * amcw_Num) :=
  '(_, s) ← add_edit solver_x 1 AMCW_MEDIUM;
  '(c, s) ← build_cons s AMCW_REQUIRED [(1, 1%float)] 0%float AMCW_EQUAL [] 5%float;
  '(_, s) ← add_cons s c;
  '(r, s) ← add_edit s 1 0%float;
  e ← get_cons s 1;
  Done (r, c_strength e).

(** The required constraint [x = 5] is installed and the value of [x] was
    not updated; then [add_edit(x, 0.0)]. *)
Definition edit_at_zero_stale : res Z :=
  '(c, s) ← build_cons solver_x AMCW_REQUIRED [(1, 1%float)] 0%float AMCW_EQUAL [] 5%float;
  '(_, s) ← add_cons s c;
  '(r, _) ← add_edit s 1 0%float;
  Done r.



(** A constraint that was created and not added. *)
Definition solver_c : amcw_Solver :=
  Eval vm_compute in
    match new_cons solver_x AMCW_MEDIUM with Done (_, s) => s | _ => amcw_newsolver end.

(** ** What a table holds *)

(** The key and payload that a slot holds, if its key is not null. *)
Definition cell {A} (e : amcw_Entry A) : list (amcw_Symbol * A) :=
  if decide (sym_id (e_key e) = 0) then [] else [(e_key e, e_val e)].

(** The keys and payloads of the live slots, in slot order. *)
Definition contents {A} (h : list (amcw_Entry A)) : list (amcw_Symbol * A) :=
  h ≫= cell.
Arguments cell : simpl never.
Arguments contents : simpl never.

(** What [amcw_newkey] promises: the new slot holds [key], and the table
    holds what it held, and the new slot. *)
Definition newkey_post {A} (t : amcw_Table A) (key : amcw_Symbol) (e : nat)
    (t' : amcw_Table A) : Prop :=
  t_count t' = t_count t ∧ t_entry_size t' = t_entry_size t ∧
  ∃ ent, t_hash t' !! e = Some ent ∧ e_key ent = key ∧
    contents (t_hash t') ≡ₚ (key, e_val ent) :: contents (t_hash t).

Definition newkey_ok {A}
    (nk : amcw_Table A → amcw_Symbol → res (nat * amcw_Table A)) : Prop :=
  ∀ t key e t',
    sym_id key ≠ 0 → sizeof_Entry < t_entry_size t →
    nk t key = Done (e, t') → newkey_post t key e t'.

(** The part of a slot array that lookups read. *)
Definition shape {A} (h : list (amcw_Entry A)) : list (Z * amcw_Symbol) :=
  (λ e, (e_next e, e_key e)) <$> h.

(** ** Statements about rows *)

(** The terms that a row stores: symbol and coefficient. *)
Definition row_terms (row : amcw_Row) : list (amcw_Symbol * float) :=
  contents (t_hash (terms row)).



(** The terms table of a row has entries of the size of [amcw_Term]. *)
Definition row_sized (row : amcw_Row) : Prop :=
  t_entry_size (terms row) = sizeof_Term.




(** ** Statements about a failed [amcw_add] *)




(** ** Statements about the pivot of [amcw_optimize] *)

(** The row in slot [row] of the tableau, keyed by [key], can leave the
    basis when [enter] enters it: its key is pivotable and it has a term for
    [enter] whose coefficient is not positive; [ratio] is its ratio. *)
Definition exit_candidate (s : amcw_Solver) (enter : amcw_Symbol) (row : nat)
    (key : amcw_Symbol) (ratio : float) : Prop :=
  ∃ re term te,
    t_hash (rows s) !! row = Some re ∧ e_key re = key ∧
    amcw_gettable (terms (e_val re)) enter = Done (Some term) ∧
    t_hash (terms (e_val re)) !! term = Some te ∧
    amcw_ispivotable key = true ∧ (0 <? e_val te)%float = false ∧
    ratio = (- constant (e_val re) / e_val te)%float.

(** A candidate with this ratio and key replaces the choice made so far. *)
Definition beats (ratio : float) (key : amcw_Symbol) (acc : float * amcw_Symbol) : bool :=
  (ratio <? acc.1)%float || (amcw_approx ratio acc.1 && (sym_id key <? sym_id acc.2)).

(** Among the candidates whose ratio is within EPS of the ratio of the row
    that leaves, none has a smaller key id than that row. *)
Definition exit_ties_to_smaller_id : Prop :=
  ∀ s enter min exit,
    optimize_exit s enter = Done (min, exit) →
    ∀ row key ratio,
      row ∈ amcw_entries (rows s) →
      exit_candidate s enter row key ratio →
      amcw_approx ratio min = true →
      sym_id exit ≤ sym_id key.

(** The weak constraint [x = 0] and the required constraints [x <= 1] and
    [x <= 0.9999995] are installed, and the row of the medium constraint
    [x = 100] was added: the solver as [amcw_add] passes it to
    [amcw_optimize]. *)
Definition solver_before_pivot : amcw_Solver :=
  Eval vm_compute in
    match
      '(c1, s) ← build_cons solver_x AMCW_WEAK [(1, 1%float)] 0%float
                   AMCW_EQUAL [] 0%float;
      '(_, s) ← add_cons s c1;
      '(c2, s) ← build_cons s AMCW_REQUIRED [(1, 1%float)] 0%float
                   AMCW_LESSEQUAL [] 1%float;
      '(_, s) ← add_cons s c2;
      '(c3, s) ← build_cons s AMCW_REQUIRED [(1, 1%float)] 0%float
                   AMCW_LESSEQUAL [] 0.9999995%float;
      '(_, s) ← add_cons s c3;
      '(c4, s) ← build_cons s AMCW_MEDIUM [(1, 1%float)] 0%float
                   AMCW_EQUAL [] 100%float;
      cp ← cons_of_handle s (Some c4);
      match cp with
      | Some cn =>
          '(row, s) ← amcw_makerow s cn;
          '(_, s) ← amcw_try_addrow client_fuel s row cn;
          Done s
      | None => Abort
      end
    with
    | Done s => s
    | _ => amcw_newsolver
    end.

(** ** Statements about [amcw_updatevars] *)

(** What [amcw_updatevars] publishes for the symbol of a variable: the
    constant of the row keyed by it, or 0 when there is no such row. *)
Definition row_value (s : amcw_Solver) (sym : amcw_Symbol) : res amcw_Num :=
  row ← amcw_gettable (rows s) sym;
  match row with
  | Some row => r ← load_row s row; Done (constant r)
  | None => Done 0%float
  end.

(** The dirty list from [sym]: the slots of the variables that the links
    [dirty_next] go through, up to the first symbol, [last], whose id
    is 0. *)
Inductive dirty_list (s : amcw_Solver) : amcw_Symbol → list nat → amcw_Symbol → Prop :=
| dirty_nil sym : sym_id sym = 0 → dirty_list s sym [] sym
| dirty_cons sym var v l last :
    sym_id sym ≠ 0 →
    amcw_sym2var s sym = Done var →
    load_var s var = Done v →
    dirty_list s (v_dirty_next v) l last →
    dirty_list s sym (var :: l) last.

(** A variable whose value was published. *)
Definition published (v : amcw_Var) (x : amcw_Num) : amcw_Var :=
  set_v_value (set_v_dirty_next v amcw_null) x.

(** [s1] is [s] but for the variables and the head of the dirty list. *)
Definition same_but_vars (s s1 : amcw_Solver) : Prop :=
  objective s1 = objective s ∧ constraints s1 = constraints s ∧
  rows s1 = rows s ∧ symbol_count s1 = symbol_count s ∧
  constraint_count s1 = constraint_count s ∧ auto_update s1 = auto_update s ∧
  infeasible_rows s1 = infeasible_rows s ∧
  t_count (vars s1) = t_count (vars s) ∧
  t_entry_size (vars s1) = t_entry_size (vars s) ∧
  t_lastfree (vars s1) = t_lastfree (vars s) ∧
  shape (t_hash (vars s1)) = shape (t_hash (vars s)).

(** The variables in the slots [l] of [s] were published in [s1], and no
    other slot of the variables changed. *)
Definition published_in (s : amcw_Solver) (l : list nat) (s1 : amcw_Solver) : Prop :=
  (∀ var, var ∈ l →
     ∃ v x, load_var s var = Done v ∧ row_value s (v_sym v) = Done x ∧
            load_var s1 var = Done (published v x)) ∧
  (∀ var, var ∉ l → t_hash (vars s1) !! var = t_hash (vars s) !! var).

(** Two variables, and the required constraints [x = 10] and [y = x + 2]
    added without [amcw_updatevars]. *)
Definition solver_dirty : amcw_Solver :=
  Eval vm_compute in
    match
      '(_, s) ← new_var solver_x;
      '(c1, s) ← build_cons s AMCW_REQUIRED [(1, 1%float)] 0%float
                   AMCW_EQUAL [] 10%float;
      '(_, s) ← add_cons s c1;
      '(c2, s) ← build_cons s AMCW_REQUIRED [(2, 1%float)] 0%float
                   AMCW_EQUAL [(1, 1%float)] 2%float;
      '(_, s) ← add_cons s c2;
      Done s
    with
    | Done s => s
    | _ => amcw_newsolver
    end.

(** ** Statements about [amcw_suggest] *)

(** The outcome of [amcw_infeasible] for a row: when its constant is
    negative, the row is on the list of infeasible rows. *)
Definition marked_infeasible (r : amcw_Row) : Prop :=
  (constant r <? 0)%float = true → amcw_isdummy (infeasible_next r) = true.

(** The variable of an external symbol is on the dirty list. *)
Definition marked_dirty (s : amcw_Solver) (sym : amcw_Symbol) : Prop :=
  ∃ var v, amcw_sym2var s sym = Done var ∧ load_var s var = Done v ∧
           sym_type (v_dirty_next v) = AMCW_DUMMY.

(** The slot [row] of the rows holds in [s1] the row that [re] held, with
    the constant [x]. *)
Definition row_with_constant (re : amcw_Entry amcw_Row) (x : amcw_Num) (row : nat)
    (s1 : amcw_Solver) (re1 : amcw_Entry amcw_Row) : Prop :=
  t_hash (rows s1) !! row = Some re1 ∧ e_key re1 = e_key re ∧
  e_next re1 = e_next re ∧ terms (e_val re1) = terms (e_val re) ∧
  constant (e_val re1) = x.

(** ** The queues of the solver *)

(** The list of infeasible rows from [sym], as [amcw_dual_optimize] walks
    it: the slots of the rows that the links [infeasible_next] go through,
    up to a symbol whose id is 0.  The link of a row on the list has the
    kind Dummy. *)
Inductive infeasible_list (s : amcw_Solver) : amcw_Symbol → list nat → Prop :=
| infeasible_nil sym : sym_id sym = 0 → infeasible_list s sym []
| infeasible_cons sym row re l :
    sym_id sym ≠ 0 →
    amcw_gettable (rows s) sym = Done (Some row) →
    t_hash (rows s) !! row = Some re →
    amcw_isdummy (infeasible_next (e_val re)) = true →
    infeasible_list s (infeasible_next (e_val re)) l →
    infeasible_list s sym (row :: l).

(** [l] is the queue of infeasible rows: the list from [infeasible_rows],
    and it holds every row of the tableau whose link has the kind Dummy. *)
Definition infeasible_queue (s : amcw_Solver) (l : list nat) : Prop :=
  infeasible_list s (infeasible_rows s) l ∧
  ∀ row re, row ∈ amcw_entries (rows s) → t_hash (rows s) !! row = Some re →
    amcw_isdummy (infeasible_next (e_val re)) = true → row ∈ l.

(** [d] is the queue of dirty variables: the list from [dirty_vars], and
    it holds the variables whose link has the kind Dummy, and no other;
    every variable is stored under its own symbol. *)
Definition dirty_queue (s : amcw_Solver) (d : list nat) : Prop :=
  (∃ last, dirty_list s (dirty_vars s) d last) ∧
  ∀ var e v, var ∈ amcw_entries (vars s) → t_hash (vars s) !! var = Some e →
    e_val e = Some v →
    sym_id (v_sym v) = sym_id (e_key e) ∧
    (sym_type (v_dirty_next v) = AMCW_DUMMY ↔ var ∈ d).

(** What [amcw_infeasible] did with the row in slot [row], which was [re]
    in [s] and is [re1] in [s1]: when its constant is negative and its link
    did not have the kind Dummy, the row is the new head of the list of
    infeasible rows, linked to the old head; else the head and the link are
    as they were.  If [l] was the queue of infeasible rows, the queue is
    then [row :: l], respectively [l], and a row with a negative constant
    is on it. *)
Definition enqueued_if_negative (s : amcw_Solver) (row : nat)
    (re re1 : amcw_Entry amcw_Row) (s1 : amcw_Solver) : Prop :=
  let pushed := (constant (e_val re1) <? 0)%float &&
                negb (amcw_isdummy (infeasible_next (e_val re))) in
  (if pushed
   then infeasible_rows s1 = e_key re ∧
        infeasible_next (e_val re1) = mkSym (sym_id (infeasible_rows s)) AMCW_DUMMY
   else infeasible_rows s1 = infeasible_rows s ∧
        infeasible_next (e_val re1) = infeasible_next (e_val re)) ∧
  ∀ l, infeasible_queue s l →
    infeasible_queue s1 (if pushed then row :: l else l) ∧
    ((constant (e_val re1) <? 0)%float = true →
     row ∈ (if pushed then row :: l else l)).

(** The first two cases of [amcw_delta_edit_constant]: the constant of the
    row in slot [row] went from [x] to [f x], the row was then enqueued as
    infeasible if the new constant is negative, and nothing else of the
    tableau or of the variables changed. *)
Definition edit_row_moved (s : amcw_Solver) (row : nat) (f : amcw_Num → amcw_Num)
    (s1 : amcw_Solver) : Prop :=
  ∃ re re1, t_hash (rows s) !! row = Some re ∧
    row_with_constant re (f (constant (e_val re))) row s1 re1 ∧
    marked_infeasible (e_val re1) ∧
    enqueued_if_negative s row re re1 s1 ∧
    (∀ r, r ≠ row → t_hash (rows s1) !! r = t_hash (rows s) !! r) ∧
    vars s1 = vars s ∧ dirty_vars s1 = dirty_vars s ∧ objective s1 = objective s.

(** The third case, for one row: a row without the marker is as it was; a
    row with the marker at coefficient [k] has [k * delta] added to its
    constant, and its variable is marked dirty when its key is external,
    and else the row was passed to [amcw_infeasible]. *)
Definition delta_applied (delta : amcw_Num) (re : amcw_Entry amcw_Row)
    (term : option nat) (row : nat) (s1 : amcw_Solver) : Prop :=
  match term with
  | None => t_hash (rows s1) !! row = Some re
  | Some term =>
      ∃ te re1, t_hash (terms (e_val re)) !! term = Some te ∧
        row_with_constant re (constant (e_val re) + e_val te * delta)%float row s1 re1 ∧
        if amcw_isexternal (e_key re)
        then marked_dirty s1 (e_key re) ∧
             infeasible_next (e_val re1) = infeasible_next (e_val re)
        else marked_infeasible (e_val re1)
  end.

(** The third case of [amcw_delta_edit_constant], for every row of the
    tableau. *)
Definition marker_column_moved (s : amcw_Solver) (marker : amcw_Symbol)
    (delta : amcw_Num) (s1 : amcw_Solver) : Prop :=
  ∀ row re term,
    row ∈ amcw_entries (rows s) → t_hash (rows s) !! row = Some re →
    amcw_gettable (terms (e_val re)) marker = Done term →
    delta_applied delta re term row s1.

(** The third case of [amcw_delta_edit_constant] and the queues: the
    queues of [s], [l] and [d], have grown at their heads to the queues of
    [s1]; the variable of every external row that holds the marker is on
    the queue of dirty variables, and every other row that holds the marker
    and has a negative constant is on the queue of infeasible rows. *)
Definition marker_column_queued (s : amcw_Solver) (marker : amcw_Symbol)
    (l d : list nat) (s1 : amcw_Solver) : Prop :=
  ∃ l1 d1, infeasible_queue s1 l1 ∧ dirty_queue s1 d1 ∧
    l `suffix_of` l1 ∧ d `suffix_of` d1 ∧
    ∀ row re term re1,
      row ∈ amcw_entries (rows s) → t_hash (rows s) !! row = Some re →
      amcw_gettable (terms (e_val re)) marker = Done (Some term) →
      t_hash (rows s1) !! row = Some re1 →
      if amcw_isexternal (e_key re)
      then ∃ var, amcw_sym2var s (e_key re) = Done var ∧ var ∈ d1
      else (constant (e_val re1) <? 0)%float = true → row ∈ l1.

(** The variable of an external symbol can be read. *)
Definition has_var (s : amcw_Solver) (sym : amcw_Symbol) : Prop :=
  ∃ var v, amcw_sym2var s sym = Done var ∧ load_var s var = Done v.

(** The scan of the third case can read what it needs: whether a row
    holds the marker, and the variables of the external row keys. *)
Definition rows_readable (s : amcw_Solver) (marker : amcw_Symbol) : Prop :=
  ∀ row re, row ∈ amcw_entries (rows s) → t_hash (rows s) !! row = Some re →
    (∃ term, amcw_gettable (terms (e_val re)) marker = Done term) ∧
    (amcw_isexternal (e_key re) = true → has_var s (e_key re)).

(** A solver with one variable that has an edit constraint at MEDIUM. *)
Definition solver_edit : amcw_Solver :=
  Eval vm_compute in
    match add_edit solver_x 1 AMCW_MEDIUM with
    | Done (_, s) => s
    | _ => amcw_newsolver
    end.

(** ** Well-formed tables *)

(** The slot [i] is chained to the slot [j]. *)
Definition link {A} (h : list (amcw_Entry A)) (i j : nat) : Prop :=
  ∃ e, h !! i = Some e ∧ e_next e ≠ 0 ∧ Z.of_nat j = Z.of_nat i + e_next e.

(** The chain from the slot [a] reaches the slot [c] through the slots [l]. *)
Inductive chain {A} (h : list (amcw_Entry A)) : nat → list nat → nat → Prop :=
| chain_end a : chain h a [] a
| chain_step a b l c : link h a b → chain h b l c → chain h a (a :: l) c.

(** The invariant of [amcw_newkey] and [amcw_delkey]: no key is stored
    twice; the chain from the main position of a stored key reaches its
    slot, through no slot twice; the slots below [lastfree] are chained to
    by no slot, and every slot by at most one; and a slot that holds a key
    out of its main position is the main position of no stored key. *)
Record table_wf {A} (t : amcw_Table A) : Prop := mkWf {
  wf_ids : NoDup ((λ p, sym_id p.1) <$> contents (t_hash t));
  wf_path : ∀ i e, t_hash t !! i = Some e → sym_id (e_key e) ≠ 0 →
    ∃ l, chain (t_hash t) (amcw_mainposition t (e_key e)) l i ∧ NoDup (l ++ [i]);
  wf_free : ∀ i j, link (t_hash t) i j → (t_lastfree t ≤ j)%nat;
  wf_pred : ∀ i i' j, link (t_hash t) i j → link (t_hash t) i' j → i = i';
  wf_main : ∀ m e i e',
    t_hash t !! m = Some e → sym_id (e_key e) ≠ 0 →
    amcw_mainposition t (e_key e) ≠ m →
    t_hash t !! i = Some e' → sym_id (e_key e') ≠ 0 →
    amcw_mainposition t (e_key e') ≠ m
}.

(** The slots of a chain after the slot [f] was chained in behind [mp]. *)
Definition chain_insert (mp f : nat) (l : list nat) : list nat :=
  l ≫= (λ x, if decide (x = mp) then [mp; f] else [x]).

(** The slot [f] in the place of the slot [mp]. *)
Definition moved_to (mp f : nat) (x : nat) : nat := if decide (x = mp) then f else x.

(** The ids of the keys that a table stores. *)
Definition table_ids {A} (t : amcw_Table A) : list Z :=
  (λ p, sym_id p.1) <$> contents (t_hash t).

(** What [amcw_newkey] keeps: a well-formed table, when the key is new. *)
Definition newkey_wf {A}
    (nk : amcw_Table A → amcw_Symbol → res (nat * amcw_Table A)) : Prop :=
  ∀ t key e t',
    sym_id key ≠ 0 → sizeof_Entry < t_entry_size t → sym_id key ∉ table_ids t →
    table_wf t → nk t key = Done (e, t') → table_wf t'.

(** The terms table of a row is well formed. *)
Definition terms_wf (r : amcw_Row) : Prop := row_sized r ∧ table_wf (terms r).

(** *** A test of well-formedness *)

(** The slots from [a] to [c] along the chain, [c] left out. *)
Fixpoint walk_to {A} (fuel : nat) (h : list (amcw_Entry A)) (a c : nat)
    : option (list nat) :=
  match fuel with
  | O => None
  | S fuel' =>
      if decide (a = c) then Some []
      else
        match h !! a with
        | Some e =>
            if (e_next e =? 0) || (Z.of_nat a + e_next e <? 0) then None
            else (a ::.) <$> walk_to fuel' h (Z.to_nat (Z.of_nat a + e_next e)) c
        | None => None
        end
  end.

Definition slots {A} (h : list (amcw_Entry A)) : list (nat * amcw_Entry A) :=
  imap pair h.

Definition path_okb {A} (t : amcw_Table A) (i : nat) (e : amcw_Entry A) : bool :=
  (sym_id (e_key e) =? 0) ||
  match walk_to (t_size t) (t_hash t) (amcw_mainposition t (e_key e)) i with
  | Some l => bool_decide (NoDup (l ++ [i]))
  | None => false
  end.

Definition free_okb {A} (t : amcw_Table A) (i : nat) (e : amcw_Entry A) : bool :=
  (e_next e =? 0) ||
  bool_decide (t_lastfree t ≤ Z.to_nat (Z.of_nat i + e_next e))%nat.

Definition pred_okb {A} (t : amcw_Table A) (i : nat) (e : amcw_Entry A) : bool :=
  forallb (λ p, (e_next e =? 0) || (e_next p.2 =? 0) ||
                negb (Z.of_nat i + e_next e =? Z.of_nat p.1 + e_next p.2) ||
                bool_decide (i = p.1))
    (slots (t_hash t)).

Definition main_okb {A} (t : amcw_Table A) (i : nat) (e : amcw_Entry A) : bool :=
  (sym_id (e_key e) =? 0) || bool_decide (amcw_mainposition t (e_key e) = i) ||
  forallb (λ p, (sym_id (e_key p.2) =? 0) ||
                negb (bool_decide (amcw_mainposition t (e_key p.2) = i)))
    (slots (t_hash t)).

Definition table_wfb {A} (t : amcw_Table A) : bool :=
  bool_decide (NoDup (table_ids t)) &&
  forallb (λ p, path_okb t p.1 p.2 && free_okb t p.1 p.2 &&
                pred_okb t p.1 p.2 && main_okb t p.1 p.2)
    (slots (t_hash t)).

(** ** Statements about the basis *)

(** The ids of the symbols of the terms that a row stores. *)
Definition row_ids (r : amcw_Row) : list Z := (λ p, sym_id p.1) <$> row_terms r.






(** The first required constraint [x = 1] is installed, and the row of the
    second one was made: the solver and the row as [amcw_add] passes them
    to [amcw_try_addrow]. *)
Definition redundant_before_install : res (amcw_Row * amcw_Solver) :=
  '(c1, s) ← build_cons solver_x AMCW_REQUIRED [(1, 1%float)] 0%float AMCW_EQUAL [] 1%float;
  '(_, s) ← add_cons s c1;
  '(c2, s) ← build_cons s AMCW_REQUIRED [(1, 1%float)] 0%float AMCW_EQUAL [] 1%float;
  cp ← cons_of_handle s (Some c2);
  match cp with
  | Some cn => amcw_makerow s cn
  | None => Abort
  end.


Definition redundant_solver : amcw_Solver :=
  Eval vm_compute in
    match redundant_before_install with Done (_, s) => s | _ => amcw_newsolver end.

(** ** Statements about the coefficients of a row *)


(** ** Statements about the symbols in use *)



(** ** Statements about iteration and lookups *)

(** The slots that repeated calls of [amcw_nextentry] return, from the
    pointer [pentry] on, until it returns 0. *)
Fixpoint nextentry_visits {A} (fuel : nat) (t : amcw_Table A) (pentry : option nat)
    : list nat :=
  match fuel with
  | O => []
  | S fuel' =>
      match amcw_nextentry t pentry with
      | Some e => e :: nextentry_visits fuel' t (Some e)
      | None => []
      end
  end.

(** The payload that a lookup of [key] reads. *)
Definition table_get {A} (t : amcw_Table A) (key : amcw_Symbol) : res (option A) :=
  e ← amcw_gettable t key;
  match e with
  | Some e => ent ← entry_at t e; Done (Some (e_val ent))
  | None => Done None
  end.

(** ** Merging, cloning and resetting

    [amcw_mergeconstraint], [amcw_cloneconstraint],
    [amcw_resetconstraint] and [amcw_resetsolver]. *)

(** The loop of [amcw_mergeconstraint]; [term] is its entry pointer.
    [cons] and [other] may be the same constraint, so every iteration
    reads the terms of [other] from the solver. *)
Fixpoint mergeconstraint_loop (fuel : nat) (s : amcw_Solver) (cn on : nat)
    (multiplier : amcw_Num) (term : option nat) : res amcw_Solver :=
  match fuel with
  | O => Timeout
  | S fuel' =>
      o ← load_cons s on;
      match amcw_nextentry (terms (c_expression o)) term with
      | None => Done s
      | Some e =>
          te ← entry_at (terms (c_expression o)) e;
          v ← amcw_sym2var s (e_key te);
          s ← amcw_usevariable s (Some v);
          c ← load_cons s cn;
          ex ← amcw_addvar (c_expression c) (e_key te) (e_val te * multiplier)%float;
          mergeconstraint_loop fuel' (store_cons s cn (set_c_expression c ex))
            cn on multiplier (Some e)
      end
  end.

Definition amcw_mergeconstraint (s : amcw_Solver) (cons other : option nat)
    (multiplier : amcw_Num) : res (Z * amcw_Solver) :=
  match cons, other with
  | Some cn, Some on =>
      c ← load_cons s cn;
      if negb (sym_id (c_marker c) =? 0) then Done (AMCW_FAILED, s)
      else
        let multiplier :=
          if c_relation c =? AMCW_GREATEQUAL then (- multiplier)%float else multiplier in
        o ← load_cons s on;
        let e := set_constant (c_expression c)
                   (constant (c_expression c) + constant (c_expression o) * multiplier)%float in
        let s := store_cons s cn (set_c_expression c e) in
        s ← mergeconstraint_loop (S (t_size (terms (c_expression o)))) s cn on
              multiplier None;
        Done (AMCW_OK, s)
  | _, _ => Done (AMCW_FAILED, s)
  end.

(** [amcw_cloneconstraint].  The entry of [other] can move when the new
    constraint is entered in the table, so its slot is looked up again. *)
Definition amcw_cloneconstraint (s : amcw_Solver) (other : option nat)
    (strength : amcw_Num) : res (option nat * amcw_Solver) :=
  match other with
  | None => Done (None, s)
  | Some on =>
      o ← load_cons s on;
      ke ← entry_at (constraints s) on;
      '(cn, s) ← amcw_newconstraint s
                   (if amcw_nearzero strength then c_strength o else strength);
      on ← cons_of_handle s (Some (sym_id (e_key ke)));
      '(_, s) ← amcw_mergeconstraint s (Some cn) on 1%float;
      o ← match on with Some on => load_cons s on | None => Abort end;
      c ← load_cons s cn;
      Done (Some cn, store_cons s cn (set_c_relation c (c_relation o)))
  end.

Definition amcw_resetconstraint (fuel : nat) (s : amcw_Solver) (cons : option nat)
    : res amcw_Solver :=
  match cons with
  | None => Done s
  | Some cn =>
      s ← amcw_remove fuel s (Some cn);
      c ← load_cons s cn;
      let s := store_cons s cn (set_c_relation c 0) in
      s ← res_foldl (delconstraint_step fuel) s (live_entries (terms (c_expression c)));
      c ← load_cons s cn;
      Done (store_cons s cn (set_c_expression c (amcw_resetrow (c_expression c))))
  end.

(** The bodies of the three loops of [amcw_resetsolver]. *)
Definition resetsolver_step (fuel : nat) (s : amcw_Solver) (ve : nat) : res amcw_Solver :=
  v ← load_var s ve;
  cons ← cons_of_handle s (v_constraint v);
  s ← amcw_remove fuel s cons;
  v ← load_var s ve;
  Done (store_var s ve (set_v_constraint v None)).

Definition clear_marker_step (s : amcw_Solver) (ce : nat) : res amcw_Solver :=
  c ← load_cons s ce;
  if negb (sym_id (c_marker c) =? 0)
  then Done (store_cons s ce (set_c_other (set_c_marker c amcw_null) amcw_null))
  else Done s.

Definition drop_row_step (s : amcw_Solver) (row : nat) : res amcw_Solver :=
  let s := set_rows s (amcw_delkey (rows s) row) in
  r ← load_row s row;
  Done (store_row s row (amcw_freerow r)).

Definition amcw_resetsolver (fuel : nat) (s : amcw_Solver) (clear_constraints : Z)
    : res amcw_Solver :=
  s ← (if negb (c_true (auto_update s)) then amcw_updatevars s else Done s);
  s ← res_foldl (resetsolver_step fuel) s (amcw_entries (vars s));
  _ ← c_assert (amcw_nearzero (constant (objective s)));
  _ ← c_assert (sym_id (infeasible_rows s) =? 0);
  _ ← c_assert (sym_id (dirty_vars s) =? 0);
  if negb (c_true clear_constraints) then Done s
  else
    let s := set_objective s (amcw_resetrow (objective s)) in
    s ← res_foldl clear_marker_step s (amcw_entries (constraints s));
    res_foldl drop_row_step s (amcw_entries (rows s)).

(** ** What the solving operations leave alone *)

(** The fields of a variable that the solving operations do not write:
    all but its value and its link in the dirty list. *)
Definition var_kept (v v' : amcw_Var) : Prop :=
  v_sym v' = v_sym v ∧ v_refcount v' = v_refcount v ∧
  v_constraint v' = v_constraint v ∧ v_edit_value v' = v_edit_value v.

(** The fields of a constraint that the solving operations do not write:
    all but its marker and its other symbol. *)
Definition cons_kept (c c' : amcw_Constraint) : Prop :=
  c_expression c' = c_expression c ∧ c_relation c' = c_relation c ∧
  c_strength c' = c_strength c.

Definition entry_kept {A} (R : A → A → Prop) (e e' : amcw_Entry (option A)) : Prop :=
  e_next e' = e_next e ∧ e_key e' = e_key e ∧ option_Forall2 R (e_val e) (e_val e').

(** The tables have the same slots with the same keys and links, and the
    objects in the slots are related by [R]. *)
Definition slots_kept {A} (R : A → A → Prop) (t t' : amcw_Table (option A)) : Prop :=
  t_count t' = t_count t ∧ t_entry_size t' = t_entry_size t ∧
  t_lastfree t' = t_lastfree t ∧
  Forall2 (entry_kept R) (t_hash t) (t_hash t').

(** What the pivoting operations keep. *)
Definition engine_kept (s s' : amcw_Solver) : Prop :=
  constraints s' = constraints s ∧ constraint_count s' = constraint_count s ∧
  auto_update s' = auto_update s ∧ slots_kept var_kept (vars s) (vars s').

(** What [amcw_add] and [amcw_remove] keep. *)
Definition objects_kept (s s' : amcw_Solver) : Prop :=
  slots_kept var_kept (vars s) (vars s') ∧
  slots_kept cons_kept (constraints s) (constraints s') ∧
  constraint_count s' = constraint_count s ∧ auto_update s' = auto_update s.
(** A solver with one variable and the required constraint [x = 1], built
    and not added; the constraint is in slot 1. *)
Definition solver_built : amcw_Solver :=
  Eval vm_compute in
    match build_cons solver_x AMCW_REQUIRED [(1, 1%float)] 0%float AMCW_EQUAL [] 1%float with
    | Done (_, s) => s
    | _ => amcw_newsolver
    end.

(** [solver_built] with a second constraint, the strong [2 x >= 3], built
    and not added; it is in slot 2. *)
Definition solver_two : amcw_Solver :=
  Eval vm_compute in
    match build_cons solver_built AMCW_STRONG [(1, 2%float)] 0%float AMCW_GREATEQUAL []
            3%float with
    | Done (_, s) => s
    | _ => amcw_newsolver
    end.

(** The expressions of the two constraints of [solver_two]. *)
Definition row_x_is_1 : amcw_Row :=
  Eval vm_compute in
    match load_cons solver_two 1 with Done c => c_expression c | _ => amcw_initrow end.

Definition row_2x_ge_3 : amcw_Row :=
  Eval vm_compute in
    match load_cons solver_two 2 with Done c => c_expression c | _ => amcw_initrow end.

(** ** Statements about the leaving row *)

(** The row in the slot [row] has the key [key] and a term for
    [marker]. *)
Definition has_marker (s : amcw_Solver) (marker : amcw_Symbol) (row : nat)
    (key : amcw_Symbol) : Prop :=
  ∃ re term, t_hash (rows s) !! row = Some re ∧ e_key re = key ∧
             amcw_gettable (terms (e_val re)) marker = Done (Some term).

(** ** Statements about [amcw_resetsolver] *)

(** A variable as [amcw_resetsolver] leaves it: it may have lost its
    edit, and nothing else but its value and its dirty mark changed. *)
Definition var_unedited (v v' : amcw_Var) : Prop :=
  v_sym v' = v_sym v ∧ v_refcount v' = v_refcount v ∧
  v_edit_value v' = v_edit_value v ∧
  (v_constraint v' = v_constraint v ∨ v_constraint v' = None).

(** A constraint as the second loop of [amcw_resetsolver] leaves it: as it
    was, or without its marker and its other symbol. *)
Definition cons_cleared (c c' : amcw_Constraint) : Prop :=
  cons_kept c c' ∧ (c' = c ∨ sym_id (c_marker c') = 0).

(** ** Statements about merging *)

(** A variable that gained references: nothing but its reference count
    changed. *)
Definition var_reused (v v' : amcw_Var) : Prop :=
  v_sym v' = v_sym v ∧ v_dirty_next v' = v_dirty_next v ∧
  v_constraint v' = v_constraint v ∧ v_edit_value v' = v_edit_value v ∧
  v_value v' = v_value v.

(** * Properties *)

(** ** Partial computations *)

Lemma bind_Done {A B} (m : res A) (f : A → res B) (b : B) :
  m ≫= f = Done b ↔ ∃ a, m = Done a ∧ f a = Done b.
Proof.
  destruct m; simpl; split; try (intros (? & ? & ?)); try done; eauto.
  by simplify_eq.
Qed.

Lemma bind_Done_l {A B} (a : A) (f : A → res B) : Done a ≫= f = f a.
Proof. done. Qed.

Lemma c_assert_Done (b : bool) (u : unit) : c_assert b = Done u ↔ b = true.
Proof. destruct b, u; simpl; split; done. Qed.

(** Inversion of a computation that returned. *)
Ltac res_inv :=
  repeat match goal with
  | H : Done _ = Done _ |- _ => injection H as H; try subst
  | H : Abort = Done _ |- _ => discriminate H
  | H : Timeout = Done _ |- _ => discriminate H
  | H : (_, _) = (_, _) |- _ => injection H as ? ?; try subst
  | H : c_assert _ = Done _ |- _ => apply c_assert_Done in H
  | H : _ ≫= _ = Done _ |- _ =>
      let a := fresh "a" in
      let Ha := fresh "Ha" in
      apply bind_Done in H as (a & Ha & H)
  | H : context [let '(_, _) := ?p in _] |- _ =>
      is_var p;
      lazymatch type of p with (_ * _)%type => destruct p end
  end.

(** ** The symbol allocator *)

Lemma land_mask30 (z : Z) : 0 ≤ z ≤ 0x3FFFFFFF → Z.land z 0x3FFFFFFF = z.
Proof.
  intros. change 0x3FFFFFFF with (Z.ones 30).
  rewrite Z.land_ones by lia. apply Z.mod_small. change (2 ^ 30) with 1073741824. lia.
Qed.

Lemma land_mask2 (z : Z) : 0 ≤ z ≤ 3 → Z.land z 3 = z.
Proof.
  intros. change 3 with (Z.ones 2).
  rewrite Z.land_ones by lia. apply Z.mod_small. change (2 ^ 2) with 4. lia.
Qed.


(** What one allocation returns, as long as the counter is in range. *)
Lemma amcw_newsymbol_spec (s : amcw_Solver) (type : Z) :
  0 ≤ symbol_count s ≤ 0x3FFFFFFF →
  0 ≤ type ≤ 3 →
  let id := if symbol_count s <? 0x3FFFFFFF then symbol_count s + 1 else 1 in
  amcw_newsymbol s type = Done (mkSym id type, set_symbol_count s id).
Proof.
  intros Hc Ht id. unfold amcw_newsymbol.
  assert (Hw : wrap32 (symbol_count s + 1) = symbol_count s + 1).
  { unfold wrap32. apply Z.mod_small. change (2 ^ 32) with 4294967296. lia. }
  rewrite Hw. subst id.
  assert (Ha : (AMCW_EXTERNAL <=? type) && (type <=? AMCW_DUMMY) = true).
  { unfold AMCW_EXTERNAL, AMCW_DUMMY. apply andb_true_intro. split; apply Z.leb_le; lia. }
  destruct (Z.ltb_spec (symbol_count s) 0x3FFFFFFF) as [Hlt|Hge].
  - destruct (Z.ltb_spec 0x3FFFFFFF (symbol_count s + 1)) as [?|_]; [lia|].
    rewrite Ha. simpl. rewrite land_mask30, land_mask2 by lia. done.
  - destruct (Z.ltb_spec 0x3FFFFFFF (symbol_count s + 1)) as [_|?]; [|lia].
    rewrite Ha. simpl. rewrite land_mask2 by lia. done.
Qed.


Lemma alloc_reachable_range (s : amcw_Solver) :
  alloc_reachable s → 0 ≤ symbol_count s ≤ 0x3FFFFFFF.
Proof.
  induction 1 as [|s type sym s' _ IH Hnew]; [done|].
  unfold amcw_newsymbol in Hnew.
  assert (Hw : wrap32 (symbol_count s + 1) = symbol_count s + 1).
  { unfold wrap32. apply Z.mod_small. change (2 ^ 32) with 4294967296. lia. }
  rewrite Hw in Hnew.
  destruct (Z.ltb_spec 0x3FFFFFFF (symbol_count s + 1)); simpl in Hnew;
    res_inv; simpl; lia.
Qed.




(** ** Changing a strength *)

(** C10: when the strength asked for, REQUIRED if it is near zero, equals the
    strength of the constraint, [amcw_setstrength] returns OK and the solver
    is left as it was. *)
Theorem amcw_setstrength_same (fuel : nat) (s : amcw_Solver) (cn : nat)
    (c : amcw_Constraint) (strength : amcw_Num) :
  load_cons s cn = Done c →
  (c_strength c =? (if amcw_nearzero strength then AMCW_REQUIRED else strength))%float
    = true →
  amcw_setstrength fuel s (Some cn) strength = Done (AMCW_OK, s).
Proof.
  intros Hc Heq. unfold amcw_setstrength. rewrite Hc, bind_Done_l. cbv zeta.
  by rewrite Heq.
Qed.

Lemma amcw_setstrength_same_witness :
  load_cons solver_c 1%nat
    = Done (mkCons amcw_initrow amcw_null amcw_null 0 AMCW_MEDIUM) ∧
  amcw_setstrength 0 solver_c (Some 1%nat) 1000%float = Done (AMCW_OK, solver_c).
Proof.
  split; [reflexivity|].
  apply (amcw_setstrength_same 0 solver_c 1
           (mkCons amcw_initrow amcw_null amcw_null 0 AMCW_MEDIUM) 1000%float);
    reflexivity.
Defined.

(** ** Edits *)

(** C7: [amcw_addedit] with a strength near zero installs the edit at
    REQUIRED: the cap at STRONG is applied before [amcw_newconstraint] and
    [amcw_setstrength] turn a strength near zero into REQUIRED.  On a new
    variable the edit is installed at 1e9, with a Dummy marker; on a variable
    whose edit contradicts a required constraint the call returns UNSATISFIED;
    and when the cached value of the variable is stale the [assert(0)] after
    [amcw_add] fires. *)
Theorem amcw_addedit_near_zero :
  edit_at_zero = Done (AMCW_OK, AMCW_REQUIRED, mkSym 2 AMCW_DUMMY) ∧
  edit_restrengthened_at_zero = Done (AMCW_UNSATISFIED, AMCW_REQUIRED) ∧
  edit_at_zero_stale = Abort.
Proof. repeat split; vm_compute; reflexivity. Qed.

(** ** Tables *)

Section TableFacts.
Context {A : Type} `{!Zeroed A}.
Implicit Types (t : amcw_Table A) (h : list (amcw_Entry A)) (e : amcw_Entry A).

Lemma contents_nil : contents (@nil (amcw_Entry A)) = [].
Proof. done. Qed.

Lemma contents_cons e h : contents (e :: h) = cell e ++ contents h.
Proof. done. Qed.

Lemma contents_app h1 h2 : contents (h1 ++ h2) = contents h1 ++ contents h2.
Proof. apply bind_app. Qed.

Lemma contents_live t :
  contents (t_hash t) = (λ e, (e_key e, e_val e)) <$> live_entries t.
Proof.
  unfold live_entries. induction (t_hash t) as [|e h IH]; [done|].
  rewrite contents_cons, filter_cons, IH. unfold cell.
  destruct (decide (sym_id (e_key e) = 0)), (decide (sym_id (e_key e) ≠ 0)); done.
Qed.

Lemma contents_replicate_zero (n : nat) : contents (replicate n (@zero_entry A _)) = [].
Proof. induction n as [|n IH]; [done|]. simpl. by rewrite contents_cons, IH. Qed.

(** A store through an entry pointer exchanges one cell. *)
Lemma contents_alter (f : amcw_Entry A → amcw_Entry A) h (i : nat) e :
  h !! i = Some e →
  contents (alter f i h) ++ cell e ≡ₚ cell (f e) ++ contents h.
Proof.
  revert i. induction h as [|x h IH]; intros [|i] Hi; try done.
  - injection Hi as ->. change (alter f 0%nat (e :: h)) with (f e :: h).
    rewrite !contents_cons, <-(assoc (++)). f_equiv. apply Permutation_app_comm.
  - change (alter f (S i) (x :: h)) with (x :: alter f i h).
    rewrite !contents_cons, <-(assoc (++)), (IH i Hi).
    apply Permutation_app_swap_app.
Qed.

Lemma cell_set_next (n : Z) e : cell (set_next n e) = cell e.
Proof. done. Qed.

Lemma cell_dead e : sym_id (e_key e) = 0 → cell e = [].
Proof. intros H. unfold cell. by rewrite decide_True. Qed.

Lemma cell_live e : sym_id (e_key e) ≠ 0 → cell e = [(e_key e, e_val e)].
Proof. intros H. unfold cell. by rewrite decide_False. Qed.

Lemma contents_alter_same (f : amcw_Entry A → amcw_Entry A) h (i : nat) :
  (∀ e, cell (f e) = cell e) → contents (alter f i h) = contents h.
Proof.
  intros Hf. revert i. induction h as [|x h IH]; intros [|i]; try done.
  - change (alter f 0%nat (x :: h)) with (f x :: h). by rewrite !contents_cons, Hf.
  - change (alter f (S i) (x :: h)) with (x :: alter f i h).
    by rewrite !contents_cons, IH.
Qed.

Lemma elem_of_contents h (i : nat) e :
  h !! i = Some e → sym_id (e_key e) ≠ 0 → (e_key e, e_val e) ∈ contents h.
Proof.
  intros Hi Hlive. rewrite <-(take_drop_middle _ _ _ Hi), contents_app, contents_cons.
  rewrite cell_live by done. apply elem_of_app. right. apply elem_of_cons. by left.
Qed.

Lemma cell_set_key (k : amcw_Symbol) e :
  sym_id k ≠ 0 → cell (set_key k e) = [(k, e_val e)].
Proof. intros. by rewrite cell_live. Qed.

Lemma cell_set_val (v : A) e :
  sym_id (e_key e) ≠ 0 → cell (set_val v e) = [(e_key e, v)].
Proof. intros. by rewrite cell_live. Qed.

Lemma contents_set_next (n : Z) h (i : nat) :
  contents (alter (set_next n) i h) = contents h.
Proof. by apply contents_alter_same. Qed.

Lemma lookup_set_next (n : Z) h (i j : nat) e :
  alter (set_next n) i h !! j = Some e →
  ∃ e0, h !! j = Some e0 ∧ e_key e = e_key e0 ∧ e_val e = e_val e0.
Proof.
  rewrite list_lookup_alter. case_decide as Hij; [subst j|by eauto].
  destruct (h !! i) as [e0|]; [|done]. intros [= <-]. by exists e0.
Qed.

Lemma find_free_Some h (lf lf' f : nat) :
  find_free h lf = Done (lf', Some f) →
  ∃ e, h !! f = Some e ∧ sym_id (e_key e) = 0.
Proof.
  induction lf as [|l IH]; simpl; [done|].
  destruct (h !! l) as [e|] eqn:He; [|done].
  destruct (sym_id (e_key e) =? 0) eqn:Hk; simpl; [|done].
  destruct (e_next e =? 0); [|done].
  intros [= <- <-]. exists e. split; [done|]. by apply Z.eqb_eq.
Qed.

Lemma rehash_contents nk (old : list (amcw_Entry A)) (nt nt' : amcw_Table A) :
  newkey_ok nk →
  sizeof_Entry < t_entry_size nt →
  rehash nk old nt = Done nt' →
  t_count nt' = t_count nt ∧ t_entry_size nt' = t_entry_size nt ∧
  contents (t_hash nt') ≡ₚ contents old ++ contents (t_hash nt).
Proof.
  intros Hnk. revert nt. induction old as [|e old IH]; intros nt Hsz Hre; simpl in Hre.
  { by simplify_eq. }
  destruct (Z.eqb_spec (sym_id (e_key e)) 0) as [Hk|Hk].
  { rewrite contents_cons, cell_dead by done. by apply IH. }
  res_inv. rename n into ne, a into nt1.
  destruct (Hnk _ _ _ _ Hk Hsz Ha) as (Hc & Hes & ent & Hent & Hkey & Hperm).
  assert (Hlt : sizeof_Entry <? t_entry_size nt1 = true) by (apply Z.ltb_lt; lia).
  rewrite Hlt in Hre. apply IH in Hre as (Hc' & Hes' & Hperm'); [|simpl; lia].
  simpl in *. split; [lia|]. split; [lia|].
  rewrite Hperm', contents_cons, (cell_live e) by done.
  pose proof (contents_alter (set_val (e_val e)) _ _ _ Hent) as Hx.
  rewrite (cell_live ent), cell_set_val, Hperm in Hx by (rewrite Hkey; done).
  rewrite Hkey in Hx.
  assert (Hy : contents (alter (set_val (e_val e)) ne (t_hash nt1))
               ≡ₚ (e_key e, e_val e) :: contents (t_hash nt)).
  { apply (Permutation_app_inv_r ([(e_key e, e_val ent)])).
    rewrite Hx. simpl. apply perm_skip, Permutation_cons_append. }
  rewrite Hy. simpl. symmetry. apply Permutation_middle.
Qed.

Lemma resizetable_contents nk (t t' : amcw_Table A) (len : Z) :
  newkey_ok nk →
  sizeof_Entry < t_entry_size t →
  amcw_resizetable nk t len = Done t' →
  t_count t' = t_count t ∧ t_entry_size t' = t_entry_size t ∧
  contents (t_hash t') ≡ₚ contents (t_hash t).
Proof.
  intros Hnk Hsz Hre. unfold amcw_resizetable in Hre.
  apply rehash_contents in Hre as (? & ? & Hp); [|done..].
  simpl in *. by rewrite contents_replicate_zero, app_nil_r in Hp.
Qed.

Lemma entry_at_Done t (i : nat) e : entry_at t i = Done e ↔ t_hash t !! i = Some e.
Proof. unfold entry_at. destruct (t_hash t !! i); split; intros; by simplify_eq. Qed.

Lemma lookup_alter_next (n : Z) h (i j : nat) e0 :
  h !! j = Some e0 →
  ∃ e1, alter (set_next n) i h !! j = Some e1 ∧
        e_key e1 = e_key e0 ∧ e_val e1 = e_val e0.
Proof.
  intros Hj. rewrite list_lookup_alter. case_decide; [subst|by eauto].
  rewrite Hj. by eexists.
Qed.

(** The new key stored in a free slot. *)
Lemma newkey_post_free t key (f : nat) h fe :
  sym_id key ≠ 0 →
  h !! f = Some fe → sym_id (e_key fe) = 0 →
  contents h ≡ₚ contents (t_hash t) →
  ∀ t', t_count t' = t_count t → t_entry_size t' = t_entry_size t →
        t_hash t' = alter (set_key key) f h →
        newkey_post t key f t'.
Proof.
  intros Hkey Hf Hdead Hc t' ? ? Hh. repeat split; [done..|].
  exists (set_key key fe). rewrite Hh, list_lookup_alter_eq, Hf.
  repeat split; [done..|]. simpl.
  pose proof (contents_alter (set_key key) _ _ _ Hf) as Hx.
  rewrite (cell_dead fe), cell_set_key, app_nil_r in Hx by done.
  by rewrite Hx, Hc.
Qed.

(** The new key stored over an entry that was copied to a free slot. *)
Lemma newkey_post_moved t key (mp : nat) h me :
  sym_id key ≠ 0 →
  h !! mp = Some me → sym_id (e_key me) ≠ 0 →
  contents h ≡ₚ (e_key me, e_val me) :: contents (t_hash t) →
  ∀ t', t_count t' = t_count t → t_entry_size t' = t_entry_size t →
        t_hash t' = alter (set_key key) mp h →
        newkey_post t key mp t'.
Proof.
  intros Hkey Hm Hlive Hc t' ? ? Hh. repeat split; [done..|].
  exists (set_key key me). rewrite Hh, list_lookup_alter_eq, Hm.
  repeat split; [done..|]. simpl.
  pose proof (contents_alter (set_key key) _ _ _ Hm) as Hx.
  rewrite (cell_live me), cell_set_key, Hc in Hx by done.
  apply (Permutation_app_inv_r ([(e_key me, e_val me)])).
  rewrite Hx. simpl. apply perm_skip, Permutation_cons_append.
Qed.

Lemma newkey_loop_ok nk (n : nat) : newkey_ok nk → newkey_ok (newkey_loop nk n).
Proof.
  intros Hnk. induction n as [|n IH]; intros t key e t' Hkey Hsz Hrun; [done|].
  simpl in Hrun. res_inv. rename a into mpe. apply entry_at_Done in Ha.
  destruct (Z.eqb_spec (sym_id (e_key mpe)) 0) as [Hdead|Hlive]; simpl in Hrun.
  { (* the main position is free *)
    res_inv. by eapply (newkey_post_free t key _ (t_hash t)). }
  res_inv. rename n0 into lf, o into fo.
  destruct fo as [f|]; last first.
  { (* no free slot: the table grows *)
    res_inv. rename a into t1.
    apply resizetable_contents in Ha1 as (Hc & Hes & Hp); [|done..].
    simpl in *. apply IH in Hrun as (Hc' & Hes' & ent & ? & ? & Hp'); [|done|lia].
    repeat split; [lia..|]. exists ent. repeat split; [done..|].
    by rewrite Hp', Hp. }
  apply find_free_Some in Ha0 as (fe0 & Hfe0 & Hfdead).
  res_inv. rename a into fe. apply entry_at_Done in Ha0. simpl in Ha0.
  simplify_eq. clear Ha1.
  case_bool_decide as Hmain; simpl in Hrun.
  - (* the colliding entry is in its main position: chain the new one *)
    res_inv. clear Ha0.
    destruct (negb (e_next mpe =? 0)).
    + destruct (lookup_alter_next
                  (amcw_offset (amcw_mainposition t key) e + e_next mpe)
                  _ e e _ Hfe0) as (e1 & He1 & Hk1 & Hv1).
      destruct (lookup_alter_next
                  (amcw_offset e (amcw_mainposition t key))
                  _ (amcw_mainposition t key) e _ He1) as (e2 & He2 & Hk2 & Hv2).
      eapply newkey_post_free; [done|exact He2|congruence| |done..].
      by rewrite !contents_set_next.
    + destruct (lookup_alter_next
                  (amcw_offset e (amcw_mainposition t key))
                  _ (amcw_mainposition t key) e _ Hfe0) as (e2 & He2 & Hk2 & Hv2).
      eapply newkey_post_free; [done|exact He2|congruence| |done..].
      by rewrite !contents_set_next.
  - (* the colliding entry is out of its main position: move it *)
    res_inv. rename a into othern, a1 into mpe'. clear a0.
    apply entry_at_Done in Ha1. simpl in Ha1.
    set (mp := amcw_mainposition t key) in *.
    destruct (lookup_alter_next (amcw_offset f othern) _ othern mp _ Ha)
      as (m1 & Hm1 & Hmk & Hmv).
    change (amcw_mainposition (set_lastfree t lf) key) with mp in Ha1.
    simplify_eq.
    destruct (lookup_alter_next (amcw_offset f othern) _ othern f _ Hfe0)
      as (f1 & Hf1 & Hfk & Hfv).
    assert (Hfmp : f ≠ mp) by (intros ->; congruence).
    set (h1 := alter (set_next (amcw_offset f othern)) othern (t_hash t)) in *.
    set (h2 := alter (λ _, mpe') f h1).
    assert (Hc2 : contents h2 ≡ₚ (e_key mpe', e_val mpe') :: contents (t_hash t)).
    { pose proof (contents_alter (λ _, mpe') _ _ _ Hf1) as Hx.
      rewrite (cell_dead f1), (cell_live mpe'), app_nil_r in Hx by congruence.
      fold h2 in Hx. rewrite Hx. subst h1. by rewrite contents_set_next. }
    assert (Hmp2 : h2 !! mp = Some mpe').
    { subst h2. by rewrite list_lookup_alter_ne. }
    destruct (negb (e_next mpe' =? 0)).
    + destruct (lookup_alter_next (e_next mpe' + amcw_offset mp f) _ f mp _ Hmp2)
        as (e3 & He3 & Hk3 & Hv3).
      destruct (lookup_alter_next 0 _ mp mp _ He3) as (e4 & He4 & Hk4 & Hv4).
      eapply newkey_post_moved; [done|exact He4|congruence| |done..].
      by rewrite !contents_set_next, Hc2, Hk4, Hk3, Hv4, Hv3.
    + eapply newkey_post_moved; [done|exact Hmp2|congruence|done|done..].
Qed.

Lemma amcw_newkey_S (fuel : nat) t key :
  amcw_newkey (S fuel) t key =
  t0 ← (if (t_size t =? 0)%nat
        then amcw_resizetable (amcw_newkey fuel) t AMCW_MIN_HASHSIZE
        else Done t);
  newkey_loop (amcw_newkey fuel) (S fuel) t0 key.
Proof. done. Qed.

Lemma amcw_newkey_ok (fuel : nat) : newkey_ok (amcw_newkey fuel).
Proof.
  induction fuel as [|fuel IH]; intros t key e t' Hkey Hsz Hrun; [done|].
  rewrite amcw_newkey_S in Hrun. res_inv. rename a into t1.
  assert (H1 : t_count t1 = t_count t ∧ t_entry_size t1 = t_entry_size t ∧
               contents (t_hash t1) ≡ₚ contents (t_hash t)).
  { destruct (t_size t =? 0)%nat; [|by simplify_eq].
    by apply resizetable_contents in Ha. }
  destruct H1 as (Hc & Hes & Hp).
  apply newkey_loop_ok in Hrun as (Hc' & Hes' & ent & ? & ? & Hp'); [|done..|lia].
  repeat split; [lia..|]. exists ent. repeat split; [done..|]. by rewrite Hp', Hp.
Qed.

(** *** Lookups *)

Lemma gettable_walk_Some (fuel : nat) h (kid : Z) (e i : nat) :
  gettable_walk fuel h kid e = Done (Some i) →
  ∃ ent, h !! i = Some ent ∧ sym_id (e_key ent) = kid.
Proof.
  revert e. induction fuel as [|fuel IH]; intros e Hw; [done|]. simpl in Hw.
  destruct (h !! e) as [ent|] eqn:He; [|done].
  destruct (Z.eqb_spec (sym_id (e_key ent)) kid); [by simplify_eq; eauto|].
  destruct (e_next ent =? 0); [done|]. res_inv. eauto.
Qed.

Lemma amcw_gettable_Some t key (i : nat) :
  amcw_gettable t key = Done (Some i) →
  sym_id key ≠ 0 ∧ ∃ ent, t_hash t !! i = Some ent ∧ sym_id (e_key ent) = sym_id key.
Proof.
  unfold amcw_gettable. destruct (t_size t =? 0)%nat; [done|].
  destruct (Z.eqb_spec (sym_id key) 0); [done|]. simpl.
  intros Hw. split; [done|]. by eapply gettable_walk_Some.
Qed.

Lemma gettable_walk_shape (fuel : nat) h h' (kid : Z) (e : nat) :
  shape h = shape h' →
  gettable_walk fuel h kid e = gettable_walk fuel h' kid e.
Proof.
  intros Hs. revert e. induction fuel as [|fuel IH]; intros e; [done|]. simpl.
  assert (Hl : (λ x, (e_next x, e_key x)) <$> h !! e
             = (λ x, (e_next x, e_key x)) <$> h' !! e).
  { unfold shape in Hs. by rewrite <-!list_lookup_fmap, Hs. }
  destruct (h !! e) as [x|], (h' !! e) as [x'|]; simplify_eq/=; try done.
  destruct x, x'; simplify_eq/=.
  repeat case_match; try done. by destruct (amcw_index _ _); simpl.
Qed.

Lemma amcw_gettable_shape t t' key :
  shape (t_hash t) = shape (t_hash t') →
  amcw_gettable t key = amcw_gettable t' key.
Proof.
  intros Hs. unfold amcw_gettable, amcw_mainposition, t_size.
  assert (Hl : length (t_hash t) = length (t_hash t')).
  { unfold shape in Hs.
    by rewrite <-(length_fmap (λ e, (e_next e, e_key e)) (t_hash t)), Hs, length_fmap. }
  rewrite Hl. destruct (_ || _); [done|]. by apply gettable_walk_shape.
Qed.

Lemma shape_alter_val (f : amcw_Entry A → amcw_Entry A) h (i : nat) :
  (∀ e, e_next (f e) = e_next e ∧ e_key (f e) = e_key e) →
  shape (alter f i h) = shape h.
Proof.
  intros Hf. unfold shape. apply list_eq. intros j.
  rewrite !list_lookup_fmap, list_lookup_alter. case_decide as Hij; [|done].
  subst j. destruct (h !! i) as [e|]; [|done]. simpl. by destruct (Hf e) as [-> ->].
Qed.

Lemma amcw_gettable_set_val (v : A) t (i : nat) key :
  amcw_gettable (alter_entry (set_val v) i t) key = amcw_gettable t key.
Proof. apply amcw_gettable_shape. by apply shape_alter_val. Qed.

(** *** Insertion *)

Lemma amcw_settable_spec t key (e : nat) t' :
  sizeof_Entry < t_entry_size t →
  amcw_settable t key = Done (e, t') →
  sym_id key ≠ 0 ∧ t_entry_size t' = t_entry_size t ∧
  ((amcw_gettable t key = Done (Some e) ∧ t' = t) ∨
   (amcw_gettable t key = Done None ∧
    t_count t' = wrap64 (t_count t + 1) ∧
    ∃ ent, t_hash t' !! e = Some ent ∧ e_key ent = key ∧ e_val ent = zeroed ∧
      contents (t_hash t') ≡ₚ (key, zeroed) :: contents (t_hash t))).
Proof.
  intros Hsz Hset. unfold amcw_settable in Hset. res_inv.
  apply negb_true_iff, Z.eqb_neq in Ha. split; [done|].
  destruct a0 as [e0|]; [by simplify_eq; eauto|].
  res_inv. rename a0 into t1.
  apply amcw_newkey_ok in Ha1 as (Hc & Hes & ent & Hent & Hkey & Hp); [|done..].
  assert (Hlt : sizeof_Entry <? t_entry_size t1 = true) by (apply Z.ltb_lt; lia).
  rewrite Hlt. simpl. split; [done|]. right. split; [done|]. split; [by rewrite Hc|].
  exists (set_val zeroed ent). rewrite list_lookup_alter_eq, Hent.
  repeat split; [done..|].
  pose proof (contents_alter (set_val zeroed) _ _ _ Hent) as Hx.
  rewrite (cell_live ent), cell_set_val, Hp, Hkey in Hx by (rewrite Hkey; done).
  apply (Permutation_app_inv_r ([(key, e_val ent)])).
  rewrite Hx. simpl. apply perm_skip, Permutation_cons_append.
Qed.

End TableFacts.

(** ** Rows *)

(** What [amcw_addvar] does to the terms of a row: the term of [sym], if
    there was one, is replaced by the accumulated term, if that is not near
    zero. *)
Lemma amcw_addvar_contents (row : amcw_Row) (sym : amcw_Symbol) (value : float)
    (row' : amcw_Row) :
  sizeof_Entry < t_entry_size (terms row) →
  sym_id sym ≠ 0 →
  amcw_addvar row sym value = Done row' →
  constant row' = constant row ∧ infeasible_next row' = infeasible_next row ∧
  t_entry_size (terms row') = t_entry_size (terms row) ∧
  ∃ old new,
    contents (t_hash (terms row')) ++ old ≡ₚ new ++ contents (t_hash (terms row)) ∧
    (old = [] ∨ ∃ k v, old = [(k, v)] ∧ sym_id k = sym_id sym ∧
                       (k, v) ∈ contents (t_hash (terms row))) ∧
    (new = [] ∨ ∃ k m, new = [(k, m)] ∧ sym_id k = sym_id sym ∧
                       amcw_nearzero m = false) ∧
    (Z.of_nat (length old) ≤ t_count (terms row) < 2 ^ 64 - 1 →
     t_count (terms row') =
     t_count (terms row) + Z.of_nat (length new) - Z.of_nat (length old)).
Proof.
  intros Hsz Hsym Hadd. unfold amcw_addvar in Hadd.
  destruct (Z.eqb_spec (sym_id sym) 0); [done|].
  res_inv. rename n0 into term, a into t1, a0 into te.
  apply entry_at_Done in Ha0.
  apply amcw_settable_spec in Ha as (_ & Hes & Hcase); [|done].
  set (m := (e_val te + value)%float) in *.
  split; [done|]. split; [done|]. split; [by destruct (amcw_nearzero m)|].
  cbn [terms set_terms].
  pose proof (contents_alter (set_val m) _ _ _ Ha0) as Hx.
  assert (Hd : ∀ e1, alter (set_val m) term (t_hash t1) !! term = Some e1 →
                     e_key e1 = e_key te ∧ e_val e1 = m).
  { intros e1. rewrite list_lookup_alter_eq, Ha0. by intros [= <-]. }
  assert (Hdel : ∀ k, sym_id k ≠ 0 → e_key te = k →
             contents (alter (set_key amcw_null) term
                         (alter (set_val m) term (t_hash t1))) ++ [(k, e_val te)]
             ≡ₚ contents (t_hash t1)).
  { intros k Hk Hte.
    pose proof (contents_alter (set_key amcw_null)
                  (alter (set_val m) term (t_hash t1)) term (set_val m te)) as Hy.
    rewrite list_lookup_alter_eq, Ha0 in Hy. specialize (Hy eq_refl).
    rewrite (cell_dead (set_key _ _)), cell_set_val in Hy by (simpl; congruence).
    simpl in Hy. rewrite (cell_live te), cell_set_val in Hx by congruence.
    subst k. apply (Permutation_app_inv_r ([(e_key te, m)])).
    rewrite <-(assoc (++)), (comm (++) ([(e_key te, e_val te)])), (assoc (++)), Hy, Hx.
    apply Permutation_app_comm. }
  destruct Hcase as [[Hget ->]|(Hget & Hc & ent & Hent & Hkey & Hval & Hp)].
  - (* the term exists *)
    apply amcw_gettable_Some in Hget as (_ & ent & Hent & Hid).
    rewrite Ha0 in Hent. injection Hent as <-.
    assert (Hlive : sym_id (e_key te) ≠ 0) by congruence.
    pose proof (elem_of_contents _ _ _ Ha0 Hlive) as Hin.
    exists [(e_key te, e_val te)].
    destruct (amcw_nearzero m) eqn:Hnz; simpl.
    + exists []. split; [by apply Hdel|]. split; [by eauto 8|]. split; [by left|].
      unfold wrap64. change (2 ^ 64) with 18446744073709551616.
      intros ?. rewrite Z.mod_small; simpl in *; lia.
    + exists [(e_key te, m)]. rewrite (cell_live te), cell_set_val in Hx by done.
      split; [done|]. split; [by eauto 8|]. split; [by eauto 8|].
      intros _. simpl. lia.
  - (* the term is new *)
    rewrite Ha0 in Hent. injection Hent as <-. exists [].
    assert (Hlive : sym_id (e_key te) ≠ 0) by congruence.
    destruct (amcw_nearzero m) eqn:Hnz; simpl.
    + exists []. rewrite app_nil_r. split.
      { apply (Permutation_app_inv_r ([(sym, e_val te)])).
        rewrite Hdel, Hp, Hval by done. apply Permutation_cons_append. }
      split; [by left|]. split; [by left|].
      rewrite Hc. unfold wrap64. change (2 ^ 64) with 18446744073709551616.
      intros ?. rewrite (Z.mod_small (_ + 1)) by (simpl in *; lia).
      rewrite Z.mod_small; simpl in *; lia.
    + exists [(sym, m)]. rewrite app_nil_r.
      rewrite (cell_live te), cell_set_val, Hp, Hval, Hkey in Hx by done.
      split.
      { apply (Permutation_app_inv_r ([(sym, zeroed)])).
        rewrite Hx. simpl. apply perm_skip, Permutation_cons_append. }
      split; [by left|]. split; [by eauto 8|].
      rewrite Hc. unfold wrap64. change (2 ^ 64) with 18446744073709551616.
      intros ?. rewrite Z.mod_small; simpl in *; lia.
Qed.

Lemma row_sized_lt (row : amcw_Row) :
  row_sized row → sizeof_Entry < t_entry_size (terms row).
Proof. unfold row_sized. by intros ->. Qed.

Lemma amcw_addvar_null (row : amcw_Row) (sym : amcw_Symbol) (value : float) :
  sym_id sym = 0 → amcw_addvar row sym value = Done row.
Proof. intros H. unfold amcw_addvar. by rewrite H. Qed.

Lemma amcw_addvar_sized (row : amcw_Row) sym value row' :
  row_sized row → amcw_addvar row sym value = Done row' → row_sized row'.
Proof.
  intros Hs Hadd. destruct (decide (sym_id sym = 0)) as [H0|H0].
  { rewrite amcw_addvar_null in Hadd by done. by simplify_eq. }
  apply amcw_addvar_contents in Hadd as (_ & _ & Hes & _); [|by apply row_sized_lt|done].
  unfold row_sized in *. congruence.
Qed.

(** The terms of a row after [amcw_addvar]. *)
Lemma amcw_addvar_terms (row : amcw_Row) sym value row' :
  row_sized row → amcw_addvar row sym value = Done row' →
  (∀ k m, (k, m) ∈ row_terms row' →
          (k, m) ∈ row_terms row ∨ sym_id k = sym_id sym ∧ amcw_nearzero m = false) ∧
  (∀ k m, (k, m) ∈ row_terms row → sym_id k ≠ sym_id sym → (k, m) ∈ row_terms row').
Proof.
  intros Hs Hadd. destruct (decide (sym_id sym = 0)) as [H0|H0].
  { rewrite amcw_addvar_null in Hadd by done. simplify_eq. by eauto. }
  apply amcw_addvar_contents in Hadd
    as (_ & _ & _ & old & new & Hp & Hold & Hnew & _); [|by apply row_sized_lt|done].
  unfold row_terms. split.
  - intros k m Hin.
    assert (Hin' : (k, m) ∈ new ++ contents (t_hash (terms row))).
    { rewrite <-Hp. apply elem_of_app. by left. }
    apply elem_of_app in Hin' as [Hin'|Hin']; [|by left].
    destruct Hnew as [->|(k' & m' & -> & ? & ?)]; [by apply elem_of_nil in Hin'|].
    apply list_elem_of_singleton in Hin'. simplify_eq. by right.
  - intros k m Hin Hne.
    assert (Hin' : (k, m) ∈ contents (t_hash (terms row')) ++ old).
    { rewrite Hp. apply elem_of_app. by right. }
    apply elem_of_app in Hin' as [Hin'|Hin']; [done|].
    destruct Hold as [->|(k' & m' & -> & ? & _)]; [by apply elem_of_nil in Hin'|].
    apply list_elem_of_singleton in Hin'. simplify_eq.
Qed.



Lemma addrow_loop_sized (row : amcw_Row) other multiplier row' :
  row_sized row → addrow_loop row other multiplier = Done row' → row_sized row'.
Proof.
  revert row. induction other as [|term other IH]; intros row Hs Hl; simpl in Hl.
  { by simplify_eq. }
  destruct (negb _); [|by eauto]. res_inv. eauto using amcw_addvar_sized.
Qed.







(** ** A failed [amcw_add] *)

Lemma load_store_cons (s : amcw_Solver) (cn : nat) (c0 c : amcw_Constraint) :
  load_cons s cn = Done c0 → load_cons (store_cons s cn c) cn = Done c.
Proof.
  unfold load_cons, store_cons, entry_at. simpl. intros H.
  rewrite list_lookup_alter_eq.
  destruct (t_hash (constraints s) !! cn) as [e|]; [|done]. done.
Qed.

Lemma amcw_remove_errors_spec (s : amcw_Solver) (cn : nat) (s' : amcw_Solver) :
  amcw_remove_errors s cn = Done s' →
  symbol_count s' = symbol_count s ∧ rows s' = rows s ∧ vars s' = vars s ∧
  ∃ c, load_cons s cn = Done c ∧
       load_cons s' cn = Done (set_c_other (set_c_marker c amcw_null) amcw_null).
Proof.
  unfold amcw_remove_errors. intros H. res_inv. simpl. repeat split.
  exists a. split; [done|]. by eapply load_store_cons.
Qed.

Lemma res_foldl_inv {A B} (P : B → Prop) (f : B → A → res B) (l : list A) (b b' : B) :
  (∀ b a b', P b → f b a = Done b' → P b') →
  P b → res_foldl f b l = Done b' → P b'.
Proof.
  intros Hf. revert b. induction l as [|a l IH]; intros b Hb Hl; simpl in Hl.
  - by simplify_eq.
  - res_inv. eauto.
Qed.

Lemma amcw_markdirty_rows (s : amcw_Solver) (v : nat) s' :
  amcw_markdirty s v = Done s' →
  rows s' = rows s ∧ objective s' = objective s ∧ constraints s' = constraints s ∧
  symbol_count s' = symbol_count s.
Proof.
  unfold amcw_markdirty. intros H. res_inv. destruct (_ =? _); by simplify_eq.
Qed.

Lemma amcw_newsymbol_frame (s : amcw_Solver) (type : Z) sym s' :
  amcw_newsymbol s type = Done (sym, s') →
  rows s' = rows s ∧ objective s' = objective s ∧ vars s' = vars s ∧
  constraints s' = constraints s.
Proof.
  unfold amcw_newsymbol. intros H. destruct (_ <? _); res_inv; done.
Qed.

Lemma amcw_initsymbol_frame (s : amcw_Solver) (sym0 : amcw_Symbol) (type : Z) sym s' :
  amcw_initsymbol s sym0 type = Done (sym, s') →
  rows s' = rows s ∧ objective s' = objective s ∧ vars s' = vars s ∧
  constraints s' = constraints s.
Proof.
  unfold amcw_initsymbol. destruct (_ =? _).
  - apply amcw_newsymbol_frame.
  - intros H. by simplify_eq.
Qed.

Lemma amcw_makerow_rows (s : amcw_Solver) (cn : nat) row s' :
  amcw_makerow s cn = Done (row, s') → rows s' = rows s.
Proof.
  unfold amcw_makerow. intros H. res_inv.
  assert (Hf : rows a1 = rows s).
  { revert Ha0. generalize (set_constant amcw_initrow (constant (c_expression a))).
    intros r0 Hf.
    apply (res_foldl_inv (λ b, rows b.2 = rows s)) in Hf; [done| |done].
    intros [r1 s1] term [r2 s2] Hb Hstep. unfold makerow_step in Hstep. res_inv.
    match goal with
    | H : amcw_markdirty _ _ = Done _ |- _ => apply amcw_markdirty_rows in H as (? & _)
    end.
    simpl in *. congruence. }
  simpl. rewrite <-Hf. clear Hf Ha0.
  repeat first [progress res_inv | case_match];
    repeat match goal with
    | H : amcw_initsymbol _ _ _ = Done _ |- _ =>
        apply amcw_initsymbol_frame in H as (? & _ & _ & _)
    end; simpl; congruence.
Qed.

Lemma amcw_add_with_artificial_ret (fuel : nat) s row cn ret s' :
  amcw_add_with_artificial fuel s row cn = Done (ret, s') →
  ret = AMCW_OK ∨ ret = AMCW_UNBOUND.
Proof.
  unfold amcw_add_with_artificial. intros H.
  repeat first [progress res_inv | case_match]; by eauto.
Qed.


(** ** The pivot of [amcw_optimize] *)

Lemma find_split {A} (p : A → bool) (l : list A) (x : A) :
  List.find p l = Some x →
  ∃ l1 l2, l = l1 ++ x :: l2 ∧ p x = true ∧ Forall (λ y, p y = false) l1.
Proof.
  induction l as [|y l IH]; simpl; [done|].
  destruct (p y) eqn:Hy.
  - intros [= ->]. by exists [], l.
  - intros (l1 & l2 & -> & Hx & Hl1)%IH. exists (y :: l1), l2. by repeat constructor.
Qed.

Lemma find_none_Forall {A} (p : A → bool) (l : list A) :
  List.find p l = None → Forall (λ y, p y = false) l.
Proof.
  induction l as [|y l IH]; simpl; [by constructor|].
  destruct (p y) eqn:Hy; [done|]. intros H. constructor; auto.
Qed.

Lemma live_entries_live {A} (t : amcw_Table A) (e : amcw_Entry A) :
  e ∈ live_entries t → sym_id (e_key e) ≠ 0.
Proof. unfold live_entries. by intros [? _]%list_elem_of_filter. Qed.

(** The loop ran to its end: no live entry satisfies the test. *)
Lemma first_key_null {A} (p : amcw_Entry A → bool) (t : amcw_Table A) :
  sym_id (first_key p t) = 0 → Forall (λ e, p e = false) (live_entries t).
Proof.
  unfold first_key. destruct (List.find p (live_entries t)) as [e|] eqn:Hf.
  - apply find_split in Hf as (l1 & l2 & Hl & _). intros He. exfalso.
    eapply (live_entries_live t e); [|done]. rewrite Hl.
    apply elem_of_app. right. apply elem_of_cons. by left.
  - intros _. by apply find_none_Forall.
Qed.

(** The loop left at the first live entry that satisfies the test. *)
Lemma first_key_found {A} (p : amcw_Entry A → bool) (t : amcw_Table A) :
  sym_id (first_key p t) ≠ 0 →
  ∃ l1 e l2, live_entries t = l1 ++ e :: l2 ∧ e_key e = first_key p t ∧
             p e = true ∧ Forall (λ y, p y = false) l1.
Proof.
  unfold first_key. destruct (List.find p (live_entries t)) as [e|] eqn:Hf; [|done].
  intros _. apply find_split in Hf as (l1 & l2 & ? & ? & ?). by exists l1, e, l2.
Qed.

Lemma amcw_optimize_S (fuel : nat) (s : amcw_Solver) (obj : option amcw_Row) :
  amcw_optimize (S fuel) s obj =
  _ ← c_assert (sym_id (infeasible_rows s) =? 0);
  let enter := optimize_enter (default (objective s) obj) in
  if sym_id enter =? 0 then Done (AMCW_OK, obj, s)
  else
    '(_, exit) ← optimize_exit s enter;
    _ ← c_assert (negb (sym_id exit =? 0));
    '(taken, tmp, s) ← amcw_takerow s exit uninit_row;
    _ ← c_assert (taken =? AMCW_OK);
    tmp ← amcw_solvefor tmp enter exit;
    s ← amcw_substitute_rows s enter tmp;
    obj ←
      match obj with
      | Some o => o ← amcw_substitute o enter tmp; Done (Some o)
      | None => Done None
      end;
    '(_, s) ← amcw_putrow s enter tmp;
    amcw_optimize fuel s obj.
Proof. done. Qed.

(** One step of the scan for the leaving row. *)
Lemma optimize_exit_step_spec (s : amcw_Solver) (enter : amcw_Symbol)
    (acc acc' : float * amcw_Symbol) (row : nat) :
  optimize_exit_step s enter acc row = Done acc' →
  (acc' = acc ∧
   ∀ key ratio, exit_candidate s enter row key ratio → beats ratio key acc = false) ∨
  (exit_candidate s enter row acc'.2 acc'.1 ∧ beats acc'.1 acc'.2 acc = true).
Proof.
  unfold optimize_exit_step. intros H. res_inv. rename a into re, a0 into term.
  apply entry_at_Done in Ha.
  destruct term as [term|]; last first.
  { res_inv. left. split; [done|]. intros key ratio (re' & t' & te' & ? & _ & ? & _).
    simplify_eq. congruence. }
  res_inv. rename a into te. apply entry_at_Done in Ha1.
  destruct (amcw_ispivotable (e_key re)) eqn:Hp; simpl in H; last first.
  { res_inv. left. split; [done|].
    intros key ratio (re' & t' & te' & ? & ? & _ & _ & ? & _). simplify_eq. congruence. }
  destruct (0 <? e_val te)%float eqn:Hpos.
  { res_inv. left. split; [done|].
    intros key ratio (re' & t' & te' & ? & ? & Hg & ? & _ & ? & _). simplify_eq.
    rewrite Ha0 in Hg. simplify_eq. congruence. }
  match type of H with (if ?b then _ else _) = _ => destruct b eqn:Hb end; res_inv.
  - right. split; [|done]. by exists re, term, te.
  - left. split; [done|].
    intros key ratio (re' & t' & te' & ? & ? & Hg & ? & _ & _ & ?). simplify_eq.
    rewrite Ha0 in Hg. by simplify_eq.
Qed.

(** The scan for the leaving row: either no row replaced the initial
    choice, or the choice is a candidate that no row after it replaced. *)
Lemma optimize_exit_scan (s : amcw_Solver) (enter : amcw_Symbol)
    (l : list nat) (acc acc' : float * amcw_Symbol) :
  res_foldl (optimize_exit_step s enter) acc l = Done acc' →
  (acc' = acc ∧
   ∀ r key ratio, r ∈ l → exit_candidate s enter r key ratio →
                  beats ratio key acc = false) ∨
  (∃ l1 row l2, l = l1 ++ row :: l2 ∧
     exit_candidate s enter row acc'.2 acc'.1 ∧
     ∀ r key ratio, r ∈ l2 → exit_candidate s enter r key ratio →
                    beats ratio key acc' = false).
Proof.
  revert acc. induction l as [|row l IH]; intros acc Hl; simpl in Hl.
  { simplify_eq. left. split; [done|]. by intros ??? ?%elem_of_nil. }
  res_inv. rename a into acc1.
  destruct (IH _ Hl) as [[-> Hno]|(l1 & row' & l2 & -> & Hc & Hno)].
  - destruct (optimize_exit_step_spec _ _ _ _ _ Ha) as [[-> Hno']|[Hc Hb]].
    + left. split; [done|]. intros r key ratio [->|Hr]%elem_of_cons; eauto.
    + right. exists [], row, l. eauto.
  - right. exists (row :: l1), row', l2. eauto.
Qed.

Lemma exit_candidate_det (s : amcw_Solver) (enter : amcw_Symbol) (row : nat)
    (k1 k2 : amcw_Symbol) (q1 q2 : float) :
  exit_candidate s enter row k1 q1 → exit_candidate s enter row k2 q2 →
  k1 = k2 ∧ q1 = q2.
Proof.
  intros (re & t & te & ? & ? & Hg & ? & _ & _ & ?)
         (re' & t' & te' & ? & ? & Hg' & ? & _ & _ & ?).
  simplify_eq. rewrite Hg in Hg'. by simplify_eq.
Qed.

(** The scan keeps a choice that no row of the list replaces. *)
Lemma optimize_exit_scan_keep (s : amcw_Solver) (enter : amcw_Symbol)
    (l : list nat) (acc acc' : float * amcw_Symbol) :
  (∀ r key ratio, r ∈ l → exit_candidate s enter r key ratio →
                  beats ratio key acc = false ∨ (ratio, key) = acc) →
  res_foldl (optimize_exit_step s enter) acc l = Done acc' → acc' = acc.
Proof.
  induction l as [|row l IH]; intros Hno Hl; simpl in Hl; [by simplify_eq|].
  res_inv. rename a into acc1.
  assert (acc1 = acc) as ->.
  { destruct (optimize_exit_step_spec _ _ _ _ _ Ha) as [[-> _]|[Hc Hb]]; [done|].
    destruct (Hno row acc1.2 acc1.1) as [Hf|Heq]; [apply elem_of_cons; by left|done|..].
    - congruence.
    - by destruct acc1. }
  apply IH; [|done]. intros r key ratio Hr. apply Hno, elem_of_cons. by right.
Qed.

(** A candidate that replaces every other choice is the result of the scan. *)
Lemma optimize_exit_scan_best (s : amcw_Solver) (enter : amcw_Symbol)
    (row : nat) (key : amcw_Symbol) (ratio : float)
    (l : list nat) (acc acc' : float * amcw_Symbol) :
  exit_candidate s enter row key ratio →
  (∀ r k q, r ∈ l → r ≠ row → exit_candidate s enter r k q →
            beats ratio key (q, k) = true ∧ beats q k (ratio, key) = false) →
  row ∈ l → beats ratio key acc = true →
  res_foldl (optimize_exit_step s enter) acc l = Done acc' → acc' = (ratio, key).
Proof.
  intros Hc Hothers. revert acc.
  induction l as [|r l IH]; intros acc Hin Hacc Hl; [by apply elem_of_nil in Hin|].
  simpl in Hl. res_inv. rename a into acc1.
  destruct (decide (r = row)) as [->|Hne].
  - assert (acc1 = (ratio, key)) as ->.
    { destruct (optimize_exit_step_spec _ _ _ _ _ Ha) as [[-> Hno]|[Hc' _]].
      - rewrite (Hno _ _ Hc) in Hacc. done.
      - destruct (exit_candidate_det _ _ _ _ _ _ _ Hc Hc') as [-> ->]. by destruct acc1. }
    eapply optimize_exit_scan_keep; [|done].
    intros r k q Hr Hcr. destruct (decide (r = row)) as [->|Hne].
    + right. by destruct (exit_candidate_det _ _ _ _ _ _ _ Hc Hcr) as [-> ->].
    + left. eapply Hothers; [|done..]. apply elem_of_cons. by right.
  - apply (λ H, IH H acc1); [| | |done].
    + intros r' k q Hr'. apply Hothers, elem_of_cons. by right.
    + apply elem_of_cons in Hin as [->|Hin]; done.
    + destruct (optimize_exit_step_spec _ _ _ _ _ Ha) as [[-> _]|[Hc' _]]; [done|].
      destruct acc1 as [q k]. eapply Hothers; [apply elem_of_cons; by left|done..].
Qed.

(** C3, the tie-break as stated, fails.  When [amcw_add] of the medium
    constraint [x = 100] reaches [amcw_optimize], the rows keyed by the
    slacks 4 and 5 of [x <= 1] and [x <= 0.9999995] both hold the
    entering symbol; their ratios 1 and 0.9999995 are equal within EPS,
    and the scan, which meets the row of 4 first, leaves with the row of
    5, whose ratio is strictly smaller. *)
Lemma exit_prefers_smaller_ratio_within_eps :
  optimize_enter (objective solver_before_pivot) = mkSym 3 AMCW_ERROR ∧
  optimize_exit solver_before_pivot (mkSym 3 AMCW_ERROR)
    = Done (0.99999950000000004%float, mkSym 5 AMCW_SLACK) ∧
  0%nat ∈ amcw_entries (rows solver_before_pivot) ∧
  exit_candidate solver_before_pivot (mkSym 3 AMCW_ERROR) 0 (mkSym 4 AMCW_SLACK) 1%float ∧
  amcw_approx 1 0.99999950000000004 = true ∧
  ¬ exit_ties_to_smaller_id.
Proof.
  assert (H1 : optimize_exit solver_before_pivot (mkSym 3 AMCW_ERROR)
               = Done (0.99999950000000004%float, mkSym 5 AMCW_SLACK))
    by (vm_compute; reflexivity).
  assert (H2 : 0%nat ∈ amcw_entries (rows solver_before_pivot)).
  { vm_compute. apply elem_of_cons. by left. }
  assert (H3 : exit_candidate solver_before_pivot (mkSym 3 AMCW_ERROR) 0
                 (mkSym 4 AMCW_SLACK) 1%float).
  { eexists _, 3%nat, _. repeat split; vm_compute; reflexivity. }
  assert (H4 : amcw_approx 1 0.99999950000000004 = true) by (vm_compute; reflexivity).
  split; [vm_compute; reflexivity|]. do 4 (split; [done|]).
  intros H. pose proof (H _ _ _ _ H1 _ _ _ H2 H3 H4) as Hle. cbn in Hle. lia.
Qed.

(** C3 (amended): pivot selection of [amcw_optimize].  The entering
    symbol is the key of the first live term of the objective, in slot
    order, that is not dummy and has a strictly negative coefficient;
    when there is none the call returns [AMCW_OK] and changes neither the
    solver nor the objective.  Otherwise the iteration pivots on the
    result of one scan of the rows in slot order: the chosen row is a
    candidate (pivotable key, holds the entering symbol with a
    coefficient that is not positive), its ratio is the reported
    minimum, no candidate scanned after it has a strictly smaller ratio,
    and one scanned after it with an approximately equal ratio has no
    smaller key id.  A candidate that replaces every other one, and is
    replaced by none, is the one chosen. *)
Theorem amcw_optimize_pivot (s : amcw_Solver) (obj : option amcw_Row) (fuel : nat) :
  let ob := default (objective s) obj in
  let enter := optimize_enter ob in
  let entering term :=
    negb (amcw_isdummy (e_key term)) && (e_val term <? 0)%float in
  (sym_id enter ≠ 0 →
     ∃ l1 term l2, live_entries (terms ob) = l1 ++ term :: l2 ∧
       e_key term = enter ∧ amcw_isdummy enter = false ∧
       (e_val term <? 0)%float = true ∧ Forall (λ t, entering t = false) l1) ∧
  (sym_id enter = 0 →
     Forall (λ t, entering t = false) (live_entries (terms ob)) ∧
     (sym_id (infeasible_rows s) = 0 →
      amcw_optimize (S fuel) s obj = Done (AMCW_OK, obj, s))) ∧
  (∀ r, sym_id enter ≠ 0 → amcw_optimize (S fuel) s obj = Done r →
     ∃ min exit l1 row l2 tmp s1,
       optimize_exit s enter = Done (min, exit) ∧ sym_id exit ≠ 0 ∧
       amcw_takerow s exit uninit_row = Done (AMCW_OK, tmp, s1) ∧
       amcw_entries (rows s) = l1 ++ row :: l2 ∧
       exit_candidate s enter row exit min ∧
       ∀ r' key ratio, r' ∈ l2 → exit_candidate s enter r' key ratio →
         (ratio <? min)%float = false ∧
         (amcw_approx ratio min = true → sym_id exit ≤ sym_id key)) ∧
  (∀ row key ratio res,
     row ∈ amcw_entries (rows s) → exit_candidate s enter row key ratio →
     (ratio <? AMCW_NUM_MAX)%float = true →
     (∀ r k q, r ∈ amcw_entries (rows s) → r ≠ row → exit_candidate s enter r k q →
        beats ratio key (q, k) = true ∧ beats q k (ratio, key) = false) →
     optimize_exit s enter = Done res → res = (ratio, key)).
Proof.
  intros ob enter entering. split; [|split; [|split]].
  - intros Hne. apply first_key_found in Hne as (l1 & term & l2 & Hl & Hk & Hp & Hl1).
    apply andb_true_iff in Hp as [Hd Hneg]. apply negb_true_iff in Hd.
    exists l1, term, l2. repeat split; try done. by rewrite <- Hd, Hk.
  - intros He. split; [by apply first_key_null|].
    intros Hinf. rewrite amcw_optimize_S. subst enter ob.
    apply Z.eqb_eq in He, Hinf. rewrite Hinf. cbn [c_assert mbind res_bind].
    cbv zeta. by rewrite He.
  - intros r Hne Hopt. rewrite amcw_optimize_S in Hopt. subst enter ob.
    apply Z.eqb_neq in Hne. apply bind_Done in Hopt as (_ & _ & Hopt).
    cbv zeta in Hopt. rewrite Hne in Hopt. apply bind_Done in Hopt as ([min exit] & Hexit & Hopt).
    apply bind_Done in Hopt as (_ & Hex%c_assert_Done & Hopt).
    apply bind_Done in Hopt as ([[taken tmp] s1] & Htake & Hopt).
    apply bind_Done in Hopt as (_ & Htaken%c_assert_Done & _).
    apply negb_true_iff, Z.eqb_neq in Hex. apply Z.eqb_eq in Htaken as ->.
    destruct (optimize_exit_scan _ _ _ _ _ Hexit) as [[[= -> ->] _]|Hscan]; [done|].
    destruct Hscan as (l1 & row & l2 & Hl & Hc & Hno).
    exists min, exit, l1, row, l2, tmp, s1.
    split; [done|]. split; [done|]. split; [done|]. split; [done|]. split; [done|].
    intros r' key ratio Hr' Hc'. specialize (Hno _ _ _ Hr' Hc').
    apply orb_false_iff in Hno as [Hlt Hno]. split; [done|].
    intros Happrox. simpl in Hno. rewrite Happrox in Hno. simpl in Hno. lia.
  - intros row key ratio res Hin Hc Hmax Hothers Hexit.
    eapply optimize_exit_scan_best; [done|done|done| |done].
    unfold beats. simpl. by rewrite Hmax.
Qed.

(** The iteration on [solver_before_pivot] leaves with the row of slack 5. *)
Lemma amcw_optimize_pivot_witness :
  ∃ min exit row,
    optimize_exit solver_before_pivot (mkSym 3 AMCW_ERROR) = Done (min, exit) ∧
    exit_candidate solver_before_pivot (mkSym 3 AMCW_ERROR) row exit min ∧
    sym_id exit = 5.
Proof.
  destruct (amcw_optimize_pivot solver_before_pivot None 9) as (_ & _ & H & _).
  assert (Hex : ∃ r, amcw_optimize 10 solver_before_pivot None = Done r).
  { eexists. vm_compute. reflexivity. }
  destruct Hex as [r Hr].
  destruct (H r) as (min & exit & l1 & row & l2 & tmp & s1 & He & _ & _ & _ & Hc & _).
  { vm_compute. discriminate. }
  { exact Hr. }
  exists min, exit, row. split; [exact He|]. split; [exact Hc|].
  assert (H1 : optimize_exit solver_before_pivot (mkSym 3 AMCW_ERROR)
               = Done (0.99999950000000004%float, mkSym 5 AMCW_SLACK))
    by (vm_compute; reflexivity).
  change (optimize_enter (default (objective solver_before_pivot) None))
    with (mkSym 3 AMCW_ERROR) in He.
  rewrite H1 in He. by injection He as <- <-.
Defined.

(** ** [amcw_updatevars] *)

Lemma load_var_store_var_ne (s : amcw_Solver) (var var' : nat) (v : amcw_Var) :
  var ≠ var' → load_var (store_var s var v) var' = load_var s var'.
Proof.
  intros Hne. unfold load_var, store_var, entry_at. simpl.
  by rewrite list_lookup_alter_ne.
Qed.

Lemma load_var_store_var (s : amcw_Solver) (var : nat) (v0 v : amcw_Var) :
  load_var s var = Done v0 → load_var (store_var s var v) var = Done v.
Proof.
  unfold load_var, store_var, entry_at. simpl. intros H.
  rewrite list_lookup_alter_eq.
  destruct (t_hash (vars s) !! var) as [e|]; [|done]. done.
Qed.

Lemma load_var_lt (s : amcw_Solver) (var : nat) (v : amcw_Var) :
  load_var s var = Done v → (var < t_size (vars s))%nat.
Proof.
  unfold load_var, entry_at, t_size. intros H.
  destruct (t_hash (vars s) !! var) as [e|] eqn:He; [|done].
  by apply lookup_lt_Some in He.
Qed.

Lemma amcw_sym2var_store_var (s : amcw_Solver) (var : nat) (v : amcw_Var)
    (sym : amcw_Symbol) :
  amcw_sym2var (store_var s var v) sym = amcw_sym2var s sym.
Proof.
  unfold amcw_sym2var, store_var. simpl. by rewrite amcw_gettable_set_val.
Qed.

(** The dirty list does not go through a slot that is stored to. *)
Lemma dirty_list_store_var (s : amcw_Solver) (d sym last : amcw_Symbol)
    (l : list nat) (var : nat) (v' : amcw_Var) :
  dirty_list s sym l last → var ∉ l →
  dirty_list (store_var (set_dirty_vars s d) var v') sym l last.
Proof.
  induction 1 as [sym Hs|sym var0 v l last Hs Hv Hl Hd IH]; intros Hnot.
  - by constructor.
  - apply not_elem_of_cons in Hnot as [Hne Hnot].
    apply dirty_cons with v; [done| | |by apply IH].
    + by rewrite amcw_sym2var_store_var.
    + by rewrite load_var_store_var_ne.
Qed.

Lemma dirty_list_det (s : amcw_Solver) (sym last last' : amcw_Symbol)
    (l l' : list nat) :
  dirty_list s sym l last → dirty_list s sym l' last' → l = l' ∧ last = last'.
Proof.
  intros H. revert l' last'.
  induction H as [sym Hs|sym var v l last Hs Hv Hl Hd IH]; intros l' last' H';
    inversion H'; subst; try done.
  assert (var0 = var) as -> by congruence. assert (v0 = v) as -> by congruence.
  by destruct (IH _ _ ltac:(eassumption)) as [-> ->].
Qed.

Lemma dirty_list_from (s : amcw_Solver) (sym last : amcw_Symbol) (l : list nat)
    (var : nat) :
  dirty_list s sym l last → var ∈ l →
  ∃ v l2, load_var s var = Done v ∧ dirty_list s (v_dirty_next v) l2 last ∧
          (length l2 < length l)%nat.
Proof.
  induction 1 as [sym Hs|sym var0 v l last Hs Hv Hl Hd IH]; intros Hin.
  - by apply elem_of_nil in Hin.
  - apply elem_of_cons in Hin as [->|Hin].
    + exists v, l. simpl. repeat split; [done..|lia].
    + destruct (IH Hin) as (v' & l2 & ? & ? & ?). exists v', l2. simpl.
      repeat split; [done..|lia].
Qed.

(** The links of a dirty list that ends go through no slot twice. *)
Lemma dirty_list_NoDup (s : amcw_Solver) (sym last : amcw_Symbol) (l : list nat) :
  dirty_list s sym l last → NoDup l.
Proof.
  induction 1 as [sym Hs|sym var v l last Hs Hv Hl Hd IH]; constructor; [|done].
  intros Hin. destruct (dirty_list_from _ _ _ _ _ Hd Hin) as (v' & l2 & Hl' & Hd' & Hlen).
  rewrite Hl in Hl'. simplify_eq.
  destruct (dirty_list_det _ _ _ _ _ _ Hd Hd') as [-> _]. lia.
Qed.

Lemma dirty_list_length (s : amcw_Solver) (sym last : amcw_Symbol) (l : list nat) :
  dirty_list s sym l last → (length l ≤ t_size (vars s))%nat.
Proof.
  intros Hd.
  assert (Hsub : l ⊆+ seq 0 (t_size (vars s))).
  { apply NoDup_submseteq; [by eapply dirty_list_NoDup|].
    intros var Hin. destruct (dirty_list_from _ _ _ _ _ Hd Hin) as (v & _ & Hv & _).
    apply load_var_lt in Hv. apply elem_of_seq. lia. }
  apply submseteq_length in Hsub. by rewrite length_seq in Hsub.
Qed.

Lemma dirty_list_last (s : amcw_Solver) (sym last : amcw_Symbol) (l : list nat) :
  dirty_list s sym l last → sym_id last = 0.
Proof. by induction 1. Qed.

Lemma same_but_vars_refl (s : amcw_Solver) : same_but_vars s s.
Proof. by repeat split. Qed.

Lemma row_value_same (s s1 : amcw_Solver) (sym : amcw_Symbol) :
  rows s1 = rows s → row_value s1 sym = row_value s sym.
Proof. unfold row_value, load_row. by intros ->. Qed.

(** One iteration of the loop. *)
Lemma updatevars_step_spec (s : amcw_Solver) (var : nat) (v : amcw_Var) (x : float) :
  amcw_sym2var s (dirty_vars s) = Done var → load_var s var = Done v →
  row_value s (v_sym v) = Done x →
  updatevars_step s
    = Done (store_var (set_dirty_vars s (v_dirty_next v)) var (published v x)).
Proof.
  unfold updatevars_step, row_value. intros -> Hv Hx. simpl. rewrite Hv. simpl.
  destruct (amcw_gettable (rows s) (v_sym v)) as [[row|]| |]; simpl in *; try done.
  - destruct (load_row s row); simpl in *; by simplify_eq.
  - by simplify_eq.
Qed.

Lemma updatevars_step_same (s s1 : amcw_Solver) :
  updatevars_step s = Done s1 → same_but_vars s s1.
Proof.
  unfold updatevars_step. intros H. res_inv. repeat split; simpl; try done.
  by apply shape_alter_val.
Qed.

Lemma same_but_vars_trans (s s1 s2 : amcw_Solver) :
  same_but_vars s s1 → same_but_vars s1 s2 → same_but_vars s s2.
Proof.
  unfold same_but_vars. intros H1 H2. destruct_and!. repeat split; congruence.
Qed.

(** The loop leaves with an empty dirty list. *)
Lemma updatevars_loop_end (fuel : nat) (s s1 : amcw_Solver) :
  updatevars_loop fuel s = Done s1 →
  sym_id (dirty_vars s1) = 0 ∧ same_but_vars s s1.
Proof.
  revert s. induction fuel as [|fuel IH]; intros s H; simpl in H; [done|].
  destruct (sym_id (dirty_vars s) =? 0) eqn:Hd.
  - simplify_eq. split; [by apply Z.eqb_eq|apply same_but_vars_refl].
  - res_inv. destruct (IH _ H) as [? ?]. split; [done|].
    eapply same_but_vars_trans; [by eapply updatevars_step_same|done].
Qed.

(** The loop publishes the variables of the dirty list, given a bound
    that is longer than the list. *)
Lemma updatevars_loop_spec (l : list nat) (last : amcw_Symbol) (fuel : nat)
    (s : amcw_Solver) :
  dirty_list s (dirty_vars s) l last →
  (∀ var v, var ∈ l → load_var s var = Done v → ∃ x, row_value s (v_sym v) = Done x) →
  (length l < fuel)%nat →
  ∃ s1, updatevars_loop fuel s = Done s1 ∧ dirty_vars s1 = last ∧
        published_in s l s1.
Proof.
  revert fuel s. induction l as [|var l IH]; intros fuel s Hd Hrows Hfuel.
  - destruct fuel as [|fuel]; [simpl in Hfuel; lia|]. inversion Hd as [? Hs|]; subst.
    exists s. simpl. apply Z.eqb_eq in Hs. rewrite Hs.
    split; [done|]. split; [done|]. split; [|done].
    by intros var ?%elem_of_nil.
  - destruct fuel as [|fuel]; [simpl in Hfuel; lia|].
    pose proof (NoDup_cons_1_1 _ _ (dirty_list_NoDup _ _ _ _ Hd)) as Hnot.
    inversion Hd as [|? ? v ? ? Hs Hvar Hv Hd']; subst.
    destruct (Hrows var v) as [x Hx]; [apply elem_of_cons; by left|done|].
    set (s' := store_var (set_dirty_vars s (v_dirty_next v)) var (published v x)).
    destruct (IH fuel s') as (s1 & Hloop & Hlast & Hpub & Hframe).
    { by apply dirty_list_store_var. }
    { intros var' v' Hin Hv'. unfold s' in Hv'.
      rewrite load_var_store_var_ne in Hv' by (by intros ->).
      destruct (Hrows var' v') as [x' Hx']; [apply elem_of_cons; by right|done|].
      by exists x'. }
    { simpl in Hfuel. lia. }
    exists s1. simpl. apply Z.eqb_neq in Hs. rewrite Hs.
    rewrite (updatevars_step_spec s var v x) by done. simpl. fold s'.
    split; [done|]. split; [done|]. split.
    + intros var' [->|Hin]%elem_of_cons.
      * exists v, x. split; [done|]. split; [done|].
        unfold load_var, entry_at. rewrite (Hframe _ Hnot).
        change (load_var s' var = Done (published v x)).
        by apply load_var_store_var with v.
      * destruct (Hpub _ Hin) as (v' & x' & Hv' & Hx' & Hs1).
        unfold s' in Hv'. rewrite load_var_store_var_ne in Hv' by (by intros ->).
        exists v', x'. by repeat split.
    + intros var' [Hne Hnot']%not_elem_of_cons. rewrite (Hframe _ Hnot').
      simpl. by rewrite list_lookup_alter_ne.
Qed.

(** C6: [amcw_updatevars] is idempotent.  A call that returns leaves the
    dirty list empty and changes nothing but the variables and the head
    of the list, and a second call returns the same state.  When the
    dirty list of [s] ends and the rows of its variables can be read, the
    call returns: each variable of the list then has the constant of the
    row keyed by its symbol (0 if there is none) as its value and an
    empty link, and no other variable changed. *)
Theorem amcw_updatevars_idempotent (s : amcw_Solver) :
  (∀ s1, amcw_updatevars s = Done s1 →
     amcw_updatevars s1 = Done s1 ∧ sym_id (dirty_vars s1) = 0 ∧
     same_but_vars s s1) ∧
  (∀ l last,
     dirty_list s (dirty_vars s) l last →
     (∀ var v, var ∈ l → load_var s var = Done v →
               ∃ x, row_value s (v_sym v) = Done x) →
     ∃ s1, amcw_updatevars s = Done s1 ∧ amcw_updatevars s1 = Done s1 ∧
           sym_id (dirty_vars s1) = 0 ∧ same_but_vars s s1 ∧
           published_in s l s1).
Proof.
  assert (Hfirst : ∀ s1, amcw_updatevars s = Done s1 →
     amcw_updatevars s1 = Done s1 ∧ sym_id (dirty_vars s1) = 0 ∧
     same_but_vars s s1).
  { intros s1 H. apply updatevars_loop_end in H as [Hd Hsame].
    split; [|done]. unfold amcw_updatevars. simpl.
    apply Z.eqb_eq in Hd. by rewrite Hd. }
  split; [done|]. intros l last Hd Hrows.
  destruct (updatevars_loop_spec l last (S (S (t_size (vars s)))) s)
    as (s1 & Hloop & _ & Hpub); [done|done| |].
  { apply dirty_list_length in Hd. lia. }
  exists s1. destruct (Hfirst _ Hloop) as (? & ? & ?). by do 4 (split; [done|]).
Qed.

(** On [solver_dirty] the list goes through [y] and [x], which get the
    values 12 and 10. *)
Lemma amcw_updatevars_idempotent_witness :
  ∃ s1, amcw_updatevars solver_dirty = Done s1 ∧ amcw_updatevars s1 = Done s1 ∧
        (∃ y, load_var s1 2 = Done y ∧ v_value y = 12%float) ∧
        (∃ x, load_var s1 1 = Done x ∧ v_value x = 10%float).
Proof.
  destruct (amcw_updatevars_idempotent solver_dirty) as [_ H].
  destruct (H [2%nat; 1%nat] (mkSym 0 AMCW_DUMMY)) as (s1 & H1 & H2 & _ & _ & Hp & _).
  - eapply dirty_cons; [done|vm_compute; reflexivity..|].
    eapply dirty_cons; [done|vm_compute; reflexivity..|].
    by apply dirty_nil.
  - intros var v Hin Hv. repeat (apply elem_of_cons in Hin as [->|Hin]).
    + vm_compute in Hv. injection Hv as <-. eexists. vm_compute. reflexivity.
    + vm_compute in Hv. injection Hv as <-. eexists. vm_compute. reflexivity.
    + by apply elem_of_nil in Hin.
  - exists s1. split; [exact H1|]. split; [exact H2|]. split.
    + destruct (Hp 2%nat) as (v & x & Hv & Hx & Hv1); [apply elem_of_cons; by left|].
      eexists. split; [exact Hv1|]. vm_compute in Hv. injection Hv as <-.
      vm_compute in Hx. injection Hx as <-. reflexivity.
    + destruct (Hp 1%nat) as (v & x & Hv & Hx & Hv1).
      { apply elem_of_cons. right. apply elem_of_cons. by left. }
      eexists. split; [exact Hv1|]. vm_compute in Hv. injection Hv as <-.
      vm_compute in Hx. injection Hx as <-. reflexivity.
Defined.

(** ** Reading a value *)

(** C9: [amcw_value] of the NULL handle is 0, without failing; of a
    variable, it is the [value] field of the variable.  That field is what
    [amcw_updatevars] published: after a call, a variable that was on the
    dirty list reads as the constant of the row keyed by its symbol (0
    when there is none), and every other variable reads as before. *)
Theorem amcw_value_spec (s : amcw_Solver) :
  amcw_value s None = Done 0%float ∧
  (∀ var v, load_var s var = Done v → amcw_value s (Some var) = Done (v_value v)) ∧
  (∀ l last,
     dirty_list s (dirty_vars s) l last →
     (∀ var v, var ∈ l → load_var s var = Done v →
               ∃ x, row_value s (v_sym v) = Done x) →
     ∃ s1, amcw_updatevars s = Done s1 ∧
       (∀ var v x, var ∈ l → load_var s var = Done v →
                   row_value s (v_sym v) = Done x →
                   amcw_value s1 (Some var) = Done x) ∧
       (∀ var, var ∉ l → amcw_value s1 (Some var) = amcw_value s (Some var))).
Proof.
  split; [done|]. split.
  { intros var v Hv. unfold amcw_value. by rewrite Hv. }
  intros l last Hd Hrows.
  destruct (updatevars_loop_spec l last (S (S (t_size (vars s)))) s)
    as (s1 & Hloop & _ & Hpub & Hframe); [done|done| |].
  { apply dirty_list_length in Hd. lia. }
  exists s1. split; [done|]. split.
  - intros var v x Hin Hv Hx. destruct (Hpub _ Hin) as (v' & x' & Hv' & Hx' & Hv1).
    rewrite Hv in Hv'. simplify_eq. rewrite Hx in Hx'. simplify_eq.
    unfold amcw_value. by rewrite Hv1.
  - intros var Hnot. unfold amcw_value, load_var, entry_at. by rewrite (Hframe _ Hnot).
Qed.

(** On [solver_dirty], [y] reads as 12 after [amcw_updatevars]. *)
Lemma amcw_value_spec_witness :
  amcw_value solver_dirty None = Done 0%float ∧
  ∃ s1, amcw_updatevars solver_dirty = Done s1 ∧
        amcw_value s1 (Some 2%nat) = Done 12%float.
Proof.
  destruct (amcw_value_spec solver_dirty) as (H0 & _ & H).
  split; [exact H0|].
  destruct (H [2%nat; 1%nat] (mkSym 0 AMCW_DUMMY)) as (s1 & H1 & Hv & _).
  - eapply dirty_cons; [done|vm_compute; reflexivity..|].
    eapply dirty_cons; [done|vm_compute; reflexivity..|].
    by apply dirty_nil.
  - intros var v Hin Hv. repeat (apply elem_of_cons in Hin as [->|Hin]).
    + vm_compute in Hv. injection Hv as <-. eexists. vm_compute. reflexivity.
    + vm_compute in Hv. injection Hv as <-. eexists. vm_compute. reflexivity.
    + by apply elem_of_nil in Hin.
  - exists s1. split; [exact H1|].
    eapply (Hv 2%nat); [apply elem_of_cons; by left|vm_compute; reflexivity..].
Defined.

(** ** [amcw_suggest] *)

Lemma entries_from_ge {A} (h : list (amcw_Entry A)) (i x : nat) :
  x ∈ entries_from h i → (i ≤ x)%nat.
Proof.
  revert i. induction h as [|e h IH]; intros i; simpl; [by intros ?%elem_of_nil|].
  destruct (negb _).
  - intros [->|Hx%IH]%elem_of_cons; lia.
  - intros Hx%IH. lia.
Qed.

Lemma entries_from_NoDup {A} (h : list (amcw_Entry A)) (i : nat) :
  NoDup (entries_from h i).
Proof.
  revert i. induction h as [|e h IH]; intros i; simpl; [constructor|].
  destruct (negb _); [|done]. constructor; [|done].
  intros Hx%entries_from_ge. lia.
Qed.

Lemma amcw_entries_NoDup {A} (t : amcw_Table A) : NoDup (amcw_entries t).
Proof. apply entries_from_NoDup. Qed.

Lemma amcw_infeasible_spec (s : amcw_Solver) (row : nat) (re : amcw_Entry amcw_Row) :
  t_hash (rows s) !! row = Some re →
  ∃ s1 re1, amcw_infeasible s row = Done s1 ∧
    row_with_constant re (constant (e_val re)) row s1 re1 ∧
    marked_infeasible (e_val re1) ∧
    (∀ r, r ≠ row → t_hash (rows s1) !! r = t_hash (rows s) !! r) ∧
    vars s1 = vars s ∧ dirty_vars s1 = dirty_vars s ∧ objective s1 = objective s.
Proof.
  intros Hre. unfold amcw_infeasible, entry_at. rewrite Hre. simpl.
  destruct (constant (e_val re) <? 0)%float eqn:Hneg; simpl.
  - destruct (amcw_isdummy (infeasible_next (e_val re))) eqn:Hd; simpl.
    + exists s, re. split; [done|]. split; [by repeat split|]. by split; [intros _|].
    + eexists _, _. split; [done|]. split; [|split].
      * split; [simpl; by rewrite list_lookup_alter_eq, Hre|done].
      * by intros _.
      * split; [|done]. simpl. intros r Hr. by rewrite list_lookup_alter_ne.
  - exists s, re. split; [done|]. split; [by repeat split|].
    split; [|done]. intros Hc. congruence.
Qed.

Lemma marked_dirty_vars (s s' : amcw_Solver) (sym : amcw_Symbol) :
  vars s' = vars s → marked_dirty s sym → marked_dirty s' sym.
Proof.
  intros Hv (var & v & H1 & H2 & H3). exists var, v.
  unfold amcw_sym2var, load_var in *. by rewrite Hv.
Qed.

Lemma marked_dirty_set_dirty_vars (s : amcw_Solver) (d sym : amcw_Symbol) :
  marked_dirty s sym → marked_dirty (set_dirty_vars s d) sym.
Proof. by apply marked_dirty_vars. Qed.

(** [amcw_markdirty] puts the variable on the dirty list and keeps the
    variables that are on it. *)
Lemma amcw_markdirty_spec (s : amcw_Solver) (key : amcw_Symbol) (var : nat)
    (s' : amcw_Solver) :
  amcw_sym2var s key = Done var → amcw_markdirty s var = Done s' →
  marked_dirty s' key ∧ (∀ sym, marked_dirty s sym → marked_dirty s' sym).
Proof.
  unfold amcw_markdirty. intros Hkey H. res_inv. rename a into v.
  destruct (sym_type (v_dirty_next v) =? AMCW_DUMMY) eqn:Hd; simplify_eq.
  - apply Z.eqb_eq in Hd. split; [|done]. by exists var, v.
  - split.
    + apply marked_dirty_set_dirty_vars.
      eexists var, _. split; [by rewrite amcw_sym2var_store_var|].
      split; [by eapply load_var_store_var|done].
    + intros sym (var' & v' & H1 & H2 & H3). apply marked_dirty_set_dirty_vars.
      destruct (decide (var' = var)) as [->|Hne].
      * eexists var, _. split; [by rewrite amcw_sym2var_store_var|].
        split; [by eapply load_var_store_var|done].
      * exists var', v'. split; [by rewrite amcw_sym2var_store_var|].
        split; [|done]. by rewrite load_var_store_var_ne.
Qed.

(** One step of the scan of the rows in the third case. *)
Lemma delta_edit_step_spec (delta : float) (marker : amcw_Symbol)
    (s : amcw_Solver) (row : nat) (s' : amcw_Solver) :
  delta_edit_step delta marker s row = Done s' →
  ∃ re term, t_hash (rows s) !! row = Some re ∧
    amcw_gettable (terms (e_val re)) marker = Done term ∧
    delta_applied delta re term row s' ∧
    (∀ r, r ≠ row → t_hash (rows s') !! r = t_hash (rows s) !! r) ∧
    (∀ sym, marked_dirty s sym → marked_dirty s' sym).
Proof.
  unfold delta_edit_step. intros H. res_inv. rename a into re, a0 into term.
  apply entry_at_Done in Ha. exists re, term. split; [done|]. split; [done|].
  destruct term as [term|]; [|by simplify_eq].
  res_inv. rename a into te. apply entry_at_Done in Ha1.
  set (r := set_constant (e_val re) (constant (e_val re) + e_val te * delta)%float) in H.
  assert (Hrow : t_hash (rows (store_row s row r)) !! row = Some (set_val r re)).
  { simpl. by rewrite list_lookup_alter_eq, Ha. }
  assert (Hother : ∀ r', r' ≠ row →
            t_hash (rows (store_row s row r)) !! r' = t_hash (rows s) !! r').
  { intros r' Hr'. simpl. by rewrite list_lookup_alter_ne. }
  destruct (amcw_isexternal (e_key re)) eqn:Hext.
  - res_inv. rename a into var.
    destruct (amcw_markdirty_spec _ _ _ _ Ha2 H) as [Hdirty Hkept].
    apply amcw_markdirty_rows in H as (Hrows & _).
    split; [|split].
    + simpl. exists te, (set_val r re). split; [done|]. rewrite Hext.
      split; [|done]. split; [by rewrite Hrows|done].
    + intros r' Hr'. rewrite Hrows. by apply Hother.
    + intros sym Hsym. by apply Hkept, (marked_dirty_vars s).
  - destruct (amcw_infeasible_spec _ _ _ Hrow)
      as (s1 & re1 & Hs1 & Hre1 & Hinf & Hoth & Hvars & _).
    rewrite Hs1 in H. simplify_eq. split; [|split].
    + simpl. exists te, re1. split; [done|]. rewrite Hext. split; [|done].
      destruct Hre1 as (? & ? & ? & ? & ?). by repeat split.
    + intros r' Hr'. rewrite Hoth by done. by apply Hother.
    + intros sym Hsym. by apply (marked_dirty_vars s).
Qed.

Lemma delta_applied_later (delta : float) (re : amcw_Entry amcw_Row)
    (term : option nat) (row : nat) (s s1 : amcw_Solver) :
  t_hash (rows s1) !! row = t_hash (rows s) !! row →
  (∀ sym, marked_dirty s sym → marked_dirty s1 sym) →
  delta_applied delta re term row s → delta_applied delta re term row s1.
Proof.
  intros Hrow Hkept. destruct term as [term|]; unfold delta_applied;
    [|by rewrite Hrow].
  intros (te & re1 & Hte & (? & ? & ? & ? & ?) & Hmark). exists te, re1.
  split; [done|]. split; [split; [by rewrite Hrow|done]|].
  destruct (amcw_isexternal (e_key re)); [|done].
  destruct Hmark. split; [by apply Hkept|done].
Qed.

(** The scan of the rows in the third case. *)
Lemma delta_edit_scan (delta : float) (marker : amcw_Symbol) (l : list nat)
    (s s1 : amcw_Solver) :
  NoDup l → res_foldl (delta_edit_step delta marker) s l = Done s1 →
  (∀ r, r ∉ l → t_hash (rows s1) !! r = t_hash (rows s) !! r) ∧
  (∀ sym, marked_dirty s sym → marked_dirty s1 sym) ∧
  (∀ row re term, row ∈ l → t_hash (rows s) !! row = Some re →
     amcw_gettable (terms (e_val re)) marker = Done term →
     delta_applied delta re term row s1).
Proof.
  revert s. induction l as [|row l IH]; intros s Hnd H; simpl in H.
  { simplify_eq. repeat split; try done. by intros ??? ?%elem_of_nil. }
  res_inv. rename a into s'.
  apply NoDup_cons_1_1 in Hnd as Hnot. apply NoDup_cons_1_2 in Hnd.
  destruct (IH _ Hnd H) as (Hrest & Hkept & Hpost).
  destruct (delta_edit_step_spec _ _ _ _ _ Ha)
    as (re0 & term0 & Hre0 & Hterm0 & Hrow & Hother & Hkept0).
  split; [|split].
  - intros r [Hne Hr]%not_elem_of_cons. rewrite Hrest by done. by apply Hother.
  - auto.
  - intros row' re term [->|Hin]%elem_of_cons Hre Hterm.
    + rewrite Hre0 in Hre. simplify_eq. rewrite Hterm0 in Hterm. simplify_eq.
      eapply delta_applied_later; [|done..]. by apply Hrest.
    + apply Hpost; [done| |done]. rewrite Hother; [done|]. by intros ->.
Qed.

Lemma has_var_vars (s s' : amcw_Solver) (sym : amcw_Symbol) :
  vars s' = vars s → has_var s sym → has_var s' sym.
Proof.
  intros Hv (var & v & H1 & H2). exists var, v.
  unfold amcw_sym2var, load_var in *. by rewrite Hv.
Qed.

Lemma amcw_markdirty_has_var (s : amcw_Solver) (var : nat) (s' : amcw_Solver) :
  amcw_markdirty s var = Done s' → ∀ sym, has_var s sym → has_var s' sym.
Proof.
  unfold amcw_markdirty. intros H. res_inv. rename a into v.
  destruct (sym_type (v_dirty_next v) =? AMCW_DUMMY) eqn:Hd; simplify_eq; [done|].
  intros sym (var' & v' & H1 & H2).
  apply (has_var_vars (store_var s var
           (set_v_dirty_next v (mkSym (sym_id (dirty_vars s)) AMCW_DUMMY)))); [done|].
  destruct (decide (var' = var)) as [->|Hne].
  - eexists var, _. split; [by rewrite amcw_sym2var_store_var|].
    by eapply load_var_store_var.
  - exists var', v'. split; [by rewrite amcw_sym2var_store_var|].
    by rewrite load_var_store_var_ne.
Qed.

Lemma delta_edit_step_has_var (delta : float) (marker : amcw_Symbol)
    (s : amcw_Solver) (row : nat) (s' : amcw_Solver) :
  delta_edit_step delta marker s row = Done s' →
  ∀ sym, has_var s sym → has_var s' sym.
Proof.
  unfold delta_edit_step. intros H. res_inv. rename a into re, a0 into term.
  destruct term as [term|]; [|by simplify_eq].
  res_inv. rename a into te. intros sym Hsym.
  destruct (amcw_isexternal (e_key re)).
  - res_inv. eapply amcw_markdirty_has_var; [done|]. by apply (has_var_vars s).
  - apply entry_at_Done in Ha.
    destruct (amcw_infeasible_spec
                (store_row s row (set_constant (e_val re)
                   (constant (e_val re) + e_val te * delta)%float)) row
                (set_val (set_constant (e_val re)
                   (constant (e_val re) + e_val te * delta)%float) re))
      as (s1 & re1 & Hs1 & _ & _ & _ & Hvars & _).
    { simpl. by rewrite list_lookup_alter_eq, Ha. }
    rewrite Hs1 in H. simplify_eq. by apply (has_var_vars s).
Qed.

(** A step of the scan returns when the row can be read. *)
Lemma delta_edit_step_returns (delta : float) (marker : amcw_Symbol)
    (s : amcw_Solver) (row : nat) (re : amcw_Entry amcw_Row) (term : option nat) :
  t_hash (rows s) !! row = Some re →
  amcw_gettable (terms (e_val re)) marker = Done term →
  (amcw_isexternal (e_key re) = true → has_var s (e_key re)) →
  ∃ s', delta_edit_step delta marker s row = Done s'.
Proof.
  intros Hre Hterm Hvar. unfold delta_edit_step, entry_at. rewrite Hre. simpl.
  rewrite Hterm. simpl. destruct term as [term|]; [|by eexists].
  apply amcw_gettable_Some in Hterm as (_ & te & Hte & _). rewrite Hte. simpl.
  destruct (amcw_isexternal (e_key re)) eqn:Hext.
  - destruct Hvar as (var & v & Hv1 & Hv2); [done|].
    unfold amcw_sym2var in *. simpl. destruct (amcw_gettable (vars s) (e_key re))
      as [[ve|]| |]; simpl in *; simplify_eq.
    unfold amcw_markdirty. unfold load_var in *. simpl.
    destruct (entry_at (vars s) var) as [e| |]; simpl in *; try done.
    destruct (e_val e); simpl in *; [|done]. destruct (_ =? _); by eexists.
  - edestruct amcw_infeasible_spec as (s1 & _ & Hs1 & _); [|by exists s1].
    simpl. by rewrite list_lookup_alter_eq, Hre.
Qed.

Lemma entries_from_lookup {A} (h : list (amcw_Entry A)) (i x : nat) :
  x ∈ entries_from h i → ∃ e, h !! (x - i)%nat = Some e.
Proof.
  revert i. induction h as [|e h IH]; intros i; simpl; [by intros ?%elem_of_nil|].
  intros Hx. assert (Hcase : x = i ∨ x ∈ entries_from h (S i)).
  { destruct (negb _); [|by right]. apply elem_of_cons in Hx as [->|?]; auto. }
  destruct Hcase as [->|Hin].
  - exists e. by rewrite Nat.sub_diag.
  - pose proof (entries_from_ge _ _ _ Hin). destruct (IH _ Hin) as [e' He'].
    exists e'. by replace (x - i)%nat with (S (x - S i)) by lia.
Qed.

(** The scan of the rows returns when the rows can be read. *)
Lemma delta_edit_scan_returns (delta : float) (marker : amcw_Symbol) (l : list nat)
    (s : amcw_Solver) :
  NoDup l →
  (∀ row, row ∈ l → ∃ re, t_hash (rows s) !! row = Some re ∧
     (∃ term, amcw_gettable (terms (e_val re)) marker = Done term) ∧
     (amcw_isexternal (e_key re) = true → has_var s (e_key re))) →
  ∃ s1, res_foldl (delta_edit_step delta marker) s l = Done s1.
Proof.
  revert s. induction l as [|row l IH]; intros s Hnd Hread; simpl; [by eexists|].
  apply NoDup_cons_1_1 in Hnd as Hnot. apply NoDup_cons_1_2 in Hnd.
  destruct (Hread row) as (re & Hre & [term Hterm] & Hvar); [apply elem_of_cons; by left|].
  destruct (delta_edit_step_returns delta _ _ _ _ _ Hre Hterm Hvar) as [s' Hs'].
  rewrite Hs'. simpl. apply IH; [done|]. intros row' Hin.
  destruct (Hread row') as (re' & Hre' & Hterm' & Hvar'); [apply elem_of_cons; by right|].
  destruct (delta_edit_step_spec _ _ _ _ _ Hs') as (_ & _ & _ & _ & _ & Hother & _).
  exists re'. split; [rewrite Hother; [done|by intros ->]|]. split; [done|].
  intros Hext. eapply delta_edit_step_has_var; [done|]. by apply Hvar'.
Qed.

(** ** The live entries of a table *)

Lemma elem_of_contents_inv {A} (h : list (amcw_Entry A)) (k : amcw_Symbol) (v : A) :
  (k, v) ∈ contents h →
  ∃ i e, h !! i = Some e ∧ e_key e = k ∧ e_val e = v ∧ sym_id k ≠ 0.
Proof.
  induction h as [|x h IH]; [by intros ?%elem_of_nil|].
  rewrite contents_cons. intros [Hin|Hin]%elem_of_app.
  - unfold cell in Hin. case_decide as Hx; [by apply elem_of_nil in Hin|].
    apply list_elem_of_singleton in Hin. simplify_eq. by exists 0%nat, x.
  - destruct (IH Hin) as (i & e & ? & ? & ? & ?). by exists (S i), e.
Qed.

(** ** Well-formed tables *)

Section TableWf.
Context {A : Type} `{!Zeroed A}.
Implicit Types (t : amcw_Table A) (h : list (amcw_Entry A)) (e : amcw_Entry A).

Lemma link_lookup h (i j : nat) : link h i j → is_Some (h !! i).
Proof. intros (e & He & _). by exists e. Qed.

Lemma chain_lookup h (a : nat) l (c x : nat) :
  chain h a l c → x ∈ l → is_Some (h !! x).
Proof.
  induction 1 as [|a b l c Hl _ IH]; [by intros ?%elem_of_nil|].
  intros [->|Hx]%elem_of_cons; [by eapply link_lookup|auto].
Qed.

(** Two slots that store the same key are one slot. *)
Lemma NoDup_ids_slot h (i j : nat) ei ej :
  NoDup ((λ p, sym_id p.1) <$> contents h) →
  h !! i = Some ei → h !! j = Some ej →
  sym_id (e_key ei) ≠ 0 → sym_id (e_key ei) = sym_id (e_key ej) → i = j.
Proof.
  intros Hnd Hi Hj Hlive Heq.
  assert (Hone : ∀ h (x y : nat) ex ey, (x < y)%nat →
            NoDup ((λ p : amcw_Symbol * A, sym_id p.1) <$> contents h) →
            h !! x = Some ex → h !! y = Some ey →
            sym_id (e_key ex) ≠ 0 → sym_id (e_key ex) = sym_id (e_key ey) → False).
  { clear. intros h x y ex ey Hlt Hnd Hx Hy Hlive Heq.
    rewrite <- (take_drop_middle _ _ _ Hx), contents_app, contents_cons in Hnd.
    rewrite cell_live, !fmap_app in Hnd by done. simpl in Hnd.
    apply list.NoDup_app in Hnd as (_ & _ & Hnd). apply NoDup_cons_1_1 in Hnd.
    destruct Hnd. rewrite Heq.
    apply (list_elem_of_fmap_2 (λ p : amcw_Symbol * A, sym_id p.1) _ (e_key ey, e_val ey)).
    apply (elem_of_contents _ (y - S x)); [|congruence].
    rewrite lookup_drop. by replace (S x + (y - S x))%nat with y by lia. }
  destruct (Nat.lt_trichotomy i j) as [Hlt|[?|Hlt]]; [|done|].
  - destruct (Hone h i j ei ej); done.
  - destruct (Hone h j i ej ei); try done; congruence.
Qed.

(** The walk of [amcw_gettable] along a chain. *)
Lemma gettable_walk_chain (fuel : nat) h (kid : Z) (a : nat) l (c : nat) ec :
  chain h a l c → (length l < fuel)%nat →
  (∀ x e, x ∈ l → h !! x = Some e → sym_id (e_key e) ≠ kid) →
  h !! c = Some ec → sym_id (e_key ec) = kid →
  gettable_walk fuel h kid a = Done (Some c).
Proof.
  intros Hch. revert fuel. induction Hch as [a|a b l c (e & He & Hn & Hb) Hch IH];
    intros fuel Hfuel Hids Hc Hkid.
  - destruct fuel as [|fuel]; [simpl in Hfuel; lia|]. simpl. rewrite Hc.
    apply Z.eqb_eq in Hkid. by rewrite Hkid.
  - destruct fuel as [|fuel]; [simpl in Hfuel; lia|]. simpl. rewrite He.
    assert (Hne : sym_id (e_key e) ≠ kid) by (eapply Hids; [apply elem_of_cons; by left|done]).
    apply Z.eqb_neq in Hne, Hn. rewrite Hne, Hn. unfold amcw_index.
    rewrite <- Hb. destruct (Z.leb_spec 0 (Z.of_nat b)) as [_|?]; [|lia]. simpl.
    rewrite Nat2Z.id. apply IH; [simpl in Hfuel; lia| |done..].
    intros x ex Hx. apply Hids, elem_of_cons. by right.
Qed.

(** A lookup in a well-formed table finds the slot of every stored key. *)
Lemma table_wf_lookup t (i : nat) e (k : amcw_Symbol) :
  table_wf t → t_hash t !! i = Some e → sym_id (e_key e) ≠ 0 →
  sym_id k = sym_id (e_key e) → amcw_gettable t k = Done (Some i).
Proof.
  intros Hwf Hi Hlive Hk. destruct (wf_path _ Hwf i e Hi Hlive) as (l & Hch & Hnd).
  unfold amcw_gettable. assert (Hsz : (i < t_size t)%nat) by by eapply lookup_lt_Some.
  destruct (Nat.eqb_spec (t_size t) 0) as [?|_]; [lia|].
  apply Z.eqb_neq in Hlive as Hlive'. rewrite Hk, Hlive'. simpl.
  unfold amcw_mainposition. rewrite Hk. eapply gettable_walk_chain; [done| | |done|done].
  - assert (Hsub : l ++ [i] ⊆+ seq 0 (t_size t)).
    { apply NoDup_submseteq; [done|]. intros x [Hx|Hx]%elem_of_app.
      - destruct (chain_lookup _ _ _ _ _ Hch Hx) as [ex Hex].
        apply lookup_lt_Some in Hex. apply elem_of_seq. unfold t_size. lia.
      - apply list_elem_of_singleton in Hx as ->. apply elem_of_seq. lia. }
    apply submseteq_length in Hsub. rewrite length_app, length_seq in Hsub.
    simpl in Hsub. lia.
  - intros x ex Hx Hex Heq.
    assert (x = i) as ->.
    { eapply (NoDup_ids_slot (t_hash t)); [by apply wf_ids|done..| |congruence].
      congruence. }
    apply list.NoDup_app in Hnd as (_ & Hdis & _). eapply Hdis; [done|].
    by apply list_elem_of_singleton.
Qed.

(** *** Updates that keep the chains *)

Lemma link_same h h' (i j : nat) :
  (∀ e, h !! i = Some e → ∃ e', h' !! i = Some e' ∧ e_next e' = e_next e) →
  link h i j → link h' i j.
Proof.
  intros Hsame (e & He & Hn & Hj). destruct (Hsame _ He) as (e' & He' & Hn').
  exists e'. by rewrite Hn'.
Qed.

Lemma chain_mono h h' (a : nat) l (c : nat) :
  (∀ i j, link h i j → link h' i j) → chain h a l c → chain h' a l c.
Proof. intros Hl. induction 1; econstructor; eauto. Qed.

Lemma table_ids_cell h h' :
  length h' = length h →
  (∀ i e, h !! i = Some e → ∃ e', h' !! i = Some e' ∧ e_key e' = e_key e) →
  (λ p, sym_id p.1) <$> contents h' = (λ p : amcw_Symbol * A, sym_id p.1) <$> contents h.
Proof.
  revert h'. induction h as [|x h IH]; intros [|x' h'] Hlen Hk; try done.
  rewrite !contents_cons, !fmap_app. f_equal.
  - destruct (Hk 0%nat x eq_refl) as (e' & [= <-] & Hkey). unfold cell. rewrite Hkey.
    by case_decide.
  - apply IH; [by injection Hlen|]. intros i e He. by apply (Hk (S i)).
Qed.

(** A table with the same keys and links, and no larger [lastfree], is
    well formed when the table is. *)
Lemma table_wf_same t t' :
  length (t_hash t') = length (t_hash t) →
  (∀ i e, t_hash t !! i = Some e →
          ∃ e', t_hash t' !! i = Some e' ∧ e_key e' = e_key e ∧ e_next e' = e_next e) →
  (t_lastfree t' ≤ t_lastfree t)%nat →
  table_wf t → table_wf t'.
Proof.
  intros Hlen Hsame Hlf Hwf.
  assert (Hback : ∀ i e', t_hash t' !! i = Some e' →
            ∃ e, t_hash t !! i = Some e ∧ e_key e' = e_key e ∧ e_next e' = e_next e).
  { intros i e' He'. assert (Hlt : (i < length (t_hash t))%nat)
      by (rewrite <- Hlen; by eapply lookup_lt_Some).
    apply lookup_lt_is_Some in Hlt as [e He]. destruct (Hsame _ _ He) as (e'' & ? & ? & ?).
    exists e. by simplify_eq. }
  assert (Hmp : ∀ k, amcw_mainposition t' k = amcw_mainposition t k).
  { intros k. unfold amcw_mainposition, t_size. by rewrite Hlen. }
  assert (Hl : ∀ i j, link (t_hash t) i j → link (t_hash t') i j).
  { intros i j. apply link_same. intros e He. destruct (Hsame _ _ He) as (e' & ? & _ & ?).
    by exists e'. }
  assert (Hl' : ∀ i j, link (t_hash t') i j → link (t_hash t) i j).
  { intros i j. apply link_same. intros e' He'. destruct (Hback _ _ He') as (e & ? & _ & ?).
    by exists e. }
  split.
  - rewrite (table_ids_cell (t_hash t)); [by apply wf_ids|done|].
    intros i e He. destruct (Hsame _ _ He) as (e' & ? & ? & _). by exists e'.
  - intros i e' He' Hlive. destruct (Hback _ _ He') as (e & He & Hk & _).
    rewrite Hk in Hlive. destruct (wf_path _ Hwf i e He Hlive) as (l & Hch & Hnd).
    exists l. split; [|done]. rewrite Hmp, Hk. by eapply chain_mono.
  - intros i j Hij%Hl'. apply (wf_free _ Hwf) in Hij. lia.
  - intros i i' j Hi%Hl' Hi'%Hl'. by eapply wf_pred.
  - intros m e i e' Hm Hlive Hmain Hi Hlive'.
    destruct (Hback _ _ Hm) as (e0 & He0 & Hk0 & _).
    destruct (Hback _ _ Hi) as (e1 & He1 & Hk1 & _).
    rewrite Hmp, Hk0 in Hmain. rewrite Hmp, Hk1. rewrite Hk0 in Hlive. rewrite Hk1 in Hlive'.
    by eapply (wf_main _ Hwf m e0 i e1).
Qed.

Lemma table_wf_set_val (v : A) t (i : nat) :
  table_wf t → table_wf (alter_entry (set_val v) i t).
Proof.
  apply table_wf_same; [simpl; by rewrite length_alter| |done].
  intros j e He. simpl. rewrite list_lookup_alter. case_decide; [subst j|by eauto].
  rewrite He. by eexists.
Qed.

Lemma table_wf_set_count (c : Z) t : table_wf t → table_wf (set_count t c).
Proof. apply table_wf_same; [done| |done]. intros j e He. by exists e. Qed.

(** An empty table is well formed. *)
Lemma table_wf_zero (c es : Z) (lf n : nat) :
  table_wf (mkTable c es lf (replicate n (@zero_entry A _))).
Proof.
  assert (Hz : ∀ i e, replicate n (@zero_entry A _) !! i = Some e → e = zero_entry).
  { intros i e [-> _]%lookup_replicate. done. }
  assert (Hl : ∀ i j, ¬ link (replicate n (@zero_entry A _)) i j).
  { intros i j (e & He%Hz & Hn & _). by subst. }
  split; simpl.
  - rewrite contents_replicate_zero. constructor.
  - intros i e He%Hz. by subst.
  - intros i j Hij. by destruct (Hl i j).
  - intros i i' j Hij. by destruct (Hl i j).
  - intros m e i e' He%Hz. by subst.
Qed.

(** [amcw_delkey] keeps a table well formed. *)
Lemma table_wf_delkey t (i : nat) : table_wf t → table_wf (amcw_delkey t i).
Proof.
  intros Hwf. apply table_wf_set_count.
  assert (Hl : ∀ a b, link (alter (set_key amcw_null) i (t_hash t)) a b ↔ link (t_hash t) a b).
  { intros a b. split; apply link_same; intros e He.
    - rewrite list_lookup_alter in He. case_decide; [subst a|by eauto].
      destruct (t_hash t !! i) as [e0|]; [|done]. simpl in He. simplify_eq. by eexists.
    - rewrite list_lookup_alter. case_decide; [subst a|by eauto]. rewrite He. by eexists. }
  assert (Hback : ∀ j e', alter (set_key amcw_null) i (t_hash t) !! j = Some e' →
            sym_id (e_key e') ≠ 0 → t_hash t !! j = Some e').
  { intros j e' He' Hlive. rewrite list_lookup_alter in He'. case_decide; [subst j|done].
    destruct (t_hash t !! i) as [e0|]; [|done]. simpl in He'. by simplify_eq. }
  split; simpl.
  - destruct (t_hash t !! i) as [e0|] eqn:He0.
    + pose proof (contents_alter (set_key amcw_null) _ _ _ He0) as Hp.
      rewrite (cell_dead (set_key _ _)) in Hp by done. simpl in Hp.
      pose proof (wf_ids _ Hwf) as Hnd. rewrite <- Hp, fmap_app in Hnd.
      by apply list.NoDup_app in Hnd as (? & _).
    + replace (alter (set_key amcw_null) i (t_hash t)) with (t_hash t); [by apply wf_ids|].
      apply list_eq. intros j. rewrite list_lookup_alter.
      case_decide; [subst j; by rewrite He0|done].
  - intros j e' He' Hlive. apply Hback in He' as He; [|done].
    destruct (wf_path _ Hwf j e' He Hlive) as (l & Hch & Hnd). exists l. split; [|done].
    replace (amcw_mainposition (alter_entry (set_key amcw_null) i t) (e_key e'))
      with (amcw_mainposition t (e_key e'))
      by (unfold amcw_mainposition, t_size; simpl; by rewrite length_alter).
    eapply chain_mono; [|done]. intros a b. by apply Hl.
  - intros a b Hab%Hl. by apply (wf_free _ Hwf) in Hab.
  - intros a a' b Ha%Hl Ha'%Hl. by eapply wf_pred.
  - intros m e j e' Hm Hlive Hmain Hj Hlive'.
    apply Hback in Hm; [|done]. apply Hback in Hj; [|done].
    unfold amcw_mainposition, t_size in *. simpl in *. rewrite length_alter in *.
    by eapply (wf_main _ Hwf m e j e').
Qed.

(** *** A key stored in its main position *)

Lemma mainposition_length t t' (k : amcw_Symbol) :
  length (t_hash t') = length (t_hash t) →
  amcw_mainposition t' k = amcw_mainposition t k.
Proof. intros Hlen. unfold amcw_mainposition, t_size. by rewrite Hlen. Qed.

Lemma chain_no_link h (a : nat) l (c : nat) :
  chain h a l c → (∀ j, ¬ link h a j) → l = [] ∧ c = a.
Proof. intros [|a' b l' c' Hl _] Hno; [done|]. by destruct (Hno b). Qed.

Lemma chain_elem_link h (a : nat) l (c x : nat) :
  chain h a l c → x ∈ l → ∃ j, link h x j.
Proof.
  induction 1 as [|a b l c Hl _ IH]; [by intros ?%elem_of_nil|].
  intros [->|Hx]%elem_of_cons; eauto.
Qed.

Lemma table_wf_newkey_dead t (key : amcw_Symbol) (mp : nat) mpe :
  table_wf t → t_hash t !! mp = Some mpe → sym_id (e_key mpe) = 0 →
  sym_id key ≠ 0 → mp = amcw_mainposition t key →
  NoDup ((λ p, sym_id p.1) <$> contents (alter (set_key key) mp (t_hash t))) →
  table_wf (alter_entry (set_key key) mp t).
Proof.
  intros Hwf Hmp Hdead Hkey Hmain Hnd.
  assert (Hl : ∀ a b, link (alter (set_key key) mp (t_hash t)) a b ↔ link (t_hash t) a b).
  { intros a b. split; apply link_same; intros e He.
    - rewrite list_lookup_alter in He. case_decide; [subst a|by eauto].
      rewrite Hmp in He. simpl in He. simplify_eq. by eexists.
    - rewrite list_lookup_alter. case_decide; [subst a|by eauto]. rewrite He. by eexists. }
  assert (Hback : ∀ j e', alter (set_key key) mp (t_hash t) !! j = Some e' →
            j ≠ mp → t_hash t !! j = Some e').
  { intros j e' He' Hj. by rewrite list_lookup_alter_ne in He'. }
  assert (Hat : alter (set_key key) mp (t_hash t) !! mp = Some (set_key key mpe)).
  { by rewrite list_lookup_alter_eq, Hmp. }
  assert (Hmpos : ∀ k, amcw_mainposition (alter_entry (set_key key) mp t) k
                       = amcw_mainposition t k).
  { intros k. apply mainposition_length. simpl. by rewrite length_alter. }
  split; simpl.
  - done.
  - intros j e' He' Hlive. rewrite Hmpos. destruct (decide (j = mp)) as [->|Hj].
    + rewrite Hat in He'. injection He' as <-. simpl. rewrite <- Hmain. exists [].
      split; [constructor|]. apply NoDup_singleton.
    + apply Hback in He'; [|done].
      destruct (wf_path _ Hwf j e' He' Hlive) as (l & Hch & Hndl). exists l.
      split; [|done]. eapply chain_mono; [|done]. intros a b. by apply Hl.
  - intros a b Hab%Hl. by apply (wf_free _ Hwf) in Hab.
  - intros a a' b Ha%Hl Ha'%Hl. by eapply wf_pred.
  - intros m e j e' Hm Hlive Hfor Hj Hlive'. rewrite Hmpos in *.
    destruct (decide (m = mp)) as [->|Hmne].
    { rewrite Hat in Hm. injection Hm as <-. simpl in Hfor. by rewrite <- Hmain in Hfor. }
    apply Hback in Hm; [|done]. destruct (decide (j = mp)) as [->|Hjne].
    + rewrite Hat in Hj. injection Hj as <-. simpl. by rewrite <- Hmain.
    + apply Hback in Hj; [|done]. by eapply (wf_main _ Hwf m e j e').
Qed.

(** *** A key chained in behind its main position *)

Lemma chain_insert_cons (mp f x : nat) l :
  chain_insert mp f (x :: l) =
  (if decide (x = mp) then [mp; f] else [x]) ++ chain_insert mp f l.
Proof. done. Qed.

Lemma chain_insert_id (mp f : nat) l : mp ∉ l → chain_insert mp f l = l.
Proof.
  induction l as [|x l IH]; [done|]. intros [Hx Hl]%not_elem_of_cons.
  rewrite chain_insert_cons, decide_False, IH by done. done.
Qed.

Lemma elem_of_chain_insert (mp f x : nat) l :
  x ∈ chain_insert mp f l → x ∈ l ∨ x = f.
Proof.
  induction l as [|y l IH]; [by intros ?%elem_of_nil|].
  rewrite chain_insert_cons. intros [Hx|Hx]%elem_of_app.
  - case_decide; subst.
    + apply elem_of_cons in Hx as [->|Hx]; [left; apply elem_of_cons; by left|].
      apply list_elem_of_singleton in Hx. by right.
    + apply list_elem_of_singleton in Hx as ->. left. apply elem_of_cons. by left.
  - destruct (IH Hx); [left; apply elem_of_cons; by right|by right].
Qed.

Lemma chain_insert_NoDup (mp f : nat) l (c : nat) :
  NoDup (l ++ [c]) → f ∉ l ++ [c] → NoDup (chain_insert mp f l ++ [c]).
Proof.
  induction l as [|x l IH]; [done|]. intros Hnd Hf.
  rewrite <- app_comm_cons in Hnd, Hf.
  apply NoDup_cons_1_1 in Hnd as Hx. apply NoDup_cons_1_2 in Hnd.
  apply not_elem_of_cons in Hf as [Hfx Hf]. specialize (IH Hnd Hf).
  assert (Hxi : x ∉ chain_insert mp f l ++ [c]).
  { intros [Hin|Hin]%elem_of_app.
    - apply elem_of_chain_insert in Hin as [Hin| ->]; [|done].
      apply Hx, elem_of_app. by left.
    - apply Hx, elem_of_app. by right. }
  rewrite chain_insert_cons. case_decide as Hmp; simpl; [subst x|by constructor].
  assert (Hid : chain_insert mp f l = l).
  { apply chain_insert_id. intros Hin. apply Hx, elem_of_app. by left. }
  rewrite Hid in *. constructor; [|by constructor].
  intros [->|Hin]%elem_of_cons; done.
Qed.

Lemma chain_insert_chain h h' (mp f a : nat) l (c : nat) :
  link h' mp f → (∀ j, link h mp j → link h' f j) →
  (∀ i j, i ≠ mp → link h i j → link h' i j) →
  chain h a l c → chain h' a (chain_insert mp f l) c.
Proof.
  intros Hmp Hf Hother. induction 1 as [a|a b l c Hl _ IH]; [constructor|].
  rewrite chain_insert_cons. case_decide as Ha; simpl.
  - subst a. econstructor; [done|]. econstructor; [by apply Hf|done].
  - econstructor; [by apply Hother|done].
Qed.

Lemma table_wf_newkey_chain t t' (key : amcw_Symbol) (mp f : nat) mpe fe :
  table_wf t →
  t_hash t !! mp = Some mpe → sym_id (e_key mpe) ≠ 0 →
  amcw_mainposition t (e_key mpe) = mp → amcw_mainposition t key = mp →
  t_hash t !! f = Some fe → sym_id (e_key fe) = 0 → e_next fe = 0 →
  (f < t_lastfree t)%nat → sym_id key ≠ 0 →
  length (t_hash t') = length (t_hash t) → (t_lastfree t' ≤ f)%nat →
  (∃ ef', t_hash t' !! f = Some ef' ∧ e_key ef' = key ∧
          e_next ef' = if e_next mpe =? 0 then 0 else amcw_offset mp f + e_next mpe) →
  (∃ em', t_hash t' !! mp = Some em' ∧ e_key em' = e_key mpe ∧
          e_next em' = amcw_offset f mp) →
  (∀ i, i ≠ f → i ≠ mp → t_hash t' !! i = t_hash t !! i) →
  NoDup ((λ p, sym_id p.1) <$> contents (t_hash t')) →
  table_wf t'.
Proof.
  intros Hwf Hmp Hlive Hmain Hkmain Hf Hfdead Hfnext Hflt Hkey Hlen Hlf
    (ef' & Hef' & Hefk & Hefn) (em' & Hem' & Hemk & Hemn) Hrest Hnd.
  assert (Hfmp : f ≠ mp) by (intros ->; congruence).
  assert (Hnof : ∀ j, ¬ link (t_hash t) f j).
  { intros j (e & He & Hn & _). congruence. }
  assert (Hnoin : ∀ i, ¬ link (t_hash t) i f).
  { intros i Hi. apply (wf_free _ Hwf) in Hi. lia. }
  assert (Hmpf : link (t_hash t') mp f).
  { exists em'. split; [done|]. rewrite Hemn. unfold amcw_offset. lia. }
  assert (Hfj : ∀ j, link (t_hash t) mp j → link (t_hash t') f j).
  { intros j Hj. pose proof Hj as (e & He & Hn & Hjeq). assert (e = mpe) as -> by congruence.
    exists ef'. split; [done|]. rewrite Hefn. apply Z.eqb_neq in Hn as Hn'. rewrite Hn'.
    unfold amcw_offset. split; [|lia].
    intros H0. apply (Hnoin mp). assert (j = f) as -> by lia. done. }
  assert (Hother : ∀ i j, i ≠ mp → link (t_hash t) i j → link (t_hash t') i j).
  { intros i j Hi Hij. assert (i ≠ f) by (intros ->; by eapply Hnof).
    destruct Hij as (e & He & ?). exists e. by rewrite Hrest. }
  assert (Hback : ∀ i j, link (t_hash t') i j →
            (i = mp ∧ j = f) ∨ (i = f ∧ link (t_hash t) mp j) ∨
            (i ≠ mp ∧ i ≠ f ∧ link (t_hash t) i j)).
  { intros i j (e & He & Hn & Hj). destruct (decide (i = mp)) as [->|Hi].
    - left. split; [done|]. assert (e = em') as -> by congruence.
      rewrite Hemn in Hj. unfold amcw_offset in Hj. lia.
    - destruct (decide (i = f)) as [->|Hif].
      + right. left. split; [done|]. assert (e = ef') as -> by congruence.
        rewrite Hefn in Hn, Hj. destruct (Z.eqb_spec (e_next mpe) 0) as [?|Hnz]; [done|].
        exists mpe. split; [done|]. split; [done|]. unfold amcw_offset in Hj. lia.
      + right. right. split; [done|]. split; [done|]. exists e. by rewrite <- Hrest. }
  assert (Hmpos : ∀ k, amcw_mainposition t' k = amcw_mainposition t k).
  { intros k. by apply mainposition_length. }
  assert (Hold : ∀ i e', t_hash t' !! i = Some e' → i ≠ f → i ≠ mp →
            t_hash t !! i = Some e').
  { intros i e' He' ? ?. by rewrite <- Hrest. }
  assert (Hnomain : ∀ i e, t_hash t !! i = Some e → sym_id (e_key e) ≠ 0 →
            amcw_mainposition t (e_key e) ≠ f).
  { intros i e He Hl Hm. destruct (wf_path _ Hwf i e He Hl) as (l & Hch & _).
    rewrite Hm in Hch. apply chain_no_link in Hch as [_ ->]; [|done]. congruence. }
  split.
  - done.
  - intros i e' He' Hl'. rewrite Hmpos. destruct (decide (i = f)) as [->|Hif].
    { assert (e' = ef') as -> by congruence. rewrite Hefk, Hkmain. exists [mp].
      split; [econstructor; [done|constructor]|].
      apply NoDup_cons_2; [by intros ?%list_elem_of_singleton|apply NoDup_singleton]. }
    destruct (decide (i = mp)) as [->|Himp].
    { assert (e' = em') as -> by congruence. rewrite Hemk, Hmain. exists [].
      split; [constructor|apply NoDup_singleton]. }
    apply Hold in He'; [|done..].
    destruct (wf_path _ Hwf i e' He' Hl') as (l & Hch & Hndl).
    exists (chain_insert mp f l). split; [by eapply chain_insert_chain|].
    apply chain_insert_NoDup; [done|]. intros [Hin|Hin]%elem_of_app.
    + destruct (chain_elem_link _ _ _ _ _ Hch Hin) as [j Hj]. by eapply Hnof.
    + by apply list_elem_of_singleton in Hin.
  - intros i j [[_ ->]|[[_ Hj]|(_ & _ & Hj)]]%Hback; [done|..];
      apply (wf_free _ Hwf) in Hj; lia.
  - intros i i' j Hi%Hback Hi'%Hback.
    destruct Hi as [[-> ->]|[[-> Hj]|(? & ? & Hj)]],
             Hi' as [[-> Hjf]|[[-> Hj']|(? & ? & Hj')]]; try done.
    + by destruct (Hnoin mp).
    + by destruct (Hnoin i').
    + subst j. by destruct (Hnoin mp).
    + pose proof (wf_pred _ Hwf _ _ _ Hj Hj'). by subst.
    + subst j. by destruct (Hnoin i).
    + pose proof (wf_pred _ Hwf _ _ _ Hj Hj'). by subst.
    + by eapply wf_pred.
  - intros m e i e' Hm Hlm Hfor Hi Hli. rewrite Hmpos in *.
    destruct (decide (m = mp)) as [->|Hmmp].
    { assert (e = em') as -> by congruence. rewrite Hemk in Hfor. done. }
    destruct (decide (i = f)) as [->|Hif].
    { assert (e' = ef') as -> by congruence. rewrite Hefk, Hkmain. done. }
    destruct (decide (i = mp)) as [->|Himp].
    { assert (e' = em') as -> by congruence. rewrite Hemk, Hmain. done. }
    apply Hold in Hi; [|done..]. destruct (decide (m = f)) as [->|Hmf].
    { by eapply Hnomain. }
    apply Hold in Hm; [|done..]. by eapply (wf_main _ Hwf m e i e').
Qed.

(** *** A key stored over an entry that was moved to a free slot *)

Lemma chain_moved h h' (mp f a : nat) l (c : nat) :
  (∀ x y, link h x y → link h' (moved_to mp f x) (moved_to mp f y)) →
  chain h a l c →
  chain h' (moved_to mp f a) (moved_to mp f <$> l) (moved_to mp f c).
Proof.
  intros Hl. induction 1 as [a|a b l c Hab _ IH]; [constructor|].
  rewrite fmap_cons. econstructor; eauto.
Qed.

Lemma moved_NoDup (mp f : nat) l :
  NoDup l → f ∉ l → NoDup (moved_to mp f <$> l).
Proof.
  intros Hnd Hf. apply NoDup_fmap_2_strong; [|done].
  intros x y Hx Hy. unfold moved_to. repeat case_decide; congruence.
Qed.

Lemma chain_last h (a : nat) l (c : nat) :
  chain h a l c → a ≠ c → ∃ x, x ∈ l ∧ link h x c.
Proof.
  induction 1 as [a|a b l c Hab Hch IH]; [done|]. intros _.
  destruct (decide (b = c)) as [->|Hbc].
  - exists a. split; [apply elem_of_cons; by left|done].
  - destruct (IH Hbc) as (x & Hx & Hxc). exists x. split; [|done].
    apply elem_of_cons. by right.
Qed.

Lemma link_fun h (i j j' : nat) : link h i j → link h i j' → j = j'.
Proof. intros (e & He & _ & Hj) (e' & He' & _ & Hj'). simplify_eq. lia. Qed.

Lemma table_wf_newkey_move t t' (key : amcw_Symbol) (mp f p : nat) mpe fe :
  table_wf t →
  t_hash t !! mp = Some mpe → sym_id (e_key mpe) ≠ 0 →
  amcw_mainposition t (e_key mpe) ≠ mp → amcw_mainposition t key = mp →
  link (t_hash t) p mp →
  t_hash t !! f = Some fe → sym_id (e_key fe) = 0 → e_next fe = 0 →
  (f < t_lastfree t)%nat → sym_id key ≠ 0 →
  length (t_hash t') = length (t_hash t) → (t_lastfree t' ≤ f)%nat →
  (∃ ef', t_hash t' !! f = Some ef' ∧ e_key ef' = e_key mpe ∧
          e_next ef' = if e_next mpe =? 0 then 0 else e_next mpe + amcw_offset mp f) →
  (∃ em', t_hash t' !! mp = Some em' ∧ e_key em' = key ∧ e_next em' = 0) →
  (∃ ep ep', t_hash t !! p = Some ep ∧ t_hash t' !! p = Some ep' ∧
             e_key ep' = e_key ep ∧ e_next ep' = amcw_offset f p) →
  (∀ i, i ≠ f → i ≠ mp → i ≠ p → t_hash t' !! i = t_hash t !! i) →
  NoDup ((λ p, sym_id p.1) <$> contents (t_hash t')) →
  table_wf t'.
Proof.
  intros Hwf Hmp Hlive Hmain Hkmain Hpmp Hf Hfdead Hfnext Hflt Hkey Hlen Hlf
    (ef' & Hef' & Hefk & Hefn) (em' & Hem' & Hemk & Hemn)
    (ep & ep' & Hep & Hep' & Hepk & Hepn) Hrest Hnd.
  assert (Hfmp : f ≠ mp) by (intros ->; congruence).
  assert (Hnof : ∀ j, ¬ link (t_hash t) f j).
  { intros j (e & He & Hn & _). congruence. }
  assert (Hnoin : ∀ i, ¬ link (t_hash t) i f).
  { intros i Hi. apply (wf_free _ Hwf) in Hi. lia. }
  assert (Hpf : p ≠ f) by (intros ->; by eapply Hnof).
  destruct (wf_path _ Hwf mp mpe Hmp Hlive) as (lmp & Hchmp & Hndmp).
  assert (Hpne : p ≠ mp).
  { destruct (chain_last _ _ _ _ Hchmp Hmain) as (x & Hx & Hxmp).
    rewrite (wf_pred _ Hwf _ _ _ Hpmp Hxmp). intros ->.
    apply list.NoDup_app in Hndmp as (_ & Hdis & _). eapply Hdis; [done|].
    by apply list_elem_of_singleton. }
  assert (Hfwd : ∀ x y, link (t_hash t) x y →
            link (t_hash t') (moved_to mp f x) (moved_to mp f y)).
  { intros x y Hxy. unfold moved_to. destruct (decide (x = mp)) as [->|Hx].
    - pose proof Hxy as (e & He & Hn & Hy). assert (e = mpe) as -> by congruence.
      assert (y ≠ mp) by lia. rewrite decide_False by done.
      exists ef'. split; [done|]. rewrite Hefn. apply Z.eqb_neq in Hn as Hn'. rewrite Hn'.
      unfold amcw_offset. split; [|lia].
      intros H0. apply (Hnoin mp). by assert (y = f) as <- by lia.
    - destruct (decide (x = p)) as [->|Hxp].
      + rewrite (link_fun _ _ _ _ Hxy Hpmp), decide_True by done.
        exists ep'. split; [done|]. rewrite Hepn. unfold amcw_offset. lia.
      + assert (y ≠ mp).
        { intros ->. by apply Hxp, (wf_pred _ Hwf _ _ _ Hxy Hpmp). }
        rewrite decide_False by done.
        assert (x ≠ f) by (intros ->; by eapply Hnof).
        destruct Hxy as (e & He & ?). exists e. by rewrite Hrest. }
  assert (Hback : ∀ i j, link (t_hash t') i j →
            (i = p ∧ j = f) ∨ (i = f ∧ link (t_hash t) mp j) ∨
            (i ≠ mp ∧ i ≠ f ∧ i ≠ p ∧ link (t_hash t) i j)).
  { intros i j (e & He & Hn & Hj). destruct (decide (i = mp)) as [->|Hi].
    { assert (e = em') as -> by congruence. congruence. }
    destruct (decide (i = f)) as [->|Hif].
    { right. left. split; [done|]. assert (e = ef') as -> by congruence.
      rewrite Hefn in Hn, Hj. destruct (Z.eqb_spec (e_next mpe) 0) as [?|Hnz]; [done|].
      exists mpe. split; [done|]. split; [done|]. unfold amcw_offset in Hj. lia. }
    destruct (decide (i = p)) as [->|Hip].
    { left. split; [done|]. assert (e = ep') as -> by congruence.
      rewrite Hepn in Hj. unfold amcw_offset in Hj. lia. }
    right. right. repeat split; [done..|]. exists e. by rewrite <- Hrest. }
  assert (Hmpos : ∀ k, amcw_mainposition t' k = amcw_mainposition t k).
  { intros k. by apply mainposition_length. }
  assert (Hold : ∀ i e', t_hash t' !! i = Some e' → i ≠ f → i ≠ mp →
            ∃ e, t_hash t !! i = Some e ∧ e_key e = e_key e').
  { intros i e' He' ? ?. destruct (decide (i = p)) as [->|Hip].
    - exists ep. split; [done|]. assert (e' = ep') as -> by congruence. done.
    - exists e'. by rewrite <- Hrest. }
  assert (Hnomain : ∀ i e, t_hash t !! i = Some e → sym_id (e_key e) ≠ 0 →
            amcw_mainposition t (e_key e) ≠ f).
  { intros i e He Hl Hm. destruct (wf_path _ Hwf i e He Hl) as (l & Hch & _).
    rewrite Hm in Hch. apply chain_no_link in Hch as [_ ->]; [|done]. congruence. }
  assert (Hmoved : ∀ (a : nat) l (c : nat),
            chain (t_hash t) a l c → NoDup (l ++ [c]) → a ≠ mp → c ≠ f →
            chain (t_hash t') a (moved_to mp f <$> l) (moved_to mp f c) ∧
            NoDup ((moved_to mp f <$> l) ++ [moved_to mp f c])).
  { intros a l c Hch Hndl Ha Hc. split.
    - apply (chain_moved _ (t_hash t') mp f) in Hch; [|done].
      unfold moved_to in Hch at 1. by rewrite decide_False in Hch.
    - change [moved_to mp f c] with (moved_to mp f <$> [c]). rewrite <- fmap_app.
      apply moved_NoDup; [done|]. intros [Hin|Hin]%elem_of_app.
      + destruct (chain_elem_link _ _ _ _ _ Hch Hin) as [j Hj]. by eapply Hnof.
      + by apply list_elem_of_singleton in Hin. }
  split.
  - done.
  - intros i e' He' Hl'. rewrite Hmpos. destruct (decide (i = mp)) as [->|Himp].
    { assert (e' = em') as -> by congruence. rewrite Hemk, Hkmain. exists [].
      split; [constructor|apply NoDup_singleton]. }
    destruct (decide (i = f)) as [->|Hif].
    { assert (e' = ef') as -> by congruence. rewrite Hefk.
      destruct (Hmoved _ _ _ Hchmp Hndmp Hmain) as [Hch Hndl]; [done|].
      unfold moved_to in Hch at 2, Hndl at 2. rewrite decide_True in Hch, Hndl by done.
      by exists (moved_to mp f <$> lmp). }
    destruct (Hold _ _ He' Hif Himp) as (e & He & Hk). rewrite <- Hk in *.
    destruct (wf_path _ Hwf i e He Hl') as (l & Hch & Hndl).
    destruct (Hmoved _ _ _ Hch Hndl) as [Hch' Hndl']; [|done|].
    { by eapply (wf_main _ Hwf mp mpe i e). }
    unfold moved_to in Hch' at 2, Hndl' at 2. rewrite decide_False in Hch', Hndl' by done.
    by exists (moved_to mp f <$> l).
  - intros i j [[_ ->]|[[_ Hj]|(_ & _ & _ & Hj)]]%Hback; [done|..];
      apply (wf_free _ Hwf) in Hj; lia.
  - intros i i' j Hi%Hback Hi'%Hback.
    destruct Hi as [[-> ->]|[[-> Hj]|(? & ? & ? & Hj)]],
             Hi' as [[-> Hjf]|[[-> Hj']|(? & ? & ? & Hj')]]; try done.
    + by destruct (Hnoin mp).
    + by destruct (Hnoin i').
    + subst j. by destruct (Hnoin mp).
    + pose proof (wf_pred _ Hwf _ _ _ Hj Hj'). by subst.
    + subst j. by destruct (Hnoin i).
    + pose proof (wf_pred _ Hwf _ _ _ Hj Hj'). by subst.
    + by eapply wf_pred.
  - intros m e i e' Hm Hlm Hfor Hi Hli. rewrite Hmpos in *.
    destruct (decide (i = m)) as [->|Him]; [by assert (e' = e) as -> by congruence|].
    destruct (decide (m = mp)) as [->|Hmmp].
    { assert (e = em') as -> by congruence. rewrite Hemk in Hfor. done. }
    destruct (decide (i = mp)) as [->|Himp].
    { assert (e' = em') as -> by congruence. rewrite Hemk, Hkmain. done. }
    destruct (decide (m = f)) as [->|Hmf].
    { destruct (Hold _ _ Hi Him Himp) as (e0 & He0 & Hk0). rewrite <- Hk0 in *.
      by eapply Hnomain. }
    destruct (Hold _ _ Hm Hmf Hmmp) as (e0 & He0 & Hk0). rewrite <- Hk0 in *.
    destruct (decide (i = f)) as [->|Hif].
    { assert (e' = ef') as -> by congruence. rewrite Hefk.
      by eapply (wf_main _ Hwf m e0 mp mpe). }
    destruct (Hold _ _ Hi Hif Himp) as (e1 & He1 & Hk1). rewrite <- Hk1 in *.
    by eapply (wf_main _ Hwf m e0 i e1).
Qed.

(** *** [amcw_newkey] *)

Lemma find_free_spec h (lf lf' f : nat) :
  find_free h lf = Done (lf', Some f) →
  lf' = f ∧ (f < lf)%nat ∧
  ∃ e, h !! f = Some e ∧ sym_id (e_key e) = 0 ∧ e_next e = 0.
Proof.
  induction lf as [|l IH]; simpl; [done|].
  destruct (h !! l) as [e|] eqn:He; [|done].
  destruct (Z.eqb_spec (sym_id (e_key e)) 0) as [Hk|Hk]; simpl.
  - destruct (Z.eqb_spec (e_next e) 0) as [Hn|Hn].
    + intros [= <- <-]. split; [done|]. split; [lia|]. by exists e.
    + intros (? & ? & ?)%IH. split; [done|]. split; [lia|done].
  - intros (? & ? & ?)%IH. split; [done|]. split; [lia|done].
Qed.

Lemma find_prev_spec (fuel : nat) h (a mp p : nat) :
  find_prev fuel h a mp = Done p → a ≠ mp → p ≠ mp ∧ link h p mp.
Proof.
  revert a. induction fuel as [|fuel IH]; intros a Hrun Ha; [done|]. simpl in Hrun.
  destruct (h !! a) as [o|] eqn:Ho; [|done]. unfold amcw_index in Hrun.
  destruct (Z.leb_spec 0 (Z.of_nat a + e_next o)) as [Hge|?]; [|done]. simpl in Hrun.
  case_decide as Hnxt.
  - injection Hrun as <-. split; [done|]. exists o. split; [done|]. split; lia.
  - by apply IH in Hrun.
Qed.

Lemma table_ids_perm t t' (key : amcw_Symbol) (v : A) :
  contents (t_hash t') ≡ₚ (key, v) :: contents (t_hash t) →
  table_ids t' ≡ₚ sym_id key :: table_ids t.
Proof. unfold table_ids. by intros ->. Qed.

Lemma rehash_wf nk (old : list (amcw_Entry A)) (nt nt' : amcw_Table A) :
  newkey_ok nk → newkey_wf nk →
  sizeof_Entry < t_entry_size nt → table_wf nt →
  NoDup (((λ p, sym_id p.1) <$> contents old) ++ table_ids nt) →
  rehash nk old nt = Done nt' → table_wf nt'.
Proof.
  intros Hok Hnk. revert nt. induction old as [|e old IH]; intros nt Hsz Hwf Hnd Hre;
    simpl in Hre; [by simplify_eq|].
  rewrite contents_cons, fmap_app in Hnd.
  destruct (Z.eqb_spec (sym_id (e_key e)) 0) as [Hk|Hk].
  { rewrite cell_dead in Hnd by done. by eapply IH. }
  rewrite cell_live in Hnd by done. simpl in Hnd.
  apply bind_Done in Hre as ([ne nt1] & Hnew & Hre).
  apply NoDup_cons_1_1 in Hnd as Hfresh. apply NoDup_cons_1_2 in Hnd.
  destruct (Hok _ _ _ _ Hk Hsz Hnew) as (Hc & Hes & ent & Hent & Hkey & Hperm).
  assert (Hwf1 : table_wf nt1).
  { eapply Hnk; [done|done| |done|done]. intros Hin. apply Hfresh, elem_of_app. by right. }
  assert (Hlt : sizeof_Entry <? t_entry_size nt1 = true) by (apply Z.ltb_lt; lia).
  rewrite Hlt in Hre. eapply IH; [| | |done].
  - simpl. lia.
  - by apply table_wf_set_val.
  - assert (Hids : table_ids (alter_entry (set_val (e_val e)) ne nt1)
                   ≡ₚ sym_id (e_key e) :: table_ids nt).
    { rewrite <- (table_ids_perm nt nt1 (e_key e) (e_val ent)) by done.
      unfold table_ids. simpl. rewrite (table_ids_cell (t_hash nt1)); [done| |].
      - by rewrite length_alter.
      - intros i x Hx. rewrite list_lookup_alter. case_decide; [subst i|by eauto].
        rewrite Hx. by eexists. }
    rewrite Hids. rewrite <- Permutation_middle. by constructor.
Qed.

Lemma resizetable_wf nk (t t' : amcw_Table A) (len : Z) :
  newkey_ok nk → newkey_wf nk →
  sizeof_Entry < t_entry_size t → NoDup (table_ids t) →
  amcw_resizetable nk t len = Done t' → table_wf t'.
Proof.
  intros Hok Hnk Hsz Hnd Hre. unfold amcw_resizetable in Hre.
  eapply rehash_wf in Hre; [done|done|done|done|apply table_wf_zero|].
  unfold table_ids at 1. simpl. by rewrite contents_replicate_zero, app_nil_r.
Qed.

Lemma newkey_loop_wf nk (n : nat) :
  newkey_ok nk → newkey_wf nk → newkey_wf (newkey_loop nk n).
Proof.
  intros Hok Hnk. induction n as [|n IH]; intros t key e t' Hkey Hsz Hfresh Hwf Hrun;
    [done|].
  assert (Hnd' : NoDup (table_ids t')).
  { destruct (newkey_loop_ok nk (S n) Hok _ _ _ _ Hkey Hsz Hrun)
      as (_ & _ & ent & _ & _ & Hp).
    rewrite (table_ids_perm _ _ _ _ Hp). constructor; [done|by apply wf_ids]. }
  simpl in Hrun.
  apply bind_Done in Hrun as (mpe & Hmp%entry_at_Done & Hrun).
  set (mp := amcw_mainposition t key) in *.
  destruct (Z.eqb_spec (sym_id (e_key mpe)) 0) as [Hdead|Hlive]; simpl in Hrun.
  { injection Hrun as <- <-. by eapply table_wf_newkey_dead. }
  apply bind_Done in Hrun as ([lf fo] & Hfree & Hrun).
  destruct fo as [f|]; last first.
  { apply bind_Done in Hrun as (t1 & Hre & Hrun).
    pose proof (resizetable_contents _ _ _ _ Hok Hsz Hre) as (_ & Hes & Hp).
    apply (IH t1 key e t'); [done| | | |done].
    - simpl in Hes. lia.
    - unfold table_ids. by rewrite Hp.
    - apply (resizetable_wf nk (set_lastfree t lf) t1 (wrap64 (t_count t * 2)) Hok Hnk);
        [done| |done].
      by apply (wf_ids _ Hwf). }
  apply find_free_spec in Hfree as (-> & Hflt & fe & Hfe & Hfdead & Hfnext).
  apply bind_Done in Hrun as (fe' & Hfe'%entry_at_Done & Hrun). simpl in Hfe'.
  assert (fe' = fe) as -> by congruence.
  apply bind_Done in Hrun as (_ & _ & Hrun).
  assert (Hfmp : f ≠ mp) by (intros ->; congruence).
  case_bool_decide as Hmain; simpl in Hrun.
  - (* the colliding entry is in its main position *)
    apply bind_Done in Hrun as (_ & _ & Hrun). injection Hrun as <- <-.
    eapply (table_wf_newkey_chain t _ key mp f mpe fe); try done.
    + destruct (e_next mpe =? 0); simpl; by rewrite !length_alter.
    + by destruct (e_next mpe =? 0).
    + destruct (e_next mpe =? 0); simpl.
      * eexists. rewrite list_lookup_alter_eq, list_lookup_alter_ne, Hfe by done.
        simpl. done.
      * eexists. rewrite list_lookup_alter_eq, list_lookup_alter_ne by done.
        rewrite list_lookup_alter_eq, Hfe. simpl. done.
    + destruct (e_next mpe =? 0); simpl.
      * eexists. rewrite list_lookup_alter_ne, list_lookup_alter_eq, Hmp by done.
        simpl. done.
      * eexists. rewrite list_lookup_alter_ne, list_lookup_alter_eq by done.
        rewrite list_lookup_alter_ne, Hmp by done. simpl. done.
    + intros i Hif Himp. destruct (e_next mpe =? 0); simpl;
        by rewrite !list_lookup_alter_ne.
  - (* the colliding entry is out of its main position *)
    apply bind_Done in Hrun as (p & Hprev & Hrun).
    apply find_prev_spec in Hprev as [Hpmp Hlink]; [|done].
    apply bind_Done in Hrun as (mpe' & Hmp'%entry_at_Done & Hrun). simpl in Hmp'.
    rewrite list_lookup_alter_ne in Hmp' by done.
    assert (mpe' = mpe) as -> by congruence.
    injection Hrun as <- <-.
    assert (Hpf : p ≠ f).
    { intros ->. destruct Hlink as (x & Hx & Hn & _). congruence. }
    pose proof Hlink as (ep & Hep & _).
    eapply (table_wf_newkey_move t _ key mp f p mpe fe); try done.
    + destruct (e_next mpe =? 0); simpl; by rewrite !length_alter.
    + by destruct (e_next mpe =? 0).
    + destruct (e_next mpe =? 0) eqn:Hn; simpl.
      * eexists. rewrite list_lookup_alter_ne, list_lookup_alter_eq by done.
        rewrite list_lookup_alter_ne, Hfe by done. simpl.
        apply Z.eqb_eq in Hn. done.
      * eexists. rewrite list_lookup_alter_ne, list_lookup_alter_ne by done.
        rewrite list_lookup_alter_eq, list_lookup_alter_eq.
        rewrite list_lookup_alter_ne, Hfe by done. simpl. done.
    + destruct (e_next mpe =? 0) eqn:Hn; simpl.
      * eexists. rewrite list_lookup_alter_eq, list_lookup_alter_ne by done.
        rewrite list_lookup_alter_ne, Hmp by done. simpl.
        apply Z.eqb_eq in Hn. done.
      * eexists. rewrite list_lookup_alter_eq, list_lookup_alter_eq.
        rewrite !list_lookup_alter_ne, Hmp by done. simpl. done.
    + exists ep. destruct (e_next mpe =? 0); simpl.
      * eexists. split; [done|]. rewrite !list_lookup_alter_ne by done.
        rewrite list_lookup_alter_eq, Hep. simpl. done.
      * eexists. split; [done|]. rewrite !list_lookup_alter_ne by done.
        rewrite list_lookup_alter_eq, Hep. simpl. done.
    + intros i Hif Himp Hip. destruct (e_next mpe =? 0); simpl;
        by rewrite !list_lookup_alter_ne.
Qed.

Lemma amcw_newkey_wf (fuel : nat) : newkey_wf (amcw_newkey (A:=A) fuel).
Proof.
  induction fuel as [|fuel IH]; intros t key e t' Hkey Hsz Hfresh Hwf Hrun; [done|].
  rewrite amcw_newkey_S in Hrun. apply bind_Done in Hrun as (t1 & Hre & Hrun).
  assert (H1 : t_entry_size t1 = t_entry_size t ∧ table_ids t1 ≡ₚ table_ids t ∧
               table_wf t1).
  { destruct (t_size t =? 0)%nat; [|by simplify_eq].
    pose proof (resizetable_contents _ _ _ _ (amcw_newkey_ok fuel) Hsz Hre) as (_ & ? & Hp).
    split; [done|]. split; [unfold table_ids; by rewrite Hp|].
    eapply resizetable_wf; [apply amcw_newkey_ok|done|done| |done]. by apply wf_ids. }
  destruct H1 as (Hes & Hp & Hwf1).
  eapply newkey_loop_wf; [apply amcw_newkey_ok|done|done| | |done|done].
  - lia.
  - by rewrite Hp.
Qed.

(** [amcw_settable] keeps a table well formed. *)
Lemma amcw_settable_wf t (key : amcw_Symbol) (e : nat) t' :
  sizeof_Entry < t_entry_size t → table_wf t →
  amcw_settable t key = Done (e, t') → table_wf t'.
Proof.
  intros Hsz Hwf Hset. unfold amcw_settable in Hset.
  apply bind_Done in Hset as (_ & Hkey%c_assert_Done & Hset).
  apply negb_true_iff, Z.eqb_neq in Hkey.
  apply bind_Done in Hset as (found & Hget & Hset).
  destruct found as [e0|]; [by simplify_eq|].
  apply bind_Done in Hset as ([e1 t1] & Hnew & Hset). injection Hset as <- <-.
  apply table_wf_set_count.
  assert (Hwf1 : table_wf t1).
  { eapply amcw_newkey_wf; [done|done| |done|done].
    intros (p & Hid & Hin)%list_elem_of_fmap. destruct p as [k v].
    apply elem_of_contents_inv in Hin as (i & ent & Hent & <- & _ & Hlive).
    by rewrite (table_wf_lookup t i ent key) in Hget. }
  destruct (_ <? _); [by apply table_wf_set_val|done].
Qed.

End TableWf.

(** ** Rows with well-formed terms *)

Lemma amcw_addvar_wf (row : amcw_Row) (sym : amcw_Symbol) (value : float)
    (row' : amcw_Row) :
  terms_wf row → amcw_addvar row sym value = Done row' → terms_wf row'.
Proof.
  intros [Hs Hwf] Hadd. split; [by eapply amcw_addvar_sized|].
  unfold amcw_addvar in Hadd. destruct (sym_id sym =? 0); [by simplify_eq|].
  apply bind_Done in Hadd as ([term t] & Hset & Hadd).
  apply bind_Done in Hadd as (te & _ & Hadd). injection Hadd as <-. simpl.
  apply amcw_settable_wf in Hset; [|by apply row_sized_lt|done].
  destruct (amcw_nearzero _).
  - by apply table_wf_delkey, table_wf_set_val.
  - by apply table_wf_set_val.
Qed.

Lemma addrow_loop_wf (row : amcw_Row) (other : list (amcw_Entry float))
    (multiplier : float) (row' : amcw_Row) :
  terms_wf row → addrow_loop row other multiplier = Done row' → terms_wf row'.
Proof.
  revert row. induction other as [|term other IH]; intros row Hwf Hl; simpl in Hl.
  { by simplify_eq. }
  destruct (negb _); [|by eauto].
  apply bind_Done in Hl as (row1 & Hadd & Hl). eauto using amcw_addvar_wf.
Qed.

Lemma amcw_addrow_wf (row other : amcw_Row) (multiplier : float) (row' : amcw_Row) :
  terms_wf row → amcw_addrow row other multiplier = Done row' → terms_wf row'.
Proof. intros Hwf Hadd. unfold amcw_addrow in Hadd. by eapply addrow_loop_wf in Hadd. Qed.

Lemma terms_wf_delkey (r : amcw_Row) (term : nat) :
  terms_wf r → terms_wf (set_terms r (amcw_delkey (terms r) term)).
Proof. intros [Hs Hwf]. split; [done|]. by apply table_wf_delkey. Qed.

Lemma amcw_substitute_wf (r : amcw_Row) (var : amcw_Symbol) (expr r' : amcw_Row) :
  terms_wf r → amcw_substitute r var expr = Done r' → terms_wf r'.
Proof.
  intros Hwf Hsub. unfold amcw_substitute in Hsub.
  apply bind_Done in Hsub as (term & _ & Hsub). destruct term as [term|]; [|by simplify_eq].
  apply bind_Done in Hsub as (te & _ & Hsub).
  eapply amcw_addrow_wf; [|done]. by apply terms_wf_delkey.
Qed.

Lemma terms_wf_multiply (r : amcw_Row) (m : float) :
  terms_wf r → terms_wf (amcw_multiply r m).
Proof.
  intros [Hs Hwf]. split; [done|]. simpl.
  eapply table_wf_same; [| | |done]; simpl.
  - by rewrite length_fmap.
  - intros i e He. rewrite list_lookup_fmap, He. simpl. eexists. split; [done|].
    unfold scale_term. by destruct (negb _).
  - done.
Qed.

Lemma amcw_solvefor_wf (row : amcw_Row) (enter exit : amcw_Symbol) (row' : amcw_Row) :
  terms_wf row → amcw_solvefor row enter exit = Done row' → terms_wf row'.
Proof.
  intros Hwf Hsol. unfold amcw_solvefor in Hsol.
  apply bind_Done in Hsol as (term & _ & Hsol). destruct term as [term|]; [|done].
  apply bind_Done in Hsol as (te & _ & Hsol).
  apply bind_Done in Hsol as (_ & _ & Hsol).
  assert (Hwf1 : terms_wf (amcw_multiply (set_terms row (amcw_delkey (terms row) term))
                             (- (1 / e_val te))))
    by by apply terms_wf_multiply, terms_wf_delkey.
  destruct (negb _); [by eapply amcw_addvar_wf|by simplify_eq].
Qed.

(** ** The test of well-formedness *)

Lemma walk_to_chain {A} (fuel : nat) (h : list (amcw_Entry A)) (a c : nat) l :
  walk_to fuel h a c = Some l → chain h a l c.
Proof.
  revert a l. induction fuel as [|fuel IH]; intros a l Hw; [done|]. simpl in Hw.
  case_decide as Hac; [simplify_eq; constructor|].
  destruct (h !! a) as [e|] eqn:He; [|done].
  destruct (Z.eqb_spec (e_next e) 0) as [?|Hn]; [done|].
  destruct (Z.ltb_spec (Z.of_nat a + e_next e) 0) as [?|Hge]; [done|]. simpl in Hw.
  destruct (walk_to _ _ _ _) as [l'|] eqn:Hl'; [|done]. simpl in Hw. simplify_eq.
  econstructor; [|by apply IH]. exists e. split; [done|]. split; [done|]. lia.
Qed.

Lemma elem_of_slots {A} (h : list (amcw_Entry A)) (i : nat) (e : amcw_Entry A) :
  h !! i = Some e → In (i, e) (slots h).
Proof.
  intros He. apply list_elem_of_In. by apply (elem_of_lookup_imap_2 pair).
Qed.

Lemma table_wfb_sound {A} (t : amcw_Table A) : table_wfb t = true → table_wf t.
Proof.
  unfold table_wfb. intros [Hnd Hall]%andb_true_iff.
  apply bool_decide_eq_true in Hnd. rewrite forallb_forall in Hall.
  assert (Hslot : ∀ i e, t_hash t !! i = Some e →
            path_okb t i e = true ∧ free_okb t i e = true ∧
            pred_okb t i e = true ∧ main_okb t i e = true).
  { intros i e He. specialize (Hall _ (elem_of_slots _ _ _ He)). simpl in Hall.
    apply andb_true_iff in Hall as [Hall ?]. apply andb_true_iff in Hall as [Hall ?].
    by apply andb_true_iff in Hall as [? ?]. }
  split.
  - done.
  - intros i e He Hlive. destruct (Hslot _ _ He) as (Hp & _). unfold path_okb in Hp.
    apply Z.eqb_neq in Hlive. rewrite Hlive in Hp. simpl in Hp.
    destruct (walk_to _ _ _ _) as [l|] eqn:Hw; [|done].
    exists l. split; [by eapply walk_to_chain|by apply bool_decide_eq_true in Hp].
  - intros i j (e & He & Hn & Hj). destruct (Hslot _ _ He) as (_ & Hf & _).
    unfold free_okb in Hf. apply Z.eqb_neq in Hn. rewrite Hn in Hf. simpl in Hf.
    apply bool_decide_eq_true in Hf. lia.
  - intros i i' j (e & He & Hn & Hj) (e' & He' & Hn' & Hj').
    destruct (Hslot _ _ He) as (_ & _ & Hp & _). unfold pred_okb in Hp.
    rewrite forallb_forall in Hp. specialize (Hp _ (elem_of_slots _ _ _ He')).
    simpl in Hp. apply Z.eqb_neq in Hn, Hn'. rewrite Hn, Hn' in Hp. simpl in Hp.
    assert (Heq : (Z.of_nat i + e_next e =? Z.of_nat i' + e_next e') = true)
      by (apply Z.eqb_eq; lia).
    rewrite Heq in Hp. simpl in Hp. by apply bool_decide_eq_true in Hp.
  - intros m e i e' Hm Hlive Hfor Hi Hlive'.
    destruct (Hslot _ _ Hm) as (_ & _ & _ & Hmain). unfold main_okb in Hmain.
    apply Z.eqb_neq in Hlive. rewrite Hlive in Hmain. simpl in Hmain.
    rewrite bool_decide_eq_false_2 in Hmain by done. simpl in Hmain.
    rewrite forallb_forall in Hmain. specialize (Hmain _ (elem_of_slots _ _ _ Hi)).
    simpl in Hmain. apply Z.eqb_neq in Hlive'. rewrite Hlive' in Hmain. simpl in Hmain.
    apply negb_true_iff in Hmain. by apply bool_decide_eq_false in Hmain.
Qed.

(** ** The basis *)

Lemma amcw_gettable_id {A} (t : amcw_Table A) (k k' : amcw_Symbol) :
  sym_id k = sym_id k' → amcw_gettable t k = amcw_gettable t k'.
Proof. intros H. unfold amcw_gettable, amcw_mainposition. by rewrite H. Qed.

Lemma elem_of_row_ids (r : amcw_Row) (id : Z) :
  id ∈ row_ids r ↔ ∃ k m, (k, m) ∈ row_terms r ∧ sym_id k = id.
Proof.
  unfold row_ids. rewrite list_elem_of_fmap. split.
  - intros ([k m] & -> & Hin). by exists k, m.
  - intros (k & m & Hin & <-). by exists (k, m).
Qed.




(** A lookup that finds nothing: the row has no term with that id. *)
Lemma terms_wf_None (r : amcw_Row) (k : amcw_Symbol) :
  terms_wf r → amcw_gettable (terms r) k = Done None → sym_id k ∉ row_ids r.
Proof.
  intros [_ Hwf] Hget (k' & m & Hin & Hid)%elem_of_row_ids.
  apply elem_of_contents_inv in Hin as (i & e & He & <- & _ & Hlive).
  by rewrite (table_wf_lookup _ i e k Hwf He Hlive) in Hget.
Qed.

(** The terms of a row after the term in a slot was deleted. *)
Lemma row_ids_delkey (r : amcw_Row) (k : amcw_Symbol) (term : nat) :
  NoDup (row_ids r) → amcw_gettable (terms r) k = Done (Some term) →
  sym_id k ∉ row_ids (set_terms r (amcw_delkey (terms r) term)) ∧
  ∀ id, id ∈ row_ids (set_terms r (amcw_delkey (terms r) term)) → id ∈ row_ids r.
Proof.
  intros Hnd Hget. apply amcw_gettable_Some in Hget as (Hk & te & Hte & Hid).
  pose proof (contents_alter (set_key amcw_null) _ _ _ Hte) as Hp.
  rewrite (cell_dead (set_key _ _)) in Hp by done.
  rewrite cell_live in Hp by congruence. simpl in Hp.
  assert (Hids : row_ids (set_terms r (amcw_delkey (terms r) term)) ++ [sym_id k]
                 ≡ₚ row_ids r).
  { unfold row_ids, row_terms. rewrite <- Hp, fmap_app. simpl. by rewrite Hid. }
  rewrite <- Hids in Hnd. apply list.NoDup_app in Hnd as (_ & Hdis & _). split.
  - intros Hin. eapply Hdis; [done|]. apply elem_of_cons. by left.
  - intros id Hin. rewrite <- Hids. apply elem_of_app. by left.
Qed.

Lemma addrow_loop_ids (row : amcw_Row) (other : list (amcw_Entry float))
    (multiplier : float) (row' : amcw_Row) :
  row_sized row → addrow_loop row other multiplier = Done row' →
  ∀ id, id ∈ row_ids row' →
    id ∈ row_ids row ∨ id ∈ (λ p, sym_id p.1) <$> contents other.
Proof.
  revert row. induction other as [|term other IH]; intros row Hs Hl id Hid; simpl in Hl.
  { simplify_eq. by left. }
  rewrite contents_cons, fmap_app. destruct (negb _) eqn:Hlive.
  - res_inv. rename a into row1.
    apply negb_true_iff, Z.eqb_neq in Hlive.
    destruct (IH row1 (amcw_addvar_sized _ _ _ _ Hs Ha) Hl id Hid) as [Hin|Hin].
    + apply elem_of_row_ids in Hin as (k & m & Hin & <-).
      apply (amcw_addvar_terms _ _ _ _ Hs Ha) in Hin as [Hin|[Hin _]].
      * left. apply elem_of_row_ids. by exists k, m.
      * right. apply elem_of_app. left. rewrite cell_live by done. simpl.
        rewrite Hin. apply elem_of_cons. by left.
    + right. apply elem_of_app. by right.
  - destruct (IH row Hs Hl id Hid) as [Hin|Hin]; [by left|].
    right. apply elem_of_app. by right.
Qed.

Lemma amcw_addrow_ids (row other : amcw_Row) (multiplier : float) (row' : amcw_Row) :
  row_sized row → amcw_addrow row other multiplier = Done row' →
  ∀ id, id ∈ row_ids row' → id ∈ row_ids row ∨ id ∈ row_ids other.
Proof.
  intros Hs Hadd id Hid. unfold amcw_addrow in Hadd.
  by eapply addrow_loop_ids in Hadd.
Qed.

(** After a substitution the row has no term for the symbol that was
    substituted, and its terms are terms that it had, or terms of the
    expression. *)
Lemma amcw_substitute_ids (r : amcw_Row) (var : amcw_Symbol) (expr r' : amcw_Row) :
  terms_wf r → sym_id var ∉ row_ids expr →
  amcw_substitute r var expr = Done r' →
  ∀ id, id ∈ row_ids r' → id ≠ sym_id var ∧ (id ∈ row_ids r ∨ id ∈ row_ids expr).
Proof.
  intros Hok Hexpr Hsub id Hid. unfold amcw_substitute in Hsub. res_inv.
  rename a into term. destruct term as [term|].
  - res_inv. destruct Hok as (Hs & Hwf). pose proof (wf_ids _ Hwf) as Hnd.
    destruct (row_ids_delkey _ _ _ Hnd Ha) as [Hnot Hsubset].
    assert (Hs' : row_sized (set_terms r (amcw_delkey (terms r) term))) by done.
    destruct (amcw_addrow_ids _ _ _ _ Hs' Hsub id Hid) as [Hin|Hin].
    + split; [by intros ->|]. left. by apply Hsubset.
    + split; [by intros ->|]. by right.
  - simplify_eq. split; [|by left]. intros ->. by eapply terms_wf_None.
Qed.

Lemma contents_scale (m : float) (h : list (amcw_Entry float)) :
  (λ p, sym_id p.1) <$> contents (scale_term m <$> h) = (λ p, sym_id p.1) <$> contents h.
Proof.
  induction h as [|e h IH]; [done|].
  rewrite fmap_cons, !contents_cons, !fmap_app, IH. f_equal.
  unfold scale_term. destruct (negb _) eqn:Hlive; [|done].
  apply negb_true_iff, Z.eqb_neq in Hlive.
  rewrite !cell_live by done. done.
Qed.

Lemma row_ids_multiply (row : amcw_Row) (m : float) :
  row_ids (amcw_multiply row m) = row_ids row.
Proof. unfold row_ids, row_terms. simpl. apply contents_scale. Qed.

(** After [amcw_solvefor] the row has no term for the entering symbol, and
    its terms are terms that it had, or the leaving symbol. *)
Lemma amcw_solvefor_ids (row : amcw_Row) (enter exit : amcw_Symbol) (row' : amcw_Row) :
  terms_wf row → amcw_solvefor row enter exit = Done row' →
  sym_id enter ∈ row_ids row ∧
  ∀ id, id ∈ row_ids row' →
    id ≠ sym_id enter ∧ (id ∈ row_ids row ∨ sym_id exit ≠ 0 ∧ id = sym_id exit).
Proof.
  intros (Hs & Hwf) Hsol. pose proof (wf_ids _ Hwf) as Hnd.
  unfold amcw_solvefor in Hsol. res_inv.
  rename a into term. destruct term as [term|]; [|done]. res_inv.
  rename a into te. apply andb_true_iff in Ha1 as [Hne _].
  apply negb_true_iff, Z.eqb_neq in Hne.
  destruct (row_ids_delkey _ _ _ Hnd Ha) as [Hnot Hsubset].
  split.
  { apply amcw_gettable_Some in Ha as (Hk & te' & Hte' & Hid).
    apply elem_of_row_ids. exists (e_key te'), (e_val te'). split; [|done].
    apply (elem_of_contents _ term); [done|congruence]. }
  set (r1 := amcw_multiply (set_terms row (amcw_delkey (terms row) term))
               (- (1 / e_val te))) in *.
  assert (Hr1 : row_ids r1 = row_ids (set_terms row (amcw_delkey (terms row) term)))
    by apply row_ids_multiply.
  intros id Hid. destruct (negb (sym_id exit =? 0)) eqn:Hex.
  - apply negb_true_iff, Z.eqb_neq in Hex.
    apply elem_of_row_ids in Hid as (k & m & Hin & <-).
    assert (Hs1 : row_sized r1) by done.
    apply (amcw_addvar_terms _ _ _ _ Hs1 Hsol) in Hin as [Hin|[Hin _]].
    + assert (Hin' : sym_id k ∈ row_ids r1) by (apply elem_of_row_ids; eauto).
      rewrite Hr1 in Hin'. split; [by intros Heq; rewrite Heq in Hin'|].
      left. by apply Hsubset.
    + split; [congruence|]. by right.
  - simplify_eq. rewrite Hr1 in Hid. split; [by intros ->|]. left. by apply Hsubset.
Qed.

Lemma elem_of_entries_from {A} (h : list (amcw_Entry A)) (i j : nat) (e : amcw_Entry A) :
  h !! j = Some e → sym_id (e_key e) ≠ 0 → (i + j)%nat ∈ entries_from h i.
Proof.
  revert i j. induction h as [|x h IH]; intros i [|j] Hj Hlive; try done; simpl in *.
  - simplify_eq. apply Z.eqb_neq in Hlive. rewrite Hlive. simpl.
    rewrite Nat.add_0_r. apply elem_of_cons. by left.
  - replace (i + S j)%nat with (S i + j)%nat by lia.
    destruct (negb _); [apply elem_of_cons; right|]; by eapply IH.
Qed.

Lemma elem_of_amcw_entries {A} (t : amcw_Table A) (j : nat) (e : amcw_Entry A) :
  t_hash t !! j = Some e → sym_id (e_key e) ≠ 0 → j ∈ amcw_entries t.
Proof. intros Hj Hlive. by apply (elem_of_entries_from _ 0 j e). Qed.














(** *** Dummy symbols *)

Lemma first_key_holds {A} (p : amcw_Entry A → bool) (t : amcw_Table A) :
  sym_id (first_key p t) ≠ 0 → ∃ e, e_key e = first_key p t ∧ p e = true.
Proof.
  intros (_ & e & _ & _ & ? & ? & _)%first_key_found. by exists e.
Qed.















(** * Further properties of the code *)

(** ** The hash table *)

Lemma land_le_r (x b : Z) : 0 ≤ b → 0 ≤ Z.land x b ≤ b.
Proof.
  intros Hb. apply Z.ldiff_le; [done|]. apply Z.bits_inj'. intros n Hn.
  rewrite Z.ldiff_spec, Z.land_spec, Z.bits_0.
  by destruct (Z.testbit x n), (Z.testbit b n).
Qed.

Lemma elem_of_table_ids {A} (t : amcw_Table A) (id : Z) :
  id ∈ table_ids t ↔
  ∃ i e, t_hash t !! i = Some e ∧ sym_id (e_key e) = id ∧ id ≠ 0.
Proof.
  unfold table_ids. rewrite list_elem_of_fmap. split.
  - intros ([k v] & -> & (i & e & He & <- & _ & Hk)%elem_of_contents_inv).
    by exists i, e.
  - intros (i & e & He & <- & Hk). exists (e_key e, e_val e).
    split; [done|]. by apply (elem_of_contents _ i).
Qed.

Lemma amcw_gettable_stored {A} (t : amcw_Table A) (key : amcw_Symbol) (i : nat) :
  amcw_gettable t key = Done (Some i) →
  sym_id key ∈ table_ids t ∧ ∃ e, t_hash t !! i = Some e ∧ sym_id (e_key e) = sym_id key.
Proof.
  intros (Hk & e & He & Hid)%amcw_gettable_Some. split; [|by exists e].
  apply elem_of_table_ids. by exists i, e.
Qed.

Lemma amcw_gettable_missing {A} (t : amcw_Table A) (key : amcw_Symbol) :
  table_wf t → amcw_gettable t key = Done None → sym_id key ∉ table_ids t.
Proof.
  intros Hwf Hnone (i & e & He & Hid & Hk)%elem_of_table_ids.
  rewrite (table_wf_lookup t i e key) in Hnone; [done..|congruence|done].
Qed.

(** X1: in a well-formed table a lookup finds every stored key, in the
    slot that holds it, and it finds nothing else: a slot that it returns
    holds the key, and it returns NULL only for a key that is not
    stored. *)
Theorem amcw_gettable_finds {A} (t : amcw_Table A) (key : amcw_Symbol) :
  table_wf t →
  (∀ i e, t_hash t !! i = Some e → sym_id (e_key e) ≠ 0 →
     sym_id (e_key e) = sym_id key → amcw_gettable t key = Done (Some i)) ∧
  (∀ i, amcw_gettable t key = Done (Some i) →
     sym_id key ∈ table_ids t ∧
     ∃ e, t_hash t !! i = Some e ∧ sym_id (e_key e) = sym_id key) ∧
  (amcw_gettable t key = Done None → sym_id key ∉ table_ids t).
Proof.
  intros Hwf. split; [|split].
  - intros i e He Hlive Hid. by apply (table_wf_lookup t i e).
  - apply amcw_gettable_stored.
  - by apply amcw_gettable_missing.
Qed.

(** The variable 1 is found in the table of the variables of [solver_x]. *)
Lemma amcw_gettable_finds_witness :
  amcw_gettable (vars solver_x) (mkSym 1 AMCW_EXTERNAL) = Done (Some 1%nat).
Proof.
  destruct (amcw_gettable_finds (vars solver_x) (mkSym 1 AMCW_EXTERNAL)) as (H & _).
  { apply table_wfb_sound. vm_compute. reflexivity. }
  eapply (H 1%nat); [vm_compute; reflexivity|vm_compute; discriminate|reflexivity].
Defined.

Lemma table_get_stored {A} (t : amcw_Table A) (k : amcw_Symbol) (v : A) :
  table_wf t → (k, v) ∈ contents (t_hash t) → table_get t k = Done (Some v).
Proof.
  intros Hwf (i & ent & Hi & <- & <- & Hlive)%elem_of_contents_inv.
  unfold table_get. rewrite (table_wf_lookup t i ent) by done. simpl.
  unfold entry_at. by rewrite Hi.
Qed.

Lemma amcw_settable_found {A} `{!Zeroed A} (t : amcw_Table A) (key : amcw_Symbol)
    (e : nat) (t' : amcw_Table A) :
  sizeof_Entry < t_entry_size t → table_wf t →
  amcw_settable t key = Done (e, t') →
  table_wf t' ∧ amcw_gettable t' key = Done (Some e) ∧
  (sym_id key ∉ table_ids t →
     t_count t' = wrap64 (t_count t + 1) ∧ table_get t' key = Done (Some zeroed) ∧
     contents (t_hash t') ≡ₚ (key, zeroed) :: contents (t_hash t)).
Proof.
  intros Hsz Hwf Hset. pose proof (amcw_settable_wf _ _ _ _ Hsz Hwf Hset) as Hwf'.
  apply amcw_settable_spec in Hset as (Hk & Hes & Hcase); [|done].
  destruct Hcase as [[Hfound ->]|(Hmiss & Hcount & ent & He & Hkey & Hval & Hperm)].
  - split; [done|]. split; [done|]. intros Hnot.
    by destruct (amcw_gettable_stored _ _ _ Hfound).
  - split; [done|]. split.
    { apply (table_wf_lookup t' e ent); [done..|congruence|congruence]. }
    intros _. split; [done|]. split; [|done]. apply table_get_stored; [done|].
    rewrite Hperm. apply elem_of_cons. by left.
Qed.



Lemma contents_delkey_perm {A} (t : amcw_Table A) (i : nat) (e : amcw_Entry A) :
  t_hash t !! i = Some e → sym_id (e_key e) ≠ 0 →
  contents (t_hash t) ≡ₚ (e_key e, e_val e) :: contents (t_hash (amcw_delkey t i)).
Proof.
  intros He Hlive. simpl.
  pose proof (contents_alter (set_key amcw_null) (t_hash t) i e He) as Hp.
  rewrite (cell_live e), (cell_dead (set_key amcw_null e)) in Hp by done.
  simpl in Hp. rewrite <- Hp. by rewrite Permutation_app_comm.
Qed.

Lemma amcw_delkey_removes {A} (t : amcw_Table A) (i : nat) (e : amcw_Entry A) :
  table_wf t → t_hash t !! i = Some e → sym_id (e_key e) ≠ 0 →
  table_wf (amcw_delkey t i) ∧
  (sym_id (e_key e) ∉ table_ids (amcw_delkey t i)) ∧
  (∀ r, amcw_gettable (amcw_delkey t i) (e_key e) = Done r → r = None) ∧
  (∀ j ej, j ≠ i → t_hash t !! j = Some ej → sym_id (e_key ej) ≠ 0 →
     amcw_gettable (amcw_delkey t i) (e_key ej) = Done (Some j)).
Proof.
  intros Hwf He Hlive. pose proof (table_wf_delkey t i Hwf) as Hwf'.
  pose proof (contents_delkey_perm t i e He Hlive) as Hperm.
  assert (Hnot : sym_id (e_key e) ∉ table_ids (amcw_delkey t i)).
  { pose proof (wf_ids _ Hwf) as Hnd. rewrite Hperm, fmap_cons in Hnd.
    by apply NoDup_cons_1_1 in Hnd. }
  split; [done|]. split; [done|]. split.
  - intros [j|] Hget; [|done]. by destruct (amcw_gettable_stored _ _ _ Hget).
  - intros j ej Hne Hj Hlivej. apply (table_wf_lookup _ j ej); [done| |done..].
    simpl. by rewrite list_lookup_alter_ne.
Qed.

(** X3: [amcw_delkey] on the slot of a stored key of a well-formed table.
    The table stays well formed, it holds what it held but this key, a
    lookup of the key finds nothing any more, and every other key is found
    in the slot where it was. *)
Theorem amcw_delkey_lookup {A} (t : amcw_Table A) (i : nat) (e : amcw_Entry A) :
  table_wf t → t_hash t !! i = Some e → sym_id (e_key e) ≠ 0 →
  table_wf (amcw_delkey t i) ∧
  t_count (amcw_delkey t i) = wrap64 (t_count t - 1) ∧
  contents (t_hash t) ≡ₚ (e_key e, e_val e) :: contents (t_hash (amcw_delkey t i)) ∧
  (sym_id (e_key e) ∉ table_ids (amcw_delkey t i)) ∧
  (∀ r, amcw_gettable (amcw_delkey t i) (e_key e) = Done r → r = None) ∧
  (∀ j ej, j ≠ i → t_hash t !! j = Some ej → sym_id (e_key ej) ≠ 0 →
     amcw_gettable (amcw_delkey t i) (e_key ej) = Done (Some j)).
Proof.
  intros Hwf He Hlive.
  destruct (amcw_delkey_removes t i e Hwf He Hlive) as (Hwf' & Hnot & Hnone & Hoth).
  split; [done|]. split; [done|]. split; [by apply contents_delkey_perm|]. done.
Qed.

(** The variable 1 is taken out of the table of the variables of
    [solver_x]: it is not found any more. *)
Lemma amcw_delkey_lookup_witness :
  table_get (amcw_delkey (vars solver_x) 1) (mkSym 1 AMCW_EXTERNAL) = Done None ∧
  (1 ∉ table_ids (amcw_delkey (vars solver_x) 1)).
Proof.
  destruct (t_hash (vars solver_x) !! 1%nat) as [e|] eqn:He;
    [|vm_compute in He; discriminate].
  destruct (amcw_delkey_lookup (vars solver_x) 1 e) as (_ & _ & _ & Hnot & _);
    [apply table_wfb_sound; vm_compute; reflexivity|done| |].
  { vm_compute in He. injection He as <-. vm_compute. discriminate. }
  split; [vm_compute; reflexivity|].
  vm_compute in He. by injection He as <-.
Defined.

Lemma amcw_gettable_zero {A} `{!Zeroed A} (c es : Z) (lf n : nat) (key : amcw_Symbol) :
  amcw_gettable (mkTable c es lf (replicate n (@zero_entry A _))) key = Done None.
Proof.
  unfold amcw_gettable, amcw_mainposition, t_size. simpl. rewrite length_replicate.
  destruct n as [|n]; [done|]. destruct (sym_id key =? 0) eqn:Hk; [done|].
  cbn [Nat.eqb orb gettable_walk].
  rewrite lookup_replicate_2.
  - change (sym_id (e_key (@zero_entry A _))) with 0.
    change (e_next (@zero_entry A _)) with 0. by rewrite Z.eqb_sym, Hk.
  - pose proof (land_le_r (sym_id key) (Z.of_nat (S n) - 1)). lia.
Qed.

(** X4: a table that was initialised, reset or freed is well formed and
    holds nothing: a lookup of any key returns NULL.  [amcw_resettable]
    keeps the slot array and its size and makes every slot free. *)
Theorem empty_table_finds_nothing {A} `{!Zeroed A} (t : amcw_Table A) (es : Z)
    (key : amcw_Symbol) :
  (table_wf (amcw_inittable (A:=A) es) ∧
   amcw_gettable (amcw_inittable (A:=A) es) key = Done None ∧
   contents (t_hash (amcw_inittable (A:=A) es)) = []) ∧
  (table_wf (amcw_resettable t) ∧
   amcw_gettable (amcw_resettable t) key = Done None ∧
   contents (t_hash (amcw_resettable t)) = [] ∧
   t_count (amcw_resettable t) = 0 ∧
   t_lastfree (amcw_resettable t) = t_size t ∧
   t_size (amcw_resettable t) = t_size t) ∧
  amcw_freetable t = amcw_inittable (t_entry_size t).
Proof.
  split; [|split; [|done]].
  - split; [apply (table_wf_zero 0 es 0 0)|]. split; [|done].
    apply (amcw_gettable_zero 0 es 0 0).
  - unfold amcw_resettable. split; [apply table_wf_zero|].
    split; [apply amcw_gettable_zero|]. split; [apply contents_replicate_zero|].
    split; [done|]. split; [done|]. unfold t_size. simpl. by rewrite length_replicate.
Qed.



Lemma hashsize_loop_spec (fuel : nat) (k max_size len : Z) :
  2 ≤ k → 64 ≤ Z.of_nat fuel + k → max_size ≤ 2 ^ 63 →
  k = 2 ∨ 2 ^ (k - 1) < len ∧ 2 ^ (k - 1) < max_size →
  ∃ k', k ≤ k' ∧ hashsize_loop fuel (2 ^ k) max_size len = 2 ^ k' ∧
        (k' = 2 ∨ 2 ^ (k' - 1) < len ∧ 2 ^ (k' - 1) < max_size) ∧
        ¬ (2 ^ k' < max_size ∧ 2 ^ k' < len).
Proof.
  revert k. induction fuel as [|fuel IH]; intros k Hk Hfuel Hmax Hinv.
  { exists k. split; [lia|]. split; [done|]. split; [done|]. intros [Hlt _].
    assert (2 ^ 63 ≤ 2 ^ k) by (apply Z.pow_le_mono_r; lia). lia. }
  cbn [hashsize_loop]. destruct (_ && _) eqn:Hc.
  - apply andb_true_iff in Hc as [Hlt%Z.ltb_lt Hlen%Z.ltb_lt].
    assert (k < 63).
    { destruct (decide (k < 63)); [done|].
      assert (2 ^ 63 ≤ 2 ^ k) by (apply Z.pow_le_mono_r; lia). lia. }
    assert (Hs : wrap64 (Z.shiftl (2 ^ k) 1) = 2 ^ (k + 1)).
    { rewrite Z.shiftl_mul_pow2, Z.pow_add_r by lia. unfold wrap64.
      apply Z.mod_small. change (2 ^ 1) with 2. split; [lia|].
      assert (2 ^ k ≤ 2 ^ 62) by (apply Z.pow_le_mono_r; lia).
      change (2 ^ 64) with (2 ^ 62 * 4). lia. }
    rewrite Hs. destruct (IH (k + 1)) as (k' & Hk' & Hloop & Hinv' & Hend); [lia..| |].
    { right. by replace (k + 1 - 1) with k by lia. }
    exists k'. split; [lia|done].
  - exists k. split; [lia|]. split; [done|]. split; [done|].
    intros [Hlt%Z.ltb_lt Hlen%Z.ltb_lt]. by rewrite Hlt, Hlen in Hc.
Qed.

(** X6: the size that [amcw_hashsize] computes for a table with a positive
    entry size is a power of two, at least 4 and at least the length asked
    for, and the least such; it is 0 only when the length exceeds the
    greatest size that the table may have. *)
Theorem amcw_hashsize_pow2 {A} (t : amcw_Table A) (len : Z) :
  0 < t_entry_size t →
  let n := amcw_hashsize t len in
  (n = 0 ∧ (AMCW_MAX_SIZET / 2) / t_entry_size t < len) ∨
  (∃ k, 2 ≤ k ≤ 63 ∧ n = 2 ^ k ∧ Z.land n (n - 1) = 0 ∧ len ≤ n ∧
        (k = 2 ∨ 2 ^ (k - 1) < len)).
Proof.
  intros Hes n. subst n. unfold amcw_hashsize.
  set (max_size := AMCW_MAX_SIZET / 2 / t_entry_size t).
  assert (Hmax : max_size ≤ 2 ^ 63).
  { subst max_size. transitivity (AMCW_MAX_SIZET / 2); [|by vm_compute].
    apply Z.div_le_upper_bound; [done|]. assert (0 ≤ AMCW_MAX_SIZET / 2) by by vm_compute.
    nia. }
  destruct (hashsize_loop_spec 64 2 max_size len) as (k & Hk & Hloop & Hinv & Hend);
    [lia..|by left|].
  change AMCW_MIN_HASHSIZE with (2 ^ 2). cbv zeta. rewrite Hloop.
  destruct (2 ^ k <? len) eqn:Hlen.
  - left. split; [done|]. apply Z.ltb_lt in Hlen. lia.
  - right. apply Z.ltb_ge in Hlen. exists k.
    assert (k ≤ 63).
    { destruct Hinv as [->|[_ Hlt]]; [lia|]. destruct (decide (k ≤ 63)); [done|].
      assert (2 ^ 63 ≤ 2 ^ (k - 1)) by (apply Z.pow_le_mono_r; lia). lia. }
    split; [lia|]. split; [done|]. split; [|split; [done|tauto]].
    replace (2 ^ k - 1) with (Z.ones k) by (rewrite Z.ones_equiv; lia).
    rewrite Z.land_ones by lia. apply Z_mod_same_full.
Qed.

(** A table of terms asked for 5 slots gets 8. *)
Lemma amcw_hashsize_pow2_witness :
  amcw_hashsize (amcw_inittable (A:=float) sizeof_Term) 5 = 2 ^ 3.
Proof.
  destruct (amcw_hashsize_pow2 (amcw_inittable (A:=float) sizeof_Term) 5)
    as [[H _]|(k & _ & H & _)]; [reflexivity|vm_compute in H; discriminate|].
  vm_compute. reflexivity.
Defined.

(** *** Iteration *)

Lemma scan_entry_range {A} (h : list (amcw_Entry A)) (i e : nat) :
  scan_entry h i = Some e → (i ≤ e < i + length h)%nat.
Proof.
  revert i. induction h as [|x h IH]; intros i Hs; simpl in *; [done|].
  destruct (negb _); [simplify_eq; lia|]. apply IH in Hs. lia.
Qed.

Lemma entries_from_scan {A} (h : list (amcw_Entry A)) (i : nat) :
  entries_from h i =
  match scan_entry h i with
  | Some e => e :: entries_from (drop (S (e - i)) h) (S e)
  | None => []
  end.
Proof.
  revert i. induction h as [|x h IH]; intros i; simpl; [done|].
  destruct (negb _).
  - by rewrite Nat.sub_diag.
  - rewrite IH. destruct (scan_entry h (S i)) as [e|] eqn:Hs; [|done].
    apply scan_entry_range in Hs. by replace (e - i)%nat with (S (e - S i)) by lia.
Qed.

Lemma nextentry_visits_from {A} (t : amcw_Table A) (fuel : nat) (pentry : option nat) :
  let start := match pentry with Some e => S e | None => O end in
  (t_size t - start < fuel)%nat →
  nextentry_visits fuel t pentry = entries_from (drop start (t_hash t)) start.
Proof.
  revert pentry. induction fuel as [|fuel IH]; intros pentry start Hfuel; [lia|].
  cbn [nextentry_visits]. rewrite entries_from_scan. unfold amcw_nextentry. fold start.
  destruct (scan_entry (drop start (t_hash t)) start) as [e|] eqn:Hs; [|done].
  apply scan_entry_range in Hs. rewrite length_drop in Hs. unfold t_size in *.
  rewrite IH by lia. rewrite drop_drop. by replace (start + S (e - start))%nat with (S e) by lia.
Qed.

Lemma entries_from_live {A} (h pre : list (amcw_Entry A)) :
  (λ j, (pre ++ h) !! j) <$> entries_from h (length pre)
  = Some <$> filter (λ e, sym_id (e_key e) ≠ 0) h.
Proof.
  revert pre. induction h as [|x h IH]; intros pre; [done|].
  specialize (IH (pre ++ [x])). rewrite <- app_assoc, length_app in IH.
  change ([x] ++ h) with (x :: h) in IH. change (length [x]) with 1%nat in IH.
  replace (length pre + 1)%nat with (S (length pre)) in IH by lia.
  cbn [entries_from]. rewrite filter_cons.
  destruct (sym_id (e_key x) =? 0) eqn:Hx; cbn [negb].
  - apply Z.eqb_eq in Hx. by rewrite decide_False by tauto.
  - apply Z.eqb_neq in Hx. rewrite decide_True by done. rewrite !fmap_cons, IH.
    f_equal. by rewrite lookup_app_r, Nat.sub_diag by lia.
Qed.

Lemma entries_from_sorted {A} (h : list (amcw_Entry A)) (s i j a b : nat) :
  entries_from h s !! i = Some a → entries_from h s !! j = Some b →
  (i < j)%nat → (a < b)%nat.
Proof.
  revert s i j. induction h as [|x h IH]; intros s i j Ha Hb Hij; [done|].
  cbn [entries_from] in *. destruct (negb _); [|by eapply IH].
  destruct j as [|j]; [lia|]. simpl in Hb. destruct i as [|i]; simpl in Ha.
  - simplify_eq. apply list_elem_of_lookup_2, entries_from_ge in Hb. lia.
  - eapply IH; [done..|lia].
Qed.

Lemma amcw_entries_live {A} (t : amcw_Table A) (i : nat) :
  i ∈ amcw_entries t ↔ ∃ e, t_hash t !! i = Some e ∧ sym_id (e_key e) ≠ 0.
Proof.
  split.
  - intros Hi. pose proof (entries_from_live (t_hash t) []) as Hl. simpl in Hl.
    apply (list_elem_of_fmap_2 (λ j, t_hash t !! j)) in Hi.
    unfold amcw_entries in Hi. rewrite Hl in Hi.
    apply list_elem_of_fmap in Hi as (e & He & [Hlive _]%list_elem_of_filter).
    by exists e.
  - intros (e & He & Hlive). by apply (elem_of_amcw_entries t i e).
Qed.

(** X7: a loop [while (amcw_nextentry(t, &e))] that starts with [e = NULL]
    visits the slots that hold a key, each once, in the order of the slot
    array, and then [amcw_nextentry] returns 0. *)
Theorem amcw_nextentry_visits {A} (t : amcw_Table A) (fuel : nat) :
  (t_size t < fuel)%nat →
  nextentry_visits fuel t None = amcw_entries t ∧
  (∀ i, i ∈ amcw_entries t ↔ ∃ e, t_hash t !! i = Some e ∧ sym_id (e_key e) ≠ 0) ∧
  (∀ i j a b, amcw_entries t !! i = Some a → amcw_entries t !! j = Some b →
     (i < j)%nat → (a < b)%nat) ∧
  (λ i, t_hash t !! i) <$> amcw_entries t = Some <$> live_entries t.
Proof.
  intros Hfuel. split; [|split; [|split]].
  - rewrite nextentry_visits_from by (simpl; lia). done.
  - apply amcw_entries_live.
  - intros i j a b; apply entries_from_sorted.
  - apply (entries_from_live (t_hash t) []).
Qed.

(** The loop over the rows of [redundant_solver] visits the slot 1. *)
Lemma amcw_nextentry_visits_witness :
  nextentry_visits 5 (rows redundant_solver) None = [1%nat] ∧
  amcw_entries (rows redundant_solver) = [1%nat].
Proof.
  destruct (amcw_nextentry_visits (rows redundant_solver) 5) as (H1 & _);
    [vm_compute; lia|].
  split; [|vm_compute; reflexivity]. rewrite H1. vm_compute. reflexivity.
Defined.

(** ** What the solving operations leave alone *)

Lemma entry_kept_refl {A} (R : A → A → Prop) (e : amcw_Entry (option A)) :
  (∀ x, R x x) → entry_kept R e e.
Proof.
  intros HR. split; [done|]. split; [done|]. destruct (e_val e); by constructor.
Qed.

Lemma entry_kept_trans {A} (R : A → A → Prop) (e1 e2 e3 : amcw_Entry (option A)) :
  (∀ x y z, R x y → R y z → R x z) →
  entry_kept R e1 e2 → entry_kept R e2 e3 → entry_kept R e1 e3.
Proof.
  intros HR (Hn1 & Hk1 & Hv1) (Hn2 & Hk2 & Hv2).
  split; [congruence|]. split; [congruence|].
  destruct Hv1; inversion Hv2; simplify_eq; constructor; eauto.
Qed.

Lemma slots_kept_refl {A} (R : A → A → Prop) (t : amcw_Table (option A)) :
  (∀ x, R x x) → slots_kept R t t.
Proof.
  intros HR. do 3 (split; [done|]).
  apply Forall2_same_length_lookup_2; [done|]. intros i x y ? ?. simplify_eq.
  by apply entry_kept_refl.
Qed.

Lemma slots_kept_trans {A} (R : A → A → Prop) (t1 t2 t3 : amcw_Table (option A)) :
  (∀ x y z, R x y → R y z → R x z) →
  slots_kept R t1 t2 → slots_kept R t2 t3 → slots_kept R t1 t3.
Proof.
  intros HR (? & ? & ? & H12) (? & ? & ? & H23).
  do 3 (split; [congruence|]).
  eapply Forall2_trans; [|done..]. intros x y z. by apply entry_kept_trans.
Qed.

Lemma slots_kept_store {A} (R : A → A → Prop) (t : amcw_Table (option A)) (i : nat)
    (e : amcw_Entry (option A)) (x x' : A) :
  (∀ x, R x x) → t_hash t !! i = Some e → e_val e = Some x → R x x' →
  slots_kept R t (alter_entry (set_val (Some x')) i t).
Proof.
  intros HR He Hx Hxx'. do 3 (split; [done|]). simpl.
  apply Forall2_alter_r.
  - apply Forall2_same_length_lookup_2; [done|]. intros j a b ? ?. simplify_eq.
    by apply entry_kept_refl.
  - intros a b Ha Hb _. simplify_eq. do 2 (split; [done|]). simpl. rewrite Hx.
    by constructor.
Qed.

Lemma slots_kept_lookup {A} (R : A → A → Prop) (t t' : amcw_Table (option A)) (i : nat)
    (e : amcw_Entry (option A)) (x : A) :
  slots_kept R t t' → t_hash t !! i = Some e → e_val e = Some x →
  ∃ e' x', t_hash t' !! i = Some e' ∧ e_val e' = Some x' ∧ e_key e' = e_key e ∧ R x x'.
Proof.
  intros (_ & _ & _ & Hf) He Hx.
  destruct (Forall2_lookup_l _ _ _ _ _ Hf He) as (e' & He' & _ & Hk & Hv).
  rewrite Hx in Hv. inversion Hv; simplify_eq. by eexists _, _.
Qed.

Lemma var_kept_refl (v : amcw_Var) : var_kept v v.
Proof. done. Qed.

Lemma var_kept_trans (v1 v2 v3 : amcw_Var) : var_kept v1 v2 → var_kept v2 v3 → var_kept v1 v3.
Proof. unfold var_kept. intros (? & ? & ? & ?) (? & ? & ? & ?). repeat split; congruence. Qed.

Lemma cons_kept_refl (c : amcw_Constraint) : cons_kept c c.
Proof. done. Qed.

Lemma cons_kept_trans (c1 c2 c3 : amcw_Constraint) :
  cons_kept c1 c2 → cons_kept c2 c3 → cons_kept c1 c3.
Proof. unfold cons_kept. intros (? & ? & ?) (? & ? & ?). repeat split; congruence. Qed.

Lemma engine_kept_refl (s : amcw_Solver) : engine_kept s s.
Proof. do 3 (split; [done|]). apply slots_kept_refl, var_kept_refl. Qed.

Lemma engine_kept_trans (s1 s2 s3 : amcw_Solver) :
  engine_kept s1 s2 → engine_kept s2 s3 → engine_kept s1 s3.
Proof.
  intros (? & ? & ? & H12) (? & ? & ? & H23). do 3 (split; [congruence|]).
  eapply slots_kept_trans; [apply var_kept_trans|done..].
Qed.

Lemma engine_kept_eq (s s' : amcw_Solver) :
  vars s' = vars s → constraints s' = constraints s →
  constraint_count s' = constraint_count s → auto_update s' = auto_update s →
  engine_kept s s'.
Proof. intros Hv ? ? ?. do 3 (split; [done|]). rewrite Hv. apply slots_kept_refl, var_kept_refl. Qed.

Lemma objects_kept_refl (s : amcw_Solver) : objects_kept s s.
Proof.
  split; [apply slots_kept_refl, var_kept_refl|].
  split; [apply slots_kept_refl, cons_kept_refl|done].
Qed.

Lemma objects_kept_trans (s1 s2 s3 : amcw_Solver) :
  objects_kept s1 s2 → objects_kept s2 s3 → objects_kept s1 s3.
Proof.
  intros (Hv1 & Hc1 & ? & ?) (Hv2 & Hc2 & ? & ?).
  split; [eapply slots_kept_trans; [apply var_kept_trans|done..]|].
  split; [eapply slots_kept_trans; [apply cons_kept_trans|done..]|].
  split; congruence.
Qed.

Lemma engine_objects_kept (s s' : amcw_Solver) : engine_kept s s' → objects_kept s s'.
Proof.
  intros (Hc & ? & ? & Hv). split; [done|]. split; [|done].
  rewrite Hc. apply slots_kept_refl, cons_kept_refl.
Qed.

Lemma engine_kept_store_var (s : amcw_Solver) (var : nat) (v v' : amcw_Var) :
  load_var s var = Done v → var_kept v v' → engine_kept s (store_var s var v').
Proof.
  intros Hv Hk. do 3 (split; [done|]). unfold load_var in Hv.
  apply bind_Done in Hv as (e & He%entry_at_Done & Hv).
  destruct (e_val e) as [v0|] eqn:Hval; [|done]. simplify_eq.
  by eapply slots_kept_store; [apply var_kept_refl|..].
Qed.

Lemma objects_kept_store_cons (s : amcw_Solver) (cn : nat) (c c' : amcw_Constraint) :
  load_cons s cn = Done c → cons_kept c c' → objects_kept s (store_cons s cn c').
Proof.
  intros Hc Hk. split; [apply slots_kept_refl, var_kept_refl|]. split; [|done].
  unfold load_cons in Hc. apply bind_Done in Hc as (e & He%entry_at_Done & Hc).
  destruct (e_val e) as [c0|] eqn:Hval; [|done]. simplify_eq.
  by eapply slots_kept_store; [apply cons_kept_refl|..].
Qed.

Lemma amcw_markdirty_kept (s : amcw_Solver) (var : nat) (s' : amcw_Solver) :
  amcw_markdirty s var = Done s' → engine_kept s s'.
Proof.
  unfold amcw_markdirty. intros H. apply bind_Done in H as (v & Hv & H).
  destruct (_ =? _); simplify_eq; [apply engine_kept_refl|].
  match goal with
  | |- engine_kept _ (set_dirty_vars ?x _) => apply (engine_kept_trans _ x)
  end; [by eapply engine_kept_store_var|by apply engine_kept_eq].
Qed.

Lemma amcw_infeasible_kept (s : amcw_Solver) (row : nat) (s' : amcw_Solver) :
  amcw_infeasible s row = Done s' → engine_kept s s'.
Proof.
  unfold amcw_infeasible. intros H. apply bind_Done in H as (re & _ & H).
  destruct (_ && _); simplify_eq; by apply engine_kept_eq.
Qed.

Lemma res_foldl_kept {A} (R : amcw_Solver → amcw_Solver → Prop)
    (f : amcw_Solver → A → res amcw_Solver) (l : list A) (s s' : amcw_Solver) :
  (∀ s, R s s) → (∀ s1 s2 s3, R s1 s2 → R s2 s3 → R s1 s3) →
  (∀ s a s', f s a = Done s' → R s s') →
  res_foldl f s l = Done s' → R s s'.
Proof.
  intros Hrefl Htrans Hf. revert s. induction l as [|a l IH]; intros s H; simpl in H.
  { by simplify_eq. }
  apply bind_Done in H as (s1 & H1 & H). eauto.
Qed.

Lemma substitute_rows_step_kept (var : amcw_Symbol) (expr : amcw_Row)
    (s : amcw_Solver) (row : nat) (s' : amcw_Solver) :
  substitute_rows_step var expr s row = Done s' → engine_kept s s'.
Proof.
  unfold substitute_rows_step. intros H.
  apply bind_Done in H as (re & _ & H). apply bind_Done in H as (r & _ & H).
  eapply engine_kept_trans; [by apply (engine_kept_eq s (store_row s row r))|].
  destruct (amcw_isexternal _).
  - apply bind_Done in H as (v & _ & H). by eapply amcw_markdirty_kept.
  - by eapply amcw_infeasible_kept.
Qed.

Lemma amcw_substitute_rows_kept (s : amcw_Solver) (var : amcw_Symbol) (expr : amcw_Row)
    (s' : amcw_Solver) :
  amcw_substitute_rows s var expr = Done s' → engine_kept s s'.
Proof.
  unfold amcw_substitute_rows. intros H. apply bind_Done in H as (s1 & H1 & H).
  apply bind_Done in H as (o & _ & H). simplify_eq.
  eapply engine_kept_trans; [|by apply (engine_kept_eq s1)].
  eapply res_foldl_kept; [apply engine_kept_refl|apply engine_kept_trans| |done].
  intros ? ? ?. apply substitute_rows_step_kept.
Qed.

Lemma amcw_takerow_kept (s : amcw_Solver) (sym : amcw_Symbol) (dst : amcw_Row)
    (ret : Z) (tmp : amcw_Row) (s' : amcw_Solver) :
  amcw_takerow s sym dst = Done (ret, tmp, s') → engine_kept s s'.
Proof.
  unfold amcw_takerow. intros H. apply bind_Done in H as (row & _ & H).
  destruct row as [row|]; [|simplify_eq; apply engine_kept_refl].
  apply bind_Done in H as (r & _ & H). simplify_eq. by apply engine_kept_eq.
Qed.

Lemma amcw_putrow_kept (s : amcw_Solver) (sym : amcw_Symbol) (src : amcw_Row)
    (ret : Z) (s' : amcw_Solver) :
  amcw_putrow s sym src = Done (ret, s') → engine_kept s s'.
Proof.
  unfold amcw_putrow. intros H. apply bind_Done in H as ([row t] & _ & H).
  apply bind_Done in H as (re & _ & H). simplify_eq. by apply engine_kept_eq.
Qed.

Lemma amcw_optimize_kept (fuel : nat) (s : amcw_Solver) (obj : option amcw_Row)
    (res : Z * option amcw_Row * amcw_Solver) :
  amcw_optimize fuel s obj = Done res → engine_kept s res.2.
Proof.
  revert s obj. induction fuel as [|fuel IH]; intros s obj H; [done|].
  rewrite amcw_optimize_S in H. apply bind_Done in H as (_ & _ & H). cbv zeta in H.
  destruct (_ =? _); [simplify_eq; apply engine_kept_refl|].
  apply bind_Done in H as ([min exit] & _ & H).
  apply bind_Done in H as (_ & _ & H).
  apply bind_Done in H as ([[taken tmp] s1] & Htake%amcw_takerow_kept & H).
  apply bind_Done in H as (_ & _ & H).
  apply bind_Done in H as (tmp1 & _ & H).
  apply bind_Done in H as (s2 & Hsub%amcw_substitute_rows_kept & H).
  apply bind_Done in H as (obj' & _ & H).
  apply bind_Done in H as ([r3 s3] & Hput%amcw_putrow_kept & H).
  apply IH in H. eauto using engine_kept_trans.
Qed.

Lemma amcw_dual_optimize_kept (fuel : nat) (s s' : amcw_Solver) :
  amcw_dual_optimize fuel s = Done s' → engine_kept s s'.
Proof.
  revert s. induction fuel as [|fuel IH]; intros s H; [done|]. simpl in H.
  destruct (_ =? _); [simplify_eq; apply engine_kept_refl|].
  apply bind_Done in H as (row & _ & H). destruct row as [row|]; [|done].
  apply bind_Done in H as (re & _ & H).
  set (s0 := store_row _ _ _) in H.
  assert (H0 : engine_kept s s0) by by apply engine_kept_eq.
  destruct (_ || _); [apply IH in H; eauto using engine_kept_trans|].
  apply bind_Done in H as ([min enter] & _ & H).
  apply bind_Done in H as (_ & _ & H).
  apply bind_Done in H as ([[taken tmp] s1] & Htake%amcw_takerow_kept & H).
  apply bind_Done in H as (_ & _ & H).
  apply bind_Done in H as (tmp1 & _ & H).
  apply bind_Done in H as (s2 & Hsub%amcw_substitute_rows_kept & H).
  apply bind_Done in H as ([r3 s3] & Hput%amcw_putrow_kept & H).
  apply IH in H. eauto using engine_kept_trans.
Qed.

Lemma updatevars_loop_kept (fuel : nat) (s s' : amcw_Solver) :
  updatevars_loop fuel s = Done s' → engine_kept s s'.
Proof.
  revert s. induction fuel as [|fuel IH]; intros s H; [done|]. simpl in H.
  destruct (_ =? _); [simplify_eq; apply engine_kept_refl|].
  apply bind_Done in H as (s1 & H1 & H). apply IH in H.
  eapply engine_kept_trans; [|done]. clear H. unfold updatevars_step in H1.
  apply bind_Done in H1 as (var & _ & H1). apply bind_Done in H1 as (v & Hv & H1).
  apply bind_Done in H1 as (row & _ & H1). apply bind_Done in H1 as (x & _ & H1).
  simplify_eq.
  eapply engine_kept_trans; [by apply (engine_kept_eq s (set_dirty_vars s (v_dirty_next v)))|].
  by eapply engine_kept_store_var.
Qed.

Lemma auto_update_kept (s s' : amcw_Solver) :
  (if c_true (auto_update s) then amcw_updatevars s else Done s) = Done s' →
  engine_kept s s'.
Proof.
  destruct (c_true _); [apply updatevars_loop_kept|].
  intros. simplify_eq. apply engine_kept_refl.
Qed.

Lemma amcw_initsymbol_kept (s : amcw_Solver) (sym0 : amcw_Symbol) (type : Z)
    (sym : amcw_Symbol) (s' : amcw_Solver) :
  amcw_initsymbol s sym0 type = Done (sym, s') → engine_kept s s'.
Proof.
  unfold amcw_initsymbol, amcw_newsymbol. intros H.
  destruct (_ =? _); [|simplify_eq; apply engine_kept_refl].
  destruct (_ <? _); res_inv; by apply engine_kept_eq.
Qed.

Lemma engine_kept_set_objective (s s' : amcw_Solver) (o : amcw_Row) :
  engine_kept s s' → engine_kept s (set_objective s' o).
Proof. intros H. eapply engine_kept_trans; [done|]. by apply engine_kept_eq. Qed.

Lemma load_cons_kept (s s' : amcw_Solver) (cn : nat) :
  engine_kept s s' → load_cons s' cn = load_cons s cn.
Proof. intros (Hc & _). unfold load_cons, entry_at. by rewrite Hc. Qed.

Lemma engine_kept_store_cons (s s' : amcw_Solver) (cn : nat) (c c' : amcw_Constraint) :
  engine_kept s s' → load_cons s cn = Done c → cons_kept c c' →
  objects_kept s (store_cons s' cn c').
Proof.
  intros Hk Hc Hcc. eapply objects_kept_trans; [by apply engine_objects_kept|].
  apply objects_kept_store_cons with c; [|done]. by rewrite (load_cons_kept s).
Qed.

Lemma makerow_fold_kept (l : list (amcw_Entry float)) (row row' : amcw_Row)
    (s s' : amcw_Solver) :
  res_foldl makerow_step (row, s) l = Done (row', s') →
  engine_kept s s' ∧ symbol_count s' = symbol_count s ∧ rows s' = rows s ∧
  objective s' = objective s.
Proof.
  intros H.
  apply (res_foldl_inv (λ b, engine_kept s b.2 ∧ symbol_count b.2 = symbol_count s ∧
                             rows b.2 = rows s ∧ objective b.2 = objective s)) in H;
    [done| |by split; [apply engine_kept_refl|]].
  clear. intros [r1 s1] term [r2 s2] (Hk & Hsc & Hr & Ho) Hstep.
  unfold makerow_step in Hstep. apply bind_Done in Hstep as (v & _ & Hstep).
  apply bind_Done in Hstep as (s3 & Hd & Hstep).
  apply bind_Done in Hstep as (r3 & _ & Hstep). simplify_eq. simpl in *.
  pose proof (amcw_markdirty_rows _ _ _ Hd) as (? & ? & _ & ?).
  apply amcw_markdirty_kept in Hd.
  split; [by eapply engine_kept_trans|]. repeat split; congruence.
Qed.

Lemma amcw_makerow_kept (s : amcw_Solver) (cn : nat) (row : amcw_Row) (s' : amcw_Solver) :
  amcw_makerow s cn = Done (row, s') → objects_kept s s'.
Proof.
  unfold amcw_makerow. intros H. apply bind_Done in H as (c & Hc & H).
  apply bind_Done in H as ([row1 s1] & (Hk & _)%makerow_fold_kept & H).
  apply bind_Done in H as ([[row2 c'] s2] & Hb & H). simplify_eq.
  repeat first [progress res_inv | case_match];
    repeat match goal with
    | H : amcw_initsymbol _ _ _ = Done _ |- _ => apply amcw_initsymbol_kept in H
    end;
    (eapply engine_kept_store_cons; [|done|done]);
    eauto 10 using engine_kept_trans, engine_kept_set_objective.
Qed.

Lemma amcw_remove_errors_kept (s : amcw_Solver) (cn : nat) (s' : amcw_Solver) :
  amcw_remove_errors s cn = Done s' → objects_kept s s'.
Proof.
  unfold amcw_remove_errors. intros H. apply bind_Done in H as (c & Hc & H).
  apply bind_Done in H as (ob1 & _ & H). apply bind_Done in H as (ob2 & _ & H).
  simplify_eq. eapply engine_kept_store_cons; [by apply engine_kept_eq|done..].
Qed.

Lemma erase_column_kept (a : amcw_Symbol) (l : list nat) (s s' : amcw_Solver) :
  res_foldl (erase_column_step a) s l = Done s' → engine_kept s s'.
Proof.
  apply res_foldl_kept; [apply engine_kept_refl|apply engine_kept_trans|].
  clear. intros s row s' H. unfold erase_column_step in H.
  apply bind_Done in H as (r & _ & H). apply bind_Done in H as (r' & _ & H).
  simplify_eq. by apply engine_kept_eq.
Qed.

(** *** The optimum *)

Lemma amcw_optimize_returns (fuel : nat) (s : amcw_Solver) (obj : option amcw_Row)
    (ret : Z) (obj' : option amcw_Row) (s' : amcw_Solver) :
  amcw_optimize fuel s obj = Done (ret, obj', s') →
  ret = AMCW_OK ∧ sym_id (infeasible_rows s') = 0 ∧
  sym_id (optimize_enter (default (objective s') obj')) = 0 ∧
  (obj = None ↔ obj' = None).
Proof.
  revert s obj. induction fuel as [|fuel IH]; intros s obj H; [done|].
  rewrite amcw_optimize_S in H.
  apply bind_Done in H as (_ & Hinf%c_assert_Done%Z.eqb_eq & H). cbv zeta in H.
  destruct (_ =? _) eqn:Henter; [apply Z.eqb_eq in Henter; by simplify_eq|].
  apply bind_Done in H as ([min exit] & _ & H).
  apply bind_Done in H as (_ & _ & H).
  apply bind_Done in H as ([[taken tmp] s1] & _ & H).
  apply bind_Done in H as (_ & _ & H).
  apply bind_Done in H as (tmp1 & _ & H).
  apply bind_Done in H as (s2 & _ & H).
  apply bind_Done in H as (obj1 & Hobj & H).
  apply bind_Done in H as ([r3 s3] & _ & H).
  apply IH in H as (? & ? & ? & Hiff). do 3 (split; [done|]).
  rewrite <- Hiff. destruct obj as [o|].
  - apply bind_Done in Hobj as (o' & _ & Hobj). by simplify_eq.
  - by simplify_eq.
Qed.

(** X8: [amcw_optimize] returns only [AMCW_OK], and only at an optimum:
    the list of infeasible rows is empty and no term of the objective
    that is not dummy has a negative coefficient.  It returns the
    objective row that it was given, or none when it was given the
    objective of the solver; and it changes no constraint, and of the
    variables only their values and dirty marks. *)
Theorem amcw_optimize_optimal (fuel : nat) (s : amcw_Solver) (obj : option amcw_Row)
    (ret : Z) (obj' : option amcw_Row) (s' : amcw_Solver) :
  amcw_optimize fuel s obj = Done (ret, obj', s') →
  ret = AMCW_OK ∧ sym_id (infeasible_rows s') = 0 ∧
  Forall (λ term, amcw_isdummy (e_key term) = true ∨ (e_val term <? 0)%float = false)
    (live_entries (terms (default (objective s') obj'))) ∧
  (obj = None ↔ obj' = None) ∧ engine_kept s s'.
Proof.
  intros H. pose proof (amcw_optimize_kept _ _ _ _ H) as Hk.
  apply amcw_optimize_returns in H as (Hret & Hinf & Henter & Hiff).
  do 2 (split; [done|]). split; [|done].
  apply first_key_null in Henter. eapply list.Forall_impl; [done|].
  intros term Hp. simpl in Hp. apply andb_false_iff in Hp as [Hd|Hv]; [|by right].
  left. by apply negb_false_iff.
Qed.

(** The optimisation from [solver_before_pivot] ends with an objective
    that has no negative coefficient. *)
Lemma amcw_optimize_optimal_witness :
  ∃ s', amcw_optimize client_fuel solver_before_pivot None = Done (AMCW_OK, None, s') ∧
        sym_id (infeasible_rows s') = 0 ∧
        Forall (λ term, amcw_isdummy (e_key term) = true ∨ (e_val term <? 0)%float = false)
          (live_entries (terms (objective s'))).
Proof.
  destruct (amcw_optimize client_fuel solver_before_pivot None) as [[[ret obj'] s']| |] eqn:H;
    [|vm_compute in H; discriminate..].
  destruct (amcw_optimize_optimal _ _ _ _ _ _ H) as (-> & Hinf & Hopt & [Hnone _] & _).
  specialize (Hnone eq_refl). subst obj'. exists s'. exact (conj eq_refl (conj Hinf Hopt)).
Defined.

Lemma amcw_dual_optimize_returns (fuel : nat) (s s' : amcw_Solver) :
  amcw_dual_optimize fuel s = Done s' → sym_id (infeasible_rows s') = 0.
Proof.
  revert s. induction fuel as [|fuel IH]; intros s H; [done|]. simpl in H.
  destruct (_ =? _) eqn:Hinf; [apply Z.eqb_eq in Hinf; by simplify_eq|].
  apply bind_Done in H as (row & _ & H). destruct row as [row|]; [|done].
  apply bind_Done in H as (re & _ & H).
  destruct (_ || _); [by apply IH in H|].
  apply bind_Done in H as ([min enter] & _ & H).
  apply bind_Done in H as (_ & _ & H).
  apply bind_Done in H as ([[taken tmp] s1] & _ & H).
  apply bind_Done in H as (_ & _ & H).
  apply bind_Done in H as (tmp1 & _ & H).
  apply bind_Done in H as (s2 & _ & H).
  apply bind_Done in H as ([r3 s3] & _ & H).
  by apply IH in H.
Qed.

(** *** [amcw_remove] and [amcw_add] *)

Lemma auto_update_returns (s s' : amcw_Solver) :
  (if c_true (auto_update s) then amcw_updatevars s else Done s) = Done s' →
  engine_kept s s' ∧ infeasible_rows s' = infeasible_rows s ∧
  (c_true (auto_update s) = true → sym_id (dirty_vars s') = 0).
Proof.
  intros H. split; [by apply auto_update_kept|]. destruct (c_true _).
  - apply updatevars_loop_end in H as (Hd & Hsame). split; [|done].
    by destruct Hsame as (_ & _ & _ & _ & _ & _ & ? & _).
  - by simplify_eq.
Qed.

Lemma amcw_remove_spec (fuel : nat) (s : amcw_Solver) (cn : nat) (c : amcw_Constraint)
    (s' : amcw_Solver) :
  load_cons s cn = Done c → amcw_remove fuel s (Some cn) = Done s' →
  sym_id (c_marker c) = 0 ∧ s' = s ∨
  sym_id (c_marker c) ≠ 0 ∧
  ∃ s1, amcw_remove_errors s cn = Done s1 ∧ engine_kept s1 s' ∧
        sym_id (infeasible_rows s') = 0 ∧
        (c_true (auto_update s) = true → sym_id (dirty_vars s') = 0).
Proof.
  intros Hc H. unfold amcw_remove in H. rewrite Hc in H. simpl in H.
  destruct (sym_id (c_marker c) =? 0) eqn:Hm.
  { left. apply Z.eqb_eq in Hm. by simplify_eq. }
  right. apply Z.eqb_neq in Hm. split; [done|].
  apply bind_Done in H as (s1 & Herr & H). exists s1. split; [done|].
  apply bind_Done in H as ([[taken tmp] s2] & Htake%amcw_takerow_kept & H).
  apply bind_Done in H as (s3 & Hsub & H).
  apply bind_Done in H as ([[ret ob] s4] & Hopt & H).
  assert (H23 : engine_kept s2 s3).
  { destruct (negb _); [|simplify_eq; apply engine_kept_refl].
    apply bind_Done in Hsub as (exit & _ & Hsub).
    apply bind_Done in Hsub as (_ & _ & Hsub).
    apply bind_Done in Hsub as ([[taken' tmp'] s2'] & Htake'%amcw_takerow_kept & Hsub).
    apply bind_Done in Hsub as (_ & _ & Hsub).
    apply bind_Done in Hsub as (tmp1 & _ & Hsub%amcw_substitute_rows_kept).
    by eapply engine_kept_trans. }
  pose proof (amcw_optimize_kept _ _ _ _ Hopt) as H34.
  apply amcw_optimize_returns in Hopt as (_ & Hinf & _).
  apply auto_update_returns in H as (H45 & Hinf' & Hdirty).
  assert (H14 : engine_kept s1 s4) by eauto using engine_kept_trans.
  split; [by eapply engine_kept_trans|]. split; [congruence|].
  intros Hau. apply Hdirty. destruct H14 as (_ & _ & -> & _).
  apply amcw_remove_errors_kept in Herr as (_ & _ & _ & ->). done.
Qed.

Lemma amcw_remove_kept (fuel : nat) (s : amcw_Solver) (cons : option nat)
    (s' : amcw_Solver) :
  amcw_remove fuel s cons = Done s' → objects_kept s s'.
Proof.
  destruct cons as [cn|]; [|intros H; simpl in H; simplify_eq; apply objects_kept_refl].
  intros H. destruct (load_cons s cn) as [c| |] eqn:Hc;
    [|unfold amcw_remove in H; by rewrite Hc in H..].
  destruct (amcw_remove_spec _ _ _ _ _ Hc H) as [[_ ->]|(_ & s1 & Herr & Hk & _)].
  - apply objects_kept_refl.
  - eapply objects_kept_trans; [by eapply amcw_remove_errors_kept|].
    by apply engine_objects_kept.
Qed.

(** [amcw_add_with_artificial]: when it returns [AMCW_OK] it has not
    removed the constraint. *)
Lemma amcw_add_with_artificial_kept (fuel : nat) (s : amcw_Solver) (row : amcw_Row)
    (cn : nat) (ret : Z) (s' : amcw_Solver) :
  amcw_add_with_artificial fuel s row cn = Done (ret, s') →
  objects_kept s s' ∧ (ret = AMCW_OK → engine_kept s s').
Proof.
  unfold amcw_add_with_artificial. intros H.
  apply bind_Done in H as ([a s1] & Hnew & H).
  assert (H01 : engine_kept s (set_symbol_count s1 (wrap32 (symbol_count s1 - 1)))).
  { unfold amcw_newsymbol in Hnew. destruct (_ <? _); res_inv; by apply engine_kept_eq. }
  set (s1' := set_symbol_count s1 _) in *. clearbody s1'. clear Hnew.
  apply bind_Done in H as (tmp & _ & H).
  apply bind_Done in H as ([r2 s2] & H12%amcw_putrow_kept & H).
  apply bind_Done in H as ([[r3 tmp3] s3] & H23%amcw_optimize_kept & H).
  apply bind_Done in H as ([[taken tmp4] s4] & H34%amcw_takerow_kept & H).
  simpl in H23. assert (H04 : engine_kept s s4) by eauto using engine_kept_trans.
  clear H01 H12 H23 H34.
  set (r := if amcw_nearzero (constant (default uninit_row tmp3))
            then AMCW_OK else AMCW_UNBOUND) in *.
  assert (Herase : ∀ s5 ret s',
            engine_kept s s5 →
            (res_foldl (erase_column_step a) s5 (amcw_entries (rows s5)) ≫= λ s6,
             erase_term (objective s6) a ≫= λ ob,
             (if negb (r =? AMCW_OK)
              then amcw_remove fuel (set_objective s6 ob) (Some cn)
              else Done (set_objective s6 ob)) ≫= λ s7, Done (r, s7)) = Done (ret, s') →
            objects_kept s s' ∧ (ret = AMCW_OK → engine_kept s s')).
  { clear. intros s5 ret s' H05 H.
    apply bind_Done in H as (s6 & H56%erase_column_kept & H).
    apply bind_Done in H as (ob & _ & H).
    apply bind_Done in H as (s7 & Hrem & H). injection H as Hret ->.
    assert (H06 : engine_kept s (set_objective s6 ob))
      by eauto using engine_kept_trans, engine_kept_set_objective.
    destruct (negb (r =? AMCW_OK)) eqn:Hr.
    - split.
      + eapply objects_kept_trans; [by apply engine_objects_kept|].
        by eapply amcw_remove_kept.
      + intros ->. by rewrite Hret in Hr.
    - simplify_eq. split; [by apply engine_objects_kept|done]. }
  destruct (taken =? AMCW_OK); [|by eapply Herase].
  destruct (amcw_isconstant tmp4).
  { simplify_eq. split; [by apply engine_objects_kept|done]. }
  destruct (_ =? _).
  { simplify_eq. split; [by apply engine_objects_kept|done]. }
  apply bind_Done in H as (tmp5 & _ & H).
  apply bind_Done in H as (s5 & H45%amcw_substitute_rows_kept & H).
  apply bind_Done in H as ([r6 s6] & H56%amcw_putrow_kept & H).
  eapply Herase; [|done]. eauto using engine_kept_trans.
Qed.

Lemma amcw_try_addrow_kept (fuel : nat) (s : amcw_Solver) (row : amcw_Row) (cn : nat)
    (ret : Z) (s' : amcw_Solver) :
  amcw_try_addrow fuel s row cn = Done (ret, s') →
  objects_kept s s' ∧ (ret = AMCW_OK → engine_kept s s').
Proof.
  unfold amcw_try_addrow. intros H. apply bind_Done in H as (c & _ & H).
  apply bind_Done in H as (subject & _ & H).
  destruct subject as [subject|];
    [|simplify_eq; split; [apply objects_kept_refl|intros; apply engine_kept_refl]].
  destruct (_ =? _); [by eapply amcw_add_with_artificial_kept|].
  apply bind_Done in H as (row1 & _ & H).
  apply bind_Done in H as (s1 & H1%amcw_substitute_rows_kept & H).
  apply bind_Done in H as ([r2 s2] & H2%amcw_putrow_kept & H). simplify_eq.
  assert (engine_kept s s') by eauto using engine_kept_trans.
  split; [by apply engine_objects_kept|done].
Qed.

(** *** The symbols of a constraint *)

Lemma amcw_initsymbol_fresh (s : amcw_Solver) (sym : amcw_Symbol) (type : Z) :
  sym_id sym = 0 → 0 ≤ symbol_count s < 0x3FFFFFFF → 0 ≤ type ≤ 3 →
  amcw_initsymbol s sym type =
  Done (mkSym (symbol_count s + 1) type, set_symbol_count s (symbol_count s + 1)).
Proof.
  intros Hid Hc Ht. unfold amcw_initsymbol. rewrite Hid. simpl.
  rewrite amcw_newsymbol_spec by lia. cbv zeta.
  by destruct (Z.ltb_spec (symbol_count s) 1073741823); [|lia].
Qed.

Lemma amcw_makerow_marker (s : amcw_Solver) (cn : nat) (c : amcw_Constraint)
    (row : amcw_Row) (s' : amcw_Solver) :
  load_cons s cn = Done c → sym_id (c_marker c) = 0 → sym_id (c_other c) = 0 →
  0 ≤ symbol_count s ≤ 0x3FFFFFFF - 2 →
  amcw_makerow s cn = Done (row, s') →
  ∃ s1 m o n,
    s' = store_cons s1 cn (set_c_other (set_c_marker c m) o) ∧ engine_kept s s1 ∧
    symbol_count s1 = symbol_count s + n ∧ sym_id m = symbol_count s + 1 ∧
    (if negb (c_relation c =? AMCW_EQUAL) then
       sym_type m = AMCW_SLACK ∧
       if (c_strength c <? AMCW_REQUIRED)%float
       then o = mkSym (symbol_count s + 2) AMCW_ERROR ∧ n = 2
       else o = c_other c ∧ n = 1
     else if (AMCW_REQUIRED <=? c_strength c)%float then
       sym_type m = AMCW_DUMMY ∧ o = c_other c ∧ n = 1
     else
       sym_type m = AMCW_ERROR ∧ o = mkSym (symbol_count s + 2) AMCW_ERROR ∧ n = 2).
Proof.
  intros Hc Hm Ho Hcount H. unfold amcw_makerow in H. rewrite Hc in H.
  rewrite bind_Done_l in H.
  apply bind_Done in H as ([row1 s1] & (Hk & Hsc & _)%makerow_fold_kept & H).
  apply bind_Done in H as ([[row2 c'] s2] & Hb & H). injection H as _ <-.
  assert (Hsc2 : ∀ n, symbol_count (set_symbol_count s1 n) = n) by done.
  assert (Hk1 : ∀ n, engine_kept s (set_symbol_count s1 n))
    by (intros n; eapply engine_kept_trans; [done|by apply engine_kept_eq]).
  destruct (negb (c_relation c =? AMCW_EQUAL)).
  - rewrite amcw_initsymbol_fresh in Hb by (unfold AMCW_SLACK; lia).
    rewrite bind_Done_l in Hb. apply bind_Done in Hb as (row3 & _ & Hb). simpl in Hb.
    destruct (c_strength c <? AMCW_REQUIRED)%float.
    + rewrite amcw_initsymbol_fresh in Hb by (rewrite ?Hsc2; unfold AMCW_ERROR; lia).
      rewrite bind_Done_l in Hb. apply bind_Done in Hb as (row4 & _ & Hb).
      apply bind_Done in Hb as (ob & _ & Hb). simpl in Hb. injection Hb as <- <- <-.
      eexists (set_objective _ ob), _, _, 2. split; [done|].
      split; [by apply engine_kept_set_objective|]. simpl.
      rewrite Hsc. repeat split; first [lia|done|f_equal; lia].
    + injection Hb as <- <- <-.
      exists (set_symbol_count s1 (symbol_count s1 + 1)),
        (mkSym (symbol_count s1 + 1) AMCW_SLACK), (c_other c), 1.
      split; [by destruct c|].
      split; [done|]. simpl. rewrite Hsc. repeat split; first [lia|done].
  - destruct (AMCW_REQUIRED <=? c_strength c)%float.
    + rewrite amcw_initsymbol_fresh in Hb by (unfold AMCW_DUMMY; lia).
      rewrite bind_Done_l in Hb. apply bind_Done in Hb as (row3 & _ & Hb).
      injection Hb as <- <- <-.
      exists (set_symbol_count s1 (symbol_count s1 + 1)),
        (mkSym (symbol_count s1 + 1) AMCW_DUMMY), (c_other c), 1.
      split; [by destruct c|].
      split; [done|]. simpl. rewrite Hsc. repeat split; first [lia|done].
    + rewrite amcw_initsymbol_fresh in Hb by (unfold AMCW_ERROR; lia).
      rewrite bind_Done_l in Hb. cbn [c_other set_c_marker] in Hb.
      rewrite amcw_initsymbol_fresh in Hb by (rewrite ?Hsc2; unfold AMCW_ERROR; lia).
      rewrite bind_Done_l in Hb. apply bind_Done in Hb as (row3 & _ & Hb).
      apply bind_Done in Hb as (row4 & _ & Hb). apply bind_Done in Hb as (ob1 & _ & Hb).
      apply bind_Done in Hb as (ob2 & _ & Hb). simpl in Hb. injection Hb as <- <- <-.
      eexists (set_objective _ ob2), _, _, 2. split; [done|].
      split; [by apply engine_kept_set_objective|]. simpl.
      rewrite Hsc. repeat split; first [lia|done|f_equal; lia].
Qed.

(** X9: [amcw_makerow] for a constraint that has no symbols yet, while the
    symbol counter is two or more below its wrap.  The marker gets the
    next symbol id.  An inequality gets a slack marker, and an error
    symbol with the id after it when its strength is below REQUIRED; an
    equality gets a dummy marker when its strength is REQUIRED or more and
    else two error symbols.  Nothing else of the constraint changes, and
    the rows of the tableau are not touched. *)
Theorem amcw_makerow_symbols (s : amcw_Solver) (cn : nat) (c : amcw_Constraint)
    (row : amcw_Row) (s' : amcw_Solver) :
  load_cons s cn = Done c → sym_id (c_marker c) = 0 → sym_id (c_other c) = 0 →
  0 ≤ symbol_count s ≤ 0x3FFFFFFF - 2 →
  amcw_makerow s cn = Done (row, s') →
  ∃ c', load_cons s' cn = Done c' ∧ cons_kept c c' ∧ rows s' = rows s ∧
    objects_kept s s' ∧ sym_id (c_marker c') = symbol_count s + 1 ∧
    (if negb (c_relation c =? AMCW_EQUAL) then
       sym_type (c_marker c') = AMCW_SLACK ∧
       if (c_strength c <? AMCW_REQUIRED)%float
       then c_other c' = mkSym (symbol_count s + 2) AMCW_ERROR ∧
            symbol_count s' = symbol_count s + 2
       else c_other c' = c_other c ∧ symbol_count s' = symbol_count s + 1
     else if (AMCW_REQUIRED <=? c_strength c)%float then
       sym_type (c_marker c') = AMCW_DUMMY ∧ c_other c' = c_other c ∧
       symbol_count s' = symbol_count s + 1
     else
       sym_type (c_marker c') = AMCW_ERROR ∧
       c_other c' = mkSym (symbol_count s + 2) AMCW_ERROR ∧
       symbol_count s' = symbol_count s + 2).
Proof.
  intros Hc Hm Ho Hcount H.
  pose proof (amcw_makerow_rows _ _ _ _ H) as Hrows.
  pose proof (amcw_makerow_kept _ _ _ _ H) as Hkept.
  destruct (amcw_makerow_marker _ _ _ _ _ Hc Hm Ho Hcount H)
    as (s1 & m & o & n & -> & Hk & Hsc & Hid & Hkinds).
  eexists. split; [apply load_store_cons with c; by rewrite (load_cons_kept s)|].
  split; [done|]. split; [done|]. split; [done|]. split; [done|]. simpl.
  destruct (negb _).
  - destruct Hkinds as [? Hkinds]. split; [done|].
    destruct (_ <? _)%float; destruct Hkinds as [-> ->]; by rewrite Hsc.
  - destruct (_ <=? _)%float.
    + destruct Hkinds as (? & -> & ->). by rewrite Hsc.
    + destruct Hkinds as (? & -> & ->). by rewrite Hsc.
Qed.

(** The required equality [x = 1] of [solver_built] gets the dummy
    marker 2. *)
Lemma amcw_makerow_symbols_witness :
  ∃ row s' c', amcw_makerow solver_built 1 = Done (row, s') ∧
               load_cons s' 1 = Done c' ∧ c_marker c' = mkSym 2 AMCW_DUMMY.
Proof.
  destruct (amcw_makerow solver_built 1) as [[row s']| |] eqn:H;
    [|vm_compute in H; discriminate..].
  destruct (load_cons solver_built 1) as [c| |] eqn:Hc;
    [|vm_compute in Hc; discriminate..].
  pose proof Hc as Hc0. vm_compute in Hc0. injection Hc0 as <-.
  destruct (amcw_makerow_symbols solver_built 1 _ row s' Hc)
    as (c' & Hc' & _ & _ & _ & Hid & Hk);
    [reflexivity|reflexivity|vm_compute; split; discriminate|exact H|].
  exists row, s', c'. split; [reflexivity|]. split; [exact Hc'|].
  vm_compute in Hid, Hk. destruct Hk as (Ht & _).
  change (sym_id (c_marker c') = 2) in Hid. change (sym_type (c_marker c') = 3) in Ht.
  destruct (c_marker c') as [i t]. simpl in Hid, Ht. subst. reflexivity.
Defined.

Lemma amcw_try_addrow_ret (fuel : nat) (s : amcw_Solver) (row : amcw_Row) (cn : nat)
    (ret : Z) (s' : amcw_Solver) :
  amcw_try_addrow fuel s row cn = Done (ret, s') →
  ret = AMCW_OK ∨ ret = AMCW_UNSATISFIED ∨ ret = AMCW_UNBOUND.
Proof.
  unfold amcw_try_addrow. intros H. apply bind_Done in H as (c & _ & H).
  apply bind_Done in H as (subject & _ & H).
  destruct subject as [subject|]; [|simplify_eq; tauto].
  destruct (_ =? _); [apply amcw_add_with_artificial_ret in H; tauto|].
  apply bind_Done in H as (row1 & _ & H). apply bind_Done in H as (s1 & _ & H).
  apply bind_Done in H as ([r2 s2] & _ & H). simplify_eq. tauto.
Qed.

(** [amcw_add] when it returns [AMCW_OK]: the constraint has its
    marker. *)
Lemma amcw_add_ok (fuel : nat) (s : amcw_Solver) (cn : nat) (c : amcw_Constraint)
    (s' : amcw_Solver) :
  load_cons s cn = Done c →
  amcw_add fuel s (Some cn) = Done (AMCW_OK, s') →
  objects_kept s s' ∧
  (sym_id (c_other c) = 0 → 0 ≤ symbol_count s ≤ 0x3FFFFFFF - 2 →
     ∃ c', load_cons s' cn = Done c' ∧ cons_kept c c' ∧
           sym_id (c_marker c') = symbol_count s + 1).
Proof.
  intros Hc H. unfold amcw_add in H. rewrite Hc in H. rewrite bind_Done_l in H.
  destruct (sym_id (c_marker c) =? 0) eqn:Hm; simpl in H; [|done].
  apply Z.eqb_eq in Hm.
  apply bind_Done in H as ([row s0] & Hmake & H).
  apply bind_Done in H as ([ret' s1] & Htry & H).
  apply bind_Done in H as (s2 & Hrest & H).
  apply bind_Done in H as (_ & _ & H). injection H as -> ->.
  pose proof (amcw_makerow_kept _ _ _ _ Hmake) as H0.
  pose proof (amcw_try_addrow_kept _ _ _ _ _ _ Htry) as [H1 H1ok].
  specialize (H1ok eq_refl). simpl in Hrest.
  apply bind_Done in Hrest as ([[r ob] s3] & Hopt%amcw_optimize_kept & Hrest).
  apply auto_update_returns in Hrest as (H34 & _ & _). simpl in Hopt.
  assert (Hk2 : engine_kept s1 s') by by eapply engine_kept_trans.
  split; [eauto using objects_kept_trans, engine_objects_kept|].
  intros Ho Hcount.
  destruct (amcw_makerow_marker _ _ _ _ _ Hc Hm Ho Hcount Hmake)
    as (s1' & m & o & n & -> & Hk & _ & Hid & _).
  exists (set_c_other (set_c_marker c m) o). split; [|done].
  rewrite (load_cons_kept s1), (load_cons_kept (store_cons s1' cn _)) by done.
  apply load_store_cons with c. by rewrite (load_cons_kept s).
Qed.

(** X10: what [amcw_add] does to the solver around the tableau.  It
    returns [AMCW_FAILED], and changes nothing, exactly when the
    constraint has a marker already; otherwise it returns [AMCW_OK],
    [AMCW_UNSATISFIED] or [AMCW_UNBOUND], and leaves the list of
    infeasible rows empty.  It changes no field of a variable but its
    value and its dirty mark, and no field of a constraint but the marker
    and the other symbol.  After [AMCW_OK], with auto update on no
    variable is left dirty; and the constraint has its marker, so that
    [amcw_hasconstraint] answers 1 and a second [amcw_add] fails. *)
Theorem amcw_add_installs (fuel : nat) (s : amcw_Solver) (cn : nat) (c : amcw_Constraint)
    (ret : Z) (s' : amcw_Solver) :
  load_cons s cn = Done c →
  amcw_add fuel s (Some cn) = Done (ret, s') →
  objects_kept s s' ∧
  (ret = AMCW_OK ∨ ret = AMCW_FAILED ∨ ret = AMCW_UNSATISFIED ∨ ret = AMCW_UNBOUND) ∧
  (ret = AMCW_FAILED ↔ sym_id (c_marker c) ≠ 0) ∧
  (ret = AMCW_FAILED → s' = s) ∧
  (ret ≠ AMCW_FAILED → sym_id (infeasible_rows s') = 0) ∧
  (ret = AMCW_OK →
     (c_true (auto_update s) = true → sym_id (dirty_vars s') = 0) ∧
     (sym_id (c_other c) = 0 → 0 ≤ symbol_count s ≤ 0x3FFFFFFF - 2 →
        ∃ c', load_cons s' cn = Done c' ∧ cons_kept c c' ∧
              sym_id (c_marker c') = symbol_count s + 1 ∧
              amcw_hasconstraint s' (Some cn) = Done true ∧
              ∀ fuel', amcw_add fuel' s' (Some cn) = Done (AMCW_FAILED, s'))).
Proof.
  intros Hc H. pose proof H as Hadd.
  unfold amcw_add in H. rewrite Hc in H. rewrite bind_Done_l in H.
  destruct (sym_id (c_marker c) =? 0) eqn:Hm; simpl in H.
  2:{ apply Z.eqb_neq in Hm. injection H as <- <-.
      split; [apply objects_kept_refl|]. split; [tauto|]. split; [done|].
      split; [done|]. split; [done|]. discriminate. }
  apply Z.eqb_eq in Hm.
  apply bind_Done in H as ([row s0] & Hmake & H).
  apply bind_Done in H as ([ret' s1] & Htry & H).
  apply bind_Done in H as (s2 & Hrest & H).
  apply bind_Done in H as (_ & Hinf%c_assert_Done%Z.eqb_eq & H). injection H as -> ->.
  pose proof (amcw_makerow_kept _ _ _ _ Hmake) as H0.
  pose proof (amcw_try_addrow_kept _ _ _ _ _ _ Htry) as [H1 H1ok].
  pose proof (amcw_try_addrow_ret _ _ _ _ _ _ Htry) as Hret.
  assert (Hne : ret ≠ AMCW_FAILED) by (by destruct Hret as [->|[->| ->]]).
  assert (H2 : objects_kept s1 s' ∧
               (ret = AMCW_OK → engine_kept s1 s' ∧
                  (c_true (auto_update s1) = true → sym_id (dirty_vars s') = 0))).
  { destruct (negb (ret =? AMCW_OK)) eqn:Hr.
    - apply bind_Done in Hrest as (s3 & Herr%amcw_remove_errors_kept & Hrest).
      simplify_eq. split; [|by intros ->].
      eapply objects_kept_trans; [done|]. by apply engine_objects_kept, engine_kept_eq.
    - apply bind_Done in Hrest as ([[r ob] s3] & Hopt%amcw_optimize_kept & Hrest).
      apply auto_update_returns in Hrest as (H34 & _ & Hd). simpl in Hopt.
      assert (engine_kept s1 s') by by eapply engine_kept_trans.
      split; [by apply engine_objects_kept|]. intros _. split; [done|].
      intros Hau. apply Hd. destruct Hopt as (_ & _ & -> & _). done. }
  destruct H2 as [H2 H2ok].
  split; [eauto using objects_kept_trans|].
  split; [tauto|]. split; [by split|]. split; [done|]. split; [done|].
  intros ->. destruct (H2ok eq_refl) as [Hk2 Hd]. specialize (H1ok eq_refl). split.
  - intros Hau. apply Hd. destruct H1ok as (_ & _ & -> & _).
    destruct H0 as (_ & _ & _ & ->). done.
  - intros Ho Hcount.
    destruct (amcw_add_ok _ _ _ _ _ Hc Hadd) as (_ & Hmark).
    destruct (Hmark Ho Hcount) as (c' & Hc' & Hkept & Hid).
    exists c'. split; [done|]. split; [done|]. split; [done|].
    assert (Hmk : (sym_id (c_marker c') =? 0) = false) by (apply Z.eqb_neq; lia).
    split.
    + simpl. rewrite Hc'. simpl. by rewrite Hmk.
    + intros fuel'. unfold amcw_add. rewrite Hc'. simpl. by rewrite Hmk.
Qed.

(** The required constraint [x = 1] of [solver_built] is added, and
    cannot be added again. *)
Lemma amcw_add_installs_witness :
  ∃ s', amcw_add client_fuel solver_built (Some 1%nat) = Done (AMCW_OK, s') ∧
        amcw_hasconstraint s' (Some 1%nat) = Done true ∧
        amcw_add client_fuel s' (Some 1%nat) = Done (AMCW_FAILED, s').
Proof.
  destruct (amcw_add client_fuel solver_built (Some 1%nat)) as [[ret s']| |] eqn:H;
    [|vm_compute in H; discriminate..].
  destruct (load_cons solver_built 1) as [c| |] eqn:Hc;
    [|vm_compute in Hc; discriminate..].
  pose proof Hc as Hc0. vm_compute in Hc0. injection Hc0 as <-.
  destruct (amcw_add_installs client_fuel solver_built 1 _ ret s' Hc H)
    as (_ & _ & _ & _ & _ & Hok).
  pose proof H as H0. vm_compute in H0. injection H0 as <- _.
  destruct (Hok eq_refl) as (_ & Hc').
  destruct Hc' as (c' & _ & _ & _ & Hhas & Hadd);
    [reflexivity|vm_compute; split; discriminate|].
  exists s'. exact (conj eq_refl (conj Hhas (Hadd client_fuel))).
Defined.

(** X11: [amcw_remove] of a constraint that is in the solver clears its
    marker and its other symbol, and changes nothing else in the table of
    the constraints; it leaves the list of infeasible rows empty and, with
    auto update on, no variable dirty.  After it [amcw_hasconstraint]
    answers 0 and a second [amcw_remove] does nothing.  [amcw_remove] of a
    constraint that is not in the solver does nothing.  In no case does it
    change a field of a variable other than its value and its dirty
    mark. *)
Theorem amcw_remove_clears (fuel : nat) (s : amcw_Solver) (cn : nat)
    (c : amcw_Constraint) (s' : amcw_Solver) :
  load_cons s cn = Done c → amcw_remove fuel s (Some cn) = Done s' →
  objects_kept s s' ∧
  (sym_id (c_marker c) = 0 → s' = s) ∧
  (sym_id (c_marker c) ≠ 0 →
     constraints s' =
       constraints (store_cons s cn (set_c_other (set_c_marker c amcw_null) amcw_null)) ∧
     load_cons s' cn = Done (set_c_other (set_c_marker c amcw_null) amcw_null) ∧
     amcw_hasconstraint s' (Some cn) = Done false ∧
     sym_id (infeasible_rows s') = 0 ∧
     (c_true (auto_update s) = true → sym_id (dirty_vars s') = 0) ∧
     ∀ fuel', amcw_remove fuel' s' (Some cn) = Done s').
Proof.
  intros Hc H. split; [by eapply amcw_remove_kept|].
  destruct (amcw_remove_spec _ _ _ _ _ Hc H)
    as [[Hm ->]|(Hm & s1 & Herr & (Hcons & _) & Hinf & Hd)]; [done|].
  split; [done|]. intros _.
  assert (Hs1 : constraints s1 =
            constraints (store_cons s cn (set_c_other (set_c_marker c amcw_null) amcw_null))).
  { unfold amcw_remove_errors in Herr. rewrite Hc in Herr. rewrite bind_Done_l in Herr.
    apply bind_Done in Herr as (ob1 & _ & Herr).
    apply bind_Done in Herr as (ob2 & _ & Herr). by simplify_eq. }
  assert (Hc' : load_cons s' cn = Done (set_c_other (set_c_marker c amcw_null) amcw_null)).
  { unfold load_cons, entry_at. rewrite Hcons, Hs1. by apply load_store_cons with c. }
  split; [congruence|]. split; [done|]. split; [by simpl; rewrite Hc'|].
  split; [done|]. split; [done|]. intros fuel'. unfold amcw_remove. by rewrite Hc'.
Qed.

(** The constraint of [redundant_solver] that is installed is removed. *)
Lemma amcw_remove_clears_witness :
  ∃ s', amcw_remove client_fuel redundant_solver (Some 1%nat) = Done s' ∧
        amcw_hasconstraint s' (Some 1%nat) = Done false ∧
        amcw_remove client_fuel s' (Some 1%nat) = Done s'.
Proof.
  destruct (amcw_remove client_fuel redundant_solver (Some 1%nat)) as [s'| |] eqn:H;
    [|vm_compute in H; discriminate..].
  destruct (load_cons redundant_solver 1) as [c| |] eqn:Hc;
    [|vm_compute in Hc; discriminate..].
  pose proof Hc as Hc0. vm_compute in Hc0. injection Hc0 as <-.
  destruct (amcw_remove_clears client_fuel redundant_solver 1 _ s' Hc H) as (_ & _ & Hm).
  destruct Hm as (_ & _ & Hhas & _ & _ & Hrem); [vm_compute; discriminate|].
  exists s'. exact (conj eq_refl (conj Hhas (Hrem client_fuel))).
Defined.

(** *** Rows of the tableau *)



(** *** Dirty variables and infeasible rows *)

(** X13: a variable is put on the dirty list, and a row on the list of
    infeasible rows, at most once: marking again changes nothing.  A
    variable that was not dirty becomes the head of the dirty list and
    links to the old head; a row is put on its list only when its
    constant is negative. *)
Theorem marking_is_idempotent (s : amcw_Solver) (i : nat) (s1 : amcw_Solver) :
  (amcw_markdirty s i = Done s1 →
     amcw_markdirty s1 i = Done s1 ∧
     ∃ v v1, load_var s i = Done v ∧ load_var s1 i = Done v1 ∧
       amcw_isdummy (v_dirty_next v1) = true ∧
       (amcw_isdummy (v_dirty_next v) = true ∧ s1 = s ∨
        amcw_isdummy (v_dirty_next v) = false ∧ dirty_vars s1 = v_sym v ∧
        sym_id (v_dirty_next v1) = sym_id (dirty_vars s))) ∧
  (amcw_infeasible s i = Done s1 →
     amcw_infeasible s1 i = Done s1 ∧
     ∃ re re1, t_hash (rows s) !! i = Some re ∧ t_hash (rows s1) !! i = Some re1 ∧
       ((constant (e_val re) <? 0)%float = true →
          amcw_isdummy (infeasible_next (e_val re1)) = true) ∧
       ((constant (e_val re) <? 0)%float = false → s1 = s)).
Proof.
  split.
  - unfold amcw_markdirty. intros H. apply bind_Done in H as (v & Hv & H).
    fold (amcw_isdummy (v_dirty_next v)) in H.
    destruct (amcw_isdummy (v_dirty_next v)) eqn:Hd.
    + injection H as <-. rewrite Hv. simpl. fold (amcw_isdummy (v_dirty_next v)).
      rewrite Hd. split; [done|]. exists v, v. by eauto 10.
    + injection H as <-.
      set (v1 := set_v_dirty_next v (mkSym (sym_id (dirty_vars s)) AMCW_DUMMY)).
      assert (Hv1 : load_var (set_dirty_vars (store_var s i v1) (v_sym v)) i = Done v1)
        by by apply (load_var_store_var s i v).
      rewrite Hv1. simpl. split; [done|]. exists v, v1. by eauto 10.
  - unfold amcw_infeasible. intros H. apply bind_Done in H as (re & Hre & H).
    pose proof Hre as Hre'. apply entry_at_Done in Hre'.
    destruct (constant (e_val re) <? 0)%float eqn:Hneg; simpl in H.
    + destruct (amcw_isdummy (infeasible_next (e_val re))) eqn:Hd; simpl in H.
      * injection H as <-. rewrite Hre. simpl. rewrite Hneg, Hd. simpl.
        split; [done|]. exists re, re. by eauto.
      * injection H as <-. unfold entry_at. simpl.
        rewrite list_lookup_alter_eq, Hre'. simpl. rewrite Hneg. simpl.
        split; [done|]. eexists re, _. split; [done|]. split; [done|].
        split; [done|intros ?; congruence].
    + injection H as <-. rewrite Hre. simpl. rewrite Hneg. simpl.
      split; [done|]. exists re, re. do 2 (split; [done|]).
      split; [intros ?; congruence|done].
Qed.

(** [x] of [solver_x] is marked dirty: it is the head of the dirty list,
    and marking it again changes nothing. *)
Lemma marking_is_idempotent_witness :
  ∃ s1, amcw_markdirty solver_x 1 = Done s1 ∧ amcw_markdirty s1 1 = Done s1 ∧
        dirty_vars s1 = mkSym 1 AMCW_EXTERNAL.
Proof.
  destruct (amcw_markdirty solver_x 1) as [s1| |] eqn:H;
    [|vm_compute in H; discriminate..].
  destruct (marking_is_idempotent solver_x 1 s1) as [Hd _].
  destruct (Hd H) as (Htwice & _). exists s1. split; [reflexivity|]. split; [exact Htwice|].
  vm_compute in H. by injection H as <-.
Defined.

(** *** Variables *)



Lemma store_var_same (s : amcw_Solver) (var : nat) (v v1 : amcw_Var) :
  load_var s var = Done v → store_var (store_var s var v1) var v = s.
Proof.
  unfold load_var, store_var. intros H.
  apply bind_Done in H as (e & He%entry_at_Done & H).
  destruct (e_val e) as [v0|] eqn:Hv; [|done]. injection H as ->.
  destruct s as [ob [vc ves vlf vh] cs rs sc cc au ir dv]. simpl in *.
  unfold set_vars, alter_entry, set_hash. simpl. do 2 f_equal.
  apply list_eq. intros i. destruct (decide (i = var)) as [->|Hne].
  - rewrite !list_lookup_alter_eq, He. simpl. destruct e. simpl in *. by subst.
  - by rewrite !list_lookup_alter_ne.
Qed.

(** X15: a use of a variable that has references is undone by
    [amcw_delvariable]: [amcw_usevariable] adds a reference and
    [amcw_delvariable] takes it back and frees nothing.  On a NULL
    variable both do nothing. *)
Theorem amcw_usevariable_delvariable (fuel : nat) (s : amcw_Solver) (var : nat)
    (v : amcw_Var) :
  load_var s var = Done v → 0 < v_refcount v < 2 ^ 32 →
  (∃ s1, amcw_usevariable s (Some var) = Done s1 ∧
         load_var s1 var = Done (set_v_refcount v (wrap32 (v_refcount v + 1))) ∧
         amcw_delvariable fuel s1 (Some var) = Done s) ∧
  amcw_usevariable s None = Done s ∧ amcw_delvariable fuel s None = Done s.
Proof.
  intros Hv Hr. split; [|done]. simpl. rewrite Hv. simpl.
  eexists. split; [done|].
  assert (Hv1 : load_var (store_var s var (set_v_refcount v (wrap32 (v_refcount v + 1)))) var
                = Done (set_v_refcount v (wrap32 (v_refcount v + 1))))
    by by apply load_var_store_var with v.
  split; [done|]. rewrite Hv1. simpl.
  assert (Hback : wrap32 (wrap32 (v_refcount v + 1) - 1) = v_refcount v).
  { unfold wrap32. rewrite Zminus_mod_idemp_l.
    replace (v_refcount v + 1 - 1) with (v_refcount v) by lia.
    apply Z.mod_small. lia. }
  rewrite Hback. destruct (Z.leb_spec (v_refcount v) 0); [lia|].
  f_equal. replace (set_v_refcount _ (v_refcount v)) with v by by destruct v.
  by apply store_var_same.
Qed.

(** A use of [x] of [solver_x] and its release give [solver_x] back. *)
Lemma amcw_usevariable_delvariable_witness :
  ∃ s1, amcw_usevariable solver_x (Some 1%nat) = Done s1 ∧
        amcw_delvariable client_fuel s1 (Some 1%nat) = Done solver_x.
Proof.
  destruct (load_var solver_x 1) as [v| |] eqn:Hv; [|vm_compute in Hv; discriminate..].
  pose proof Hv as Hv0. vm_compute in Hv0. injection Hv0 as <-.
  destruct (amcw_usevariable_delvariable client_fuel solver_x 1 _ Hv)
    as [(s1 & Huse & _ & Hdel) _]; [vm_compute; split; reflexivity|].
  exists s1. exact (conj Huse Hdel).
Defined.

(** X16: [amcw_delvariable] on the last reference of a registered variable
    that has no edit.  It returns; the variable is taken out of the table,
    so that its symbol is not found any more, every other variable is
    found in the slot where it was, and the table stays well formed; the
    tableau and the constraints are not touched. *)
Theorem amcw_delvariable_last (fuel : nat) (s : amcw_Solver) (var : nat) (v : amcw_Var) :
  table_wf (vars s) → load_var s var = Done v →
  amcw_sym2var s (v_sym v) = Done var →
  v_refcount v = 1 → v_constraint v = None →
  ∃ s', amcw_delvariable fuel s (Some var) = Done s' ∧ table_wf (vars s') ∧
        (sym_id (v_sym v) ∉ table_ids (vars s')) ∧
        (∀ r, amcw_gettable (vars s') (v_sym v) = Done r → r = None) ∧
        (∀ j ej, j ≠ var → t_hash (vars s) !! j = Some ej → sym_id (e_key ej) ≠ 0 →
           amcw_gettable (vars s') (e_key ej) = Done (Some j) ∧
           t_hash (vars s') !! j = Some ej) ∧
        rows s' = rows s ∧ constraints s' = constraints s ∧ objective s' = objective s.
Proof.
  intros Hwf Hv Hsym Hr Hc. unfold amcw_sym2var in Hsym.
  apply bind_Done in Hsym as (ve & Hget & Hsym). destruct ve as [ve|]; [|done].
  injection Hsym as ->.
  pose proof (amcw_gettable_Some _ _ _ Hget) as (Hk & e & He & Hid).
  set (v0 := set_v_refcount v (wrap32 (v_refcount v - 1))).
  set (s0 := store_var s var v0).
  assert (Hwf0 : table_wf (vars s0)) by by apply table_wf_set_val.
  assert (He0 : t_hash (vars s0) !! var = Some (set_val (Some v0) e)).
  { simpl. by rewrite list_lookup_alter_eq, He. }
  destruct (amcw_delkey_removes (vars s0) var _ Hwf0 He0) as (Hwf' & Hnot & Hnone & Hoth).
  { simpl. congruence. }
  exists (set_vars s0 (amcw_delkey (vars s0) var)). split.
  { unfold amcw_delvariable. rewrite Hv. simpl. fold v0 s0.
    change (vars s0) with (alter_entry (set_val (Some v0)) var (vars s)).
    rewrite amcw_gettable_set_val. change (v_sym v0) with (v_sym v). rewrite Hget.
    change (v_refcount v0) with (wrap32 (v_refcount v - 1)). rewrite Hr.
    change (wrap32 (1 - 1) <=? 0) with true. cbn iota. rewrite bind_Done_l.
    change (v_constraint v0) with (v_constraint v). by rewrite Hc. }
  split; [done|]. simpl in Hnot, Hnone. split; [by rewrite <- Hid|]. split.
  { intros r Hg. apply Hnone. by rewrite (amcw_gettable_id _ _ (v_sym v)). }
  split; [|done]. intros j ej Hj Hej Hlive.
  assert (Hej0 : t_hash (vars s0) !! j = Some ej) by (simpl; by rewrite list_lookup_alter_ne).
  split; [by apply Hoth|]. simpl. by rewrite !list_lookup_alter_ne.
Qed.

(** The only reference of [x] of [solver_x] is released: [x] is not
    found any more. *)
Lemma amcw_delvariable_last_witness :
  ∃ s', amcw_delvariable client_fuel solver_x (Some 1%nat) = Done s' ∧
        (1 ∉ table_ids (vars s')).
Proof.
  destruct (load_var solver_x 1) as [v| |] eqn:Hv; [|vm_compute in Hv; discriminate..].
  pose proof Hv as Hv0. vm_compute in Hv0. injection Hv0 as <-.
  destruct (amcw_delvariable_last client_fuel solver_x 1 _
              (table_wfb_sound (vars solver_x) eq_refl) Hv eq_refl eq_refl eq_refl)
    as (s' & Hdel & _ & Hnot & _).
  exists s'. exact (conj Hdel Hnot).
Defined.

(** *** Constraints *)

(** X17: a constraint that is in the solver cannot be changed or added
    again: [amcw_addterm], [amcw_addconstant], [amcw_setrelation],
    [amcw_mergeconstraint] and [amcw_add] return [AMCW_FAILED] and leave
    the solver as it is, and [amcw_hasconstraint] answers 1. *)
Theorem installed_constraint_is_frozen (s : amcw_Solver) (cn : nat) (c : amcw_Constraint) :
  load_cons s cn = Done c → sym_id (c_marker c) ≠ 0 →
  amcw_hasconstraint s (Some cn) = Done true ∧
  (∀ var v m, load_var s var = Done v →
     amcw_addterm s (Some cn) (Some var) m = Done (AMCW_FAILED, s)) ∧
  (∀ k, amcw_addconstant s (Some cn) k = Done (AMCW_FAILED, s)) ∧
  (∀ rel, AMCW_LESSEQUAL ≤ rel ≤ AMCW_GREATEQUAL →
     amcw_setrelation s (Some cn) rel = Done (AMCW_FAILED, s)) ∧
  (∀ other m, amcw_mergeconstraint s (Some cn) other m = Done (AMCW_FAILED, s)) ∧
  (∀ fuel, amcw_add fuel s (Some cn) = Done (AMCW_FAILED, s)).
Proof.
  intros Hc Hm. apply Z.eqb_neq in Hm.
  split; [by simpl; rewrite Hc; simpl; rewrite Hm|].
  split; [intros var v m Hv; by simpl; rewrite Hc, Hv; simpl; rewrite Hm|].
  split; [intros k; by simpl; rewrite Hc; simpl; rewrite Hm|]. split.
  { intros rel [H1%Z.leb_le H2%Z.leb_le]. unfold amcw_setrelation.
    rewrite H1, H2, Hc. simpl. by rewrite Hm. }
  split.
  - intros [on|] m; [|done]. simpl. rewrite Hc. simpl. by rewrite Hm.
  - intros fuel. unfold amcw_add. rewrite Hc. simpl. by rewrite Hm.
Qed.

(** The constraint of [redundant_solver] that is installed refuses a
    constant. *)
Lemma installed_constraint_is_frozen_witness :
  amcw_addconstant redundant_solver (Some 1%nat) 1%float
  = Done (AMCW_FAILED, redundant_solver).
Proof.
  destruct (load_cons redundant_solver 1) as [c| |] eqn:Hc;
    [|vm_compute in Hc; discriminate..].
  pose proof Hc as Hc0. vm_compute in Hc0. injection Hc0 as <-.
  destruct (installed_constraint_is_frozen redundant_solver 1 _ Hc) as (_ & _ & H & _);
    [vm_compute; discriminate|].
  exact (H 1%float).
Defined.

(** *** Suggesting a value *)

Lemma amcw_delta_edit_constant_kept (s : amcw_Solver) (delta : float) (cn : nat)
    (s' : amcw_Solver) :
  amcw_delta_edit_constant s delta cn = Done s' → engine_kept s s'.
Proof.
  unfold amcw_delta_edit_constant. intros H. apply bind_Done in H as (c & _ & H).
  apply bind_Done in H as (row & _ & H). destruct row as [row|].
  { apply bind_Done in H as (r & _ & H%amcw_infeasible_kept).
    eapply engine_kept_trans; [|done]. by apply engine_kept_eq. }
  apply bind_Done in H as (row & _ & H). destruct row as [row|].
  { apply bind_Done in H as (r & _ & H%amcw_infeasible_kept).
    eapply engine_kept_trans; [|done]. by apply engine_kept_eq. }
  revert H. apply res_foldl_kept; [apply engine_kept_refl|apply engine_kept_trans|].
  clear. intros s row s' H. unfold delta_edit_step in H.
  apply bind_Done in H as (re & _ & H). apply bind_Done in H as (term & _ & H).
  destruct term as [term|]; [|simplify_eq; apply engine_kept_refl].
  apply bind_Done in H as (te & _ & H). cbv zeta in H.
  set (s0 := store_row s row _) in H.
  apply (engine_kept_trans _ s0); [by apply engine_kept_eq|].
  destruct (amcw_isexternal _).
  - apply bind_Done in H as (v & _ & H). by eapply amcw_markdirty_kept.
  - by eapply amcw_infeasible_kept.
Qed.

(** X18: [amcw_suggest] for a variable that has an edit records the
    value as the edit value of the variable.  It returns with the list of
    infeasible rows empty and, with auto update on, with no variable
    dirty; it changes no constraint, and of the variables only values,
    dirty marks and this edit value.  For the NULL variable it does
    nothing. *)
Theorem amcw_suggest_records (fuel : nat) (s : amcw_Solver) (var : nat) (v : amcw_Var)
    (cid : Z) (value : float) (s' : amcw_Solver) :
  load_var s var = Done v → v_constraint v = Some cid →
  amcw_suggest fuel s (Some var) value = Done s' →
  engine_kept (store_var s var (set_v_edit_value v value)) s' ∧
  (∃ v', load_var s' var = Done v' ∧ v_edit_value v' = value ∧
         v_sym v' = v_sym v ∧ v_refcount v' = v_refcount v ∧
         v_constraint v' = Some cid) ∧
  constraints s' = constraints s ∧ sym_id (infeasible_rows s') = 0 ∧
  (c_true (auto_update s) = true → sym_id (dirty_vars s') = 0) ∧
  amcw_suggest fuel s None value = Done s.
Proof.
  intros Hv Hc H. unfold amcw_suggest in H. rewrite Hv in H. rewrite bind_Done_l in H.
  rewrite Hc in H. rewrite bind_Done_l, Hv, bind_Done_l in H. cbv zeta in H.
  set (s0 := store_var s var (set_v_edit_value v value)) in *.
  apply bind_Done in H as (cons & _ & H). destruct cons as [cn|]; [|done].
  apply bind_Done in H as (s1 & H1%amcw_delta_edit_constant_kept & H).
  apply bind_Done in H as (s2 & H2 & H).
  pose proof (amcw_dual_optimize_returns _ _ _ H2) as Hinf.
  apply amcw_dual_optimize_kept in H2.
  apply auto_update_returns in H as (H3 & Hinf3 & Hd).
  assert (Hk : engine_kept s0 s') by eauto using engine_kept_trans.
  assert (Hk2 : engine_kept s0 s2) by eauto using engine_kept_trans.
  split; [done|]. split; [|split; [by destruct Hk as [-> _]|]].
  - destruct Hk as (_ & _ & _ & Hvars).
    assert (Hv0 : load_var s0 var = Done (set_v_edit_value v value))
      by by apply load_var_store_var with v.
    unfold load_var in Hv0. apply bind_Done in Hv0 as (e & He%entry_at_Done & Hv0).
    destruct (e_val e) as [v0|] eqn:Hval; [|done]. injection Hv0 as ->.
    destruct (slots_kept_lookup _ _ _ _ _ _ Hvars He Hval)
      as (e' & v' & He' & Hval' & _ & Hs & Hr & Hcv & Hev).
    exists v'. split; [|by rewrite Hs, Hr, Hcv, Hev].
    unfold load_var, entry_at. rewrite He'. simpl. by rewrite Hval'.
  - split; [congruence|]. split; [|done].
    intros Hau. apply Hd. by destruct Hk2 as (_ & _ & -> & _).
Qed.

(** A value is suggested for [x] of [solver_edit]. *)
Lemma amcw_suggest_records_witness :
  ∃ s' v', amcw_suggest client_fuel solver_edit (Some 1%nat) 7%float = Done s' ∧
           load_var s' 1 = Done v' ∧ v_edit_value v' = 7%float.
Proof.
  destruct (amcw_suggest client_fuel solver_edit (Some 1%nat) 7%float) as [s'| |] eqn:H;
    [|vm_compute in H; discriminate..].
  destruct (load_var solver_edit 1) as [v| |] eqn:Hv; [|vm_compute in Hv; discriminate..].
  pose proof Hv as Hv0. vm_compute in Hv0. injection Hv0 as <-.
  destruct (amcw_suggest_records client_fuel solver_edit 1 _ 1 7%float s' Hv eq_refl H)
    as (_ & (v' & Hv' & He & _) & _).
  exists s', v'. exact (conj eq_refl (conj Hv' He)).
Defined.

(** *** The leaving row of a removal *)

Lemma res_foldl_inv_mem {A B} (P : B → list A → Prop) (f : B → A → res B)
    (l : list A) (b b' : B) :
  (∀ b a b' pre, P b pre → a ∈ l → f b a = Done b' → P b' (pre ++ [a])) →
  P b [] → res_foldl f b l = Done b' → P b' l.
Proof.
  intros Hf Hb H.
  cut (∀ pre b, P b pre → (∀ a, a ∈ l → a ∈ l) → res_foldl f b l = Done b' →
         (∀ b a b' pre, P b pre → a ∈ l → f b a = Done b' → P b' (pre ++ [a])) →
         P b' (pre ++ l)); [intros Hcut; by apply (Hcut [] b)|].
  clear. induction l as [|a l IH]; intros pre b Hb _ H Hf; simpl in H.
  { simplify_eq. by rewrite app_nil_r. }
  apply bind_Done in H as (b1 & H1 & H).
  replace (pre ++ a :: l) with ((pre ++ [a]) ++ l) by by rewrite <- app_assoc.
  apply (IH _ b1); [|done|done|].
  - eapply Hf; [done| |done]. apply elem_of_cons. by left.
  - intros b0 a0 b0' pre0 ? ? ?. eapply Hf; [done| |done]. apply elem_of_cons. by right.
Qed.

Lemma leaving_row_scan (s : amcw_Solver) (marker : amcw_Symbol) (l : list nat)
    (acc : amcw_Symbol * amcw_Symbol * amcw_Symbol * float * float) :
  (∀ row re, row ∈ l → t_hash (rows s) !! row = Some re → sym_id (e_key re) ≠ 0) →
  res_foldl (leaving_row_step s marker)
    (amcw_null, amcw_null, amcw_null, AMCW_NUM_MAX, AMCW_NUM_MAX) l = Done acc →
  (∀ x, x ∈ [acc.1.1.1.1; acc.1.1.1.2; acc.1.1.2] → sym_id x ≠ 0 →
     ∃ row, row ∈ l ∧ has_marker s marker row x) ∧
  (sym_id acc.1.1.2 = 0 →
     ∀ row re, row ∈ l → t_hash (rows s) !! row = Some re → sym_id (e_key re) ≠ 0 →
       amcw_isexternal (e_key re) = true → ¬ has_marker s marker row (e_key re)).
Proof.
  intros Hl. apply (res_foldl_inv_mem
    (λ (acc : amcw_Symbol * amcw_Symbol * amcw_Symbol * float * float) pre,
       (∀ x, x ∈ [acc.1.1.1.1; acc.1.1.1.2; acc.1.1.2] → sym_id x ≠ 0 →
          ∃ row, row ∈ pre ∧ has_marker s marker row x) ∧
       (sym_id acc.1.1.2 = 0 →
          ∀ row re, row ∈ pre → t_hash (rows s) !! row = Some re →
            sym_id (e_key re) ≠ 0 → amcw_isexternal (e_key re) = true →
            ¬ has_marker s marker row (e_key re)))).
  2:{ split.
      - intros x Hx Hid. simpl in Hx. rewrite !elem_of_cons in Hx.
        destruct Hx as [->|[->|[->|[]%elem_of_nil]]]; done.
      - intros _ row re []%elem_of_nil. }
  intros [[[[f sd] t] r1] r2] row acc' pre [Hsome Hnone] Hinl Hstep. simpl in *.
  assert (Hold : ∀ x, x ∈ [f; sd; t] → sym_id x ≠ 0 →
            ∃ row0, row0 ∈ pre ++ [row] ∧ has_marker s marker row0 x).
  { intros x Hx Hid. destruct (Hsome x Hx Hid) as (row0 & ? & ?). exists row0.
    split; [|done]. apply elem_of_app. by left. }
  assert (Hnew : ∀ re term, t_hash (rows s) !! row = Some re →
            amcw_gettable (terms (e_val re)) marker = Done (Some term) →
            ∃ row0, row0 ∈ pre ++ [row] ∧ has_marker s marker row0 (e_key re)).
  { intros re term Hre Hget. exists row. split; [|by exists re, term].
    apply elem_of_app. right. apply elem_of_cons. by left. }
  assert (Hkeep : ∀ re, t_hash (rows s) !! row = Some re →
            (amcw_isexternal (e_key re) = true → ¬ has_marker s marker row (e_key re)) →
            sym_id t = 0 →
            ∀ row0 re0, row0 ∈ pre ++ [row] → t_hash (rows s) !! row0 = Some re0 →
              sym_id (e_key re0) ≠ 0 → amcw_isexternal (e_key re0) = true →
              ¬ has_marker s marker row0 (e_key re0)).
  { intros re Hre Hrow Ht row0 re0 [Hin|Hin]%elem_of_app Hre0 Hlive Hext.
    - by eapply Hnone.
    - apply elem_of_cons in Hin as [->|[]%elem_of_nil]. simplify_eq. by apply Hrow. }
  unfold leaving_row_step in Hstep.
  apply bind_Done in Hstep as (re & Hre%entry_at_Done & Hstep).
  apply bind_Done in Hstep as (term & Hget & Hstep).
  destruct term as [term|].
  2:{ injection Hstep as <-. simpl. split; [done|]. apply (Hkeep re); [done|].
      intros _ (re0 & term & ? & _ & ?). simplify_eq. congruence. }
  apply bind_Done in Hstep as (te & _ & Hstep).
  assert (Hcase : ∀ x y, x ∈ [y; sd; t] ∨ x ∈ [f; y; t] ∨ x ∈ [f; sd; y] →
            x = y ∨ x ∈ [f; sd; t]).
  { clear. intros x y. rewrite !elem_of_cons. rewrite !elem_of_nil. tauto. }
  destruct (amcw_isexternal (e_key re)) eqn:Hext.
  { injection Hstep as <-. simpl. split.
    - intros x Hx Hid. destruct (Hcase x (e_key re)) as [->|?]; [tauto|by eapply Hnew|
        by apply Hold].
    - intros Ht. by destruct (Hl row re Hinl Hre). }
  assert (Hrow' : amcw_isexternal (e_key re) = true → ¬ has_marker s marker row (e_key re))
    by (intros ?; congruence).
  destruct (e_val te <? 0)%float.
  - destruct (_ <? r1)%float; injection Hstep as <-; simpl.
    + split; [|by apply (Hkeep re)].
      intros x Hx Hid. destruct (Hcase x (e_key re)) as [->|?]; [tauto|by eapply Hnew|
        by apply Hold].
    + split; [done|by apply (Hkeep re)].
  - destruct (_ <? r2)%float; injection Hstep as <-; simpl.
    + split; [|by apply (Hkeep re)].
      intros x Hx Hid. destruct (Hcase x (e_key re)) as [->|?]; [tauto|by eapply Hnew|
        by apply Hold].
    + split; [done|by apply (Hkeep re)].
Qed.

(** X19: the row that [amcw_get_leaving_row] chooses has a term for the
    marker: when it returns a symbol that is not null, the symbol is the
    key of a row of the tableau in which the marker occurs.  It returns
    the null symbol only when the marker occurs in no row that has an
    external key. *)
Theorem amcw_get_leaving_row_has_marker (s : amcw_Solver) (marker exit : amcw_Symbol) :
  amcw_get_leaving_row s marker = Done exit →
  (sym_id exit ≠ 0 →
     ∃ row, row ∈ amcw_entries (rows s) ∧ has_marker s marker row exit) ∧
  (sym_id exit = 0 →
     ∀ row re, t_hash (rows s) !! row = Some re → sym_id (e_key re) ≠ 0 →
       amcw_isexternal (e_key re) = true → ¬ has_marker s marker row (e_key re)).
Proof.
  unfold amcw_get_leaving_row. intros H.
  apply bind_Done in H as ([[[[f sd] t] r1] r2] & Hscan & H).
  apply leaving_row_scan in Hscan as [Hsome Hnone].
  2:{ intros row re Hin Hre.
      apply amcw_entries_live in Hin as (re' & ? & ?). by simplify_eq. }
  simpl in *. injection H as <-. split.
  - intros Hid. apply Hsome; [|done]. rewrite !elem_of_cons.
    destruct (sym_id f =? 0); simpl; [|tauto]. destruct (sym_id sd =? 0); simpl; tauto.
  - intros Hid row re Hre Hlive Hext.
    destruct (sym_id f =? 0) eqn:Hf; simpl in Hid; [|by apply Z.eqb_neq in Hf].
    destruct (sym_id sd =? 0) eqn:Hsd; simpl in Hid; [|by apply Z.eqb_neq in Hsd].
    apply (Hnone Hid row re); [|done..]. by apply (elem_of_amcw_entries _ row re).
Qed.

(** The marker 2 of the constraint of [redundant_solver] occurs in the
    row of [x], which is the row that leaves. *)
Lemma amcw_get_leaving_row_has_marker_witness :
  amcw_get_leaving_row redundant_solver (mkSym 2 AMCW_DUMMY)
    = Done (mkSym 1 AMCW_EXTERNAL) ∧
  ∃ row, row ∈ amcw_entries (rows redundant_solver) ∧
         has_marker redundant_solver (mkSym 2 AMCW_DUMMY) row (mkSym 1 AMCW_EXTERNAL).
Proof.
  assert (H : amcw_get_leaving_row redundant_solver (mkSym 2 AMCW_DUMMY)
              = Done (mkSym 1 AMCW_EXTERNAL)) by (vm_compute; reflexivity).
  destruct (amcw_get_leaving_row_has_marker _ _ _ H) as [Hsome _].
  exact (conj H (Hsome ltac:(discriminate))).
Defined.

(** *** [amcw_resetsolver] *)

Lemma var_unedited_trans (v1 v2 v3 : amcw_Var) :
  var_unedited v1 v2 → var_unedited v2 v3 → var_unedited v1 v3.
Proof.
  unfold var_unedited. intros (? & ? & ? & H12) (? & ? & ? & H23).
  do 3 (split; [congruence|]). destruct H12, H23; [left|right|right|right]; congruence.
Qed.

Lemma slots_kept_impl {A} (R R' : A → A → Prop) (t t' : amcw_Table (option A)) :
  (∀ x y, R x y → R' x y) → slots_kept R t t' → slots_kept R' t t'.
Proof.
  intros HR (? & ? & ? & Hf). do 3 (split; [done|]).
  eapply list.Forall2_impl; [done|]. intros e e' (? & ? & Hv). do 2 (split; [done|]).
  destruct Hv; constructor; auto.
Qed.

Lemma resetsolver_step_spec (fuel : nat) (s : amcw_Solver) (ve : nat) (s' : amcw_Solver) :
  resetsolver_step fuel s ve = Done s' →
  slots_kept var_unedited (vars s) (vars s') ∧
  ∃ e v, t_hash (vars s') !! ve = Some e ∧ e_val e = Some v ∧ v_constraint v = None.
Proof.
  unfold resetsolver_step. intros H. apply bind_Done in H as (v & _ & H).
  apply bind_Done in H as (cons & _ & H).
  apply bind_Done in H as (s1 & (Hk & _)%amcw_remove_kept & H).
  apply bind_Done in H as (v1 & Hv1 & H). injection H as <-. split.
  - eapply slots_kept_trans; [apply var_unedited_trans| |].
    + eapply slots_kept_impl; [|done]. intros x y (? & ? & ? & ?). repeat split; auto.
    + unfold load_var in Hv1. apply bind_Done in Hv1 as (e & He%entry_at_Done & Hv1).
      destruct (e_val e) as [v0|] eqn:Hval; [|done]. injection Hv1 as ->.
      eapply slots_kept_store; [|done|done|].
      * intros x. repeat split; auto.
      * repeat split; auto.
  - unfold load_var in Hv1. apply bind_Done in Hv1 as (e & He%entry_at_Done & Hv1).
    eexists _, _. simpl. rewrite list_lookup_alter_eq, He. simpl. done.
Qed.

Lemma resetsolver_fold (fuel : nat) (l : list nat) (s s' : amcw_Solver) :
  res_foldl (resetsolver_step fuel) s l = Done s' →
  slots_kept var_unedited (vars s) (vars s') ∧
  ∀ ve, ve ∈ l →
    ∃ e v, t_hash (vars s') !! ve = Some e ∧ e_val e = Some v ∧ v_constraint v = None.
Proof.
  revert s. induction l as [|a l IH]; intros s H; simpl in H.
  { simplify_eq. split; [|by intros ve ?%elem_of_nil].
    apply slots_kept_refl. intros x. repeat split; auto. }
  apply bind_Done in H as (s1 & (H1 & e & v & He & Hv & Hc)%resetsolver_step_spec & H).
  destruct (IH _ H) as [H2 Hl].
  split; [eapply slots_kept_trans; [apply var_unedited_trans|done..]|].
  intros ve [->|Hin]%elem_of_cons; [|by apply Hl].
  destruct (slots_kept_lookup _ _ _ _ _ _ H2 He Hv) as (e' & v' & He' & Hv' & _ & _ & _ & _ & Hcv).
  exists e', v'. split; [done|]. split; [done|]. destruct Hcv; congruence.
Qed.

Lemma cons_cleared_refl (c : amcw_Constraint) : cons_cleared c c.
Proof. split; [done|by left]. Qed.

Lemma cons_cleared_trans (c1 c2 c3 : amcw_Constraint) :
  cons_cleared c1 c2 → cons_cleared c2 c3 → cons_cleared c1 c3.
Proof.
  intros [H12 H12'] [H23 H23']. split; [by eapply cons_kept_trans|].
  destruct H23' as [->|?]; [done|by right].
Qed.

Lemma clear_marker_fold (l : list nat) (s s' : amcw_Solver) :
  res_foldl clear_marker_step s l = Done s' →
  vars s' = vars s ∧ rows s' = rows s ∧ objective s' = objective s ∧
  infeasible_rows s' = infeasible_rows s ∧ dirty_vars s' = dirty_vars s ∧
  slots_kept cons_cleared (constraints s) (constraints s') ∧
  ∀ cn, cn ∈ l →
    ∃ e c, t_hash (constraints s') !! cn = Some e ∧ e_val e = Some c ∧
           sym_id (c_marker c) = 0.
Proof.
  revert s. induction l as [|a l IH]; intros s H; simpl in H.
  { simplify_eq. do 5 (split; [done|]). split; [|by intros cn ?%elem_of_nil].
    apply slots_kept_refl, cons_cleared_refl. }
  apply bind_Done in H as (s1 & H1 & H). destruct (IH _ H) as (-> & -> & -> & -> & -> & H2 & Hl).
  unfold clear_marker_step in H1. apply bind_Done in H1 as (c & Hc & H1).
  unfold load_cons in Hc. apply bind_Done in Hc as (e & He%entry_at_Done & Hc).
  destruct (e_val e) as [c0|] eqn:Hval; [|done]. injection Hc as ->.
  assert (H01 : slots_kept cons_cleared (constraints s) (constraints s1) ∧
                vars s1 = vars s ∧ rows s1 = rows s ∧ objective s1 = objective s ∧
                infeasible_rows s1 = infeasible_rows s ∧ dirty_vars s1 = dirty_vars s ∧
                ∃ e1 c1, t_hash (constraints s1) !! a = Some e1 ∧ e_val e1 = Some c1 ∧
                         sym_id (c_marker c1) = 0).
  { destruct (sym_id (c_marker c) =? 0) eqn:Hm; simpl in H1; injection H1 as <-.
    - split; [apply slots_kept_refl, cons_cleared_refl|]. do 5 (split; [done|]).
      exists e, c. by apply Z.eqb_eq in Hm.
    - split.
      { eapply slots_kept_store; [apply cons_cleared_refl|done|done|].
        split; [done|by right]. }
      do 5 (split; [done|]). eexists _, _. simpl. by rewrite list_lookup_alter_eq, He. }
  destruct H01 as (H01 & -> & -> & -> & -> & -> & e1 & c1 & He1 & Hc1 & Hm1).
  do 5 (split; [done|]).
  split; [eapply slots_kept_trans; [apply cons_cleared_trans|done..]|].
  intros cn [->|Hin]%elem_of_cons; [|by apply Hl].
  destruct (slots_kept_lookup _ _ _ _ _ _ H2 He1 Hc1) as (e' & c' & He' & Hc' & _ & _ & Hcl).
  exists e', c'. split; [done|]. split; [done|]. destruct Hcl as [->|?]; done.
Qed.

Lemma drop_row_fold (l : list nat) (s s' : amcw_Solver) :
  res_foldl drop_row_step s l = Done s' →
  vars s' = vars s ∧ constraints s' = constraints s ∧ objective s' = objective s ∧
  infeasible_rows s' = infeasible_rows s ∧ dirty_vars s' = dirty_vars s ∧
  ∀ i e', t_hash (rows s') !! i = Some e' → sym_id (e_key e') ≠ 0 →
    (i ∉ l) ∧ ∃ e, t_hash (rows s) !! i = Some e ∧ sym_id (e_key e) ≠ 0.
Proof.
  revert s. induction l as [|a l IH]; intros s H; simpl in H.
  { simplify_eq. do 5 (split; [done|]). intros i e' He' Hlive.
    split; [by intros ?%elem_of_nil|by exists e']. }
  apply bind_Done in H as (s1 & H1 & H).
  destruct (IH _ H) as (-> & -> & -> & -> & -> & Hl). clear IH H.
  unfold drop_row_step in H1. apply bind_Done in H1 as (r & _ & H1). injection H1 as <-.
  do 5 (split; [done|]). intros i e' He' Hlive.
  destruct (Hl i e' He' Hlive) as (Hnot & e & He & Hlive1). simpl in He.
  destruct (decide (i = a)) as [->|Hne].
  - rewrite !list_lookup_alter_eq in He.
    destruct (t_hash (rows s) !! a) as [e0|]; [|done]. simpl in He. by simplify_eq.
  - rewrite !list_lookup_alter_ne in He by done. split; [|by exists e].
    intros [?|?]%elem_of_cons; done.
Qed.

(** X20: [amcw_resetsolver].  When it returns, no variable has an edit,
    the list of infeasible rows and the dirty list are empty, and of a
    variable nothing else but its value changed.  With
    [clear_constraints] the tableau has no row, the objective has no term
    and the constant 0, and no constraint has a marker, so that
    [amcw_hasconstraint] answers 0 for each. *)
Theorem amcw_resetsolver_clears (fuel : nat) (s : amcw_Solver) (clear : Z)
    (s' : amcw_Solver) :
  amcw_resetsolver fuel s clear = Done s' →
  sym_id (infeasible_rows s') = 0 ∧ sym_id (dirty_vars s') = 0 ∧
  (∀ ve e, t_hash (vars s') !! ve = Some e → sym_id (e_key e) ≠ 0 →
     ∃ v, e_val e = Some v ∧ v_constraint v = None ∧
          amcw_hasedit s' (Some ve) = Done false) ∧
  (∃ s0, slots_kept var_kept (vars s) (vars s0) ∧
         slots_kept var_unedited (vars s0) (vars s')) ∧
  (c_true clear = true →
     contents (t_hash (rows s')) = [] ∧
     contents (t_hash (terms (objective s'))) = [] ∧
     amcw_isconstant (objective s') = true ∧ constant (objective s') = 0%float ∧
     ∀ cn e, t_hash (constraints s') !! cn = Some e → sym_id (e_key e) ≠ 0 →
       ∃ c, e_val e = Some c ∧ sym_id (c_marker c) = 0 ∧
            amcw_hasconstraint s' (Some cn) = Done false).
Proof.
  unfold amcw_resetsolver. intros H.
  apply bind_Done in H as (s0 & H0 & H).
  apply bind_Done in H as (s1 & H1 & H).
  apply bind_Done in H as (_ & _ & H).
  apply bind_Done in H as (_ & Hinf%c_assert_Done%Z.eqb_eq & H).
  apply bind_Done in H as (_ & Hdirty%c_assert_Done%Z.eqb_eq & H).
  assert (Hk0 : slots_kept var_kept (vars s) (vars s0)).
  { destruct (negb _); [|simplify_eq; apply slots_kept_refl, var_kept_refl].
    by apply updatevars_loop_kept in H0 as (_ & _ & _ & ?). }
  apply resetsolver_fold in H1 as [Hk1 Hedits].
  assert (Hvars : ∀ ve e, t_hash (vars s1) !! ve = Some e → sym_id (e_key e) ≠ 0 →
            ∃ v, e_val e = Some v ∧ v_constraint v = None).
  { intros ve e He Hlive. destruct Hk1 as (_ & _ & _ & Hf).
    destruct (Forall2_lookup_r _ _ _ _ _ Hf He) as (e0 & He0 & _ & Hkey & _).
    destruct (Hedits ve) as (e' & v & He' & Hv & Hc).
    { apply (elem_of_amcw_entries _ ve e0); [done|congruence]. }
    simplify_eq. by exists v. }
  assert (Hmid : ∀ s2, vars s2 = vars s1 → infeasible_rows s2 = infeasible_rows s1 →
            dirty_vars s2 = dirty_vars s1 →
            sym_id (infeasible_rows s2) = 0 ∧ sym_id (dirty_vars s2) = 0 ∧
            (∀ ve e, t_hash (vars s2) !! ve = Some e → sym_id (e_key e) ≠ 0 →
               ∃ v, e_val e = Some v ∧ v_constraint v = None ∧
                    amcw_hasedit s2 (Some ve) = Done false) ∧
            (∃ s0, slots_kept var_kept (vars s) (vars s0) ∧
                   slots_kept var_unedited (vars s0) (vars s2))).
  { intros s2 Hv -> ->. do 2 (split; [done|]). rewrite Hv. split; [|by exists s0].
    intros ve e He Hlive. destruct (Hvars ve e He Hlive) as (v & Hval & Hc).
    exists v. do 2 (split; [done|]). simpl. unfold load_var, entry_at.
    rewrite Hv, He. simpl. rewrite Hval. simpl. by rewrite Hc. }
  destruct (c_true clear) eqn:Hclear; simpl in H.
  2:{ injection H as <-. destruct (Hmid s1) as (? & ? & ? & ?); done. }
  apply bind_Done in H as (s2 & H2 & H3).
  apply clear_marker_fold in H2 as (Hv2 & Hr2 & Ho2 & Hi2 & Hd2 & Hk2 & Hmarks).
  simpl in Hv2, Hr2, Ho2, Hi2, Hd2, Hk2, Hmarks.
  pose proof (drop_row_fold _ _ _ H3) as (Hv3 & Hc3 & Ho3 & Hi3 & Hd3 & Hrows).
  destruct (Hmid s') as (? & ? & ? & ?); [congruence..|].
  do 4 (split; [done|]). intros _. split.
  { destruct (contents (t_hash (rows s'))) as [|[k r] l] eqn:Hcont; [done|].
    assert (Hin : (k, r) ∈ contents (t_hash (rows s'))) by (rewrite Hcont; by left).
    apply elem_of_contents_inv in Hin as (i & e' & He' & <- & _ & Hlive).
    destruct (Hrows i e' He' Hlive) as (Hnot & e & He & Hlive0). destruct Hnot.
    by apply (elem_of_amcw_entries _ i e). }
  rewrite Ho3, Ho2. simpl. unfold t_size. rewrite contents_replicate_zero.
  do 3 (split; [done|]). intros cn e He Hlive. rewrite Hc3 in He.
  destruct Hk2 as (_ & _ & _ & Hf).
  destruct (Forall2_lookup_r _ _ _ _ _ Hf He) as (e0 & He0 & _ & Hkey & _).
  destruct (Hmarks cn) as (e' & c & He' & Hc & Hm).
  { apply (elem_of_amcw_entries _ cn e0); [done|congruence]. }
  simplify_eq. exists c. do 2 (split; [done|]). simpl. unfold load_cons, entry_at.
  rewrite Hc3, He. simpl. rewrite Hc. simpl. by rewrite Hm.
Qed.

(** [redundant_solver] is reset with its constraints: no row is left. *)
Lemma amcw_resetsolver_clears_witness :
  ∃ s', amcw_resetsolver client_fuel redundant_solver 1 = Done s' ∧
        contents (t_hash (rows s')) = [] ∧
        amcw_hasconstraint s' (Some 1%nat) = Done false.
Proof.
  destruct (amcw_resetsolver client_fuel redundant_solver 1) as [s'| |] eqn:H;
    [|vm_compute in H; discriminate..].
  destruct (amcw_resetsolver_clears _ _ _ _ H) as (_ & _ & _ & _ & Hclear).
  destruct (Hclear eq_refl) as (Hrows & _).
  exists s'. split; [reflexivity|]. split; [exact Hrows|].
  vm_compute in H. injection H as <-. vm_compute. reflexivity.
Defined.

(** *** The dual optimisation *)

(** X21: [amcw_dual_optimize] returns only when the list of infeasible
    rows is empty; when the list is empty on entry it changes nothing.  It
    changes no constraint, and of the variables only their values and
    dirty marks. *)
Theorem amcw_dual_optimize_empties (fuel : nat) (s s' : amcw_Solver) :
  amcw_dual_optimize fuel s = Done s' →
  sym_id (infeasible_rows s') = 0 ∧ engine_kept s s' ∧
  (sym_id (infeasible_rows s) = 0 → s' = s).
Proof.
  intros H. split; [by eapply amcw_dual_optimize_returns|].
  split; [by eapply amcw_dual_optimize_kept|].
  intros Hz. destruct fuel as [|fuel]; [done|]. simpl in H.
  apply Z.eqb_eq in Hz. rewrite Hz in H. by simplify_eq.
Qed.

(** The dual optimisation of [solver_edit], which has no infeasible row,
    returns it. *)
Lemma amcw_dual_optimize_empties_witness :
  amcw_dual_optimize client_fuel solver_edit = Done solver_edit.
Proof.
  destruct (amcw_dual_optimize client_fuel solver_edit) as [s'| |] eqn:H;
    [|vm_compute in H; discriminate..].
  destruct (amcw_dual_optimize_empties _ _ _ H) as (_ & _ & Hsame).
  by rewrite (Hsame eq_refl).
Defined.

(** *** Building a constraint *)

Lemma amcw_newconstraint_new (s : amcw_Solver) (strength : float) (p : nat)
    (s' : amcw_Solver) :
  sizeof_Entry < t_entry_size (constraints s) → table_wf (constraints s) →
  0 ≤ constraint_count s < 0x3FFFFFFF →
  (constraint_count s + 1 ∉ table_ids (constraints s)) →
  amcw_newconstraint s strength = Done (p, s') →
  let key := mkSym (constraint_count s + 1) AMCW_EXTERNAL in
  let c := mkCons amcw_initrow amcw_null amcw_null 0
             (if amcw_nearzero strength then AMCW_REQUIRED else strength) in
  load_cons s' p = Done c ∧
  cons_of_handle s' (Some (constraint_count s + 1)) = Done (Some p) ∧
  table_wf (constraints s') ∧
  contents (t_hash (constraints s')) ≡ₚ (key, Some c) :: contents (t_hash (constraints s)) ∧
  constraint_count s' = constraint_count s + 1 ∧
  vars s' = vars s ∧ rows s' = rows s ∧ objective s' = objective s.
Proof.
  intros Hsz Hwf Hcount Hnew H key c. unfold amcw_newconstraint in H. cbv zeta in H.
  assert (Hw : wrap32 (constraint_count s + 1) = constraint_count s + 1).
  { unfold wrap32. apply Z.mod_small. change (2 ^ 32) with 4294967296. lia. }
  simpl in H. rewrite Hw, land_mask30 in H by lia. fold key c in H.
  apply bind_Done in H as ([ce t] & Hset & H). injection H as <- <-.
  destruct (amcw_settable_found _ _ _ _ Hsz Hwf Hset) as (Hwft & Hget & Hfresh).
  destruct (Hfresh Hnew) as (_ & _ & Hperm).
  apply amcw_settable_spec in Hset as (_ & _ & Hcase); [|done].
  destruct Hcase as [[Hfound ->]|(_ & _ & e & He & Hkey & Hval & _)].
  { by destruct (amcw_gettable_stored _ _ _ Hfound). }
  assert (Hload : load_cons (set_constraints
                     (set_constraint_count s (constraint_count s + 1))
                     (alter_entry (set_val (Some c)) ce t)) ce = Done c).
  { unfold load_cons, entry_at. simpl. by rewrite list_lookup_alter_eq, He. }
  split; [done|]. split.
  { simpl. fold key. by rewrite amcw_gettable_set_val, Hget. }
  split; [by apply table_wf_set_val|]. split; [|done]. simpl.
  pose proof (contents_alter (set_val (Some c)) (t_hash t) ce e He) as Ha.
  rewrite (cell_live e), cell_set_val in Ha by (rewrite Hkey; simpl; lia).
  rewrite Hkey, Hval in Ha. rewrite Hperm in Ha.
  apply (Permutation_app_inv_r [(key, None)]). rewrite Ha. simpl.
  apply perm_skip. apply Permutation_cons_append.
Qed.



(** X23: the relation of a constraint can be set once.  For a constraint
    that is not in the solver and has no relation, [amcw_setrelation]
    returns [AMCW_OK] and records the relation; unless the relation is
    [AMCW_GREATEQUAL] it multiplies the expression by -1, which keeps its
    symbols.  A second call returns [AMCW_FAILED] and changes nothing. *)
Theorem amcw_setrelation_once (s : amcw_Solver) (cn : nat) (c : amcw_Constraint)
    (rel : Z) :
  load_cons s cn = Done c → sym_id (c_marker c) = 0 → c_relation c = 0 →
  AMCW_LESSEQUAL ≤ rel ≤ AMCW_GREATEQUAL →
  ∃ s' c', amcw_setrelation s (Some cn) rel = Done (AMCW_OK, s') ∧
    load_cons s' cn = Done c' ∧ c_relation c' = rel ∧
    c_expression c' =
      (if negb (rel =? AMCW_GREATEQUAL) then amcw_multiply (c_expression c) (-1)%float
       else c_expression c) ∧
    row_ids (c_expression c') = row_ids (c_expression c) ∧
    c_marker c' = c_marker c ∧ c_strength c' = c_strength c ∧
    ∀ rel', AMCW_LESSEQUAL ≤ rel' ≤ AMCW_GREATEQUAL →
      amcw_setrelation s' (Some cn) rel' = Done (AMCW_FAILED, s').
Proof.
  intros Hc Hm Hrel Hr. unfold amcw_setrelation.
  destruct Hr as [H1 H2]. pose proof H1 as H1'. pose proof H2 as H2'.
  apply Z.leb_le in H1', H2'. rewrite H1', H2', Hc. simpl. rewrite Hm, Hrel. simpl.
  eexists _, _. split; [done|]. split; [by apply load_store_cons with c|].
  simpl. split; [done|]. split; [done|]. split.
  { destruct (negb _); [apply row_ids_multiply|done]. }
  do 2 (split; [done|]). intros rel' [H3%Z.leb_le H4%Z.leb_le].
  rewrite H3, H4. simpl. rewrite (load_store_cons _ _ c) by done. simpl.
  rewrite Hm. simpl. destruct (rel =? 0) eqn:Hz; [|done].
  apply Z.eqb_eq in Hz. unfold AMCW_LESSEQUAL in H1. lia.
Qed.

(** The relation of the constraint of [solver_c] is set to equality; it
    cannot be set again. *)
Lemma amcw_setrelation_once_witness :
  ∃ s', amcw_setrelation solver_c (Some 1%nat) AMCW_EQUAL = Done (AMCW_OK, s') ∧
        amcw_setrelation s' (Some 1%nat) AMCW_LESSEQUAL = Done (AMCW_FAILED, s').
Proof.
  destruct (load_cons solver_c 1) as [c| |] eqn:Hc; [|vm_compute in Hc; discriminate..].
  pose proof Hc as Hc0. vm_compute in Hc0. injection Hc0 as <-.
  destruct (amcw_setrelation_once solver_c 1 _ AMCW_EQUAL Hc eq_refl eq_refl)
    as (s' & c' & Hset & _ & _ & _ & _ & _ & _ & Hagain);
    [vm_compute; split; discriminate|].
  exists s'. split; [exact Hset|]. apply Hagain. vm_compute. split; discriminate.
Defined.

(** *** Merging constraints *)

Lemma scan_entry_live {A} (h : list (amcw_Entry A)) (i e : nat) :
  scan_entry h i = Some e → ∃ x, h !! (e - i)%nat = Some x ∧ sym_id (e_key x) ≠ 0.
Proof.
  revert i. induction h as [|x h IH]; intros i Hs; simpl in Hs; [done|].
  destruct (sym_id (e_key x) =? 0) eqn:Hx; simpl in Hs.
  - pose proof (scan_entry_range _ _ _ Hs). destruct (IH _ Hs) as (y & Hy & Hlive).
    exists y. split; [|done]. by replace (e - i)%nat with (S (e - S i)) by lia.
  - injection Hs as <-. exists x. rewrite Nat.sub_diag. split; [done|].
    by apply Z.eqb_neq.
Qed.

Lemma amcw_nextentry_live {A} (t : amcw_Table A) (pentry : option nat) (e : nat) :
  amcw_nextentry t pentry = Some e →
  ∃ x, t_hash t !! e = Some x ∧ sym_id (e_key x) ≠ 0.
Proof.
  unfold amcw_nextentry. intros Hs. pose proof (scan_entry_range _ _ _ Hs) as Hr.
  apply scan_entry_live in Hs as (x & Hx & Hlive). exists x. split; [|done].
  rewrite lookup_drop in Hx. rewrite <- Hx. f_equal. lia.
Qed.

Lemma load_store_cons_ne (s : amcw_Solver) (cn on : nat) (c : amcw_Constraint) :
  cn ≠ on → load_cons (store_cons s cn c) on = load_cons s on.
Proof.
  intros Hne. unfold load_cons, store_cons, entry_at. simpl.
  by rewrite list_lookup_alter_ne.
Qed.

Lemma alter_set_val_twice {A} (a b : A) (i : nat) (t : amcw_Table A) :
  alter_entry (set_val a) i (alter_entry (set_val b) i t) = alter_entry (set_val a) i t.
Proof.
  unfold alter_entry, set_hash. simpl. f_equal. apply list_eq. intros j.
  destruct (decide (j = i)) as [->|Hne].
  - rewrite !list_lookup_alter_eq. by destruct (t_hash t !! i).
  - by rewrite !list_lookup_alter_ne.
Qed.

Lemma store_cons_load (s : amcw_Solver) (cn : nat) (c : amcw_Constraint) :
  load_cons s cn = Done c → constraints (store_cons s cn c) = constraints s.
Proof.
  unfold load_cons, store_cons. intros H.
  apply bind_Done in H as (e & He%entry_at_Done & H).
  destruct (e_val e) as [c0|] eqn:Hv; [|done]. injection H as ->.
  destruct (constraints s) as [tc tes tlf th] eqn:Ht. simpl in *.
  unfold alter_entry, set_hash. simpl. f_equal. apply list_eq. intros i.
  destruct (decide (i = cn)) as [->|Hne].
  - rewrite list_lookup_alter_eq, He. simpl. destruct e. simpl in *. by subst.
  - by rewrite list_lookup_alter_ne.
Qed.

Lemma var_reused_trans (v1 v2 v3 : amcw_Var) :
  var_reused v1 v2 → var_reused v2 v3 → var_reused v1 v3.
Proof.
  unfold var_reused. intros (? & ? & ? & ? & ?) (? & ? & ? & ? & ?).
  repeat split; congruence.
Qed.

Lemma amcw_usevariable_reused (s : amcw_Solver) (var : nat) (s' : amcw_Solver) :
  amcw_usevariable s (Some var) = Done s' →
  slots_kept var_reused (vars s) (vars s') ∧ constraints s' = constraints s ∧
  rows s' = rows s ∧ objective s' = objective s.
Proof.
  simpl. intros H. apply bind_Done in H as (v & Hv & H). injection H as <-.
  split; [|done]. unfold load_var in Hv.
  apply bind_Done in Hv as (e & He%entry_at_Done & Hv).
  destruct (e_val e) as [v0|] eqn:Hval; [|done]. injection Hv as ->.
  by eapply slots_kept_store.
Qed.

Lemma mergeconstraint_loop_spec (cn on : nat) (multiplier : float) (o : amcw_Constraint)
    (fuel : nat) (s : amcw_Solver) (term : option nat) (c : amcw_Constraint)
    (s' : amcw_Solver) :
  cn ≠ on → load_cons s on = Done o → load_cons s cn = Done c →
  row_sized (c_expression c) →
  mergeconstraint_loop fuel s cn on multiplier term = Done s' →
  ∃ c', load_cons s' cn = Done c' ∧ load_cons s' on = Done o ∧
    c_marker c' = c_marker c ∧ c_other c' = c_other c ∧
    c_relation c' = c_relation c ∧ c_strength c' = c_strength c ∧
    constant (c_expression c') = constant (c_expression c) ∧
    row_sized (c_expression c') ∧
    (∀ id, id ∈ row_ids (c_expression c') →
       id ∈ row_ids (c_expression c) ∨ id ∈ row_ids (c_expression o)) ∧
    slots_kept var_reused (vars s) (vars s') ∧
    rows s' = rows s ∧ objective s' = objective s ∧
    constraints s' = constraints (store_cons s cn c').
Proof.
  intros Hne. revert s term c.
  induction fuel as [|fuel IH]; intros s term c Ho Hc Hsz H; [done|].
  cbn [mergeconstraint_loop] in H. rewrite Ho in H. rewrite bind_Done_l in H.
  destruct (amcw_nextentry _ term) as [e|] eqn:Hnext.
  2:{ injection H as <-. exists c. do 8 (split; [done|]). split; [by left|].
      split; [apply slots_kept_refl; by intros ?|]. do 2 (split; [done|]).
      by rewrite store_cons_load. }
  apply amcw_nextentry_live in Hnext as (te' & Hte' & Hlive).
  apply bind_Done in H as (te & Hte%entry_at_Done & H).
  assert (te' = te) as -> by congruence.
  apply bind_Done in H as (v & _ & H).
  apply bind_Done in H as (s1 & (Hv1 & Hc1 & Hr1 & Ho1)%amcw_usevariable_reused & H).
  assert (Hc' : load_cons s1 cn = Done c) by (unfold load_cons, entry_at; by rewrite Hc1).
  assert (Ho' : load_cons s1 on = Done o) by (unfold load_cons, entry_at; by rewrite Hc1).
  rewrite Hc' in H. rewrite bind_Done_l in H.
  apply bind_Done in H as (ex & Hadd & H).
  pose proof (amcw_addvar_sized _ _ _ _ Hsz Hadd) as Hsz'.
  pose proof (amcw_addvar_terms _ _ _ _ Hsz Hadd) as [Hterms _].
  assert (Hconst : constant ex = constant (c_expression c)).
  { unfold amcw_addvar in Hadd. destruct (_ =? _); [by simplify_eq|].
    apply bind_Done in Hadd as ([t1 t2] & _ & Hadd).
    apply bind_Done in Hadd as (te1 & _ & Hadd). by simplify_eq. }
  apply IH with (c := set_c_expression c ex) in H;
    [|by rewrite load_store_cons_ne|by apply load_store_cons with c|done].
  destruct H as (c' & ? & ? & ? & ? & ? & ? & Hconst' & ? & Hids & Hv2 & Hr2 & Ho2 & Hoth).
  exists c'. do 6 (split; [done|]). split; [by rewrite Hconst'|]. split; [done|].
  split; [|split; [by eapply slots_kept_trans; [apply var_reused_trans|..]|]].
  - intros id Hid. destruct (Hids id Hid) as [Hin|?]; [|by right].
    simpl in Hin. apply elem_of_row_ids in Hin as (k & m & Hin & <-).
    destruct (Hterms k m Hin) as [?|[Hk _]].
    + left. apply elem_of_row_ids. by exists k, m.
    + right. rewrite Hk. apply elem_of_row_ids. exists (e_key te), (e_val te).
      split; [|done]. by apply (elem_of_contents _ e).
  - split; [by rewrite Hr2|]. split; [by rewrite Ho2|].
    rewrite Hoth. simpl. by rewrite alter_set_val_twice, Hc1.
Qed.

(** [amcw_mergeconstraint] of one constraint into another one. *)
Lemma amcw_mergeconstraint_other (s : amcw_Solver) (cn on : nat)
    (c o : amcw_Constraint) (multiplier : float) (ret : Z) (s' : amcw_Solver) :
  cn ≠ on → load_cons s cn = Done c → load_cons s on = Done o →
  row_sized (c_expression c) →
  amcw_mergeconstraint s (Some cn) (Some on) multiplier = Done (ret, s') →
  ret = AMCW_FAILED ∧ sym_id (c_marker c) ≠ 0 ∧ s' = s ∨
  ret = AMCW_OK ∧ sym_id (c_marker c) = 0 ∧
  ∃ c', load_cons s' cn = Done c' ∧ load_cons s' on = Done o ∧
    c_marker c' = c_marker c ∧ c_other c' = c_other c ∧
    c_relation c' = c_relation c ∧ c_strength c' = c_strength c ∧
    constant (c_expression c') =
      (constant (c_expression c) + constant (c_expression o) *
         (if (c_relation c =? AMCW_GREATEQUAL)%Z then - multiplier else multiplier))%float ∧
    (∀ id, id ∈ row_ids (c_expression c') →
       id ∈ row_ids (c_expression c) ∨ id ∈ row_ids (c_expression o)) ∧
    slots_kept var_reused (vars s) (vars s') ∧
    rows s' = rows s ∧ objective s' = objective s ∧
    constraints s' = constraints (store_cons s cn c').
Proof.
  intros Hne Hc Ho Hsz H. unfold amcw_mergeconstraint in H.
  rewrite Hc in H. rewrite bind_Done_l in H.
  destruct (sym_id (c_marker c) =? 0) eqn:Hm; cbn [negb] in H; cbv iota in H.
  2:{ left. apply Z.eqb_neq in Hm. by simplify_eq. }
  right. apply Z.eqb_eq in Hm. rewrite Ho in H. rewrite bind_Done_l in H.
  apply bind_Done in H as (s1 & Hloop & H). injection H as <- <-.
  do 2 (split; [done|]).
  eapply mergeconstraint_loop_spec in Hloop;
    [|done|by rewrite load_store_cons_ne|by apply load_store_cons with c|done].
  destruct Hloop as (c' & ? & ? & ? & ? & ? & ? & Hconst & _ & Hids & ? & ? & ? & Hoth).
  exists c'. do 6 (split; [done|]). split; [by rewrite Hconst|].
  do 4 (split; [done|]). rewrite Hoth. simpl. by rewrite alter_set_val_twice.
Qed.

(** X24: [amcw_mergeconstraint] of another constraint into a constraint
    whose terms table has the entry size of a term.  It returns
    [AMCW_FAILED], and changes nothing, exactly when the constraint is in
    the solver; a NULL constraint fails too.  On success the other
    constraint is as it was, and of the constraint only the expression
    changed: its constant grew by the constant of the other times the
    multiplier, negated for [AMCW_GREATEQUAL], and its symbols are among
    its own and those of the other.  The variables changed in their
    reference counts only, the tableau not at all, and the table of the
    constraints in the payload of the constraint only. *)
Theorem amcw_mergeconstraint_merges (s : amcw_Solver) (cn on : nat)
    (c o : amcw_Constraint) (multiplier : float) (ret : Z) (s' : amcw_Solver) :
  cn ≠ on → load_cons s cn = Done c → load_cons s on = Done o →
  row_sized (c_expression c) →
  amcw_mergeconstraint s (Some cn) (Some on) multiplier = Done (ret, s') →
  (ret = AMCW_FAILED ∧ sym_id (c_marker c) ≠ 0 ∧ s' = s ∨
   ret = AMCW_OK ∧ sym_id (c_marker c) = 0 ∧
   ∃ c', load_cons s' cn = Done c' ∧ load_cons s' on = Done o ∧
     c_marker c' = c_marker c ∧ c_other c' = c_other c ∧
     c_relation c' = c_relation c ∧ c_strength c' = c_strength c ∧
     constant (c_expression c') =
       (constant (c_expression c) + constant (c_expression o) *
          (if (c_relation c =? AMCW_GREATEQUAL)%Z then - multiplier else multiplier))%float ∧
     (∀ id, id ∈ row_ids (c_expression c') →
        id ∈ row_ids (c_expression c) ∨ id ∈ row_ids (c_expression o)) ∧
     slots_kept var_reused (vars s) (vars s') ∧
     rows s' = rows s ∧ objective s' = objective s ∧
     constraints s' = constraints (store_cons s cn c')) ∧
  amcw_mergeconstraint s None (Some on) multiplier = Done (AMCW_FAILED, s) ∧
  amcw_mergeconstraint s (Some cn) None multiplier = Done (AMCW_FAILED, s).
Proof.
  intros Hne Hc Ho Hsz H. split; [|done]. by eapply amcw_mergeconstraint_other.
Qed.

(** Merging [2 x >= 3] into [x = 1] in [solver_two] succeeds; the constant
    of the result is [1 - 3], and [2 x >= 3] is as it was. *)
Lemma amcw_mergeconstraint_merges_witness :
  ∃ s' c' o, amcw_mergeconstraint solver_two (Some 1%nat) (Some 2%nat) 1%float
               = Done (AMCW_OK, s') ∧
             load_cons solver_two 2 = Done o ∧ load_cons s' 2 = Done o ∧
             load_cons s' 1 = Done c' ∧ constant (c_expression c') = (-2)%float ∧
             rows s' = rows solver_two.
Proof.
  destruct (amcw_mergeconstraint solver_two (Some 1%nat) (Some 2%nat) 1%float)
    as [[ret s']| |] eqn:H; [|vm_compute in H; discriminate..].
  destruct (load_cons solver_two 1) as [c| |] eqn:Hc;
    [|vm_compute in Hc; discriminate..].
  destruct (load_cons solver_two 2) as [o| |] eqn:Ho;
    [|vm_compute in Ho; discriminate..].
  pose proof Hc as Hc0. vm_compute in Hc0. injection Hc0 as <-.
  pose proof Ho as Ho0. vm_compute in Ho0. injection Ho0 as <-.
  destruct (amcw_mergeconstraint_merges solver_two 1 2 _ _ 1%float ret s'
              ltac:(discriminate) Hc Ho eq_refl H) as [Hm _].
  pose proof H as H0. vm_compute in H0. injection H0 as <- _.
  destruct Hm as [(Hf & _)|(_ & _ & c' & Hc' & Ho' & _ & _ & _ & _ & Hconst & _ & _ & Hr & _)];
    [discriminate Hf|].
  match type of Ho' with _ = Done ?o => exists s', c', o end.
  exact (conj eq_refl (conj eq_refl (conj Ho' (conj Hc' (conj Hconst Hr))))).
Defined.

(** *** Resetting a constraint *)

Lemma amcw_remove_cleared (fuel : nat) (s : amcw_Solver) (cons : option nat)
    (s' : amcw_Solver) :
  amcw_remove fuel s cons = Done s' →
  slots_kept cons_cleared (constraints s) (constraints s').
Proof.
  destruct cons as [cn|];
    [|intros H; simpl in H; simplify_eq; apply slots_kept_refl, cons_cleared_refl].
  intros H. destruct (load_cons s cn) as [c| |] eqn:Hc;
    [|unfold amcw_remove in H; by rewrite Hc in H..].
  destruct (amcw_remove_spec _ _ _ _ _ Hc H) as [[_ ->]|(_ & s1 & Herr & (-> & _) & _)].
  { apply slots_kept_refl, cons_cleared_refl. }
  unfold amcw_remove_errors in Herr. rewrite Hc in Herr. rewrite bind_Done_l in Herr.
  apply bind_Done in Herr as (ob1 & _ & Herr).
  apply bind_Done in Herr as (ob2 & _ & Herr). injection Herr as <-.
  unfold load_cons in Hc. apply bind_Done in Hc as (e & He%entry_at_Done & Hc).
  destruct (e_val e) as [c0|] eqn:Hval; [|done]. injection Hc as ->. simpl.
  eapply slots_kept_store; [apply cons_cleared_refl|done|done|].
  split; [done|by right].
Qed.

Lemma amcw_remove_unmarks (fuel : nat) (s : amcw_Solver) (cn : nat) (c : amcw_Constraint)
    (s' : amcw_Solver) :
  load_cons s cn = Done c → amcw_remove fuel s (Some cn) = Done s' →
  ∃ c', load_cons s' cn = Done c' ∧ cons_kept c c' ∧ sym_id (c_marker c') = 0.
Proof.
  intros Hc H.
  destruct (amcw_remove_spec _ _ _ _ _ Hc H) as [[Hm ->]|(_ & s1 & Herr & (Hcons & _) & _)].
  { exists c. split; [done|]. split; [apply cons_kept_refl|done]. }
  apply amcw_remove_errors_spec in Herr as (_ & _ & _ & c0 & Hc0 & Hc1).
  assert (c0 = c) as -> by congruence.
  eexists. split; [unfold load_cons, entry_at; rewrite Hcons; apply Hc1|]. done.
Qed.

Lemma amcw_delvariable_cleared (fuel : nat) (s : amcw_Solver) (var : option nat)
    (s' : amcw_Solver) :
  amcw_delvariable fuel s var = Done s' →
  slots_kept cons_cleared (constraints s) (constraints s').
Proof.
  destruct var as [var|]; simpl;
    [|intros H; simplify_eq; apply slots_kept_refl, cons_cleared_refl].
  intros H. apply bind_Done in H as (v & _ & H).
  destruct (_ <=? 0); [|simplify_eq; apply slots_kept_refl, cons_cleared_refl].
  apply bind_Done in H as ([e|] & _ & H); [|done].
  apply bind_Done in H as (cons & _ & H). by apply amcw_remove_cleared in H.
Qed.

Lemma delconstraint_fold_cleared (fuel : nat) (l : list (amcw_Entry float))
    (s s' : amcw_Solver) :
  res_foldl (delconstraint_step fuel) s l = Done s' →
  slots_kept cons_cleared (constraints s) (constraints s').
Proof.
  revert s. induction l as [|a l IH]; intros s H; simpl in H.
  { simplify_eq. apply slots_kept_refl, cons_cleared_refl. }
  apply bind_Done in H as (s1 & H1 & H). unfold delconstraint_step in H1.
  apply bind_Done in H1 as (v & _ & H1%amcw_delvariable_cleared).
  eapply slots_kept_trans; [apply cons_cleared_trans|done|by apply IH].
Qed.

Lemma load_cons_slot (s : amcw_Solver) (cn : nat) (c : amcw_Constraint) :
  load_cons s cn = Done c ↔
  ∃ e, t_hash (constraints s) !! cn = Some e ∧ e_val e = Some c.
Proof.
  unfold load_cons. split.
  - intros H. apply bind_Done in H as (e & He%entry_at_Done & H).
    exists e. split; [done|]. destruct (e_val e); by simplify_eq.
  - intros (e & He%entry_at_Done & Hv). rewrite He, bind_Done_l. by rewrite Hv.
Qed.

(** X25: [amcw_resetconstraint] takes the constraint out of the solver
    and empties it.  Afterwards the constraint has no marker, so
    [amcw_hasconstraint] answers 0; it has no relation, no term and the
    constant 0; it keeps its strength and its slot.  Every other
    constraint is as it was, or is as it was but for its marker and its
    other symbol, which were cleared: it keeps its expression, relation
    and strength.  A NULL constraint is ignored. *)
Theorem amcw_resetconstraint_empties (fuel : nat) (s : amcw_Solver) (cn : nat)
    (c : amcw_Constraint) (s' : amcw_Solver) :
  load_cons s cn = Done c → amcw_resetconstraint fuel s (Some cn) = Done s' →
  (∃ c', load_cons s' cn = Done c' ∧
     sym_id (c_marker c') = 0 ∧ c_relation c' = 0 ∧ c_strength c' = c_strength c ∧
     constant (c_expression c') = 0%float ∧ row_terms (c_expression c') = [] ∧
     t_count (terms (c_expression c')) = 0 ∧
     t_size (terms (c_expression c')) = t_size (terms (c_expression c)) ∧
     amcw_hasconstraint s' (Some cn) = Done false) ∧
  (∀ i e o, i ≠ cn → t_hash (constraints s) !! i = Some e → e_val e = Some o →
     ∃ e' o', t_hash (constraints s') !! i = Some e' ∧ e_key e' = e_key e ∧
              e_val e' = Some o' ∧ cons_cleared o o') ∧
  amcw_resetconstraint fuel s None = Done s.
Proof.
  intros Hc H. apply and_assoc. split; [|done]. unfold amcw_resetconstraint in H.
  apply bind_Done in H as (s1 & Hrem & H).
  pose proof (amcw_remove_cleared _ _ _ _ Hrem) as H01.
  destruct (amcw_remove_unmarks _ _ _ _ _ Hc Hrem) as (c1 & Hc1 & (Hex1 & Hrel1 & Hst1) & Hm1).
  rewrite Hc1 in H. rewrite bind_Done_l in H.
  apply bind_Done in H as (s3 & Hfold%delconstraint_fold_cleared & H).
  apply bind_Done in H as (c3 & Hc3 & H). injection H as <-.
  set (s2 := store_cons s1 cn (set_c_relation c1 0)) in *.
  assert (Hc2 : load_cons s2 cn = Done (set_c_relation c1 0))
    by by apply load_store_cons with c1.
  apply load_cons_slot in Hc2 as (e2 & He2 & Hv2).
  destruct (slots_kept_lookup _ _ _ _ _ _ Hfold He2 Hv2)
    as (e3 & c3' & He3 & Hv3 & _ & (Hex3 & Hrel3 & Hst3) & Hm3).
  assert (c3' = c3) as ->.
  { apply load_cons_slot in Hc3 as (e3' & ? & ?). congruence. }
  assert (Hm : sym_id (c_marker c3) = 0) by (destruct Hm3 as [->|?]; done).
  simpl in Hex3, Hrel3, Hst3. split.
  - eexists. split; [by apply load_store_cons with c3|]. simpl.
    split; [done|]. split; [done|]. split; [congruence|]. split; [done|].
    split; [unfold row_terms; simpl; apply contents_replicate_zero|].
    split; [done|]. split.
    + unfold t_size. simpl. rewrite length_replicate. by rewrite Hex3, Hex1.
    + rewrite (load_store_cons _ _ c3) by done. simpl. by rewrite Hm.
  - intros i e o Hi He Ho.
    destruct (slots_kept_lookup _ _ _ _ _ _ H01 He Ho) as (e1 & o1 & He1 & Ho1 & Hk1 & H1).
    assert (He1' : t_hash (constraints s2) !! i = Some e1)
      by (subst s2; simpl; by rewrite list_lookup_alter_ne).
    destruct (slots_kept_lookup _ _ _ _ _ _ Hfold He1' Ho1) as (e3' & o3 & He3' & Ho3 & Hk3 & H3).
    exists e3', o3. simpl. rewrite list_lookup_alter_ne by done.
    split; [done|]. split; [congruence|]. split; [done|by eapply cons_cleared_trans].
Qed.

(** The constraint of [redundant_solver] that is installed is reset: it
    is no longer in the solver and has no relation and no term. *)
Lemma amcw_resetconstraint_empties_witness :
  ∃ s' c', amcw_resetconstraint client_fuel redundant_solver (Some 1%nat) = Done s' ∧
           load_cons s' 1 = Done c' ∧ c_relation c' = 0 ∧
           row_terms (c_expression c') = [] ∧
           amcw_hasconstraint s' (Some 1%nat) = Done false.
Proof.
  destruct (amcw_resetconstraint client_fuel redundant_solver (Some 1%nat))
    as [s'| |] eqn:H; [|vm_compute in H; discriminate..].
  destruct (load_cons redundant_solver 1) as [c| |] eqn:Hc;
    [|vm_compute in Hc; discriminate..].
  destruct (amcw_resetconstraint_empties client_fuel redundant_solver 1 c s' Hc H)
    as ((c' & Hc' & _ & Hrel & _ & _ & Hterms & _ & _ & Hhas) & _).
  exists s', c'. exact (conj eq_refl (conj Hc' (conj Hrel (conj Hterms Hhas)))).
Defined.

(** *** Cloning a constraint *)

Lemma amcw_newconstraint_keeps (s : amcw_Solver) (strength : float) (p : nat)
    (s' : amcw_Solver) (on : nat) (ke : amcw_Entry (option amcw_Constraint))
    (o : amcw_Constraint) :
  sizeof_Entry < t_entry_size (constraints s) → table_wf (constraints s) →
  0 ≤ constraint_count s < 0x3FFFFFFF →
  (constraint_count s + 1 ∉ table_ids (constraints s)) →
  amcw_newconstraint s strength = Done (p, s') →
  t_hash (constraints s) !! on = Some ke → sym_id (e_key ke) ≠ 0 → e_val ke = Some o →
  ∃ on', cons_of_handle s' (Some (sym_id (e_key ke))) = Done (Some on') ∧
         load_cons s' on' = Done o ∧ on' ≠ p.
Proof.
  intros Hsz Hwf Hcount Hnew H Hke Hlive Hval. unfold amcw_newconstraint in H.
  cbv zeta in H.
  assert (Hw : wrap32 (constraint_count s + 1) = constraint_count s + 1).
  { unfold wrap32. apply Z.mod_small. change (2 ^ 32) with 4294967296. lia. }
  simpl in H. rewrite Hw, land_mask30 in H by lia.
  apply bind_Done in H as ([ce t] & Hset & H). injection H as <- <-.
  pose proof (amcw_settable_wf _ _ _ _ Hsz Hwf Hset) as Hwft.
  assert (Hin : sym_id (e_key ke) ∈ table_ids (constraints s)).
  { apply elem_of_table_ids. by exists on, ke. }
  apply amcw_settable_spec in Hset as (_ & _ & Hcase); [|done].
  destruct Hcase as [[(_ & e & He & Hid)%amcw_gettable_Some ->]|
                     (_ & _ & e & He & Hkey & _ & Hperm)].
  { destruct Hnew. apply elem_of_table_ids. simpl in Hid. exists ce, e.
    split; [done|]. split; [done|lia]. }
  assert (Hin' : (e_key ke, Some o) ∈ contents (t_hash t)).
  { rewrite Hperm. apply elem_of_cons. right. rewrite <- Hval.
    by apply (elem_of_contents _ on). }
  apply elem_of_contents_inv in Hin' as (i & ent & Hent & Hk & Hv & _).
  assert (Hne : i ≠ ce).
  { intros ->. assert (ent = e) as -> by congruence. rewrite Hkey in Hk.
    destruct Hnew. by rewrite <- Hk in Hin. }
  exists i. split; [|split; [|done]].
  - simpl. rewrite amcw_gettable_set_val.
    rewrite (table_wf_lookup t i ent); [done..|congruence|by rewrite Hk].
  - unfold load_cons, entry_at. simpl. rewrite list_lookup_alter_ne by done.
    rewrite Hent. simpl. by rewrite Hv.
Qed.

(** X26: [amcw_cloneconstraint] of a constraint, in a solver whose table
    of constraints is well formed and whose next constraint id is free.
    The clone is a new constraint that is not in the solver, even when
    the original is.  It has the relation of the original and the
    strength given, or the strength of the original when the strength
    given is within EPS of zero; its constant is the constant of the
    original, added to 0 and multiplied by 1, and its symbols are among
    those of the original.  The original is still found under its id,
    possibly in another slot, and is unchanged.  The clone of a NULL
    constraint is NULL. *)
Theorem amcw_cloneconstraint_copies (s : amcw_Solver) (on : nat)
    (ke : amcw_Entry (option amcw_Constraint)) (o : amcw_Constraint)
    (strength : float) (r : option nat) (s' : amcw_Solver) :
  sizeof_Entry < t_entry_size (constraints s) → table_wf (constraints s) →
  0 ≤ constraint_count s < 0x3FFFFFFF →
  (constraint_count s + 1 ∉ table_ids (constraints s)) →
  t_hash (constraints s) !! on = Some ke → sym_id (e_key ke) ≠ 0 → e_val ke = Some o →
  amcw_cloneconstraint s (Some on) strength = Done (r, s') →
  (∃ cn c' on',
     r = Some cn ∧ load_cons s' cn = Done c' ∧
     cons_of_handle s' (Some (constraint_count s + 1)) = Done (Some cn) ∧
     sym_id (c_marker c') = 0 ∧ c_relation c' = c_relation o ∧
     c_strength c' =
       (let st := if amcw_nearzero strength then c_strength o else strength in
        if amcw_nearzero st then AMCW_REQUIRED else st) ∧
     constant (c_expression c') = (0 + constant (c_expression o) * 1)%float ∧
     (∀ id, id ∈ row_ids (c_expression c') → id ∈ row_ids (c_expression o)) ∧
     cons_of_handle s' (Some (sym_id (e_key ke))) = Done (Some on') ∧
     load_cons s' on' = Done o ∧ on' ≠ cn ∧
     rows s' = rows s ∧ objective s' = objective s) ∧
  amcw_cloneconstraint s None strength = Done (None, s).
Proof.
  intros Hsz Hwf Hcount Hnew Hke Hlive Hval H. split; [|done].
  unfold amcw_cloneconstraint in H.
  assert (Ho : load_cons s on = Done o) by (apply load_cons_slot; by exists ke).
  rewrite Ho in H. rewrite bind_Done_l in H.
  apply entry_at_Done in Hke as Hke'. rewrite Hke' in H. rewrite bind_Done_l in H.
  apply bind_Done in H as ([cn s1] & Hcons & H).
  destruct (amcw_newconstraint_keeps _ _ _ _ _ _ _ Hsz Hwf Hcount Hnew Hcons Hke Hlive Hval)
    as (on' & Hh & Ho1 & Hne).
  destruct (amcw_newconstraint_new _ _ _ _ Hsz Hwf Hcount Hnew Hcons)
    as (Hc1 & Hh1 & _ & _ & _ & _ & Hr1 & Hob1).
  rewrite Hh in H. rewrite bind_Done_l in H.
  apply bind_Done in H as ([ret s2] & Hmerge & H).
  destruct (amcw_mergeconstraint_other _ _ _ _ _ _ _ _ (not_eq_sym Hne) Hc1 Ho1 eq_refl Hmerge)
    as [(_ & Hm & _)|(_ & _ & c' & Hc' & Ho' & Hmk & _ & _ & Hst & Hconst & Hids & _ &
                       Hr2 & Hob2 & Ht2)]; [done|].
  rewrite Ho', bind_Done_l, Hc', bind_Done_l in H. injection H as <- <-.
  assert (Hget : ∀ k, amcw_gettable (constraints
                   (store_cons s2 cn (set_c_relation c' (c_relation o)))) k =
                 amcw_gettable (constraints s1) k).
  { intros k. simpl. rewrite Ht2. simpl. by rewrite !amcw_gettable_set_val. }
  exists cn, (set_c_relation c' (c_relation o)), on'. split; [done|].
  split; [by apply load_store_cons with c'|].
  split; [by simpl; rewrite Hget|]. simpl.
  split; [by rewrite Hmk|]. split; [done|]. split; [by rewrite Hst|].
  split; [by rewrite Hconst|]. split.
  { intros id Hid. destruct (Hids id Hid) as [Hin|Hin]; [|done].
    change (id ∈ @nil Z) in Hin. by apply elem_of_nil in Hin. }
  split; [by rewrite Hget|]. split; [by rewrite load_store_cons_ne|].
  split; [done|]. split; congruence.
Qed.

(** The strong [2 x >= 3] of [solver_two] is cloned with the strength 0:
    the clone is strong, has the same relation and is not in the
    solver. *)
Lemma amcw_cloneconstraint_copies_witness :
  ∃ cn s' c', amcw_cloneconstraint solver_two (Some 2%nat) 0%float = Done (Some cn, s') ∧
              load_cons s' cn = Done c' ∧ c_relation c' = AMCW_GREATEQUAL ∧
              c_strength c' = AMCW_STRONG ∧ sym_id (c_marker c') = 0.
Proof.
  destruct (amcw_cloneconstraint solver_two (Some 2%nat) 0%float) as [[r s']| |] eqn:H;
    [|vm_compute in H; discriminate..].
  destruct (t_hash (constraints solver_two) !! 2%nat) as [ke|] eqn:Hke;
    [|vm_compute in Hke; discriminate].
  pose proof Hke as Hke0. vm_compute in Hke0. injection Hke0 as <-.
  lazymatch type of Hke with
  | _ = Some (mkEntry ?n ?k (Some ?o)) =>
      destruct (amcw_cloneconstraint_copies solver_two 2 (mkEntry n k (Some o)) o
                  0%float r s')
        as ((cn & c' & on' & -> & Hc' & _ & Hm & Hrel & Hst & _) & _)
  end;
    [vm_compute; reflexivity|apply table_wfb_sound; vm_compute; reflexivity|
     vm_compute; split; [discriminate|reflexivity]|
     apply (bool_decide_unpack _); vm_compute; exact I|
     exact Hke|vm_compute; discriminate|reflexivity|exact H|].
  exists cn, s', c'. exact (conj eq_refl (conj Hc' (conj Hrel (conj Hst Hm)))).
Defined.

(** *** Deleting a constraint *)

Lemma slots_kept_shape {A} (R : A → A → Prop) (t t' : amcw_Table (option A)) :
  slots_kept R t t' → shape (t_hash t') = shape (t_hash t).
Proof.
  intros (_ & _ & _ & Hf). unfold shape. induction Hf as [|e e' h h' He _ IH]; [done|].
  rewrite !fmap_cons, IH. by destruct He as (-> & -> & _).
Qed.

Lemma slots_kept_wf {A} (R : A → A → Prop) (t t' : amcw_Table (option A)) :
  slots_kept R t t' → table_wf t → table_wf t'.
Proof.
  intros (_ & _ & Hlf & Hf). apply table_wf_same; [symmetry; by eapply Forall2_length| |lia].
  intros i e He. destruct (Forall2_lookup_l _ _ _ _ _ Hf He) as (e' & He' & Hn & Hk & _).
  by exists e'.
Qed.

Lemma shape_lookup {A} (h h' : list (amcw_Entry A)) (i : nat) (e : amcw_Entry A) :
  shape h = shape h' → h !! i = Some e →
  ∃ e', h' !! i = Some e' ∧ e_key e' = e_key e ∧ e_next e' = e_next e.
Proof.
  intros Hs He. assert (Hl : shape h' !! i = Some (e_next e, e_key e)).
  { rewrite <- Hs. unfold shape. by rewrite list_lookup_fmap, He. }
  unfold shape in Hl. rewrite list_lookup_fmap in Hl.
  destruct (h' !! i) as [e'|]; [|done]. simpl in Hl. exists e'. by simplify_eq.
Qed.

Lemma table_ids_shape {A} (t t' : amcw_Table A) (id : Z) :
  shape (t_hash t) = shape (t_hash t') → id ∈ table_ids t → id ∈ table_ids t'.
Proof.
  intros Hs (i & e & He & Hid & Hz)%elem_of_table_ids.
  destruct (shape_lookup _ _ _ _ Hs He) as (e' & He' & Hk & _).
  apply elem_of_table_ids. exists i, e'. by rewrite Hk.
Qed.

(** [amcw_delconstraint] of a constraint that the table holds. *)
Lemma amcw_delconstraint_gone (fuel : nat) (s : amcw_Solver) (cn : nat)
    (ke : amcw_Entry (option amcw_Constraint)) (c : amcw_Constraint) (s' : amcw_Solver) :
  table_wf (constraints s) →
  t_hash (constraints s) !! cn = Some ke → sym_id (e_key ke) ≠ 0 → e_val ke = Some c →
  amcw_delconstraint fuel s (Some cn) = Done s' →
  table_wf (constraints s') ∧
  t_count (constraints s') = wrap64 (t_count (constraints s) - 1) ∧
  (sym_id (e_key ke) ∉ table_ids (constraints s')) ∧
  (∀ r, amcw_gettable (constraints s') (e_key ke) = Done r → r = None) ∧
  (∀ j ej o, j ≠ cn → t_hash (constraints s) !! j = Some ej →
     sym_id (e_key ej) ≠ 0 → e_val ej = Some o →
     amcw_gettable (constraints s') (e_key ej) = Done (Some j) ∧
     ∃ o', load_cons s' j = Done o' ∧ cons_cleared o o').
Proof.
  intros Hwf Hke Hlive Hval H. unfold amcw_delconstraint in H.
  apply bind_Done in H as (s1 & H01%amcw_remove_cleared & H).
  apply bind_Done in H as (ke1 & Hke1%entry_at_Done & H).
  destruct (slots_kept_lookup _ _ _ _ _ _ H01 Hke Hval) as (ke1' & c1 & Hke1' & Hc1 & Hk1 & _).
  assert (ke1' = ke1) as -> by congruence.
  pose proof (slots_kept_wf _ _ _ H01 Hwf) as Hwf1.
  rewrite (table_wf_lookup _ cn ke1) in H; [|done|done|congruence|done].
  rewrite bind_Done_l in H. apply bind_Done in H as (c1' & _ & H).
  apply bind_Done in H as (s3 & H23%delconstraint_fold_cleared & H). injection H as <-.
  set (t2 := amcw_delkey (constraints s1) cn) in *. simpl in H23.
  set (c' := set_c_expression c1' (amcw_freerow (c_expression c1'))).
  pose proof (table_wf_delkey _ cn Hwf1) as Hwf2. fold t2 in Hwf2.
  assert (Hshape : shape (t_hash (constraints (store_cons s3 cn c'))) = shape (t_hash t2)).
  { rewrite <- (slots_kept_shape _ _ _ H23). simpl. by rewrite shape_alter_val. }
  assert (Hnot : sym_id (e_key ke) ∉ table_ids t2).
  { pose proof (wf_ids _ Hwf1) as Hnd.
    rewrite (contents_delkey_perm _ cn ke1), fmap_cons in Hnd by (done || congruence).
    apply NoDup_cons_1_1 in Hnd. by rewrite <- Hk1. }
  split; [by apply table_wf_set_val, (slots_kept_wf _ _ _ H23)|]. split.
  { simpl. destruct H23 as (-> & _). simpl. by destruct H01 as (-> & _). }
  split; [intros Hin; by apply Hnot, (table_ids_shape _ _ _ Hshape)|]. split.
  { intros [j|] Hget; [|done]. rewrite (amcw_gettable_shape _ t2) in Hget by done.
    apply amcw_gettable_Some in Hget as (Hz & e & He & Hid). destruct Hnot.
    apply elem_of_table_ids. exists j, e. by rewrite Hid. }
  intros j ej o Hne Hej Hlivej Ho.
  destruct (slots_kept_lookup _ _ _ _ _ _ H01 Hej Ho) as (ej1 & o1 & Hej1 & Ho1 & Hkj1 & Hcl1).
  assert (Hej2 : t_hash t2 !! j = Some ej1) by (simpl; by rewrite list_lookup_alter_ne).
  split.
  - rewrite (amcw_gettable_shape _ t2) by done.
    apply (table_wf_lookup _ j ej1); [done|done|congruence|congruence].
  - destruct (slots_kept_lookup _ _ _ _ _ _ H23 Hej2 Ho1) as (ej3 & o3 & Hej3 & Ho3 & _ & Hcl3).
    exists o3. split; [|by eapply cons_cleared_trans].
    apply load_cons_slot. exists ej3. simpl. by rewrite list_lookup_alter_ne.
Qed.

(** X27: [amcw_delconstraint] of a constraint that a well-formed table of
    constraints holds.  Afterwards the table is still well formed and
    has one entry less; the id of the constraint is not stored any more,
    and a lookup that returns does not find it.  Every other constraint
    is found under its id in the slot where it was, and is as it was, or
    as it was but for its marker and its other symbol, which were
    cleared.  A NULL constraint is ignored. *)
Theorem amcw_delconstraint_forgets (fuel : nat) (s : amcw_Solver) (cn : nat)
    (ke : amcw_Entry (option amcw_Constraint)) (c : amcw_Constraint) (s' : amcw_Solver) :
  table_wf (constraints s) →
  t_hash (constraints s) !! cn = Some ke → sym_id (e_key ke) ≠ 0 → e_val ke = Some c →
  amcw_delconstraint fuel s (Some cn) = Done s' →
  (table_wf (constraints s') ∧
   t_count (constraints s') = wrap64 (t_count (constraints s) - 1) ∧
   (sym_id (e_key ke) ∉ table_ids (constraints s')) ∧
   (∀ r, amcw_gettable (constraints s') (e_key ke) = Done r → r = None) ∧
   (∀ j ej o, j ≠ cn → t_hash (constraints s) !! j = Some ej →
      sym_id (e_key ej) ≠ 0 → e_val ej = Some o →
      amcw_gettable (constraints s') (e_key ej) = Done (Some j) ∧
      ∃ o', load_cons s' j = Done o' ∧ cons_cleared o o')) ∧
  amcw_delconstraint fuel s None = Done s.
Proof.
  intros Hwf Hke Hlive Hval H. split; [|done]. by eapply amcw_delconstraint_gone.
Qed.

(** The constraint [x = 1] of [solver_two] is deleted: its id is gone
    from the table, and [2 x >= 3] is still found in slot 2. *)
Lemma amcw_delconstraint_forgets_witness :
  ∃ s', amcw_delconstraint client_fuel solver_two (Some 1%nat) = Done s' ∧
        (1 ∉ table_ids (constraints s')) ∧
        amcw_gettable (constraints s') (mkSym 2 AMCW_EXTERNAL) = Done (Some 2%nat).
Proof.
  destruct (amcw_delconstraint client_fuel solver_two (Some 1%nat)) as [s'| |] eqn:H;
    [|vm_compute in H; discriminate..].
  destruct (t_hash (constraints solver_two) !! 1%nat) as [ke|] eqn:Hke;
    [|vm_compute in Hke; discriminate].
  pose proof Hke as Hke0. vm_compute in Hke0. injection Hke0 as <-.
  destruct (t_hash (constraints solver_two) !! 2%nat) as [ej|] eqn:Hej;
    [|vm_compute in Hej; discriminate].
  pose proof Hej as Hej0. vm_compute in Hej0. injection Hej0 as <-.
  lazymatch type of Hke with
  | _ = Some (mkEntry ?n ?k (Some ?o)) =>
      destruct (amcw_delconstraint_forgets client_fuel solver_two 1
                  (mkEntry n k (Some o)) o s')
        as ((_ & _ & Hnot & _ & Hothers) & _)
  end;
    [apply table_wfb_sound; vm_compute; reflexivity|exact Hke|vm_compute; discriminate|
     reflexivity|exact H|].
  lazymatch type of Hej with
  | _ = Some (mkEntry ?n ?k (Some ?o)) =>
      destruct (Hothers 2%nat (mkEntry n k (Some o)) o) as (Hfound & _)
  end;
    [discriminate|exact Hej|vm_compute; discriminate|reflexivity|].
  exists s'. exact (conj eq_refl (conj Hnot Hfound)).
Defined.

(** *** Edit variables *)

Lemma load_cons_set_val (s : amcw_Solver) (t : amcw_Table (option amcw_Constraint))
    (i : nat) (c c' : amcw_Constraint) :
  load_cons (set_constraints s (alter_entry (set_val (Some c)) i t)) i = Done c' → c' = c.
Proof.
  unfold load_cons, entry_at. simpl. rewrite list_lookup_alter_eq.
  destruct (t_hash t !! i); simpl; intros; by simplify_eq.
Qed.

Lemma load_var_cons (s s' : amcw_Solver) (var : nat) :
  vars s' = vars s → load_var s' var = load_var s var.
Proof. intros Hv. unfold load_var, entry_at. by rewrite Hv. Qed.

(** X28: [amcw_addedit] on a variable that has no edit, while the symbol
    counter is below its wrap.  When it returns, it returns [AMCW_OK]:
    the variable has an edit, so [amcw_hasedit] answers 1, and its edit
    value is its value.  The edit is a new constraint that is in the
    solver; it is an equality whose only symbol is the variable and whose
    constant is the negated value that the variable had; its strength is
    the strength given, capped at STRONG, and REQUIRED when that is within
    EPS of zero.  The variable gained one reference.  A NULL variable
    gives [AMCW_FAILED]. *)
Theorem amcw_addedit_installs (fuel : nat) (s : amcw_Solver) (var : nat) (v : amcw_Var)
    (strength : float) (ret : Z) (s' : amcw_Solver) :
  load_var s var = Done v → v_constraint v = None →
  0 ≤ symbol_count s ≤ 0x3FFFFFFF - 2 →
  amcw_addedit fuel s (Some var) strength = Done (ret, s') →
  (ret = AMCW_OK ∧
   ∃ v' cn ke c,
     load_var s' var = Done v' ∧
     t_hash (constraints s') !! cn = Some ke ∧ e_val ke = Some c ∧
     v_constraint v' = Some (sym_id (e_key ke)) ∧
     amcw_hasedit s' (Some var) = Done true ∧
     v_edit_value v' = v_value v' ∧ v_sym v' = v_sym v ∧
     v_refcount v' = wrap32 (v_refcount v + 1) ∧
     amcw_hasconstraint s' (Some cn) = Done true ∧
     c_relation c = AMCW_EQUAL ∧
     c_strength c =
       (let st := if (AMCW_STRONG <=? strength)%float then AMCW_STRONG else strength in
        if amcw_nearzero st then AMCW_REQUIRED else st) ∧
     constant (c_expression c) = (0 * (-1) + - v_value v)%float ∧
     (∀ id, id ∈ row_ids (c_expression c) → id = sym_id (v_sym v))) ∧
  amcw_addedit fuel s None strength = Done (AMCW_FAILED, s).
Proof.
  intros Hv Hnone Hcount H. split; [|done]. unfold amcw_addedit in H.
  rewrite Hv in H. rewrite bind_Done_l in H. cbv zeta in H. rewrite Hnone in H.
  apply bind_Done in H as (_ & Hsym%c_assert_Done & H).
  set (st := if (AMCW_STRONG <=? strength)%float then AMCW_STRONG else strength) in *.
  apply bind_Done in H as ([cn s1] & Hnew & H).
  apply bind_Done in H as ([r2 s2] & Hrel & H).
  apply bind_Done in H as ([r3 s3] & Hterm & H).
  apply bind_Done in H as (v3 & Hv3 & H).
  apply bind_Done in H as ([r4 s4] & Hconst & H).
  apply bind_Done in H as ([r5 s5] & Hadd & H).
  apply bind_Done in H as (_ & Hok%c_assert_Done%Z.eqb_eq & H).
  apply bind_Done in H as (ke & Hke%entry_at_Done & H).
  apply bind_Done in H as (v5 & Hv5 & H). injection H as <- <-. split; [done|].
  (* the new constraint *)
  unfold amcw_newconstraint in Hnew. cbv zeta in Hnew.
  apply bind_Done in Hnew as ([ce t] & Hset & Hnew). injection Hnew as -> <-.
  set (c0 := mkCons amcw_initrow amcw_null amcw_null 0
               (if amcw_nearzero st then AMCW_REQUIRED else st)) in *.
  (* its relation *)
  unfold amcw_setrelation in Hrel. simpl in Hrel.
  apply bind_Done in Hrel as (c1 & Hc1 & Hrel).
  pose proof (load_cons_set_val _ _ _ _ _ Hc1) as ->. simpl in Hrel.
  injection Hrel as _ <-.
  set (s1 := set_constraints _ _) in *.
  set (c2 := set_c_relation _ AMCW_EQUAL) in Hterm.
  assert (Hc2 : load_cons (store_cons s1 cn c2) cn = Done c2)
    by by apply load_store_cons with c0.
  (* the term *)
  unfold amcw_addterm in Hterm. rewrite Hc2 in Hterm. rewrite bind_Done_l in Hterm.
  rewrite (load_var_cons s) in Hterm by done. rewrite Hv in Hterm.
  rewrite bind_Done_l in Hterm. change (negb (sym_id (c_marker c2) =? 0)) with false in Hterm.
  cbv iota in Hterm. apply bind_Done in Hterm as (_ & _ & Hterm).
  change (c_relation c2 =? AMCW_GREATEQUAL) with false in Hterm. cbv iota zeta in Hterm.
  apply bind_Done in Hterm as (e & Haddvar & Hterm).
  apply bind_Done in Hterm as (s3' & Huse & Hterm). injection Hterm as _ ->.
  set (c3 := set_c_expression c2 e) in *.
  simpl in Huse. rewrite (load_var_cons s) in Huse by done. rewrite Hv in Huse.
  rewrite bind_Done_l in Huse. injection Huse as <-.
  set (s2 := store_cons (store_cons s1 cn c2) cn c3) in *.
  set (v3' := set_v_refcount v (wrap32 (v_refcount v + 1))) in *.
  assert (Hv3' : load_var (store_var s2 var v3') var = Done v3').
  { apply load_var_store_var with v. by rewrite (load_var_cons s). }
  assert (v3 = v3') as -> by congruence.
  assert (Hc3 : load_cons (store_var s2 var v3') cn = Done c3).
  { change (load_cons s2 cn = Done c3). by apply (load_store_cons _ _ c2). }
  (* the constant *)
  unfold amcw_addconstant in Hconst. rewrite Hc3 in Hconst. rewrite bind_Done_l in Hconst.
  change (negb (sym_id (c_marker c3) =? 0)) with false in Hconst.
  change (c_relation c3 =? AMCW_GREATEQUAL) with false in Hconst.
  cbv iota zeta in Hconst. injection Hconst as _ <-.
  set (c4 := set_c_expression c3 _) in *.
  set (s3 := store_var s2 var v3') in *.
  assert (Hc4 : load_cons (store_cons s3 cn c4) cn = Done c4)
    by by apply load_store_cons with c3.
  (* the constraint is added *)
  rewrite Hok in Hadd.
  destruct (amcw_add_ok _ _ _ _ _ Hc4 Hadd) as ((Hvars & _) & Hmark).
  destruct Hmark as (c5 & Hc5 & Hk5 & Hid5); [done|done|].
  assert (Hhas : amcw_hasconstraint s5 (Some cn) = Done true).
  { simpl. rewrite Hc5. simpl. simpl in Hid5.
    assert (Hmk : (sym_id (c_marker c5) =? 0) = false) by (apply Z.eqb_neq; lia).
    by rewrite Hmk. }
  assert (Hv4 : load_var (store_cons s3 cn c4) var = Done v3') by done.
  unfold load_var in Hv4, Hv5. apply bind_Done in Hv4 as (e4 & He4%entry_at_Done & Hv4).
  destruct (e_val e4) as [v4|] eqn:Hval4; [|done]. injection Hv4 as ->.
  destruct (slots_kept_lookup _ _ _ _ _ _ Hvars He4 Hval4)
    as (e5 & v5' & He5 & Hval5 & _ & Hsym5 & Href5 & _).
  apply bind_Done in Hv5 as (e5' & He5'%entry_at_Done & Hv5).
  assert (e5' = e5) as -> by congruence. rewrite Hval5 in Hv5. injection Hv5 as ->.
  destruct Hk5 as (Hex5 & Hrel5 & Hst5).
  apply load_cons_slot in Hc5 as Hslot. destruct Hslot as (ke' & Hke' & Hkv).
  assert (ke' = ke) as -> by congruence.
  eexists _, cn, ke, c5. split.
  { apply load_var_store_var with v5. unfold load_var, entry_at. by rewrite He5, bind_Done_l, Hval5. }
  split; [done|]. split; [done|]. split; [done|]. split.
  { simpl. unfold load_var, entry_at. simpl. rewrite list_lookup_alter_eq, He5. done. }
  split; [done|]. split; [done|]. split; [done|]. split; [done|].
  split; [by rewrite Hrel5|]. split; [by rewrite Hst5|]. rewrite Hex5.
  split.
  - simpl. apply amcw_addvar_contents in Haddvar as (-> & _); [done|done|].
    apply negb_true_iff, Z.eqb_neq in Hsym. done.
  - intros id Hid. simpl in Hid. apply elem_of_row_ids in Hid as (k & m & Hin & <-).
    apply amcw_addvar_terms in Haddvar as [Hterms _]; [|done].
    destruct (Hterms k m Hin) as [Hold|[-> _]]; [|done].
    assert (Hk : sym_id k ∈ row_ids (amcw_multiply amcw_initrow (-1)%float)).
    { apply elem_of_row_ids. by exists k, m. }
    rewrite row_ids_multiply in Hk. change (sym_id k ∈ @nil Z) in Hk.
    by apply elem_of_nil in Hk.
Qed.

(** The variable of [solver_x] gets an edit at MEDIUM. *)
Lemma amcw_addedit_installs_witness :
  ∃ s', amcw_addedit client_fuel solver_x (Some 1%nat) AMCW_MEDIUM = Done (AMCW_OK, s') ∧
        amcw_hasedit s' (Some 1%nat) = Done true.
Proof.
  destruct (amcw_addedit client_fuel solver_x (Some 1%nat) AMCW_MEDIUM)
    as [[ret s']| |] eqn:H; [|vm_compute in H; discriminate..].
  destruct (load_var solver_x 1) as [v| |] eqn:Hv; [|vm_compute in Hv; discriminate..].
  pose proof Hv as Hv0. vm_compute in Hv0. injection Hv0 as <-.
  destruct (amcw_addedit_installs client_fuel solver_x 1 _ AMCW_MEDIUM ret s' Hv eq_refl)
    as ((-> & v' & cn & ke & c & _ & _ & _ & _ & Hhas & _) & _);
    [vm_compute; split; discriminate|exact H|].
  exists s'. exact (conj eq_refl Hhas).
Defined.

(** X29: [amcw_deledit] on a variable that has an edit, when the table of
    the constraints is well formed.  When it returns the variable has no
    edit, so [amcw_hasedit] answers 0, and its edit value is 0; the edit
    constraint is deleted: its id is not stored in the table of the
    constraints any more, and the table is still well formed.  A second
    [amcw_deledit] does nothing, as does [amcw_deledit] on a NULL
    variable. *)
Theorem amcw_deledit_clears (fuel : nat) (s : amcw_Solver) (var : nat) (v : amcw_Var)
    (c : Z) (s' : amcw_Solver) :
  load_var s var = Done v → v_constraint v = Some c → table_wf (constraints s) →
  amcw_deledit fuel s (Some var) = Done s' →
  (∃ v', load_var s' var = Done v' ∧ v_constraint v' = None ∧
         v_edit_value v' = 0%float) ∧
  amcw_hasedit s' (Some var) = Done false ∧
  (c ∉ table_ids (constraints s')) ∧ table_wf (constraints s') ∧
  (∀ fuel', amcw_deledit fuel' s' (Some var) = Done s') ∧
  amcw_deledit fuel s None = Done s.
Proof.
  intros Hv Hc Hwf H. unfold amcw_deledit in H. rewrite Hv in H. rewrite bind_Done_l in H.
  rewrite Hc in H. apply bind_Done in H as (cons & Hh & H).
  simpl in Hh. apply bind_Done in Hh as ([cn|] & Hget & Hh); [|done]. injection Hh as <-.
  apply amcw_gettable_Some in Hget as (Hz & ke & Hke & Hid). simpl in Hz, Hid.
  apply bind_Done in H as (s1 & Hdel & H).
  apply bind_Done in H as (v1 & Hv1 & H). injection H as <-.
  assert (Hco : ∃ co, e_val ke = Some co).
  { unfold amcw_delconstraint in Hdel. apply bind_Done in Hdel as (s0 & Hrem & _).
    unfold amcw_remove in Hrem. apply bind_Done in Hrem as (co & Hco%load_cons_slot & _).
    destruct Hco as (ke' & ? & ?). exists co. congruence. }
  destruct Hco as [co Hco].
  destruct (amcw_delconstraint_gone _ _ _ _ _ _ Hwf Hke ltac:(congruence) Hco Hdel)
    as (Hwf1 & _ & Hnot & _).
  set (v' := set_v_edit_value (set_v_constraint v1 None) 0%float).
  assert (Hv' : load_var (store_var s1 var v') var = Done v')
    by by apply load_var_store_var with v1.
  split; [by exists v'|].
  split; [by simpl; rewrite Hv'|]. split; [by rewrite <- Hid|]. split; [done|].
  split; [|done]. intros fuel'. unfold amcw_deledit. by rewrite Hv'.
Qed.

(** The edit of the variable of [solver_edit] is deleted. *)
Lemma amcw_deledit_clears_witness :
  ∃ s', amcw_deledit client_fuel solver_edit (Some 1%nat) = Done s' ∧
        amcw_hasedit solver_edit (Some 1%nat) = Done true ∧
        amcw_hasedit s' (Some 1%nat) = Done false ∧
        (1 ∉ table_ids (constraints s')).
Proof.
  destruct (amcw_deledit client_fuel solver_edit (Some 1%nat)) as [s'| |] eqn:H;
    [|vm_compute in H; discriminate..].
  destruct (load_var solver_edit 1) as [v| |] eqn:Hv; [|vm_compute in Hv; discriminate..].
  pose proof Hv as Hv0. vm_compute in Hv0. injection Hv0 as <-.
  destruct (amcw_deledit_clears client_fuel solver_edit 1 _ 1 s' Hv eq_refl)
    as (_ & Hhas & Hnot & _);
    [apply table_wfb_sound; vm_compute; reflexivity|exact H|].
  exists s'. exact (conj eq_refl (conj eq_refl (conj Hhas Hnot))).
Defined.

(** *** The row operations of a pivot *)

(** X30: the two row operations of a pivot, on rows whose terms tables
    are well formed.  [amcw_solvefor] needs a term for the entering
    symbol, which is not the leaving symbol; it takes the entering symbol
    out of the row, and brings in no symbol but the leaving one.
    [amcw_substitute] of the solved row in another row takes the entering
    symbol out of that row too, and brings in no symbol but those of the
    solved row.  Both leave the terms tables well formed. *)
Theorem pivot_eliminates_entering (row other : amcw_Row) (enter exit : amcw_Symbol)
    (row1 other' : amcw_Row) :
  terms_wf row → terms_wf other →
  amcw_solvefor row enter exit = Done row1 →
  amcw_substitute other enter row1 = Done other' →
  sym_id enter ∈ row_ids row ∧ sym_id enter ≠ sym_id exit ∧
  (sym_id enter ∉ row_ids row1) ∧ (sym_id enter ∉ row_ids other') ∧
  (∀ id, id ∈ row_ids row1 → id ∈ row_ids row ∨ sym_id exit ≠ 0 ∧ id = sym_id exit) ∧
  (∀ id, id ∈ row_ids other' → id ∈ row_ids other ∨ id ∈ row_ids row1) ∧
  terms_wf row1 ∧ terms_wf other'.
Proof.
  intros Hrow Hother Hsol Hsub.
  destruct (amcw_solvefor_ids _ _ _ _ Hrow Hsol) as [Hin Hids].
  assert (Hnot : sym_id enter ∉ row_ids row1) by (intros Hx; by destruct (Hids _ Hx)).
  pose proof (amcw_substitute_ids _ _ _ _ Hother Hnot Hsub) as Hids'.
  split; [done|]. split.
  { unfold amcw_solvefor in Hsol. apply bind_Done in Hsol as ([term|] & _ & Hsol); [|done].
    apply bind_Done in Hsol as (te & _ & Hsol).
    apply bind_Done in Hsol as (_ & Ha%c_assert_Done & _).
    apply andb_true_iff in Ha as [Hne _]. by apply negb_true_iff, Z.eqb_neq in Hne. }
  split; [done|]. split; [intros Hx; by destruct (Hids' _ Hx)|].
  split; [intros id Hid; by destruct (Hids _ Hid)|].
  split; [intros id Hid; by destruct (Hids' _ Hid)|].
  split; [exact (amcw_solvefor_wf _ _ _ _ Hrow Hsol)|].
  exact (amcw_substitute_wf _ _ _ _ Hother Hsub).
Qed.

(** [2 x - 3] is solved for [x] with the leaving symbol 5, and the result
    is substituted in [1 - x]: neither row has a term for [x] then. *)
Lemma pivot_eliminates_entering_witness :
  ∃ row1 other',
    amcw_solvefor row_2x_ge_3 (mkSym 1 AMCW_EXTERNAL) (mkSym 5 AMCW_SLACK) = Done row1 ∧
    amcw_substitute row_x_is_1 (mkSym 1 AMCW_EXTERNAL) row1 = Done other' ∧
    (1 ∉ row_ids row1) ∧ (1 ∉ row_ids other').
Proof.
  destruct (amcw_solvefor row_2x_ge_3 (mkSym 1 AMCW_EXTERNAL) (mkSym 5 AMCW_SLACK))
    as [row1| |] eqn:Hsol; [|vm_compute in Hsol; discriminate..].
  destruct (amcw_substitute row_x_is_1 (mkSym 1 AMCW_EXTERNAL) row1)
    as [other'| |] eqn:Hsub;
    [|pose proof Hsol as H0; vm_compute in H0; injection H0 as <-;
      vm_compute in Hsub; discriminate..].
  destruct (pivot_eliminates_entering row_2x_ge_3 row_x_is_1 (mkSym 1 AMCW_EXTERNAL)
              (mkSym 5 AMCW_SLACK) row1 other') as (_ & _ & H1 & H2 & _);
    [split; [reflexivity|apply table_wfb_sound; vm_compute; reflexivity]|
     split; [reflexivity|apply table_wfb_sound; vm_compute; reflexivity]|
     exact Hsol|exact Hsub|].
  exists row1, other'. exact (conj eq_refl (conj Hsub (conj H1 H2))).
Defined.

(** * Accumulation in rows, failed adds and the queues *)

(** ** The terms of a row as a map from symbols to coefficients *)










(** ** The count of a terms table *)










(** ** A failed [amcw_add] has allocated no error symbol *)











(** ** The queue of infeasible rows and the queue of dirty variables *)

Lemma infeasible_list_id (s : amcw_Solver) (sym sym' : amcw_Symbol) (l : list nat) :
  sym_id sym = sym_id sym' → infeasible_list s sym l → infeasible_list s sym' l.
Proof.
  intros Hid H. destruct H as [sym H0|sym row re l Hs Hg Hre Hd Hl].
  - apply infeasible_nil. congruence.
  - apply infeasible_cons with re; [congruence| |done..].
    by rewrite <- (amcw_gettable_id _ sym).
Qed.

Lemma infeasible_list_flagged (s : amcw_Solver) (sym : amcw_Symbol) (l : list nat)
    (row : nat) :
  infeasible_list s sym l → row ∈ l →
  ∃ re, t_hash (rows s) !! row = Some re ∧
        amcw_isdummy (infeasible_next (e_val re)) = true.
Proof.
  induction 1 as [sym H0|sym row0 re l Hs Hg Hre Hd Hl IH]; intros Hin.
  - by apply elem_of_nil in Hin.
  - apply elem_of_cons in Hin as [->|Hin]; [by exists re|by apply IH].
Qed.

(** The list is kept when the rows on it keep their links and the table
    keeps its keys. *)
Lemma infeasible_list_kept (s s' : amcw_Solver) (sym : amcw_Symbol) (l : list nat) :
  shape (t_hash (rows s')) = shape (t_hash (rows s)) →
  (∀ row re, row ∈ l → t_hash (rows s) !! row = Some re →
     ∃ re', t_hash (rows s') !! row = Some re' ∧
            infeasible_next (e_val re') = infeasible_next (e_val re)) →
  infeasible_list s sym l → infeasible_list s' sym l.
Proof.
  intros Hshape Hkept H.
  induction H as [sym H0|sym row re l Hs Hg Hre Hd Hl IH]; [by constructor|].
  destruct (Hkept row re) as (re' & Hre' & Hnext); [by left|done|].
  apply infeasible_cons with re'; [done| |done| |].
  - by rewrite (amcw_gettable_shape (rows s') (rows s)).
  - by rewrite Hnext.
  - rewrite Hnext. apply IH. intros row1 re1 Hin. apply Hkept. by right.
Qed.

Lemma shape_store_row (s : amcw_Solver) (row : nat) (r : amcw_Row) :
  shape (t_hash (rows (store_row s row r))) = shape (t_hash (rows s)).
Proof. simpl. by apply shape_alter_val. Qed.

Lemma amcw_entries_shape {A} (t t' : amcw_Table A) :
  shape (t_hash t') = shape (t_hash t) → amcw_entries t' = amcw_entries t.
Proof.
  unfold amcw_entries, shape. generalize 0%nat. generalize (t_hash t'). intros h'.
  induction (t_hash t) as [|e h IH] in h' |- *; destruct h' as [|e' h']; try done.
  simpl. intros i [= Hn Hk Hs]. rewrite Hk. by rewrite (IH h' _ Hs).
Qed.

Lemma infeasible_queue_frame (s s' : amcw_Solver) (l : list nat) :
  rows s' = rows s → infeasible_rows s' = infeasible_rows s →
  infeasible_queue s l → infeasible_queue s' l.
Proof.
  intros Hr Hi [Hl Hall]. split.
  - rewrite Hi. apply (infeasible_list_kept s); [by rewrite Hr| |done].
    intros row re _ Hre. exists re. by rewrite Hr.
  - by rewrite Hr.
Qed.

Lemma infeasible_queue_store_row (s : amcw_Solver) (l : list nat) (row : nat)
    (re : amcw_Entry amcw_Row) (r : amcw_Row) :
  infeasible_queue s l → t_hash (rows s) !! row = Some re →
  infeasible_next r = infeasible_next (e_val re) →
  infeasible_queue (store_row s row r) l.
Proof.
  intros [Hl Hall] Hre Hnext. split.
  - apply (infeasible_list_kept s); [apply shape_store_row| |done].
    intros row1 re1 _ Hre1. simpl. rewrite list_lookup_alter.
    case_decide as Hrow; [subst row1|by exists re1].
    rewrite Hre1. eexists. split; [done|]. simpl. congruence.
  - intros row1 re1. rewrite (amcw_entries_shape (rows s)) by apply shape_store_row.
    simpl. rewrite list_lookup_alter. case_decide as Hrow; [subst row1|by apply Hall].
    rewrite Hre. intros Hin [= <-]. simpl. rewrite Hnext. by apply Hall.
Qed.

(** [amcw_infeasible] enqueues a row whose constant is negative. *)
Lemma amcw_infeasible_enqueues (s : amcw_Solver) (row : nat) (re : amcw_Entry amcw_Row) :
  t_hash (rows s) !! row = Some re → sym_id (e_key re) ≠ 0 →
  amcw_gettable (rows s) (e_key re) = Done (Some row) →
  ∃ s1 re1, amcw_infeasible s row = Done s1 ∧
    row_with_constant re (constant (e_val re)) row s1 re1 ∧
    (∀ r, r ≠ row → t_hash (rows s1) !! r = t_hash (rows s) !! r) ∧
    vars s1 = vars s ∧ dirty_vars s1 = dirty_vars s ∧ objective s1 = objective s ∧
    enqueued_if_negative s row re re1 s1.
Proof.
  intros Hre Hlive Hget. unfold amcw_infeasible, entry_at. rewrite Hre. simpl.
  assert (Hin : row ∈ amcw_entries (rows s)) by (apply amcw_entries_live; by exists re).
  destruct ((constant (e_val re) <? 0)%float &&
            negb (amcw_isdummy (infeasible_next (e_val re)))) eqn:Hpush.
  - eexists _, (set_val _ re). split; [done|]. split.
    { split; [simpl; by rewrite list_lookup_alter_eq, Hre|done]. }
    split. { intros r Hr. simpl. by rewrite list_lookup_alter_ne. }
    do 3 (split; [done|]). unfold enqueued_if_negative. simpl. rewrite Hpush.
    split; [done|]. intros l [Hl Hall]. split; [|by left].
    apply andb_true_iff in Hpush as [Hneg Hflag]. apply negb_true_iff in Hflag.
    assert (Hnot : row ∉ l).
    { intros (re' & Hre' & Hd)%(infeasible_list_flagged _ _ _ _ Hl). congruence. }
    split.
    + simpl. eapply infeasible_cons; [done| | | |].
      * simpl. by rewrite amcw_gettable_set_val.
      * simpl. by rewrite list_lookup_alter_eq, Hre.
      * done.
      * simpl. apply (infeasible_list_id _ (infeasible_rows s)); [done|].
        apply (infeasible_list_kept s); [apply shape_store_row| |done].
        intros row1 re1 Hin1 Hre1. exists re1. split; [|done]. simpl.
        rewrite list_lookup_alter_ne; [done|]. by intros ->.
    + intros row1 re1. rewrite (amcw_entries_shape (rows s)) by apply shape_store_row.
      simpl. rewrite list_lookup_alter. case_decide as Hrow; [subst row1; by left|].
      intros ? ? ?. right. by eapply Hall.
  - exists s, re. split; [done|]. split; [by repeat split|]. do 4 (split; [done|]).
    unfold enqueued_if_negative. rewrite Hpush. split; [done|].
    intros l [Hl Hall]. split; [done|]. intros Hneg. rewrite Hneg in Hpush.
    apply negb_false_iff in Hpush. by eapply Hall.
Qed.

Lemma dirty_list_id (s : amcw_Solver) (sym sym' last : amcw_Symbol) (l : list nat) :
  sym_id sym = sym_id sym' → dirty_list s sym l last →
  ∃ last', dirty_list s sym' l last'.
Proof.
  intros Hid H. destruct H as [sym H0|sym var v l last Hs Hv Hl Hd].
  - exists sym'. apply dirty_nil. congruence.
  - exists last. apply dirty_cons with v; [congruence| |done..].
    unfold amcw_sym2var in *. by rewrite <- (amcw_gettable_id _ sym).
Qed.

Lemma dirty_queue_frame (s s' : amcw_Solver) (d : list nat) :
  vars s' = vars s → dirty_vars s' = dirty_vars s →
  dirty_queue s d → dirty_queue s' d.
Proof.
  intros Hv Hd [[last Hl] Hall]. split.
  - exists last. rewrite Hd. clear Hall Hd.
    induction Hl as [sym H0|sym var v l last Hs Hvar Hload Hl IH]; [by constructor|].
    apply dirty_cons with v; [done| | |done].
    + unfold amcw_sym2var in *. by rewrite Hv.
    + unfold load_var in *. by rewrite Hv.
  - by rewrite Hv.
Qed.

(** [amcw_markdirty] enqueues the variable, unless it is on the queue. *)
Lemma amcw_markdirty_enqueues (s : amcw_Solver) (key : amcw_Symbol) (var : nat)
    (s' : amcw_Solver) (d : list nat) :
  dirty_queue s d → amcw_sym2var s key = Done var → amcw_markdirty s var = Done s' →
  rows s' = rows s ∧ infeasible_rows s' = infeasible_rows s ∧
  (∀ k, amcw_sym2var s' k = amcw_sym2var s k) ∧
  ∃ d', dirty_queue s' d' ∧ d `suffix_of` d' ∧ var ∈ d' ∧
        (var ∉ d → d' = var :: d ∧ sym_id (dirty_vars s') = sym_id key).
Proof.
  intros [[last Hl] Hall] Hkey H. unfold amcw_markdirty in H.
  apply bind_Done in H as (v & Hv & H).
  assert (Hslot : ∃ e, t_hash (vars s) !! var = Some e ∧ sym_id (e_key e) = sym_id key ∧
                       sym_id key ≠ 0 ∧ e_val e = Some v).
  { unfold amcw_sym2var in Hkey. apply bind_Done in Hkey as (ve & Hg & Hkey).
    destruct ve as [ve|]; [|done]. injection Hkey as ->.
    apply amcw_gettable_Some in Hg as (Hk & e & He & Hid). exists e.
    unfold load_var, entry_at in Hv. rewrite He in Hv. simpl in Hv.
    destruct (e_val e); by simplify_eq. }
  destruct Hslot as (e & He & Hid & Hk & Hval).
  assert (Hin : var ∈ amcw_entries (vars s)).
  { apply amcw_entries_live. exists e. split; [done|congruence]. }
  destruct (Hall var e v Hin He Hval) as [Hsym Hflag].
  destruct (sym_type (v_dirty_next v) =? AMCW_DUMMY) eqn:Hd.
  - apply Z.eqb_eq in Hd. injection H as <-. do 3 (split; [done|]).
    exists d. split; [by split; [exists last|]|]. split; [done|].
    split; [by apply Hflag|]. intros Hnot. destruct Hnot. by apply Hflag.
  - apply Z.eqb_neq in Hd. injection H as <-. split; [done|]. split; [done|].
    split. { intros k. simpl. unfold amcw_sym2var. simpl. by rewrite amcw_gettable_set_val. }
    assert (Hnot : var ∉ d) by (by rewrite <- Hflag).
    exists (var :: d). split; [|split; [by apply suffix_cons_r|split; [by left|]]].
    2:{ intros _. split; [done|]. simpl. congruence. }
    split.
    + destruct (dirty_list_id s (dirty_vars s)
                  (mkSym (sym_id (dirty_vars s)) AMCW_DUMMY) last d eq_refl Hl)
        as [last' Hl'].
      exists last'. simpl.
      apply dirty_cons with (set_v_dirty_next v (mkSym (sym_id (dirty_vars s)) AMCW_DUMMY)).
      * congruence.
      * unfold amcw_sym2var in *. simpl. rewrite amcw_gettable_set_val.
        rewrite (amcw_gettable_id _ (v_sym v) key) by congruence. done.
      * by apply (load_var_store_var _ _ v).
      * simpl. by apply (dirty_list_store_var s (v_sym v)).
    + intros var' e' v'. rewrite (amcw_entries_shape (vars s))
        by (simpl; by apply shape_alter_val).
      simpl. rewrite list_lookup_alter. case_decide as Hvar.
      * subst var'. rewrite He. intros _ [= <-] [= <-]. simpl.
        split; [done|]. split; [by left|done].
      * intros Hin' He' Hval'. destruct (Hall var' e' v' Hin' He' Hval') as [? Hiff].
        split; [done|]. rewrite Hiff, elem_of_cons. split; [by right|].
        intros [?|?]; [congruence|done].
Qed.

Lemma amcw_infeasible_wf (s : amcw_Solver) (row : nat) (s1 : amcw_Solver) :
  amcw_infeasible s row = Done s1 →
  shape (t_hash (rows s1)) = shape (t_hash (rows s)) ∧
  (table_wf (rows s) → table_wf (rows s1)).
Proof.
  unfold amcw_infeasible. intros H. apply bind_Done in H as (re & _ & H).
  destruct (_ && _); injection H as <-; [|done].
  split; [apply shape_store_row|]. simpl. apply table_wf_set_val.
Qed.

Lemma enqueued_store_row (s : amcw_Solver) (row : nat) (re : amcw_Entry amcw_Row)
    (r : amcw_Row) (re1 : amcw_Entry amcw_Row) (s1 : amcw_Solver) :
  t_hash (rows s) !! row = Some re → infeasible_next r = infeasible_next (e_val re) →
  enqueued_if_negative (store_row s row r) row (set_val r re) re1 s1 →
  enqueued_if_negative s row re re1 s1.
Proof.
  intros Hre Hnext. unfold enqueued_if_negative. simpl. rewrite Hnext.
  intros [Hraw Hq]. split; [done|]. intros l Hl. apply Hq.
  by eapply infeasible_queue_store_row.
Qed.

(** One step of the scan of the rows in the third case, and the queues. *)
Lemma delta_edit_step_queues (delta : float) (marker : amcw_Symbol)
    (s : amcw_Solver) (row : nat) (re : amcw_Entry amcw_Row) (s' : amcw_Solver)
    (l d : list nat) :
  delta_edit_step delta marker s row = Done s' →
  t_hash (rows s) !! row = Some re → sym_id (e_key re) ≠ 0 →
  table_wf (rows s) → infeasible_queue s l → dirty_queue s d →
  ∃ l' d', table_wf (rows s') ∧
    shape (t_hash (rows s')) = shape (t_hash (rows s)) ∧
    infeasible_queue s' l' ∧ dirty_queue s' d' ∧
    l `suffix_of` l' ∧ d `suffix_of` d' ∧
    (∀ k, amcw_sym2var s' k = amcw_sym2var s k) ∧
    (∀ term, amcw_gettable (terms (e_val re)) marker = Done (Some term) →
       if amcw_isexternal (e_key re)
       then ∃ var, amcw_sym2var s (e_key re) = Done var ∧ var ∈ d'
       else ∀ re1, t_hash (rows s') !! row = Some re1 →
              (constant (e_val re1) <? 0)%float = true → row ∈ l').
Proof.
  intros H Hre Hlive Hwf Hl Hd. unfold delta_edit_step in H.
  apply bind_Done in H as (re' & Hre'%entry_at_Done & H).
  assert (re' = re) as -> by congruence. clear Hre'.
  apply bind_Done in H as (term & Hterm & H).
  destruct term as [term|]; [|injection H as <-].
  2:{ exists l, d. do 6 (split; [done|]). split; [done|]. intros term ?. congruence. }
  apply bind_Done in H as (te & _ & H).
  set (r := set_constant (e_val re) (constant (e_val re) + e_val te * delta)%float) in H.
  assert (Hla : infeasible_queue (store_row s row r) l)
    by (by apply infeasible_queue_store_row with re).
  assert (Hda : dirty_queue (store_row s row r) d) by (by apply (dirty_queue_frame s)).
  assert (Hwfa : table_wf (rows (store_row s row r))) by (by apply table_wf_set_val).
  destruct (amcw_isexternal (e_key re)) eqn:Hext.
  - apply bind_Done in H as (var & Hvar & H).
    destruct (amcw_markdirty_enqueues _ _ _ _ _ Hda Hvar H)
      as (Hrows & Hinf & Hsym & d' & Hd' & Hsuf & Hin & _).
    exists l, d'. split; [by rewrite Hrows|]. split; [rewrite Hrows; apply shape_store_row|].
    split; [by apply (infeasible_queue_frame (store_row s row r))|].
    split; [done|]. split; [done|]. split; [done|]. split; [done|].
    intros ? _. by exists var.
  - destruct (amcw_infeasible_enqueues (store_row s row r) row (set_val r re))
      as (s1 & re1 & Hs1 & (Hre1 & _) & _ & Hvars & Hdv & _ & Henq).
    { simpl. by rewrite list_lookup_alter_eq, Hre. }
    { done. }
    { simpl. rewrite amcw_gettable_set_val. by apply (table_wf_lookup _ row re). }
    assert (s1 = s') as -> by congruence.
    destruct (amcw_infeasible_wf _ _ _ H) as [Hshape Hwf'].
    destruct Henq as [_ Hq]. destruct (Hq l Hla) as [Hl' Hneg].
    eexists _, d. split; [by apply Hwf'|].
    split; [rewrite Hshape; apply shape_store_row|].
    split; [exact Hl'|]. split; [by apply (dirty_queue_frame (store_row s row r))|].
    split; [destruct (_ && _); [by apply suffix_cons_r|done]|]. split; [done|].
    split; [intros k; unfold amcw_sym2var; by rewrite Hvars|].
    intros ? _ re2 Hre2. assert (re2 = re1) as -> by congruence. done.
Qed.

(** The scan of the rows in the third case, and the queues. *)
Lemma delta_edit_scan_queues (delta : float) (marker : amcw_Symbol) (rs : list nat)
    (s s1 : amcw_Solver) (l d : list nat) :
  NoDup rs → (∀ row, row ∈ rs → row ∈ amcw_entries (rows s)) →
  table_wf (rows s) → infeasible_queue s l → dirty_queue s d →
  res_foldl (delta_edit_step delta marker) s rs = Done s1 →
  ∃ l1 d1, infeasible_queue s1 l1 ∧ dirty_queue s1 d1 ∧
    l `suffix_of` l1 ∧ d `suffix_of` d1 ∧
    ∀ row re term re1,
      row ∈ rs → t_hash (rows s) !! row = Some re →
      amcw_gettable (terms (e_val re)) marker = Done (Some term) →
      t_hash (rows s1) !! row = Some re1 →
      if amcw_isexternal (e_key re)
      then ∃ var, amcw_sym2var s (e_key re) = Done var ∧ var ∈ d1
      else (constant (e_val re1) <? 0)%float = true → row ∈ l1.
Proof.
  revert s l d. induction rs as [|row rs IH]; intros s l d Hnd Hlive Hwf Hl Hd H;
    simpl in H.
  { injection H as <-. exists l, d. do 4 (split; [done|]).
    by intros ???? ?%elem_of_nil. }
  apply bind_Done in H as (s' & Hstep & H).
  apply NoDup_cons_1_1 in Hnd as Hnot. apply NoDup_cons_1_2 in Hnd.
  destruct (proj1 (amcw_entries_live _ _) (Hlive row ltac:(by left)))
    as (re0 & Hre0 & Hlive0).
  destruct (delta_edit_step_queues _ _ _ _ _ _ _ _ Hstep Hre0 Hlive0 Hwf Hl Hd)
    as (l' & d' & Hwf' & Hshape & Hl' & Hd' & Hsl & Hsd & Hsym & Hpost).
  destruct (delta_edit_step_spec _ _ _ _ _ Hstep) as (_ & _ & _ & _ & _ & Hother & _).
  destruct (delta_edit_scan _ _ _ _ _ Hnd H) as (Hrest & _).
  destruct (IH s' l' d' Hnd) as (l1 & d1 & Hl1 & Hd1 & Hsl1 & Hsd1 & Hpost1);
    [|done..|].
  { intros row' Hin'. rewrite (amcw_entries_shape (rows s)) by done.
    apply Hlive. by right. }
  exists l1, d1. split; [done|]. split; [done|].
  split; [by transitivity l'|]. split; [by transitivity d'|].
  intros row' re term re1 [->|Hin]%elem_of_cons Hre Hterm Hre1.
  - assert (re = re0) as -> by congruence. specialize (Hpost term Hterm).
    destruct (amcw_isexternal (e_key re0)).
    + destruct Hpost as (var & Hvar & Hin). exists var. split; [done|].
      by apply (elem_of_suffix d').
    + intros Hneg. apply (elem_of_suffix l'); [|done].
      apply (Hpost re1); [|done]. by rewrite <- Hrest.
  - assert (Hne : row' ≠ row) by (by intros ->).
    specialize (Hpost1 row' re term re1 Hin). rewrite Hother in Hpost1 by done.
    specialize (Hpost1 Hre Hterm Hre1).
    destruct (amcw_isexternal (e_key re)); [|done].
    destruct Hpost1 as (var & Hvar & Hin'). exists var. by rewrite <- Hsym.
Qed.

(** The first two cases: the row of the marker, or of the other symbol. *)
Lemma edit_row_moved_spec (s : amcw_Solver) (row : nat) (re : amcw_Entry amcw_Row)
    (f : float → float) :
  t_hash (rows s) !! row = Some re → sym_id (e_key re) ≠ 0 →
  amcw_gettable (rows s) (e_key re) = Done (Some row) →
  ∃ s1, amcw_infeasible
          (store_row s row (set_constant (e_val re) (f (constant (e_val re))))) row
        = Done s1 ∧
        edit_row_moved s row f s1.
Proof.
  intros Hre Hlive Hget. set (x := f (constant (e_val re))).
  destruct (amcw_infeasible_spec (store_row s row (set_constant (e_val re) x)) row
              (set_val (set_constant (e_val re) x) re))
    as (s1 & re1 & Hs1 & (Hre1 & ? & ? & ? & ?) & Hinf & Hoth & Hvars & Hd & Hobj).
  { simpl. by rewrite list_lookup_alter_eq, Hre. }
  destruct (amcw_infeasible_enqueues (store_row s row (set_constant (e_val re) x)) row
              (set_val (set_constant (e_val re) x) re))
    as (s2 & re2 & Hs2 & (Hre2 & _) & _ & _ & _ & _ & Henq).
  { simpl. by rewrite list_lookup_alter_eq, Hre. }
  { done. }
  { simpl. by rewrite amcw_gettable_set_val. }
  assert (s2 = s1) as -> by congruence. assert (re2 = re1) as -> by congruence.
  exists s1. split; [done|]. exists re, re1. split; [done|].
  split; [by repeat split|]. split; [done|].
  split; [by apply (enqueued_store_row s row re (set_constant (e_val re) x))|].
  split; [|done].
  intros r Hr. rewrite Hoth by done. simpl. by rewrite list_lookup_alter_ne.
Qed.

(** C5: [amcw_suggest] on a variable that has an edit constraint.  The
    delta is the suggested value less the stored edit value, which is
    replaced by the suggested value; [amcw_delta_edit_constant] is run
    with it before the dual optimisation.  When the marker of the edit
    constraint keys a row, the constant of that row is decreased by the
    delta and the row is enqueued as infeasible if the new constant is
    negative: unless its link already has the kind Dummy, the row becomes
    the head [infeasible_rows] of the list, linked to the old head, and
    in both cases it is on the queue of infeasible rows.  Else, when the
    other symbol keys a row, the constant of that row is increased by the
    delta, and the row is enqueued in the same way.  Else every row that
    holds the marker at coefficient [k] has [k * delta] added to its
    constant; the variable of an external key is then on the queue of
    dirty variables, and a row of another key that has a negative constant
    is on the queue of infeasible rows. *)
Theorem amcw_suggest_applies_delta (fuel : nat) (s : amcw_Solver) (var : nat)
    (v : amcw_Var) (cid : Z) (cn : nat) (c : amcw_Constraint) (value : float) :
  load_var s var = Done v → v_constraint v = Some cid →
  cons_of_handle s (Some cid) = Done (Some cn) → load_cons s cn = Done c →
  let delta := (value - v_edit_value v)%float in
  let s0 := store_var s var (set_v_edit_value v value) in
  load_var s0 var = Done (set_v_edit_value v value) ∧
  amcw_suggest fuel s (Some var) value =
    (s1 ← amcw_delta_edit_constant s0 delta cn;
     s2 ← amcw_dual_optimize fuel s1;
     if c_true (auto_update s2) then amcw_updatevars s2 else Done s2) ∧
  (∀ row, amcw_gettable (rows s0) (c_marker c) = Done (Some row) →
     ∃ s1, amcw_delta_edit_constant s0 delta cn = Done s1 ∧
           edit_row_moved s0 row (λ x, x - delta)%float s1) ∧
  (∀ row, amcw_gettable (rows s0) (c_marker c) = Done None →
     amcw_gettable (rows s0) (c_other c) = Done (Some row) →
     ∃ s1, amcw_delta_edit_constant s0 delta cn = Done s1 ∧
           edit_row_moved s0 row (λ x, x + delta)%float s1) ∧
  (amcw_gettable (rows s0) (c_marker c) = Done None →
   amcw_gettable (rows s0) (c_other c) = Done None →
   (rows_readable s0 (c_marker c) →
    ∃ s1, amcw_delta_edit_constant s0 delta cn = Done s1) ∧
   (∀ s1, amcw_delta_edit_constant s0 delta cn = Done s1 →
      marker_column_moved s0 (c_marker c) delta s1 ∧
      ∀ l d, table_wf (rows s0) → infeasible_queue s0 l → dirty_queue s0 d →
             marker_column_queued s0 (c_marker c) l d s1)).
Proof.
  intros Hv Hcid Hcn Hc delta s0.
  assert (Hc0 : load_cons s0 cn = Done c) by done.
  split; [by eapply load_var_store_var|]. split.
  { unfold amcw_suggest. rewrite Hv. simpl. rewrite Hcid. simpl. rewrite Hv. simpl.
    rewrite Hcid. fold delta s0.
    change (cons_of_handle s0 (Some cid)) with (cons_of_handle s (Some cid)).
    by rewrite Hcn. }
  unfold amcw_delta_edit_constant. rewrite Hc0. simpl. split; [|split].
  - intros row Hrow. rewrite Hrow. simpl.
    destruct (amcw_gettable_Some _ _ _ Hrow) as (Hk & re & Hre & Hid).
    change (t_hash (rows s0) !! row = Some re) in Hre.
    unfold load_row, entry_at. rewrite Hre. simpl.
    apply (edit_row_moved_spec s0 row re (λ x, x - delta)%float); [done|congruence|].
    by rewrite (amcw_gettable_id _ _ (c_marker c)).
  - intros row Hmarker Hrow. rewrite Hmarker, Hrow. simpl.
    destruct (amcw_gettable_Some _ _ _ Hrow) as (Hk & re & Hre & Hid).
    change (t_hash (rows s0) !! row = Some re) in Hre.
    unfold load_row, entry_at. rewrite Hre. simpl.
    apply (edit_row_moved_spec s0 row re (λ x, x + delta)%float); [done|congruence|].
    by rewrite (amcw_gettable_id _ _ (c_other c)).
  - intros Hmarker Hother. rewrite Hmarker, Hother. simpl. split.
    + intros Hread. apply delta_edit_scan_returns; [apply amcw_entries_NoDup|].
      intros row Hin. destruct (entries_from_lookup _ _ _ Hin) as [re Hre].
      rewrite Nat.sub_0_r in Hre. exists re. split; [done|]. by apply (Hread row).
    + intros s1 Hs1. split.
      * intros row re term Hin Hre Hterm.
        eapply delta_edit_scan in Hs1 as (_ & _ & Hpost); [|apply amcw_entries_NoDup].
        by eapply Hpost.
      * intros l d Hwf Hl Hd.
        by apply (delta_edit_scan_queues delta (c_marker c) (amcw_entries (rows s0)) s0);
          [apply amcw_entries_NoDup|..].
Qed.

(** [amcw_suggest(x, 5)] on [solver_edit]: no row is keyed by the marker
    or the other symbol, and the delta 5 goes to the row of [x], whose
    variable is on the queue of dirty variables. *)
Lemma amcw_suggest_applies_delta_witness :
  ∃ v c s1,
    load_var solver_edit 1 = Done v ∧ load_cons solver_edit 1 = Done c ∧
    amcw_delta_edit_constant (store_var solver_edit 1 (set_v_edit_value v 5))
      (5 - v_edit_value v)%float 1 = Done s1 ∧
    marker_column_moved (store_var solver_edit 1 (set_v_edit_value v 5))
      (c_marker c) (5 - v_edit_value v)%float s1 ∧
    marker_column_queued (store_var solver_edit 1 (set_v_edit_value v 5))
      (c_marker c) [] [1%nat] s1.
Proof.
  destruct (load_var solver_edit 1) as [v| |] eqn:Hv; [|vm_compute in Hv; discriminate..].
  destruct (load_cons solver_edit 1) as [c| |] eqn:Hc; [|vm_compute in Hc; discriminate..].
  assert (Hcid : v_constraint v = Some 1).
  { vm_compute in Hv. injection Hv as <-. reflexivity. }
  assert (Hcn : cons_of_handle solver_edit (Some 1) = Done (Some 1%nat))
    by (vm_compute; reflexivity).
  destruct (amcw_suggest_applies_delta 50 solver_edit 1 v 1 1 c 5 Hv Hcid Hcn Hc)
    as (_ & _ & _ & _ & H).
  vm_compute in Hv, Hc. injection Hv as <-. injection Hc as <-.
  destruct H as [Hret Hpost]; [vm_compute; reflexivity..|].
  destruct Hret as [s1 Hs1].
  - intros row re Hin Hre.
    assert (row = 1%nat) as ->.
    { vm_compute in Hin. apply elem_of_cons in Hin as [->|Hin]; [done|].
      by apply elem_of_nil in Hin. }
    vm_compute in Hre. injection Hre as <-. split.
    + eexists. vm_compute. reflexivity.
    + intros _. eexists _, _. split; vm_compute; reflexivity.
  - destruct (Hpost s1 Hs1) as [Hmoved Hqueued].
    eexists _, _, s1. split; [reflexivity|]. split; [reflexivity|].
    split; [exact Hs1|]. split; [exact Hmoved|]. apply Hqueued.
    + apply table_wfb_sound. vm_compute. reflexivity.
    + split; [apply infeasible_nil; reflexivity|].
      intros row re Hin Hre Hflag.
      assert (row = 1%nat) as ->.
      { vm_compute in Hin. apply elem_of_cons in Hin as [->|Hin]; [done|].
        by apply elem_of_nil in Hin. }
      vm_compute in Hre. injection Hre as <-. vm_compute in Hflag. discriminate.
    + split.
      * eexists. eapply dirty_cons;
          [vm_compute; discriminate|vm_compute; reflexivity|vm_compute; reflexivity|].
        apply dirty_nil. reflexivity.
      * intros var e v Hin He Hval.
        assert (var = 1%nat) as ->.
        { vm_compute in Hin. apply elem_of_cons in Hin as [->|Hin]; [done|].
          by apply elem_of_nil in Hin. }
        vm_compute in He. injection He as <-. injection Hval as <-.
        split; [reflexivity|]. split; [intros _; by left|reflexivity].
Defined.
